(** * The voxel mesh of goxel ([src/mesh.c]): a shallow embedding

    A mesh is a hash table of blocks (cubical tiles of [BLOCK_SIZE]^3 RGBA
    voxels) with a shared reference count used for copy on write, and a
    version id drawn from the global counter [goxel->next_uid].

    The C code works on pointers: two meshes can point at the same table
    and the same blocks, and an iterator caches a block pointer.  The
    embedding keeps that: blocks live in a [store] and are named by
    addresses, a mesh holds the addresses of its blocks in table order,
    and every function passes the store along. *)

From Stdlib Require Import ZArith List Bool Lia QArith Qround Qabs Lqa.
From stdpp Require Import base gmap list.
Local Open Scope Z_scope.

(** ** Constants and small helpers *)

(** Modelled from the spec: [BLOCK_SIZE] comes from [goxel.h], which is not
    part of the sources at hand; the spec gives the tile side as 16. *)
Definition BLOCK_SIZE : Z := 16.

(** [#define N BLOCK_SIZE] *)
Definition N : Z := BLOCK_SIZE.

(** [static int mod(int a, int b)]: C's [%] truncates towards zero. *)
Definition c_mod (a b : Z) : Z :=
  let r := Z.rem a b in
  if r <? 0 then r + b else r.

(** [int pos[3]] *)
Definition pos3 : Type := Z * Z * Z.

(** [uint8_t v[4]]: red, green, blue, alpha. *)
Definition rgba : Type := Z * Z * Z * Z.

Definition alpha (v : rgba) : Z := let '(_, _, _, a) := v in a.
Definition rgba_zero : rgba := (0, 0, 0, 0).

Definition pos3_eqb (a b : pos3) : bool :=
  let '(ax, ay, az) := a in
  let '(bx, by_, bz) := b in
  (ax =? bx) && (ay =? by_) && (az =? bz).

(** The origin of the tile that holds [pos]:
    [{pos[0] - mod(pos[0], N), pos[1] - mod(pos[1], N), pos[2] - mod(pos[2], N)}] *)
Definition tile_origin (pos : pos3) : pos3 :=
  let '(x, y, z) := pos in
  (x - c_mod x N, y - c_mod y N, z - c_mod z N).

(** [uint64_t] values wrap around. *)
Definition wrap64 (n : Z) : Z := n mod 2 ^ 64.

(** The painting modes ([goxel.h]). *)
Inductive mode_t : Type :=
  | MODE_OVER
  | MODE_SUB
  | MODE_MAX
  | MODE_INTERSECT
  | MODE_MULT_ALPHA
  | MODE_REPLACE.

Definition mode_eqb (a b : mode_t) : bool :=
  match a, b with
  | MODE_OVER, MODE_OVER | MODE_SUB, MODE_SUB | MODE_MAX, MODE_MAX
  | MODE_INTERSECT, MODE_INTERSECT | MODE_MULT_ALPHA, MODE_MULT_ALPHA
  | MODE_REPLACE, MODE_REPLACE => true
  | _, _ => false
  end.

(** [IS_IN(mode, MODE_OVER, MODE_MAX)] *)
Definition is_constructive (m : mode_t) : bool :=
  mode_eqb m MODE_OVER || mode_eqb m MODE_MAX.

(** ** The vector and matrix library

    [mesh.c] uses [vec3_t], [mat4_t], [box_t] and the shapes through
    [goxel.h] only.  They work on C floats.  The embedding takes them as an
    interface; [box_t] is a union over [mat4_t], so one type serves both. *)
Class Geometry : Type := {
  float : Type;
  float_of_int : Z → float;
  fadd : float → float → float;
  fsub : float → float → float;
  ffloor : float → Z;
  fceil : float → Z;
  fround : float → Z;
  (** [fabs(x) > 0.1] *)
  fabs_gt_tenth : float → bool;
  box_t : Type;
  mat4_identity : box_t;
  mat4_mul : box_t → box_t → box_t;
  mat4_inverted : box_t → box_t;
  mat4_scale : box_t → float → float → float → box_t;
  mat4_grow : box_t → float → float → float → box_t;
  mat4_mul_vec3 : box_t → float * float * float → float * float * float;
  (** [m.v[i] = x] *)
  mat4_set : box_t → nat → float → box_t;
  (** the fields [w], [h], [d], [p] of a box *)
  box_w : box_t → float * float * float;
  box_h : box_t → float * float * float;
  box_d : box_t → float * float * float;
  box_p : box_t → float * float * float;
  box_null : box_t;
  box_is_null : box_t → bool;
  box_get_bbox : box_t → box_t;
  bbox_grow : box_t → float → float → float → box_t;
  bbox_intersection : box_t → box_t → box_t;
  bbox_intersect : box_t → box_t → bool;
  box_contains : box_t → box_t → bool;
  bbox_merge : box_t → box_t → box_t;
  bbox_contains_vec : box_t → float * float * float → bool;
  bbox_from_points : float * float * float → float * float * float → box_t;
  (** shapes: [painter->shape == &shape_cube] compares pointers *)
  shape_t : Type;
  shape_cube : shape_t;
  shape_is_cube : shape_t → bool;
  (** the brush alpha of a shape placed by a box, in [0, 1] *)
  shape_sample : shape_t → box_t → float → pos3 → Q;
}.

Section Mesh.

Context {G : Geometry}.

Definition vec3_t : Type := float * float * float.

(** [vec3(x, y, z)] on integer arguments *)
Definition vec3_of_pos (p : pos3) : vec3_t :=
  let '(x, y, z) := p in (float_of_int x, float_of_int y, float_of_int z).

Definition vx (v : vec3_t) : float := let '(x, _, _) := v in x.
Definition vy (v : vec3_t) : float := let '(_, y, _) := v in y.
Definition vz (v : vec3_t) : float := let '(_, _, z) := v in z.

Record plane_t : Type := { plane_p : vec3_t; plane_n : vec3_t }.

(** [painter_t] *)
Record painter_t : Type := {
  p_shape : shape_t;
  p_mode : mode_t;
  p_smoothness : float;
  p_color : rgba;
  p_symmetry : Z;
  p_box : option box_t;
}.

Definition painter_set_symmetry (p : painter_t) (s : Z) : painter_t :=
  {| p_shape := p_shape p; p_mode := p_mode p; p_smoothness := p_smoothness p;
     p_color := p_color p; p_symmetry := s; p_box := p_box p |}.

(** ** Blocks

    [struct block] holds the voxels (through [data]), the origin [pos] and
    the [id] of the block in its mesh.  The functions on blocks are in
    [block.c], which is not part of the sources at hand. *)
Record block_t : Type := {
  b_voxels : list rgba;
  b_empty : bool;
  b_pos : pos3;
  b_id : Z;
}.

Definition cells : nat := Z.to_nat (N * N * N).

(** Index of a world position in the voxel array of the block at [bpos]:
    [x + y * N + z * N * N] on the local coordinates; nothing outside the
    tile. *)
Definition cell_index (bpos pos : pos3) : option nat :=
  let '(ox, oy, oz) := bpos in
  let '(px, py, pz) := pos in
  let x := px - ox in
  let y := py - oy in
  let z := pz - oz in
  if (0 <=? x) && (x <? N) && (0 <=? y) && (y <? N) && (0 <=? z) && (z <? N)
  then Some (Z.to_nat (x + y * N + z * N * N))
  else None.

(** The world position of cell [i] of the block at [bpos]. *)
Definition cell_pos (bpos : pos3) (i : nat) : pos3 :=
  let '(ox, oy, oz) := bpos in
  let k := Z.of_nat i in
  (ox + k mod N, oy + (k / N) mod N, oz + k / (N * N)).

Definition all_transparent (vs : list rgba) : bool :=
  forallb (fun v => alpha v =? 0) vs.

Definition block_with_voxels (b : block_t) (vs : list rgba) : block_t :=
  {| b_voxels := vs; b_empty := all_transparent vs;
     b_pos := b_pos b; b_id := b_id b |}.

Definition block_set_id (b : block_t) (i : Z) : block_t :=
  {| b_voxels := b_voxels b; b_empty := b_empty b; b_pos := b_pos b; b_id := i |}.

(** Modelled from the spec: [block_new], absent from the sources; "chunk
    with all alpha=0". *)
Definition block_new (pos : pos3) : block_t :=
  {| b_voxels := repeat rgba_zero cells; b_empty := true;
     b_pos := pos; b_id := 0 |}.

(** Modelled from the spec: [block_is_empty], absent from the sources;
    "fast=true checks only a precomputed flag (valid immediately after a
    mutation that left the chunk empty); fast=false scans all alphas".
    [mesh_merge] calls it on a null block, which counts as empty. *)
Definition block_is_empty (b : option block_t) (fast : bool) : bool :=
  match b with
  | None => true
  | Some b => if fast then b_empty b else all_transparent (b_voxels b)
  end.

(** Modelled from the spec: [block_get_at], absent from the sources;
    "translate world -> local; if chunk is absent/null in a get, return
    alpha=0 black", and out-of-range reads return (0,0,0,0). *)
Definition block_get_at (b : option block_t) (pos : pos3) : rgba :=
  match b with
  | None => rgba_zero
  | Some b =>
      match cell_index (b_pos b) pos with
      | Some i => default rgba_zero (b_voxels b !! i)
      | None => rgba_zero
      end
  end.

(** Modelled from the spec: [block_set_at], absent from the sources;
    "translate world -> local", in place on the sample array. *)
Definition block_set_at (b : block_t) (pos : pos3) (v : rgba) : block_t :=
  match cell_index (b_pos b) pos with
  | Some i => block_with_voxels b (<[i := v]> (b_voxels b))
  | None => b
  end.

Definition clamp8 (x : Z) : Z := Z.max 0 (Z.min 255 x).

(** Modelled from the spec: [block_shift_alpha], absent from the sources;
    "saturating add to each sample's alpha". *)
Definition block_shift_alpha (b : block_t) (v : Z) : block_t :=
  block_with_voxels b
    (map (fun s => let '(r, g, bl, a) := s in (r, g, bl, clamp8 (a + v)))
         (b_voxels b)).

(** Modelled from the spec: the per-sample combinators of the painter
    table, absent from the sources; [s] is the existing sample, [c] the
    brush colour and [k] the brush alpha in [0, 1]. *)
Definition scale8 (a : Z) (k : Q) : Z := clamp8 (Qfloor (inject_Z a * k)).

Definition combine (mode : mode_t) (s c : rgba) (k : Q) : rgba :=
  let '(sr, sg, sb, sa) := s in
  let '(cr, cg, cb, ca) := c in
  let ba := scale8 ca k in
  match mode with
  | MODE_OVER =>
      if ba =? 0 then s
      else
        let oa := ba + sa * (255 - ba) / 255 in
        let mix x y := (x * ba + y * sa * (255 - ba) / 255) / oa in
        (mix cr sr, mix cg sg, mix cb sb, oa)
  | MODE_SUB => (sr, sg, sb, scale8 sa (1 - k))
  | MODE_MAX => (Z.max sr cr, Z.max sg cg, Z.max sb cb, Z.max sa ba)
  | MODE_INTERSECT => (sr, sg, sb, Z.min sa (scale8 255 k))
  | MODE_MULT_ALPHA => (sr, sg, sb, scale8 sa k)
  | MODE_REPLACE => if Qlt_le_dec 0 k then (cr, cg, cb, ba) else s
  end.

(** Modelled from the spec: [block_op], absent from the sources;
    "rasterize an analytic shape transformed by box.mat into the chunk per
    the painter's mode and smoothness". *)
Definition block_op (b : block_t) (painter : painter_t) (box : box_t) : block_t :=
  block_with_voxels b
    (imap (fun i s =>
             combine (p_mode painter) s (p_color painter)
               (shape_sample (p_shape painter) box (p_smoothness painter)
                  (cell_pos (b_pos b) i)))
          (b_voxels b)).

(** Modelled from the spec: [block_merge], absent from the sources;
    "sample-wise combine with a peer chunk (other may be null, behaving as
    fully transparent)". *)
Definition block_merge (b : block_t) (other : option block_t) (mode : mode_t)
  : block_t :=
  block_with_voxels b
    (imap (fun i s =>
             let o := block_get_at other (cell_pos (b_pos b) i) in
             let '(r, g, bl, a) := o in
             combine mode s (r, g, bl, 255) (a # 255))
          (b_voxels b)).

Definition pos3_min (a b : pos3) : pos3 :=
  let '(ax, ay, az) := a in
  let '(bx, by_, bz) := b in (Z.min ax bx, Z.min ay by_, Z.min az bz).

Definition pos3_max (a b : pos3) : pos3 :=
  let '(ax, ay, az) := a in
  let '(bx, by_, bz) := b in (Z.max ax bx, Z.max ay by_, Z.max az bz).

Definition pos3_add (a : pos3) (k : Z) : pos3 :=
  let '(ax, ay, az) := a in (ax + k, ay + k, az + k).

(** The occupied cells of a block, as world positions. *)
Definition occupied (b : block_t) : list pos3 :=
  omap (fun '(i, v) => if alpha v =? 0 then None else Some (cell_pos (b_pos b) i))
       (imap (fun i v => (i, v)) (b_voxels b)).

(** Modelled from the spec: [block_get_box], absent from the sources; "if
    not exact, returns the chunk's full tile box; if exact, the tight AABB
    of samples with alpha > 0 (or null if empty)". *)
Definition block_get_box (b : block_t) (exact : bool) : box_t :=
  if exact then
    match occupied b with
    | [] => box_null
    | p :: ps =>
        bbox_from_points
          (vec3_of_pos (fold_left pos3_min ps p))
          (vec3_of_pos (pos3_add (fold_left pos3_max ps p) 1))
    end
  else
    bbox_from_points (vec3_of_pos (b_pos b)) (vec3_of_pos (pos3_add (b_pos b) N)).

(** ** The store

    [heap] holds the [block_t] objects by address, [refs] the [int] cells
    behind [mesh->ref]; [next_addr] is the allocator and [next_uid] is
    [goxel->next_uid], kept as the count of ids handed out (an id read
    from it is taken modulo 2^64). *)
Record store : Type := {
  heap : gmap nat block_t;
  refs : gmap nat Z;
  next_addr : nat;
  next_uid : Z;
}.

(** [struct mesh]: [m_blocks] lists the addresses of the blocks of the
    table in table order (uthash keeps insertion order). *)
Record mesh_t : Type := {
  m_blocks : list nat;
  m_next_block_id : Z;
  m_ref : nat;
  m_id : Z;
}.

(** [mesh_iterator_t] (also used as [mesh_accessor_t]): the fields that
    [mesh_get_at] and [mesh_set_at] use. *)
Record mesh_iterator_t : Type := {
  it_found : bool;
  it_block : option nat;
  it_pos : pos3;
}.

(** [(mesh_iterator_t){0}] *)
Definition iter_zero : mesh_iterator_t :=
  {| it_found := false; it_block := None; it_pos := (0, 0, 0) |}.

Definition set_heap (st : store) (h : gmap nat block_t) : store :=
  {| heap := h; refs := refs st; next_addr := next_addr st; next_uid := next_uid st |}.

Definition set_refs (st : store) (r : gmap nat Z) : store :=
  {| heap := heap st; refs := r; next_addr := next_addr st; next_uid := next_uid st |}.

Definition set_next_addr (st : store) (a : nat) : store :=
  {| heap := heap st; refs := refs st; next_addr := a; next_uid := next_uid st |}.

Definition set_next_uid (st : store) (u : Z) : store :=
  {| heap := heap st; refs := refs st; next_addr := next_addr st; next_uid := u |}.

Definition set_blocks (m : mesh_t) (bs : list nat) : mesh_t :=
  {| m_blocks := bs; m_next_block_id := m_next_block_id m;
     m_ref := m_ref m; m_id := m_id m |}.

Definition set_next_block_id (m : mesh_t) (i : Z) : mesh_t :=
  {| m_blocks := m_blocks m; m_next_block_id := i;
     m_ref := m_ref m; m_id := m_id m |}.

Definition set_ref (m : mesh_t) (r : nat) : mesh_t :=
  {| m_blocks := m_blocks m; m_next_block_id := m_next_block_id m;
     m_ref := r; m_id := m_id m |}.

Definition set_id (m : mesh_t) (i : Z) : mesh_t :=
  {| m_blocks := m_blocks m; m_next_block_id := m_next_block_id m;
     m_ref := m_ref m; m_id := i |}.

(** [*mesh->ref] *)
Definition ref_get (st : store) (r : nat) : Z := default 0 (refs st !! r).

Definition ref_set (st : store) (r : nat) (v : Z) : store :=
  set_refs st (<[r := v]> (refs st)).

(** a fresh [int] cell for [mesh->ref], holding [v] *)
Definition ref_alloc (st : store) (v : Z) : store * nat :=
  let r := next_addr st in
  (set_next_addr (ref_set st r v) (S r), r).

(** The block behind a pointer that may be null. *)
Definition block_at (st : store) (h : option nat) : option block_t :=
  match h with
  | Some a => heap st !! a
  | None => None
  end.

(** Apply a block function in place. *)
Definition block_update (st : store) (h : nat) (f : block_t → block_t) : store :=
  match heap st !! h with
  | Some b => set_heap st (<[h := f b]> (heap st))
  | None => st
  end.

(** [block_delete(block)] *)
Definition block_delete (st : store) (h : nat) : store :=
  set_heap st (delete h (heap st)).

(** Modelled from the spec: [block_copy], absent from the sources;
    "deep-copied payload".  The copy is a new object. *)
Definition block_copy (st : store) (h : nat) : store * nat :=
  let h' := next_addr st in
  let st := set_next_addr st (S h') in
  match heap st !! h with
  | Some b => (set_heap st (<[h' := b]> (heap st)), h')
  | None => (st, h')
  end.

(** [HASH_ADD(hh, mesh->blocks, pos, sizeof(pos), block)] *)
Definition hash_add (m : mesh_t) (h : nat) : mesh_t :=
  set_blocks m (m_blocks m ++ [h]).

(** [HASH_DEL(mesh->blocks, block)] *)
Definition hash_del (m : mesh_t) (h : nat) : mesh_t :=
  set_blocks m (List.filter (fun a => negb (Nat.eqb a h)) (m_blocks m)).

(** [HASH_FIND(hh, mesh->blocks, pos, 3 * sizeof(int), block)] *)
Definition hash_find (st : store) (bs : list nat) (pos : pos3) : option nat :=
  List.find (fun a => match heap st !! a with
                      | Some b => pos3_eqb (b_pos b) pos
                      | None => false
                      end) bs.

(** ** [mesh.c] *)

(** The body of the loop of [mesh_prepare_write]:
    [new_block = block_copy(block); new_block->id = block->id;
     HASH_ADD(hh, mesh->blocks, pos, sizeof(new_block->pos), new_block);] *)
Definition fork_step (acc : store * mesh_t) (block : nat) : store * mesh_t :=
  let '(st, mesh) := acc in
  let '(st, new_block) := block_copy st block in
  let st :=
    match heap st !! block with
    | Some b => block_update st new_block (fun nb => block_set_id nb (b_id b))
    | None => st
    end in
  (st, hash_add mesh new_block).

Definition mesh_prepare_write (st : store) (mesh : mesh_t) : store * mesh_t :=
  let mesh := set_id mesh (wrap64 (next_uid st)) in
  let st := set_next_uid st (next_uid st + 1) in
  if ref_get st (m_ref mesh) =? 1 then (st, mesh)
  else
    let st := ref_set st (m_ref mesh) (ref_get st (m_ref mesh) - 1) in
    let '(st, r) := ref_alloc st 1 in
    let blocks := m_blocks mesh in
    let mesh := set_blocks (set_ref mesh r) [] in
    fold_left fork_step blocks (st, mesh).

(** The body of the loop of [mesh_remove_empty_blocks]. *)
Definition sweep_step (acc : store * mesh_t) (block : nat) : store * mesh_t :=
  let '(st, mesh) := acc in
  if block_is_empty (heap st !! block) false
  then (block_delete st block, hash_del mesh block)
  else (st, mesh).

Definition mesh_remove_empty_blocks (st : store) (mesh : mesh_t) : store * mesh_t :=
  let '(st, mesh) := mesh_prepare_write st mesh in
  fold_left sweep_step (m_blocks mesh) (st, mesh).

Definition mesh_is_empty (mesh : mesh_t) : bool :=
  match m_blocks mesh with
  | [] => true
  | _ :: _ => false
  end.

Definition mesh_new (st : store) : store * mesh_t :=
  let '(st, r) := ref_alloc st 0 in
  let mesh := {| m_blocks := []; m_next_block_id := 1; m_ref := r;
                 m_id := wrap64 (next_uid st) |} in
  let st := set_next_uid st (next_uid st + 1) in
  (ref_set st r 1, mesh).

Definition delete_step (acc : store * mesh_t) (block : nat) : store * mesh_t :=
  let '(st, mesh) := acc in (block_delete st block, hash_del mesh block).

(** The [HASH_ITER] loop that empties a table. *)
Definition delete_all_blocks (st : store) (mesh : mesh_t) : store * mesh_t :=
  fold_left delete_step (m_blocks mesh) (st, mesh).

Definition mesh_clear (st : store) (mesh : mesh_t) : store * mesh_t :=
  let '(st, mesh) := mesh_prepare_write st mesh in
  let '(st, mesh) := delete_all_blocks st mesh in
  (st, set_next_block_id (set_blocks mesh []) 1).

Definition mesh_delete (st : store) (mesh : mesh_t) : store :=
  let st := ref_set st (m_ref mesh) (ref_get st (m_ref mesh) - 1) in
  if ref_get st (m_ref mesh) =? 0 then
    let '(st, _) := delete_all_blocks st mesh in
    set_refs st (delete (m_ref mesh) (refs st))
  else st.

Definition mesh_copy (st : store) (other : mesh_t) : store * mesh_t :=
  let mesh := {| m_blocks := m_blocks other; m_next_block_id := m_next_block_id other;
                 m_ref := m_ref other; m_id := m_id other |} in
  (ref_set st (m_ref mesh) (ref_get st (m_ref mesh) + 1), mesh).

Definition mesh_set (st : store) (mesh other : mesh_t) : store * mesh_t :=
  if decide (head (m_blocks mesh) = head (m_blocks other)) then (st, mesh)
  else
    let st := ref_set st (m_ref mesh) (ref_get st (m_ref mesh) - 1) in
    let st :=
      if ref_get st (m_ref mesh) =? 0 then
        let '(st, _) := delete_all_blocks st mesh in
        set_refs st (delete (m_ref mesh) (refs st))
      else st in
    let mesh := {| m_blocks := m_blocks other;
                   m_next_block_id := m_next_block_id other;
                   m_ref := m_ref other; m_id := m_id mesh |} in
    (ref_set st (m_ref mesh) (ref_get st (m_ref mesh) + 1), mesh).

Definition mesh_get_box (st : store) (mesh : mesh_t) (exact : bool) : box_t :=
  fold_left
    (fun ret block =>
       match heap st !! block with
       | Some b => bbox_merge ret (block_get_box b exact)
       | None => ret
       end)
    (m_blocks mesh) box_null.

Definition mesh_get_block_at (st : store) (mesh : mesh_t) (pos : pos3) : option nat :=
  hash_find st (m_blocks mesh) pos.

Definition mesh_add_block (st : store) (mesh : mesh_t) (pos : pos3)
  : store * mesh_t * nat :=
  let '(st, mesh) := mesh_prepare_write st mesh in
  let block := next_addr st in
  let st := set_next_addr st (S block) in
  let st := set_heap st (<[block := block_set_id (block_new pos) (m_next_block_id mesh)]>
                           (heap st)) in
  let mesh := set_next_block_id mesh (m_next_block_id mesh + 1) in
  (st, hash_add mesh block, block).

(** [for (p = ia; p <= ib; p += N)] *)
Definition tile_steps (ia ib : Z) : list Z :=
  if ib <? ia then []
  else map (fun k => ia + N * Z.of_nat k) (seq 0 (S (Z.to_nat ((ib - ia) / N)))).

(** The tile origins visited by the three loops of [add_blocks], in loop
    order. *)
Definition add_blocks_tiles (box : box_t) : list pos3 :=
  let a := (fsub (vx (box_p box)) (vx (box_w box)),
            fsub (vy (box_p box)) (vy (box_h box)),
            fsub (vz (box_p box)) (vz (box_d box))) in
  let b := (fadd (vx (box_p box)) (vx (box_w box)),
            fadd (vy (box_p box)) (vy (box_h box)),
            fadd (vz (box_p box)) (vz (box_d box))) in
  let lo (f : float) := let i := ffloor f in i - c_mod i N in
  let hi (f : float) := let i := fceil f in i - c_mod i N in
  z ← tile_steps (lo (vz a)) (hi (vz b));
  y ← tile_steps (lo (vy a)) (hi (vy b));
  x ← tile_steps (lo (vx a)) (hi (vx b));
  [(x, y, z)].

(** [if (!mesh_get_block_at(mesh, p)) mesh_add_block(mesh, p);] *)
Definition add_blocks_step (acc : store * mesh_t) (p : pos3) : store * mesh_t :=
  let '(st, mesh) := acc in
  match mesh_get_block_at st mesh p with
  | Some _ => (st, mesh)
  | None => let '(st, mesh, _) := mesh_add_block st mesh p in (st, mesh)
  end.

Definition add_blocks (st : store) (mesh : mesh_t) (box : box_t) : store * mesh_t :=
  fold_left add_blocks_step (add_blocks_tiles box) (st, mesh).

(** One cell of [block_fill]; the colour function reads the store as it
    is when the cell is reached. *)
Definition fill_cell (h : nat) (get_color : store → pos3 → rgba) (st : store)
    (i : nat) : store :=
  block_update st h (fun b =>
    {| b_voxels := <[i := get_color st (cell_pos (b_pos b) i)]> (b_voxels b);
       b_empty := b_empty b; b_pos := b_pos b; b_id := b_id b |}).

(** Modelled from the spec: [block_fill], absent from the sources; "for
    every local cell, calls the supplied color function at world
    coordinates and overwrites the sample". *)
Definition block_fill (st : store) (h : nat) (get_color : store → pos3 → rgba)
  : store :=
  let st := fold_left (fill_cell h get_color) (seq 0 cells) st in
  block_update st h (fun b => block_with_voxels b (b_voxels b)).

Definition mesh_fill (st : store) (mesh : mesh_t) (box : box_t)
    (get_color : store → pos3 → rgba) : store * mesh_t :=
  let bbox := box_get_bbox box in
  let '(st, mesh) := mesh_clear st mesh in
  let '(st, mesh) := add_blocks st mesh bbox in
  (fold_left (fun st block => block_fill st block get_color) (m_blocks mesh) st, mesh).

(** The mirror image of a box across axis [i]:
    [box2.mat = mat4_identity; mat4_iscale(&box2.mat, -1, 1, 1);
     mat4_imul(&box2.mat, box->mat)]. *)
Definition mirror_box (i : nat) (box : box_t) : box_t :=
  let one := float_of_int 1 in
  let neg := float_of_int (-1) in
  let mat := mat4_identity in
  let mat := if Nat.eqb i 0%nat then mat4_scale mat neg one one else mat in
  let mat := if Nat.eqb i 1 then mat4_scale mat one neg one else mat in
  let mat := if Nat.eqb i 2 then mat4_scale mat one one neg else mat in
  mat4_mul mat box.

(** [painter->symmetry & (1 << i)] *)
Definition has_axis (symmetry : Z) (i : nat) : bool :=
  negb (Z.land symmetry (Z.shiftl 1 (Z.of_nat i)) =? 0).

(** [symmetry &= ~(1 << i)] *)
Definition clear_axis (symmetry : Z) (i : nat) : Z :=
  Z.land symmetry (Z.lnot (Z.shiftl 1 (Z.of_nat i))).

(** [full_box]: the box grown by the smoothness. *)
Definition op_full_box (painter : painter_t) (box : box_t) : box_t :=
  mat4_grow box (p_smoothness painter) (p_smoothness painter) (p_smoothness painter).

(** [bbox] as [mesh_op] computes it; nothing when the clip box of the
    painter leaves a null box, where [mesh_op] returns. *)
Definition op_bbox (painter : painter_t) (box : box_t) : option box_t :=
  let one := float_of_int 1 in
  let bbox := bbox_grow (box_get_bbox (op_full_box painter box)) one one one in
  match p_box painter with
  | Some clip =>
      let bbox := bbox_intersection bbox clip in
      if box_is_null bbox then None
      else Some (bbox_grow bbox one one one)
  | None => Some bbox
  end.

(** One turn of the [HASH_ITER] loop of [mesh_op].  [empty] is not
    initialised when the loop body starts. *)
Definition mesh_op_block (painter : painter_t) (box full_box bbox : box_t)
    (acc : store * mesh_t) (block : nat) : store * mesh_t :=
  let '(st, mesh) := acc in
  match heap st !! block with
  | None => (st, mesh)
  | Some b =>
      let block_box := block_get_box b false in
      let before : option (option bool) :=
        if negb (bbox_intersect bbox block_box) then
          if mode_eqb (p_mode painter) MODE_INTERSECT
          then Some (Some true)            (* empty = true; *)
          else None                        (* continue; *)
        else Some None in
      match before with
      | None => (st, mesh)
      | Some _ =>
          let empty := false in            (* empty = false; *)
          let empty :=
            if shape_is_cube (p_shape painter)
               && mode_eqb (p_mode painter) MODE_SUB
               && box_contains full_box block_box
            then true else empty in
          let '(st, empty) :=
            if negb empty then
              let st := block_update st block (fun b => block_op b painter box) in
              (st, if block_is_empty (heap st !! block) true then true else empty)
            else (st, empty) in
          if empty then (block_delete st block, hash_del mesh block)
          else (st, mesh)
      end
  end.

(** [mesh_op] after its symmetry loop. *)
Definition mesh_op_body (st : store) (mesh : mesh_t) (painter : painter_t)
    (box : box_t) : store * mesh_t :=
  let full_box := op_full_box painter box in
  match op_bbox painter box with
  | None => (st, mesh)
  | Some bbox =>
      let '(st, mesh) := mesh_prepare_write st mesh in
      let '(st, mesh) :=
        if is_constructive (p_mode painter) then add_blocks st mesh bbox
        else (st, mesh) in
      fold_left (mesh_op_block painter box full_box bbox) (m_blocks mesh) (st, mesh)
  end.

(** The calls that the symmetry loop of [mesh_op] makes, in order: for
    each axis [i] of [painter->symmetry], [painter2] with that axis cleared
    (it keeps what earlier turns cleared) and the mirrored box. *)
Definition symmetry_step (painter : painter_t) (box : box_t)
    (acc : painter_t * list (painter_t * box_t)) (i : nat)
  : painter_t * list (painter_t * box_t) :=
  let '(painter2, calls) := acc in
  if negb (has_axis (p_symmetry painter) i) then acc
  else
    let painter2 :=
      painter_set_symmetry painter2 (clear_axis (p_symmetry painter2) i) in
    (painter2, calls ++ [(painter2, mirror_box i box)]).

Definition symmetry_calls (painter : painter_t) (box : box_t)
  : list (painter_t * box_t) :=
  if p_symmetry painter =? 0 then []
  else snd (fold_left (symmetry_step painter box) [0%nat; 1%nat; 2%nat] (painter, [])).

(** [mesh_op]: the recursion is on the symmetry mask; [fuel] bounds its
    depth. *)
Fixpoint mesh_op_fuel (fuel : nat) (st : store) (mesh : mesh_t)
    (painter : painter_t) (box : box_t) : option (store * mesh_t) :=
  match fuel with
  | O => None
  | S fuel =>
      let after_symmetry :=
        fold_left
          (fun acc call =>
             match acc with
             | None => None
             | Some (st, mesh) => mesh_op_fuel fuel st mesh (fst call) (snd call)
             end)
          (symmetry_calls painter box) (Some (st, mesh)) in
      match after_symmetry with
      | None => None
      | Some (st, mesh) => Some (mesh_op_body st mesh painter box)
      end
  end.

Definition mesh_op (st : store) (mesh : mesh_t) (painter : painter_t) (box : box_t)
  : option (store * mesh_t) :=
  mesh_op_fuel 4 st mesh painter box.

(** The primitive operations that [mesh_op] expands to, in the order in
    which they run. *)
Fixpoint primitive_ops (fuel : nat) (painter : painter_t) (box : box_t)
  : list (painter_t * box_t) :=
  match fuel with
  | O => []
  | S fuel =>
      flat_map (fun call => primitive_ops fuel (fst call) (snd call))
               (symmetry_calls painter box)
      ++ [(painter, box)]
  end.

(** The bodies of the loops of [mesh_merge]. *)
Definition merge_add_step (acc : store * mesh_t) (block : nat) : store * mesh_t :=
  let '(st, mesh) := acc in
  match heap st !! block with
  | None => (st, mesh)
  | Some b =>
      match mesh_get_block_at st mesh (b_pos b) with
      | Some _ => (st, mesh)
      | None =>
          let '(st, mesh, _) := mesh_add_block st mesh (b_pos b) in (st, mesh)
      end
  end.

Definition merge_step (other : mesh_t) (mode : mode_t) (acc : store * mesh_t)
    (block : nat) : store * mesh_t :=
  let '(st, mesh) := acc in
  match heap st !! block with
  | None => (st, mesh)
  | Some b =>
      let other_block := block_at st (mesh_get_block_at st other (b_pos b)) in
      let is_empty := false in
      let is_empty :=
        if block_is_empty (Some b) true && block_is_empty other_block true
        then true else is_empty in
      let is_empty :=
        if mode_eqb mode MODE_MULT_ALPHA && block_is_empty other_block true
        then true else is_empty in
      if is_empty then (block_delete st block, hash_del mesh block)
      else (block_update st block (fun b => block_merge b other_block mode), mesh)
  end.

Definition mesh_merge (st : store) (mesh other : mesh_t) (mode : mode_t)
  : store * mesh_t :=
  let '(st, mesh) := mesh_prepare_write st mesh in
  let '(st, mesh) :=
    if is_constructive mode
    then fold_left merge_add_step (m_blocks other) (st, mesh)
    else (st, mesh) in
  fold_left (merge_step other mode) (m_blocks mesh) (st, mesh).

Definition mesh_get_at (st : store) (mesh : mesh_t) (pos : pos3)
    (iter : option mesh_iterator_t) : rgba * option mesh_iterator_t :=
  let p := tile_origin pos in
  let cached :=
    match iter with
    | Some it => it_found it && pos3_eqb (it_pos it) p
    | None => false
    end in
  match iter with
  | Some it =>
      if cached then (block_get_at (block_at st (it_block it)) pos, iter)
      else
        let block := hash_find st (m_blocks mesh) p in
        (block_get_at (block_at st block) pos,
         Some {| it_found := true; it_block := block; it_pos := p |})
  | None =>
      let block := hash_find st (m_blocks mesh) p in
      (block_get_at (block_at st block) pos, None)
  end.

(** [mesh_set_at] after its call of [mesh_prepare_write]. *)
Definition mesh_set_at_tail (st : store) (mesh : mesh_t) (pos : pos3) (v : rgba)
    (iter : option mesh_iterator_t) : store * mesh_t * option mesh_iterator_t :=
  let p := tile_origin pos in
  match iter with
  | Some it =>
      if it_found it && pos3_eqb (it_pos it) p then
        let '(st, mesh, block) :=
          match it_block it with
          | Some block => (st, mesh, block)
          | None => mesh_add_block st mesh p
          end in
        (block_update st block (fun b => block_set_at b pos v), mesh,
         Some {| it_found := it_found it; it_block := Some block; it_pos := it_pos it |})
      else
        let '(st, mesh, block) :=
          match hash_find st (m_blocks mesh) p with
          | Some block => (st, mesh, block)
          | None => mesh_add_block st mesh p
          end in
        (block_update st block (fun b => block_set_at b pos v), mesh,
         Some {| it_found := true; it_block := Some block; it_pos := p |})
  | None =>
      let '(st, mesh, block) :=
        match hash_find st (m_blocks mesh) p with
        | Some block => (st, mesh, block)
        | None => mesh_add_block st mesh p
        end in
      (block_update st block (fun b => block_set_at b pos v), mesh, None)
  end.

Definition mesh_set_at (st : store) (mesh : mesh_t) (pos : pos3) (v : rgba)
    (iter : option mesh_iterator_t) : store * mesh_t * option mesh_iterator_t :=
  let '(st, mesh) := mesh_prepare_write st mesh in
  mesh_set_at_tail st mesh pos v iter.

(** [mesh_move_get_color], with [USER_PASS(src_mesh, &imat)] as arguments. *)
Definition mesh_move_get_color (mesh : mesh_t) (mat : box_t) (st : store)
    (pos : pos3) : rgba :=
  let p := mat4_mul_vec3 mat (vec3_of_pos pos) in
  let pi := (fround (vx p), fround (vy p), fround (vz p)) in
  fst (mesh_get_at st mesh pi None).

Definition mesh_move (st : store) (mesh : mesh_t) (mat : box_t) : store * mesh_t :=
  let '(st, src_mesh) := mesh_copy st mesh in
  let imat := mat4_inverted mat in
  let '(st, mesh) := mesh_prepare_write st mesh in
  let box := mesh_get_box st mesh true in
  if box_is_null box then (st, mesh)
  else
    let box := mat4_mul mat box in
    let '(st, mesh) := mesh_fill st mesh box (mesh_move_get_color src_mesh imat) in
    let st := mesh_delete st src_mesh in
    mesh_remove_empty_blocks st mesh.

(** [for (p = lo; p < lo + len; p++)] *)
Definition zrange (lo len : Z) : list Z :=
  map (fun k => lo + Z.of_nat k) (seq 0 (Z.to_nat len)).

(** The four bytes at [data + off]. *)
Definition read_rgba (data : list Z) (off : nat) : rgba :=
  (default 0 (data !! off), default 0 (data !! S off),
   default 0 (data !! S (S off)), default 0 (data !! S (S (S off)))).

(** The body of the loops of [mesh_blit]: [mesh_set_at(mesh, pos, data,
    iter); data += 4;] *)
Definition blit_step (data : list Z) (pz py : Z)
    (acc : store * mesh_t * mesh_iterator_t * nat) (px : Z)
  : store * mesh_t * mesh_iterator_t * nat :=
  let '(st, mesh, iter, off) := acc in
  let '(st, mesh, iter') := mesh_set_at st mesh (px, py, pz) (read_rgba data off) (Some iter) in
  (st, mesh, default iter iter', (off + 4)%nat).

Definition mesh_blit (st : store) (mesh : mesh_t) (data : list Z)
    (x y z w h d : Z) (iter : option mesh_iterator_t)
  : store * mesh_t * mesh_iterator_t :=
  let iter := default iter_zero iter in
  let '(st, mesh, iter, _) :=
    fold_left
      (fun acc pz =>
         fold_left
           (fun acc py => fold_left (blit_step data pz py) (zrange x w) acc)
           (zrange y h) acc)
      (zrange z d) (st, mesh, iter, 0%nat) in
  let '(st, mesh) := mesh_remove_empty_blocks st mesh in
  (st, mesh, iter).

Definition shift_step (v : Z) (st : store) (block : nat) : store :=
  block_update st block (fun b => block_shift_alpha b v).

Definition mesh_shift_alpha (st : store) (mesh : mesh_t) (v : Z) : store * mesh_t :=
  let '(st, mesh) := mesh_prepare_write st mesh in
  let st := fold_left (shift_step v) (m_blocks mesh) st in
  mesh_remove_empty_blocks st mesh.

(** [mesh_extrude_callback], with [USER_PASS(mesh, &proj, box)] as
    arguments. *)
Definition mesh_extrude_callback (mesh : mesh_t) (proj box : box_t) (st : store)
    (pos : pos3) : rgba :=
  let p := vec3_of_pos pos in
  if negb (bbox_contains_vec box p) then rgba_zero
  else
    let p := mat4_mul_vec3 proj p in
    let pi := (ffloor (vx p), ffloor (vy p), ffloor (vz p)) in
    fst (mesh_get_at st mesh pi None).

Definition mesh_extrude (st : store) (mesh : mesh_t) (plane : plane_t) (box : box_t)
  : store * mesh_t :=
  let '(st, mesh) := mesh_prepare_write st mesh in
  let pos := plane_p plane in
  let zero := float_of_int 0 in
  let one := float_of_int 1 in
  let proj := mat4_identity in
  let proj :=
    if fabs_gt_tenth (vx (plane_n plane))
    then mat4_set (mat4_set proj 0 zero) 12 (vx pos) else proj in
  let proj :=
    if fabs_gt_tenth (vy (plane_n plane))
    then mat4_set (mat4_set proj 5 zero) 13 (vy pos) else proj in
  let proj :=
    if fabs_gt_tenth (vz (plane_n plane))
    then mat4_set (mat4_set proj 10 zero) 14 (vz pos) else proj in
  let bbox := bbox_grow box one one one in
  let '(st, mesh) := add_blocks st mesh bbox in
  (fold_left (fun st block => block_fill st block (mesh_extrude_callback mesh proj box))
     (m_blocks mesh) st, mesh).

Definition mesh_get_id (mesh : mesh_t) : Z := m_id mesh.

Definition mesh_get_alpha_at (st : store) (mesh : mesh_t) (pos : pos3)
    (iter : option mesh_iterator_t) : Z * option mesh_iterator_t :=
  let '(v, iter) := mesh_get_at st mesh pos iter in (alpha v, iter).

End Mesh.

(** ** An exact instance of the geometry interface

    Floats are rationals; a matrix is a scaling along the axes followed by
    a translation, which is all that axis-aligned boxes need.  As a box it
    has centre [(bx_tx, bx_ty, bx_tz)] and half sizes [(bx_sx, bx_sy,
    bx_sz)]; [bx_unit] is [v[15]], 0 in the null box.  The instance is used
    to run the functions above on concrete inputs. *)
Module Exact.

Local Open Scope Q_scope.

Record aabox : Type := {
  bx_sx : Q; bx_sy : Q; bx_sz : Q;
  bx_tx : Q; bx_ty : Q; bx_tz : Q;
  bx_unit : Q;
}.

Inductive shape : Type := Cube | Sphere.

Definition qleb (a b : Q) : bool := Qle_bool a b.
Definition qltb (a b : Q) : bool := negb (Qle_bool b a).
Definition qmin (a b : Q) : Q := if qleb a b then a else b.
Definition qmax (a b : Q) : Q := if qleb a b then b else a.

(** C's [round]: halves go away from zero. *)
Definition qround (q : Q) : Z :=
  if qleb 0 q then Qfloor (q + (1 # 2)) else Qceiling (q - (1 # 2)).

Definition identity : aabox :=
  {| bx_sx := 1; bx_sy := 1; bx_sz := 1; bx_tx := 0; bx_ty := 0; bx_tz := 0;
     bx_unit := 1 |}.

Definition null : aabox :=
  {| bx_sx := 0; bx_sy := 0; bx_sz := 0; bx_tx := 0; bx_ty := 0; bx_tz := 0;
     bx_unit := 0 |}.

Definition mul (a b : aabox) : aabox :=
  {| bx_sx := Qred (bx_sx a * bx_sx b);
     bx_sy := Qred (bx_sy a * bx_sy b);
     bx_sz := Qred (bx_sz a * bx_sz b);
     bx_tx := Qred (bx_sx a * bx_tx b + bx_tx a * bx_unit b);
     bx_ty := Qred (bx_sy a * bx_ty b + bx_ty a * bx_unit b);
     bx_tz := Qred (bx_sz a * bx_tz b + bx_tz a * bx_unit b);
     bx_unit := Qred (bx_unit a * bx_unit b) |}.

Definition inverted (a : aabox) : aabox :=
  {| bx_sx := Qred (/ bx_sx a); bx_sy := Qred (/ bx_sy a); bx_sz := Qred (/ bx_sz a);
     bx_tx := Qred (- (bx_tx a / bx_sx a));
     bx_ty := Qred (- (bx_ty a / bx_sy a));
     bx_tz := Qred (- (bx_tz a / bx_sz a));
     bx_unit := bx_unit a |}.

Definition scale (a : aabox) (x y z : Q) : aabox :=
  {| bx_sx := Qred (bx_sx a * x); bx_sy := Qred (bx_sy a * y);
     bx_sz := Qred (bx_sz a * z);
     bx_tx := bx_tx a; bx_ty := bx_ty a; bx_tz := bx_tz a; bx_unit := bx_unit a |}.

(** Grow a half size [s] by [x], away from zero. *)
Definition grow1 (s x : Q) : Q :=
  if Qeq_bool s 0 then s else Qred (s * ((x + Qabs s) / Qabs s)).

Definition grow (a : aabox) (x y z : Q) : aabox :=
  {| bx_sx := grow1 (bx_sx a) x; bx_sy := grow1 (bx_sy a) y;
     bx_sz := grow1 (bx_sz a) z;
     bx_tx := bx_tx a; bx_ty := bx_ty a; bx_tz := bx_tz a; bx_unit := bx_unit a |}.

Definition mul_vec3 (a : aabox) (v : Q * Q * Q) : Q * Q * Q :=
  let '(x, y, z) := v in
  (Qred (bx_sx a * x + bx_tx a), Qred (bx_sy a * y + bx_ty a),
   Qred (bx_sz a * z + bx_tz a)).

Definition set_entry (a : aabox) (i : nat) (x : Q) : aabox :=
  {| bx_sx := if Nat.eqb i 0%nat then x else bx_sx a;
     bx_sy := if Nat.eqb i 5%nat then x else bx_sy a;
     bx_sz := if Nat.eqb i 10%nat then x else bx_sz a;
     bx_tx := if Nat.eqb i 12%nat then x else bx_tx a;
     bx_ty := if Nat.eqb i 13%nat then x else bx_ty a;
     bx_tz := if Nat.eqb i 14%nat then x else bx_tz a;
     bx_unit := if Nat.eqb i 15%nat then x else bx_unit a |}.

Definition lo (a : aabox) : Q * Q * Q :=
  (bx_tx a - Qabs (bx_sx a), bx_ty a - Qabs (bx_sy a), bx_tz a - Qabs (bx_sz a)).

Definition hi (a : aabox) : Q * Q * Q :=
  (bx_tx a + Qabs (bx_sx a), bx_ty a + Qabs (bx_sy a), bx_tz a + Qabs (bx_sz a)).

Definition from_points (a b : Q * Q * Q) : aabox :=
  let '(ax, ay, az) := a in
  let '(bx, by_, bz) := b in
  {| bx_sx := Qred ((bx - ax) / 2); bx_sy := Qred ((by_ - ay) / 2);
     bx_sz := Qred ((bz - az) / 2);
     bx_tx := Qred ((ax + bx) / 2); bx_ty := Qred ((ay + by_) / 2);
     bx_tz := Qred ((az + bz) / 2); bx_unit := 1 |}.

Definition is_null (a : aabox) : bool := Qeq_bool (bx_unit a) 0.

Definition get_bbox (a : aabox) : aabox := from_points (lo a) (hi a).

Definition bgrow (a : aabox) (x y z : Q) : aabox :=
  {| bx_sx := Qred (bx_sx a + x); bx_sy := Qred (bx_sy a + y);
     bx_sz := Qred (bx_sz a + z);
     bx_tx := bx_tx a; bx_ty := bx_ty a; bx_tz := bx_tz a; bx_unit := bx_unit a |}.

Definition intersection (a b : aabox) : aabox :=
  let '(a0x, a0y, a0z) := lo a in
  let '(a1x, a1y, a1z) := hi a in
  let '(b0x, b0y, b0z) := lo b in
  let '(b1x, b1y, b1z) := hi b in
  let c0 := (qmax a0x b0x, qmax a0y b0y, qmax a0z b0z) in
  let c1 := (qmin a1x b1x, qmin a1y b1y, qmin a1z b1z) in
  let '(c0x, c0y, c0z) := c0 in
  let '(c1x, c1y, c1z) := c1 in
  if qleb c1x c0x || qleb c1y c0y || qleb c1z c0z then null
  else from_points c0 c1.

Definition intersect (a b : aabox) : bool :=
  let '(a0x, a0y, a0z) := lo a in
  let '(a1x, a1y, a1z) := hi a in
  let '(b0x, b0y, b0z) := lo b in
  let '(b1x, b1y, b1z) := hi b in
  qleb a0x b1x && qleb b0x a1x && qleb a0y b1y && qleb b0y a1y
  && qleb a0z b1z && qleb b0z a1z.

Definition contains (a b : aabox) : bool :=
  let '(a0x, a0y, a0z) := lo a in
  let '(a1x, a1y, a1z) := hi a in
  let '(b0x, b0y, b0z) := lo b in
  let '(b1x, b1y, b1z) := hi b in
  qleb a0x b0x && qleb b1x a1x && qleb a0y b0y && qleb b1y a1y
  && qleb a0z b0z && qleb b1z a1z.

Definition contains_vec (a : aabox) (v : Q * Q * Q) : bool :=
  let '(a0x, a0y, a0z) := lo a in
  let '(a1x, a1y, a1z) := hi a in
  let '(x, y, z) := v in
  qleb a0x x && qleb x a1x && qleb a0y y && qleb y a1y
  && qleb a0z z && qleb z a1z.

Definition merge (a b : aabox) : aabox :=
  if is_null a then b
  else if is_null b then a
  else
    let '(a0x, a0y, a0z) := lo a in
    let '(a1x, a1y, a1z) := hi a in
    let '(b0x, b0y, b0z) := lo b in
    let '(b1x, b1y, b1z) := hi b in
    from_points (qmin a0x b0x, qmin a0y b0y, qmin a0z b0z)
                (qmax a1x b1x, qmax a1y b1y, qmax a1z b1z).

(** A hard-edged brush: 1 inside the shape, 0 outside. *)
Definition sample (s : shape) (box : aabox) (smoothness : Q) (pos : pos3) : Q :=
  let '(x, y, z) := pos in
  let u := (inject_Z x - bx_tx box) / bx_sx box in
  let v := (inject_Z y - bx_ty box) / bx_sy box in
  let w := (inject_Z z - bx_tz box) / bx_sz box in
  match s with
  | Cube =>
      if qleb (Qabs u) 1 && qleb (Qabs v) 1 && qleb (Qabs w) 1 then 1 else 0
  | Sphere =>
      if qleb (u * u + v * v + w * w) 1 then 1 else 0
  end.

#[export] Instance geometry : Geometry := {|
  float := Q;
  float_of_int := inject_Z;
  fadd := fun a b => Qred (a + b);
  fsub := fun a b => Qred (a - b);
  ffloor := Qfloor;
  fceil := Qceiling;
  fround := qround;
  fabs_gt_tenth := fun x => qltb (1 # 10) (Qabs x);
  box_t := aabox;
  mat4_identity := identity;
  mat4_mul := mul;
  mat4_inverted := inverted;
  mat4_scale := scale;
  mat4_grow := grow;
  mat4_mul_vec3 := mul_vec3;
  mat4_set := set_entry;
  box_w := fun a => (bx_sx a, 0, 0);
  box_h := fun a => (0, bx_sy a, 0);
  box_d := fun a => (0, 0, bx_sz a);
  box_p := fun a => (bx_tx a, bx_ty a, bx_tz a);
  box_null := null;
  box_is_null := is_null;
  box_get_bbox := get_bbox;
  bbox_grow := bgrow;
  bbox_intersection := intersection;
  bbox_intersect := intersect;
  box_contains := contains;
  bbox_merge := merge;
  bbox_contains_vec := contains_vec;
  bbox_from_points := from_points;
  shape_t := shape;
  shape_cube := Cube;
  shape_is_cube := fun s => match s with Cube => true | Sphere => false end;
  shape_sample := sample;
|}.

(** The low and high ends that [covers] looks at. *)
Definition raw_lo (c : aabox) : Q * Q * Q :=
  (bx_tx c - bx_sx c, bx_ty c - bx_sy c, bx_tz c - bx_sz c)%Q.

Definition raw_hi (c : aabox) : Q * Q * Q :=
  (bx_tx c + bx_sx c, bx_ty c + bx_sy c, bx_tz c + bx_sz c)%Q.

Definition q3_le (a b : Q * Q * Q) : Prop :=
  let '(ax, ay, az) := a in
  let '(bx, by_, bz) := b in (ax <= bx /\ ay <= by_ /\ az <= bz)%Q.

(** The store a program starts from: nothing allocated, ids from 1. *)
Definition store0 : store :=
  {| heap := ∅; refs := ∅; next_addr := 1%nat; next_uid := 1%Z |}.

(** The box with centre [c] and half sizes [s]. *)
Definition box_at (c s : pos3) : aabox :=
  let '(cx, cy, cz) := c in
  let '(hx, hy, hz) := s in
  {| bx_sx := inject_Z hx; bx_sy := inject_Z hy; bx_sz := inject_Z hz;
     bx_tx := inject_Z cx; bx_ty := inject_Z cy; bx_tz := inject_Z cz;
     bx_unit := 1 |}.

Definition painter (s : shape) (m : mode_t) (c : rgba) : painter_t :=
  {| p_shape := s; p_mode := m; p_smoothness := 0; p_color := c;
     p_symmetry := 0; p_box := None |}.

End Exact.

(** ** Concrete inputs

    The programs below are run on the exact geometry. *)
Module Inputs.

Import Exact.

(** [v = mesh_new(); mesh_set_at(v, {0,0,0}, {10,20,30,255}, NULL);] *)
Definition one_voxel : store * mesh_t :=
  let '(st, v) := mesh_new store0 in
  (mesh_set_at st v (0, 0, 0) (10, 20, 30, 255) None).1.

(** [w = mesh_copy(v);] *)
Definition cloned : store * mesh_t :=
  mesh_copy one_voxel.1 one_voxel.2.

(** [mesh_get_at(w, {0,0,0}, &acc, out);] on a zeroed accessor. *)
Definition seated : rgba * option mesh_iterator_t :=
  mesh_get_at cloned.1 cloned.2 (0, 0, 0) (Some iter_zero).

(** [mesh_set_at(w, {0,0,0}, {1,2,3,255}, &acc);] *)
Definition written_through_accessor : store * mesh_t * option mesh_iterator_t :=
  mesh_set_at cloned.1 cloned.2 (0, 0, 0) (1, 2, 3, 255) seated.2.

(** [v = mesh_new(); mesh_set_at(v, {0,0,0}, {0,0,0,0}, NULL);] *)
Definition transparent_voxel : store * mesh_t :=
  let '(st, v) := mesh_new store0 in
  (mesh_set_at st v (0, 0, 0) (0, 0, 0, 0) None).1.


Definition unit_box : aabox := box_at (0, 0, 0) (1, 1, 1).

(** [v = mesh_new(); mesh_set_at(v, {-30,-30,-30}, {9,9,9,255}, NULL);] *)
Definition far_voxel : store * mesh_t :=
  let '(st, v) := mesh_new store0 in
  (mesh_set_at st v (-30, -30, -30) (9, 9, 9, 255) None).1.

(** An intersecting cube that covers [-40, 40]^3, clipped to [20, 30]^3. *)
Definition intersect_painter : painter_t :=
  {| p_shape := Cube; p_mode := MODE_INTERSECT; p_smoothness := 0%Q;
     p_color := (255, 255, 255, 255); p_symmetry := 0;
     p_box := Some (box_at (25, 25, 25) (5, 5, 5)) |}.

Definition big_box : aabox := box_at (0, 0, 0) (40, 40, 40).

(** A painter with all three mirror symmetries. *)
Definition mirror_painter : painter_t :=
  {| p_shape := Cube; p_mode := MODE_OVER; p_smoothness := 0%Q;
     p_color := (255, 0, 0, 255); p_symmetry := 7; p_box := None |}.

(** [3 * 3 * 3] white voxels. *)
Definition white_buffer : list Z := repeat 255 108.

(** A plane through the origin, with normal along x. *)
Definition x_plane : plane_t :=
  {| plane_p := (0%Q, 0%Q, 0%Q); plane_n := (1%Q, 0%Q, 0%Q) |}.

(** [uint8_t data[4] = {1, 2, 3, 255}; mesh_blit(w, data, 0, 0, 0, 1, 1, 1, &acc);]
    on the clone [w], through the accessor that the read seated. *)
Definition blitted_through_accessor : store * mesh_t * mesh_iterator_t :=
  mesh_blit cloned.1 cloned.2 [1; 2; 3; 255] 0 0 0 1 1 1 seated.2.

(** The box centred at the origin with half sizes 14.5: grown by one, it
    ends at 15.5, between two tile borders. *)
Definition wide_box : aabox :=
  {| bx_sx := (29 # 2)%Q; bx_sy := (29 # 2)%Q; bx_sz := (29 # 2)%Q;
     bx_tx := 0%Q; bx_ty := 0%Q; bx_tz := 0%Q; bx_unit := 1%Q |}.


End Inputs.

(** ** A geometry that converts as C does

    The exact geometry, except for the conversion of an [int] to a
    [float], which rounds to a significand of 24 bits as C's conversion to
    an IEEE single does (to nearest, ties to even; the range of [int] is
    within that of [float]).  Every other operation is left exact. *)
Module Single.

Import Exact.

(** [(float)z] *)
Definition to_single (z : Z) : Z :=
  let a := Z.abs z in
  if a <=? 2 ^ 24 then z
  else
    let e := Z.log2 a - 23 in
    let m := a / 2 ^ e in
    let r := a mod 2 ^ e in
    let half := 2 ^ (e - 1) in
    let m := if (half <? r) || ((r =? half) && Z.odd m) then m + 1 else m in
    Z.sgn z * (m * 2 ^ e).

Definition geometry : Geometry := {|
  float := Q;
  float_of_int := fun z => inject_Z (to_single z);
  fadd := fun a b => Qred (a + b)%Q;
  fsub := fun a b => Qred (a - b)%Q;
  ffloor := Qfloor;
  fceil := Qceiling;
  fround := qround;
  fabs_gt_tenth := fun x => qltb (1 # 10)%Q (Qabs x);
  box_t := aabox;
  mat4_identity := identity;
  mat4_mul := mul;
  mat4_inverted := inverted;
  mat4_scale := scale;
  mat4_grow := grow;
  mat4_mul_vec3 := mul_vec3;
  mat4_set := set_entry;
  box_w := fun a => (bx_sx a, 0%Q, 0%Q);
  box_h := fun a => (0%Q, bx_sy a, 0%Q);
  box_d := fun a => (0%Q, 0%Q, bx_sz a);
  box_p := fun a => (bx_tx a, bx_ty a, bx_tz a);
  box_null := null;
  box_is_null := is_null;
  box_get_bbox := get_bbox;
  bbox_grow := bgrow;
  bbox_intersection := intersection;
  bbox_intersect := intersect;
  box_contains := contains;
  bbox_merge := merge;
  bbox_contains_vec := contains_vec;
  bbox_from_points := from_points;
  shape_t := shape;
  shape_cube := Cube;
  shape_is_cube := fun s => match s with Cube => true | Sphere => false end;
  shape_sample := sample;
|}.

End Single.

(** ** Notions used in the statements *)

Section Notions.

Context {G : Geometry}.

(** The allocator is sound: nothing lives at or beyond [next_addr]. *)
Definition store_wf (st : store) : Prop :=
  ∀ a, (next_addr st ≤ a)%nat → heap st !! a = None.

(** The blocks of the mesh have been allocated. *)
Definition mesh_wf (st : store) (m : mesh_t) : Prop :=
  Forall (fun h => (h < next_addr st)%nat) (m_blocks m).

(** The table of a mesh as its content: the blocks behind the addresses,
    in table order. *)
Definition table (st : store) (m : mesh_t) : list (option block_t) :=
  map (fun h => heap st !! h) (m_blocks m).

(** The two stores agree on every address below [a]. *)
Definition frame_below (a : nat) (st st' : store) : Prop :=
  ∀ h, (h < a)%nat → heap st' !! h = heap st !! h.

(** The blocks of the mesh were all allocated at [a] or later. *)
Definition above (a : nat) (m : mesh_t) : Prop :=
  Forall (fun h => (a ≤ h)%nat) (m_blocks m).

(** No block of the table is entirely transparent. *)
Definition no_empty_block (st : store) (m : mesh_t) : Prop :=
  ∀ h, In h (m_blocks m) → block_is_empty (heap st !! h) false = false.

(** The mesh took its id from the counter between [st] and [st']. *)
Definition bumped (st st' : store) (m' : mesh_t) : Prop :=
  ∃ n, next_uid st ≤ n < next_uid st' ∧ m_id m' = wrap64 n.

(** What every function of [mesh.c] keeps: the store and the mesh stay
    well formed, the allocator and the id counter only grow, and the id of
    the mesh is the old one or one taken from the counter on the way. *)
Definition step_ok (st : store) (m : mesh_t) (st' : store) (m' : mesh_t) : Prop :=
  store_wf st' ∧ mesh_wf st' m'
  ∧ (next_addr st ≤ next_addr st')%nat
  ∧ next_uid st ≤ next_uid st'
  ∧ (m_id m' = m_id m ∨ bumped st st' m').

(** Steps that change blocks but allocate nothing. *)
Definition quiet (f : store → store) : Prop :=
  ∀ st, next_addr (f st) = next_addr st
        ∧ next_uid (f st) = next_uid st
        ∧ (store_wf st → store_wf (f st)).

(** The operations of [mesh.c] that change a mesh. *)
Inductive mutation : Type :=
  | SetAt (pos : pos3) (v : rgba) (iter : option mesh_iterator_t)
  | Clear
  | RemoveEmptyBlocks
  | Apply (painter : painter_t) (box : box_t)
  | Merge (other : mesh_t) (mode : mode_t)
  | Blit (data : list Z) (x y z w h d : Z) (iter : option mesh_iterator_t)
  | Move (mat : box_t)
  | Extrude (plane : plane_t) (box : box_t)
  | ShiftAlpha (v : Z).

Definition mutate (mu : mutation) (st : store) (m : mesh_t) : option (store * mesh_t) :=
  match mu with
  | SetAt pos v iter => Some (mesh_set_at st m pos v iter).1
  | Clear => Some (mesh_clear st m)
  | RemoveEmptyBlocks => Some (mesh_remove_empty_blocks st m)
  | Apply painter box => mesh_op st m painter box
  | Merge other mode => Some (mesh_merge st m other mode)
  | Blit data x y z w h d iter => Some (mesh_blit st m data x y z w h d iter).1
  | Move mat => Some (mesh_move st m mat)
  | Extrude plane box => Some (mesh_extrude st m plane box)
  | ShiftAlpha v => Some (mesh_shift_alpha st m v)
  end.

(** The operations that end with [mesh_remove_empty_blocks] or leave no
    block at all. *)
Definition sweeps (mu : mutation) : bool :=
  match mu with
  | Clear | RemoveEmptyBlocks | Blit _ _ _ _ _ _ _ _ | Move _ | ShiftAlpha _ => true
  | SetAt _ _ _ | Apply _ _ | Merge _ _ | Extrude _ _ => false
  end.


(** [mesh_get_box] read off the content of the table. *)
Definition table_box (tbl : list (option block_t)) (exact : bool) : box_t :=
  fold_left
    (fun ret ob =>
       match ob with
       | Some b => bbox_merge ret (block_get_box b exact)
       | None => ret
       end)
    tbl box_null.

(** For each block of the table, whether its tile box intersects [bbox]. *)
Definition table_box_intersects (bbox : box_t) (st : store) (m : mesh_t) : list bool :=
  omap (fun ob => (fun b => bbox_intersect bbox (block_get_box b false)) <$> ob)
       (table st m).

(** The first block of a table whose origin is [p]. *)
Definition table_find (tbl : list (option block_t)) (p : pos3) : option block_t :=
  match List.find (fun ob => match ob with
                             | Some b => pos3_eqb (b_pos b) p
                             | None => false
                             end) tbl with
  | Some ob => ob
  | None => None
  end.

(** [mesh_get_at] without accessor, read off the content of the table. *)
Definition table_get (tbl : list (option block_t)) (pos : pos3) : rgba :=
  block_get_at (table_find tbl (tile_origin pos)) pos.

(** A block as [mesh_add_block] makes it. *)
Definition new_block_at (p : pos3) (b : block_t) : Prop :=
  ∃ i, b = block_set_id (block_new p) i.

(** A block whose voxels are given by [f] on the world positions. *)
Definition filled_with (f : pos3 → rgba) (b : block_t) : Prop :=
  length (b_voxels b) = cells
  ∧ b_empty b = all_transparent (b_voxels b)
  ∧ ∀ i, (i < cells)%nat → b_voxels b !! i = Some (f (cell_pos (b_pos b) i)).

(** The tile box of the block at [p]. *)
Definition tile_box (p : pos3) : box_t :=
  bbox_from_points (vec3_of_pos p) (vec3_of_pos (pos3_add p N)).

(** The box reaches the voxel at [p] for the loops of [add_blocks]: [p]
    is between the floor of the low corner and the ceiling of the high
    corner, on each axis. *)
Definition covers (box : box_t) (p : pos3) : Prop :=
  let '(x, y, z) := p in
  ffloor (fsub (vx (box_p box)) (vx (box_w box))) ≤ x
  ∧ x ≤ fceil (fadd (vx (box_p box)) (vx (box_w box)))
  ∧ ffloor (fsub (vy (box_p box)) (vy (box_h box))) ≤ y
  ∧ y ≤ fceil (fadd (vy (box_p box)) (vy (box_h box)))
  ∧ ffloor (fsub (vz (box_p box)) (vz (box_d box))) ≤ z
  ∧ z ≤ fceil (fadd (vz (box_p box)) (vz (box_d box))).

Definition pos3_le (a b : pos3) : Prop :=
  let '(ax, ay, az) := a in
  let '(bx, by_, bz) := b in ax ≤ bx ∧ ay ≤ by_ ∧ az ≤ bz.

Definition painter_set_mode (p : painter_t) (m : mode_t) : painter_t :=
  {| p_shape := p_shape p; p_mode := m; p_smoothness := p_smoothness p;
     p_color := p_color p; p_symmetry := p_symmetry p; p_box := p_box p |}.

(** The blocks of the mesh are distinct objects allocated from [a] on, the
    mesh owns its table, and every block satisfies [P]. *)
Definition owned (a : nat) (P : block_t → Prop) (st : store) (m : mesh_t) : Prop :=
  ref_get st (m_ref m) = 1
  ∧ NoDup (m_blocks m)
  ∧ (∀ h, In h (m_blocks m) →
          (a ≤ h < next_addr st)%nat ∧ ∃ b, heap st !! h = Some b ∧ P b).

(** A block on one of the tiles [tiles] whose voxels are transparent
    wherever the brush [k] is 0. *)
Definition painted (tiles : list pos3) (k : pos3 → Q) (b : block_t) : Prop :=
  In (b_pos b) tiles
  ∧ ∀ i v, b_voxels b !! i = Some v → k (cell_pos (b_pos b) i) = 0%Q → alpha v = 0.

(** The block with other voxels and the same flag. *)
Definition set_voxels (b : block_t) (vs : list rgba) : block_t :=
  {| b_voxels := vs; b_empty := b_empty b; b_pos := b_pos b; b_id := b_id b |}.

(** The voxels that [block_fill] writes from a colour function that does
    not depend on the store. *)
Definition fill_voxels (f : pos3 → rgba) (p : pos3) (n : nat) : list rgba :=
  map (fun i => f (cell_pos p i)) (seq 0 n).

(** Run primitive operations of [mesh_op] one after the other. *)
Definition run_ops (ops : list (painter_t * box_t)) (st : store) (mesh : mesh_t)
  : store * mesh_t :=
  fold_left (fun acc op => mesh_op_body (fst acc) (snd acc) (fst op) (snd op))
            ops (st, mesh).

(** The position that receives the [i]-th group of four bytes of a blit:
    [(x + i mod w, y + (i div w) mod h, z + i div (w*h))]. *)
Definition blit_target (x y z w h : Z) (i : nat) : pos3 :=
  let k := Z.of_nat i in
  (x + k mod w, y + (k / w) mod h, z + k / (w * h)).

Definition blit_write (data : list Z) (x y z w h : Z)
    (acc : store * mesh_t * mesh_iterator_t) (i : nat)
  : store * mesh_t * mesh_iterator_t :=
  let '(st, mesh, iter) := acc in
  let '(st, mesh, iter') :=
    mesh_set_at st mesh (blit_target x y z w h i) (read_rgba data (4 * i)%nat)
                (Some iter) in
  (st, mesh, default iter iter').

(** [mesh_blit] as the claim words it: one loop over the groups of the
    buffer, group [i] going to [blit_target i], then the sweep. *)
Definition mesh_blit_by_index (st : store) (mesh : mesh_t) (data : list Z)
    (x y z w h d : Z) (iter : option mesh_iterator_t)
  : store * mesh_t * mesh_iterator_t :=
  let '(st, mesh, iter) :=
    fold_left (blit_write data x y z w h) (seq 0 (Z.to_nat (w * h * d)))
              (st, mesh, default iter_zero iter) in
  let '(st, mesh) := mesh_remove_empty_blocks st mesh in
  (st, mesh, iter).

(** The positions that the loops of [mesh_blit] visit, in order. *)
Definition blit_positions (x y z w h d : Z) : list pos3 :=
  flat_map (fun pz => flat_map (fun py => map (fun px => (px, py, pz)) (zrange x w))
                               (zrange y h))
           (zrange z d).

Definition blit_step_at (data : list Z)
    (acc : store * mesh_t * mesh_iterator_t * nat) (p : pos3)
  : store * mesh_t * mesh_iterator_t * nat :=
  let '(px, py, pz) := p in blit_step data pz py acc px.

End Notions.

(** What [mesh_move] by the identity needs from the vector and matrix
    library: it computes on integer coordinates without error.  (C floats
    do so for coordinates below 2^24.) *)
Class ExactOnIntegers (G : Geometry) : Prop := {
  round_identity : ∀ p : pos3,
    let v := mat4_mul_vec3 (mat4_inverted mat4_identity) (vec3_of_pos p) in
    (fround (vx v), fround (vy v), fround (vz v)) = p;
  from_points_covers : ∀ lo hi p : pos3,
    pos3_le lo p → pos3_le p hi →
    box_is_null (bbox_from_points (vec3_of_pos lo) (vec3_of_pos hi)) = false
    ∧ covers (bbox_from_points (vec3_of_pos lo) (vec3_of_pos hi)) p;
  merge_covers_l : ∀ (a b : box_t) (p : pos3),
    box_is_null a = false → covers a p →
    box_is_null (bbox_merge a b) = false ∧ covers (bbox_merge a b) p;
  merge_covers_r : ∀ (a b : box_t) (p : pos3),
    box_is_null b = false → covers b p →
    box_is_null (bbox_merge a b) = false ∧ covers (bbox_merge a b) p;
  identity_bbox_covers : ∀ (b : box_t) (p : pos3),
    box_is_null b = false → covers b p →
    covers (box_get_bbox (mat4_mul mat4_identity b)) p;
}.


(** ** The shape of a table, and what a write may touch *)

Section Tables.

Context {G : Geometry}.

(** [pos[i] % BLOCK_SIZE == 0] on the three axes, as [mesh_add_block] and
    [add_blocks] assert it (C's [%]). *)
Definition aligned (p : pos3) : Prop :=
  let '(x, y, z) := p in
  Z.rem x BLOCK_SIZE = 0 ∧ Z.rem y BLOCK_SIZE = 0 ∧ Z.rem z BLOCK_SIZE = 0.

(** Every block that is allocated holds [BLOCK_SIZE]^3 voxels and sits on
    a tile origin. *)
Definition heap_ok (st : store) : Prop :=
  ∀ h b, heap st !! h = Some b → length (b_voxels b) = cells ∧ aligned (b_pos b).

(** The table of a mesh is a hash table on the origins: every entry is an
    allocated block, no two blocks have the same origin, and the ids of
    the blocks are distinct and below [next_block_id]. *)
Definition table_ok (st : store) (m : mesh_t) : Prop :=
  Forall (fun ob => ∃ b, ob = Some b ∧ b_id b < m_next_block_id m) (table st m)
  ∧ NoDup (map (fmap b_pos) (table st m))
  ∧ NoDup (map (fmap b_id) (table st m)).

Definition sound (st : store) (m : mesh_t) : Prop :=
  store_wf st ∧ heap_ok st ∧ mesh_wf st m ∧ table_ok st m.

(** A sound mesh whose blocks were all allocated at [a] or later. *)
Definition settled (a : nat) (st : store) (m : mesh_t) : Prop :=
  sound st m ∧ (a ≤ next_addr st)%nat ∧ above a m.

(** A sound mesh that is settled from [a] on, or shares its table while
    nothing has been allocated from [a] on: its next write forks. *)
Definition good (a : nat) (st : store) (m : mesh_t) : Prop :=
  sound st m ∧ (a ≤ next_addr st)%nat
  ∧ (above a m
     ∨ (a = next_addr st ∧ 1 < ref_get st (m_ref m) ∧ (m_ref m < next_addr st)%nat)).

(** The step from [st] to the state [r] wrote nothing below [a] and left
    a settled (a good) mesh. *)
Definition lands (a : nat) (st : store) (r : store * mesh_t) : Prop :=
  settled a r.1 r.2 ∧ frame_below a st r.1.

Definition stays (a : nat) (st : store) (r : store * mesh_t) : Prop :=
  good a r.1 r.2 ∧ frame_below a st r.1.

(** [st'] differs from [st] at most in the voxels of the block at [h]. *)
Definition repaints (h : nat) (st st' : store) : Prop :=
  refs st' = refs st ∧ next_addr st' = next_addr st ∧ next_uid st' = next_uid st
  ∧ (∀ a, a ≠ h → heap st' !! a = heap st !! a)
  ∧ match heap st !! h with
    | None => heap st' !! h = None
    | Some b => ∃ b', heap st' !! h = Some b' ∧ b_pos b' = b_pos b ∧ b_id b' = b_id b
                      ∧ length (b_voxels b') = length (b_voxels b)
    end.

(** A block function that changes voxels only. *)
Definition paints (f : block_t → block_t) : Prop :=
  ∀ b, b_pos (f b) = b_pos b ∧ b_id (f b) = b_id b
       ∧ length (b_voxels (f b)) = length (b_voxels b).

(** The origins of the blocks of the table, in table order. *)
Definition keys (st : store) (m : mesh_t) : list pos3 :=
  omap (fun ob => b_pos <$> ob) (table st m).

(** ** Accessors *)

(** A cached null block is still right: the tile of the accessor has no
    block in the table.  ([mesh_set_at] adds a block on the tile of such
    an accessor without looking it up.) *)
Definition iter_safe (st : store) (m : mesh_t) (iter : option mesh_iterator_t) : Prop :=
  match iter with
  | None => True
  | Some it =>
      it_found it = true → it_block it = None →
      hash_find st (m_blocks m) (it_pos it) = None
  end.

(** The cached block of the accessor, if any, was allocated at [a] or
    later. *)
Definition iter_above (a : nat) (iter : option mesh_iterator_t) : Prop :=
  match iter with
  | None => True
  | Some it => it_found it = true → ∀ h, it_block it = Some h → (a ≤ h)%nat
  end.

(** The accessor caches what a lookup in the table gives now. *)
Definition iter_valid (st : store) (m : mesh_t) (it : mesh_iterator_t) : Prop :=
  it_found it = true → it_block it = hash_find st (m_blocks m) (it_pos it).

(** The accessor can be written through: it is null or not seated, or it
    is valid for a mesh that owns its table (so that the write does not
    fork). *)
Definition iter_ready (st : store) (m : mesh_t) (iter : option mesh_iterator_t) : Prop :=
  match iter with
  | None => True
  | Some it =>
      it_found it = false ∨ (ref_get st (m_ref m) = 1 ∧ iter_valid st m it)
  end.

(** What a mesh reads at [q] after the first [k] groups of a blit were
    written over a mesh that read [old]: a later group overwrites an
    earlier one. *)
Fixpoint blit_reads (data : list Z) (x y z w h : Z) (k : nat) (old : pos3 → rgba)
    (q : pos3) : rgba :=
  match k with
  | O => old q
  | S k =>
      if decide (q = blit_target x y z w h k) then read_rgba data (4 * k)
      else blit_reads data x y z w h k old q
  end.

(** Reads in sequence through one accessor. *)
Fixpoint reads_through (st : store) (m : mesh_t) (ps : list pos3) (it : mesh_iterator_t)
  : list rgba :=
  match ps with
  | [] => []
  | p :: ps =>
      (mesh_get_at st m p (Some it)).1
      :: reads_through st m ps (default it (mesh_get_at st m p (Some it)).2)
  end.

(** Writes in sequence through one accessor:
    [mesh_set_at(mesh, p, v, &iter)] for each [(p, v)] of the list. *)
Fixpoint writes_through (st : store) (m : mesh_t) (ws : list (pos3 * rgba))
    (iter : option mesh_iterator_t) : store * mesh_t * option mesh_iterator_t :=
  match ws with
  | [] => (st, m, iter)
  | (p, v) :: ws =>
      let '(st, m, iter) := mesh_set_at st m p v iter in
      writes_through st m ws iter
  end.

(** ** Iterators

    [mesh_iterator_t] as [mesh_iter_voxels] and [mesh_iter_blocks] use it:
    the fields of the accessor ([block], and [pos] as the local position
    in the block) and [finished]. *)
Record iterator_t : Type := {
  ir_it : mesh_iterator_t;
  ir_finished : bool;
}.

(** [mesh_get_iterator]: [(mesh_iterator_t){0}] *)
Definition mesh_get_iterator (mesh : mesh_t) : iterator_t :=
  {| ir_it := iter_zero; ir_finished := false |}.

(** [mesh_get_accessor]: [(mesh_accessor_t){0}] *)
Definition mesh_get_accessor (mesh : mesh_t) : mesh_iterator_t := iter_zero.

(** [block->hh.next] for a block of the table [bs]: the block that
    follows it, null after the last one.  The outer [None] is a block that
    is not in the table. *)
Fixpoint hash_next (bs : list nat) (h : nat) : option (option nat) :=
  match bs with
  | [] => None
  | a :: rest => if Nat.eqb a h then Some (head rest) else hash_next rest h
  end.

(** [block->data->voxels[i]]; a read outside the array gives 0 here. *)
Definition voxel_at (b : block_t) (i : Z) : rgba :=
  if 0 <=? i then default rgba_zero (b_voxels b !! Z.to_nat i) else rgba_zero.

Definition iterator_at (it : iterator_t) (block : option nat) (pos : pos3) (finished : bool)
  : iterator_t :=
  {| ir_it := {| it_found := it_found (ir_it it); it_block := block; it_pos := pos |};
     ir_finished := finished |}.

(** [mesh_iter_voxels]: the position and the value written to [pos] and
    [value] (nothing when the function returns false), and the iterator
    after the call.  The outer [None] stands for a call that follows a
    pointer to no block of the mesh. *)
Definition mesh_iter_voxels (st : store) (mesh : mesh_t) (it : iterator_t)
  : option (option (pos3 * rgba) * iterator_t) :=
  match m_blocks mesh with
  | [] => Some (None, it)
  | first :: _ =>
      if ir_finished it then Some (None, it)
      else
        let '(block, (x, y, z)) :=
          match it_block (ir_it it) with
          | Some block => (block, it_pos (ir_it it))
          | None => (first, (0, 0, 0))
          end in
        match heap st !! block with
        | None => None
        | Some b =>
            let '(bx, by_, bz) := b_pos b in
            let out := ((x + bx, y + by_, z + bz), voxel_at b (x + y * N + z * N * N)) in
            if x + 1 >=? N then
              if y + 1 >=? N then
                if z + 1 >=? N then
                  match hash_next (m_blocks mesh) block with
                  | None => None
                  | Some next =>
                      Some (Some out,
                            iterator_at it next (0, 0, 0)
                              (match next with
                               | None => true
                               | Some _ => ir_finished it
                               end))
                  end
                else Some (Some out, iterator_at it (Some block) (0, 0, z + 1) (ir_finished it))
              else Some (Some out, iterator_at it (Some block) (0, y + 1, z) (ir_finished it))
            else Some (Some out, iterator_at it (Some block) (x + 1, y, z) (ir_finished it))
        end
  end.

(** [mesh_iter_blocks], called with [data_id = NULL] (the id of the voxel
    data is kept by [block.c]): the block, its origin and its id. *)
Definition mesh_iter_blocks (st : store) (mesh : mesh_t) (it : iterator_t)
  : option (option (nat * pos3 * Z) * iterator_t) :=
  match m_blocks mesh with
  | [] => Some (None, it)
  | first :: _ =>
      if ir_finished it then Some (None, it)
      else
        let block := default first (it_block (ir_it it)) in
        match heap st !! block, hash_next (m_blocks mesh) block with
        | Some b, Some next =>
            Some (Some (block, b_pos b, b_id b),
                  iterator_at it next (it_pos (ir_it it))
                    (match next with
                     | None => true
                     | Some _ => ir_finished it
                     end))
        | _, _ => None
        end
  end.

(** [mesh_get_block_data]: [block->data->voxels] *)
Definition mesh_get_block_data (st : store) (mesh : mesh_t) (block : nat)
  : option (list rgba) :=
  b_voxels <$> heap st !! block.

(** The results of [n] calls in a row, and the iterator after them. *)
Fixpoint run_calls {S A} (step : S → option (option A * S)) (n : nat) (s : S)
  : option (list (option A) * S) :=
  match n with
  | O => Some ([], s)
  | S n =>
      match step s with
      | None => None
      | Some (r, s) =>
          match run_calls step n s with
          | None => None
          | Some (rs, s) => Some (r :: rs, s)
          end
      end
  end.

(** The voxels of a block in the order of its array, with their world
    positions. *)
Definition block_voxels (b : block_t) : list (pos3 * rgba) :=
  map (fun i => (cell_pos (b_pos b) i, default rgba_zero (b_voxels b !! i))) (seq 0 cells).

(** The voxels of the blocks of the table, block after block. *)
Definition all_voxels (st : store) (m : mesh_t) : list (pos3 * rgba) :=
  flat_map (fun h => match heap st !! h with
                     | Some b => block_voxels b
                     | None => []
                     end) (m_blocks m).

(** The entries of the table as [mesh_iter_blocks] gives them. *)
Definition all_blocks (st : store) (m : mesh_t) : list (nat * pos3 * Z) :=
  omap (fun h => (fun b => (h, b_pos b, b_id b)) <$> heap st !! h) (m_blocks m).

(** The accessors of a mutation. *)
Definition mutation_iter (mu : mutation) : option mesh_iterator_t :=
  match mu with
  | SetAt _ _ iter => iter
  | Blit _ _ _ _ _ _ _ iter => iter
  | _ => None
  end.

(** ** Coordinates that the float library keeps *)

(** The three coordinates are between [-B] and [B]. *)
Definition within (B : Z) (p : pos3) : Prop :=
  let '(x, y, z) := p in -B ≤ x ≤ B ∧ -B ≤ y ≤ B ∧ -B ≤ z ≤ B.


(** The boxes that [mesh_get_box] computes on such a volume: the null
    box, the boxes between two integer corners within [B], and what
    [bbox_merge] makes of them. *)
Inductive int_box (B : Z) : box_t → Prop :=
  | int_box_null : int_box B box_null
  | int_box_points (lo hi : pos3) :
      within B lo → within B hi →
      int_box B (bbox_from_points (vec3_of_pos lo) (vec3_of_pos hi))
  | int_box_merge (a b : box_t) :
      int_box B a → int_box B b → int_box B (bbox_merge a b).

End Tables.

(** The laws of [ExactOnIntegers], asked only of integer coordinates
    between [-B] and [B] and of the boxes built from them.  No library on
    C floats meets them for a [B] above 2^24, where the conversion of an
    integer to a float rounds; [Single.geometry], which rounds there as C
    does and nowhere else, meets them for [B] = 2^24. *)
Class ExactWithin (B : Z) (G : Geometry) : Prop := {
  round_identity_within : ∀ p : pos3,
    within B p →
    let v := mat4_mul_vec3 (mat4_inverted mat4_identity) (vec3_of_pos p) in
    (fround (vx v), fround (vy v), fround (vz v)) = p;
  from_points_covers_within : ∀ lo hi p : pos3,
    within B lo → within B hi → pos3_le lo p → pos3_le p hi →
    box_is_null (bbox_from_points (vec3_of_pos lo) (vec3_of_pos hi)) = false
    ∧ covers (bbox_from_points (vec3_of_pos lo) (vec3_of_pos hi)) p;
  merge_covers_l_within : ∀ (a b : box_t) (p : pos3),
    int_box B a → int_box B b → box_is_null a = false → covers a p →
    box_is_null (bbox_merge a b) = false ∧ covers (bbox_merge a b) p;
  merge_covers_r_within : ∀ (a b : box_t) (p : pos3),
    int_box B a → int_box B b → box_is_null b = false → covers b p →
    box_is_null (bbox_merge a b) = false ∧ covers (bbox_merge a b) p;
  identity_bbox_covers_within : ∀ (b : box_t) (p : pos3),
    int_box B b → box_is_null b = false → covers b p →
    covers (box_get_bbox (mat4_mul mat4_identity b)) p;
}.

(** * Facts *)

Section Facts.

Context {G : Geometry}.


(** ** Arithmetic of tiles *)

Lemma c_mod_N (a : Z) : c_mod a N = a mod N.
Proof.
  unfold c_mod, N, BLOCK_SIZE.
  pose proof (Z.quot_rem' a 16) as Hq.
  destruct (Z_lt_le_dec a 0) as [Hneg | Hpos].
  - pose proof (Z.rem_bound_pos_neg a 16 ltac:(lia) ltac:(lia)) as Hb.
    destruct (Z.ltb_spec (Z.rem a 16) 0).
    + apply (Z.mod_unique a 16 (Z.quot a 16 - 1)); lia.
    + apply (Z.mod_unique a 16 (Z.quot a 16)); lia.
  - pose proof (Z.rem_bound_pos a 16 ltac:(lia) ltac:(lia)) as Hb.
    destruct (Z.ltb_spec (Z.rem a 16) 0); [lia |].
    apply (Z.mod_unique a 16 (Z.quot a 16)); lia.
Qed.

Lemma tile_coord_spec (a : Z) :
  let t := a - c_mod a N in t = N * (a / N) ∧ t ≤ a < t + N.
Proof.
  cbv zeta. rewrite c_mod_N. unfold N, BLOCK_SIZE.
  pose proof (Z.div_mod a 16 ltac:(lia)).
  pose proof (Z.mod_pos_bound a 16 ltac:(lia)). lia.
Qed.


Lemma tile_coord_idem (a : Z) :
  let t := a - c_mod a N in t - c_mod t N = t.
Proof.
  cbv zeta. destruct (tile_coord_spec a) as [Ht _]. rewrite Ht.
  rewrite c_mod_N. unfold N, BLOCK_SIZE.
  rewrite Z.mul_comm, Z.mod_mul by lia. lia.
Qed.

Lemma cell_index_tile (p : pos3) :
  ∃ i, cell_index (tile_origin p) p = Some i ∧ (i < cells)%nat
       ∧ cell_pos (tile_origin p) i = p.
Proof.
  destruct p as [[x y] z]. unfold tile_origin, cell_index, cell_pos.
  rewrite !c_mod_N. unfold cells, N, BLOCK_SIZE.
  pose proof (Z.mod_pos_bound x 16 ltac:(lia)).
  pose proof (Z.mod_pos_bound y 16 ltac:(lia)).
  pose proof (Z.mod_pos_bound z 16 ltac:(lia)).
  replace (x - (x - x mod 16)) with (x mod 16) by lia.
  replace (y - (y - y mod 16)) with (y mod 16) by lia.
  replace (z - (z - z mod 16)) with (z mod 16) by lia.
  repeat match goal with
         | |- context [?a <=? ?b] => destruct (Z.leb_spec a b); [| lia]
         | |- context [?a <? ?b] => destruct (Z.ltb_spec a b); [| lia]
         end.
  cbn [andb]. eexists; split; [reflexivity |]. split; [lia |].
  rewrite Z2Nat.id by lia.
  set (a := x mod 16) in *. set (b := y mod 16) in *. set (c := z mod 16) in *.
  assert ((a + b * 16 + c * 16 * 16) mod 16 = a) as ->.
  { replace (a + b * 16 + c * 16 * 16) with (a + (b + c * 16) * 16) by lia.
    rewrite Z.mod_add by lia. apply Z.mod_small; lia. }
  assert ((a + b * 16 + c * 16 * 16) / 16 = b + c * 16) as ->.
  { replace (a + b * 16 + c * 16 * 16) with (a + (b + c * 16) * 16) by lia.
    rewrite Z.div_add by lia. rewrite Z.div_small by lia. lia. }
  assert ((b + c * 16) mod 16 = b) as ->.
  { rewrite Z.mod_add by lia. apply Z.mod_small; lia. }
  assert ((a + b * 16 + c * 16 * 16) / (16 * 16) = c) as ->.
  { replace (a + b * 16 + c * 16 * 16) with (a + b * 16 + c * (16 * 16)) by lia.
    rewrite Z.div_add by lia. rewrite Z.div_small by lia. lia. }
  unfold a, b, c. f_equal; [f_equal |]; lia.
Qed.



(** ** The store *)

Lemma frame_below_refl a st : frame_below a st st.
Proof. intros h _. reflexivity. Qed.

Lemma frame_below_trans a st1 st2 st3 :
  frame_below a st1 st2 → frame_below a st2 st3 → frame_below a st1 st3.
Proof. intros H1 H2 h Hh. rewrite H2, H1; auto. Qed.

Lemma frame_below_le a b st st' :
  (a ≤ b)%nat → frame_below b st st' → frame_below a st st'.
Proof. intros Hab H h Hh. apply H. lia. Qed.

Lemma block_set_id_same (b : block_t) : block_set_id b (b_id b) = b.
Proof. destruct b; reflexivity. Qed.

Lemma fork_step_spec st m block :
  store_wf st → (block < next_addr st)%nat →
  ∃ st', fork_step (st, m) block = (st', hash_add m (next_addr st))
    ∧ store_wf st'
    ∧ next_addr st' = S (next_addr st)
    ∧ next_uid st' = next_uid st
    ∧ refs st' = refs st
    ∧ frame_below (next_addr st) st st'
    ∧ heap st' !! next_addr st = heap st !! block.
Proof.
  intros Hwf Hlt. unfold fork_step, block_copy. cbn.
  destruct (heap st !! block) as [b |] eqn:Hb.
  - cbn. rewrite lookup_insert_ne by lia. rewrite Hb.
    unfold block_update. cbn. rewrite lookup_insert_eq. cbn.
    eexists; split; [reflexivity |]. cbn.
    split_and!; try reflexivity.
    + intros a Ha. cbn in *. rewrite !lookup_insert_ne by lia. apply Hwf. lia.
    + intros h Hh. cbn. rewrite !lookup_insert_ne by lia. reflexivity.
    + rewrite lookup_insert_eq. rewrite block_set_id_same. reflexivity.
  - cbn. rewrite Hb. eexists; split; [reflexivity |]. cbn.
    split_and!; try reflexivity.
    + intros a Ha. cbn in *. apply Hwf. lia.
    + intros h Hh. reflexivity.
    + apply Hwf. lia.
Qed.

Lemma fork_loop_spec blocks : ∀ st m,
  store_wf st → Forall (fun h => (h < next_addr st)%nat) blocks →
  ∃ st' news,
    fold_left fork_step blocks (st, m) = (st', set_blocks m (m_blocks m ++ news))
    ∧ store_wf st'
    ∧ (next_addr st ≤ next_addr st')%nat
    ∧ next_uid st' = next_uid st
    ∧ refs st' = refs st
    ∧ frame_below (next_addr st) st st'
    ∧ Forall (fun h => (next_addr st ≤ h < next_addr st')%nat) news
    ∧ map (fun h => heap st' !! h) news = map (fun h => heap st !! h) blocks.
Proof.
  induction blocks as [| block blocks IH]; intros st m Hwf Hall.
  - exists st, []. cbn. rewrite app_nil_r. destruct m; cbn.
    split_and!; auto using frame_below_refl.
  - inversion Hall as [| ? ? Hlt Hrest]; subst.
    destruct (fork_step_spec st m block Hwf Hlt)
      as (st1 & Hstep & Hwf1 & Ha1 & Hu1 & Hr1 & Hf1 & Hnew).
    cbn [fold_left]. rewrite Hstep.
    destruct (IH st1 (hash_add m (next_addr st)) Hwf1) as
      (st' & news & Hfold & Hwf' & Ha' & Hu' & Hr' & Hf' & Hnews & Hmap).
    { eapply Forall_impl; [exact Hrest |]. cbn. intros; lia. }
    exists st', (next_addr st :: news). rewrite Hfold. cbn.
    rewrite <- app_assoc. cbn.
    split_and!; auto; try congruence; try lia.
    + eapply frame_below_trans; [exact Hf1 |].
      eapply frame_below_le; [| exact Hf']. lia.
    + constructor; [lia |].
      eapply Forall_impl; [exact Hnews |]. cbn. intros; lia.
    + f_equal.
      * rewrite Hf' by lia. exact Hnew.
      * rewrite Hmap. apply map_ext_in. intros h Hin.
        apply Hf1. rewrite Forall_forall in Hrest.
        apply Hrest. apply list_elem_of_In. exact Hin.
Qed.



Lemma prepare_write_spec st m :
  store_wf st → mesh_wf st m →
  ∃ st' m',
    mesh_prepare_write st m = (st', m')
    ∧ store_wf st' ∧ mesh_wf st' m'
    ∧ (next_addr st ≤ next_addr st')%nat
    ∧ next_uid st' = next_uid st + 1
    ∧ m_id m' = wrap64 (next_uid st)
    ∧ m_next_block_id m' = m_next_block_id m
    ∧ frame_below (next_addr st) st st'
    ∧ table st' m' = table st m
    ∧ ref_get st' (m_ref m') = 1
    ∧ (ref_get st (m_ref m) = 1 →
       m_blocks m' = m_blocks m ∧ m_ref m' = m_ref m ∧ heap st' = heap st
       ∧ refs st' = refs st ∧ next_addr st' = next_addr st)
    ∧ (ref_get st (m_ref m) ≠ 1 → above (next_addr st) m').
Proof.
  intros Hwf Hm. unfold mesh_prepare_write.
  change (ref_get (set_next_uid st (next_uid st + 1)) (m_ref (set_id m (wrap64 (next_uid st)))))
    with (ref_get st (m_ref m)).
  destruct (Z.eqb_spec (ref_get st (m_ref m)) 1) as [Heq | Hne].
  - eexists _, _; split; [reflexivity |]. cbn.
    split_and!; auto using frame_below_refl; try done.
  - unfold ref_alloc.
    set (st1 := set_next_addr _ _).
    assert (Hwf1 : store_wf st1).
    { intros a Ha. cbn in *. apply Hwf. lia. }
    assert (Hall : Forall (fun h => (h < next_addr st1)%nat) (m_blocks m)).
    { eapply Forall_impl; [exact Hm |]. cbn. intros; lia. }
    destruct (fork_loop_spec (m_blocks m) st1
                (set_blocks (set_ref (set_id m (wrap64 (next_uid st))) (next_addr st)) [])
                Hwf1 Hall)
      as (st' & news & Hfold & Hwf' & Ha' & Hu' & Hr' & Hf' & Hnews & Hmap).
    cbn [m_blocks set_id set_blocks set_ref] in *.
    eexists _, _; split; [exact Hfold |]. cbn in Ha', Hu', Hnews |- *.
    split_and!.
    + exact Hwf'.
    + unfold mesh_wf. cbn. eapply Forall_impl; [exact Hnews |]. cbn. intros; lia.
    + lia.
    + exact Hu'.
    + reflexivity.
    + reflexivity.
    + eapply frame_below_le; [| exact Hf']. cbn. lia.
    + unfold table. cbn [m_blocks set_blocks app]. rewrite Hmap. reflexivity.
    + unfold ref_get. rewrite Hr'. cbn. rewrite lookup_insert_eq. reflexivity.
    + intros; contradiction.
    + intros _. unfold above. cbn.
      eapply Forall_impl; [exact Hnews |]. cbn. intros; lia.
Qed.


(** ** Allocation and the id counter through [mesh.c] *)

Lemma step_ok_refl st m : store_wf st → mesh_wf st m → step_ok st m st m.
Proof. intros Hs Hm. unfold step_ok. split_and!; auto; lia. Qed.

Lemma step_ok_trans st m st1 m1 st2 m2 :
  step_ok st m st1 m1 → step_ok st1 m1 st2 m2 → step_ok st m st2 m2.
Proof.
  intros (_ & _ & Ha1 & Hu1 & Hid1) (Hs2 & Hm2 & Ha2 & Hu2 & Hid2).
  unfold step_ok. split_and!; auto; try lia.
  destruct Hid2 as [Hsame | (n & Hn & Hw)].
  - destruct Hid1 as [Hsame1 | (n & Hn & Hw)].
    + left. congruence.
    + right. exists n. split; [lia | congruence].
  - right. exists n. split; [lia | exact Hw].
Qed.

Lemma bumped_then st st1 m1 st2 m2 :
  bumped st st1 m1 → step_ok st1 m1 st2 m2 → bumped st st2 m2.
Proof.
  intros (n & Hn & Hw) (_ & _ & _ & Hu & Hid).
  destruct Hid as [Hsame | (n' & Hn' & Hw')].
  - exists n. split; [lia | congruence].
  - exists n'. split; [lia | exact Hw'].
Qed.


Lemma fold_step_ok {A} (step : store * mesh_t → A → store * mesh_t) (l : list A) :
  (∀ st m x, In x l → store_wf st → mesh_wf st m →
             step_ok st m (step (st, m) x).1 (step (st, m) x).2) →
  ∀ st m, store_wf st → mesh_wf st m →
          step_ok st m (fold_left step l (st, m)).1 (fold_left step l (st, m)).2.
Proof.
  induction l as [| x l IH]; intros Hstep st m Hs Hm.
  - apply step_ok_refl; assumption.
  - cbn [fold_left].
    pose proof (Hstep st m x (or_introl eq_refl) Hs Hm) as H1.
    destruct (step (st, m) x) as [st1 m1]. cbn [fst snd] in H1.
    eapply step_ok_trans; [exact H1 |].
    destruct H1 as (Hs1 & Hm1 & _).
    apply IH; auto. intros st' m' y Hy. apply Hstep. right. exact Hy.
Qed.

Lemma prepare_write_ok st m :
  store_wf st → mesh_wf st m →
  step_ok st m (mesh_prepare_write st m).1 (mesh_prepare_write st m).2
  ∧ bumped st (mesh_prepare_write st m).1 (mesh_prepare_write st m).2.
Proof.
  intros Hs Hm.
  destruct (prepare_write_spec st m Hs Hm)
    as (st' & m' & -> & Hs' & Hm' & Ha & Hu & Hid & _).
  cbn [fst snd].
  assert (Hb : bumped st st' m'). { exists (next_uid st). split; [lia | exact Hid]. }
  split; [| exact Hb]. unfold step_ok. split_and!; auto. lia.
Qed.

Lemma block_update_store st h f :
  next_addr (block_update st h f) = next_addr st
  ∧ next_uid (block_update st h f) = next_uid st
  ∧ refs (block_update st h f) = refs st
  ∧ (store_wf st → store_wf (block_update st h f)).
Proof.
  unfold block_update. destruct (heap st !! h) as [b |] eqn:Hb; cbn; split_and!; auto.
  intros Hs a Ha. cbn in *. rewrite lookup_insert_ne; [apply Hs; exact Ha |].
  intros ->. rewrite Hs in Hb by exact Ha. discriminate.
Qed.

Lemma block_update_ok st m h f :
  store_wf st → mesh_wf st m → step_ok st m (block_update st h f) m.
Proof.
  intros Hs Hm. destruct (block_update_store st h f) as (Ha & Hu & _ & Hwf).
  unfold step_ok, mesh_wf in *. rewrite Ha, Hu. split_and!; auto; lia.
Qed.

Lemma hash_del_wf st m h : mesh_wf st m → mesh_wf st (hash_del m h).
Proof.
  unfold mesh_wf, hash_del. cbn. intros Hm.
  rewrite Forall_forall in *. intros x Hx. apply Hm.
  apply list_elem_of_In in Hx. apply filter_In in Hx. apply list_elem_of_In. tauto.
Qed.

Lemma block_delete_wf st h : store_wf st → store_wf (block_delete st h).
Proof.
  intros Hs a Ha. cbn in *.
  destruct (decide (h = a)) as [-> | Hne].
  - apply lookup_delete_eq.
  - rewrite lookup_delete_ne by exact Hne. apply Hs. exact Ha.
Qed.

Lemma delete_ok st m h :
  store_wf st → mesh_wf st m → step_ok st m (block_delete st h) (hash_del m h).
Proof.
  intros Hs Hm. unfold step_ok. split_and!.
  - apply block_delete_wf; assumption.
  - apply (hash_del_wf st); assumption.
  - cbn. lia.
  - cbn. lia.
  - left. reflexivity.
Qed.

Lemma mesh_add_block_ok st m p :
  store_wf st → mesh_wf st m →
  step_ok st m (mesh_add_block st m p).1.1 (mesh_add_block st m p).1.2
  ∧ bumped st (mesh_add_block st m p).1.1 (mesh_add_block st m p).1.2.
Proof.
  intros Hs Hm. unfold mesh_add_block.
  destruct (prepare_write_ok st m Hs Hm) as [Hok Hb].
  destruct (mesh_prepare_write st m) as [st1 m1]. cbn [fst snd] in *.
  destruct Hok as (Hs1 & Hm1 & Ha1 & Hu1 & Hid1).
  assert (Hb' : bumped st
                  (set_heap (set_next_addr st1 (S (next_addr st1)))
                     (<[next_addr st1 := block_set_id (block_new p) (m_next_block_id m1)]>
                        (heap (set_next_addr st1 (S (next_addr st1))))))
                  (hash_add (set_next_block_id m1 (m_next_block_id m1 + 1)) (next_addr st1))).
  { destruct Hb as (n & Hn & Hw). exists n. cbn. split; [lia | exact Hw]. }
  split; [| exact Hb'].
  unfold step_ok. cbn. split_and!.
  - intros a Ha. cbn in *. rewrite lookup_insert_ne by lia. apply Hs1. lia.
  - unfold mesh_wf in *. cbn. apply Forall_app. split.
    + eapply Forall_impl; [exact Hm1 |]. cbn. intros; lia.
    + constructor; [lia | constructor].
  - lia.
  - lia.
  - right. exact Hb'.
Qed.





Lemma delete_all_blocks_ok st m :
  store_wf st → mesh_wf st m →
  step_ok st m (delete_all_blocks st m).1 (delete_all_blocks st m).2.
Proof.
  intros Hs Hm. unfold delete_all_blocks. apply fold_step_ok; auto.
  intros st' m' x _ Hs' Hm'. apply delete_ok; assumption.
Qed.

Lemma mesh_clear_ok st m :
  store_wf st → mesh_wf st m →
  bumped st (mesh_clear st m).1 (mesh_clear st m).2
  ∧ step_ok st m (mesh_clear st m).1 (mesh_clear st m).2.
Proof.
  intros Hs Hm. unfold mesh_clear.
  destruct (prepare_write_ok st m Hs Hm) as [Hok Hb].
  destruct (mesh_prepare_write st m) as [st1 m1]. cbn [fst snd] in *.
  pose proof (delete_all_blocks_ok st1 m1) as H2.
  destruct (delete_all_blocks st1 m1) as [st2 m2]. cbn [fst snd] in *.
  assert (H3 : step_ok st1 m1 st2 (set_next_block_id (set_blocks m2 []) 1)).
  { destruct Hok as (Hs1 & Hm1 & _).
    destruct (H2 Hs1 Hm1) as (Hs2 & Hm2 & Ha & Hu & Hid).
    unfold step_ok. split_and!.
    - exact Hs2.
    - unfold mesh_wf. cbn. constructor.
    - exact Ha.
    - exact Hu.
    - destruct Hid as [Hid | (n & Hn & Hw)]; [left | right; exists n]; cbn; auto. }
  split; [eapply bumped_then | eapply step_ok_trans]; eauto.
Qed.

Lemma quiet_fold {A} (step : store → A → store) (l : list A) :
  (∀ x, quiet (fun st => step st x)) → quiet (fun st => fold_left step l st).
Proof.
  intros Hq. induction l as [| x l IH]; intros st; cbn [fold_left].
  - auto.
  - destruct (Hq x st) as (Ha & Hu & Hw). destruct (IH (step st x)) as (Ha' & Hu' & Hw').
    rewrite Ha', Hu', Ha, Hu. auto.
Qed.





Lemma quiet_block_delete h : quiet (fun st => block_delete st h).
Proof. intros st. cbn. split_and!; auto. apply block_delete_wf. Qed.

Lemma delete_all_blocks_fst l : ∀ st m,
  (fold_left delete_step l (st, m)).1 = fold_left block_delete l st.
Proof.
  induction l as [| h l IH]; intros st m; [reflexivity |].
  cbn [fold_left]. unfold delete_step at 2. apply IH.
Qed.

Lemma quiet_mesh_delete src : quiet (fun st => mesh_delete st src).
Proof.
  intros st. unfold mesh_delete.
  set (st1 := ref_set st _ _).
  destruct (ref_get st1 (m_ref src) =? 0).
  - pose proof (delete_all_blocks_fst (m_blocks src) st1 src) as Hfst.
    unfold delete_all_blocks.
    destruct (fold_left delete_step (m_blocks src) (st1, src)) as [st2 m2].
    cbn [fst] in Hfst. subst st2.
    destruct (quiet_fold block_delete (m_blocks src) quiet_block_delete st1)
      as (Ha & Hu & Hw).
    cbn. cbn in Ha, Hu. rewrite Ha, Hu. split_and!; try reflexivity.
    intros Hs a Hge. cbn. apply Hw; [| cbn in *; lia].
    intros a' Ha'. apply Hs. exact Ha'.
  - cbn. split_and!; auto.
Qed.








Lemma find_or_add_ok st m p :
  store_wf st → mesh_wf st m →
  step_ok st m
    (match hash_find st (m_blocks m) p with
     | Some block => (st, m, block)
     | None => mesh_add_block st m p
     end).1.1
    (match hash_find st (m_blocks m) p with
     | Some block => (st, m, block)
     | None => mesh_add_block st m p
     end).1.2.
Proof.
  intros Hs Hm. destruct (hash_find st (m_blocks m) p).
  - apply step_ok_refl; assumption.
  - apply mesh_add_block_ok; assumption.
Qed.

Lemma mesh_set_at_ok st m pos v iter :
  store_wf st → mesh_wf st m →
  bumped st (mesh_set_at st m pos v iter).1.1 (mesh_set_at st m pos v iter).1.2
  ∧ step_ok st m (mesh_set_at st m pos v iter).1.1 (mesh_set_at st m pos v iter).1.2.
Proof.
  intros Hs Hm. unfold mesh_set_at.
  destruct (prepare_write_ok st m Hs Hm) as [Hok Hb].
  destruct (mesh_prepare_write st m) as [st1 m1]. cbn [fst snd] in *.
  pose proof Hok as (Hs1 & Hm1 & _).
  assert (Hadd : ∀ (r : store * mesh_t * nat), step_ok st1 m1 r.1.1 r.1.2 →
            step_ok st1 m1
              (block_update r.1.1 r.2 (fun b => block_set_at b pos v)) r.1.2).
  { intros [[st2 m2] h] H2. cbn [fst snd] in *.
    eapply step_ok_trans; [exact H2 |].
    destruct H2 as (Hs2 & Hm2 & _). apply block_update_ok; assumption. }
  assert (H2 : step_ok st1 m1 (mesh_set_at_tail st1 m1 pos v iter).1.1
                 (mesh_set_at_tail st1 m1 pos v iter).1.2).
  { unfold mesh_set_at_tail.
    pose proof (find_or_add_ok st1 m1 (tile_origin pos) Hs1 Hm1) as Hf.
    destruct iter as [it |].
    - destruct (it_found it && pos3_eqb (it_pos it) (tile_origin pos)).
      + destruct (it_block it) as [block |].
        * cbn [fst snd]. apply block_update_ok; assumption.
        * pose proof (mesh_add_block_ok st1 m1 (tile_origin pos) Hs1 Hm1) as [Ha _].
          specialize (Hadd _ Ha).
          destruct (mesh_add_block st1 m1 (tile_origin pos)) as [[st2 m2] h].
          exact Hadd.
      + specialize (Hadd _ Hf).
        destruct (match hash_find st1 (m_blocks m1) (tile_origin pos) with
                  | Some block => (st1, m1, block)
                  | None => mesh_add_block st1 m1 (tile_origin pos)
                  end) as [[st2 m2] h]. exact Hadd.
    - specialize (Hadd _ Hf).
      destruct (match hash_find st1 (m_blocks m1) (tile_origin pos) with
                | Some block => (st1, m1, block)
                | None => mesh_add_block st1 m1 (tile_origin pos)
                end) as [[st2 m2] h]. exact Hadd. }
  split; [eapply bumped_then; eauto | eapply step_ok_trans; eauto].
Qed.





Lemma mesh_copy_store st other :
  heap (mesh_copy st other).1 = heap st
  ∧ next_addr (mesh_copy st other).1 = next_addr st
  ∧ next_uid (mesh_copy st other).1 = next_uid st
  ∧ m_blocks (mesh_copy st other).2 = m_blocks other
  ∧ m_id (mesh_copy st other).2 = m_id other
  ∧ m_ref (mesh_copy st other).2 = m_ref other
  ∧ ref_get (mesh_copy st other).1 (m_ref other) = ref_get st (m_ref other) + 1.
Proof.
  unfold mesh_copy, ref_get. cbn. rewrite lookup_insert_eq. cbn. auto 10.
Qed.



(** ** The sweep of empty blocks *)

Lemma sweep_loop l : ∀ st m st' m',
  fold_left sweep_step l (st, m) = (st', m') →
  (∀ h, In h (m_blocks m') → In h (m_blocks m) ∧ heap st' !! h = heap st !! h)
  ∧ (∀ h, In h l → In h (m_blocks m') → block_is_empty (heap st !! h) false = false).
Proof.
  induction l as [| h0 l IH]; intros st m st' m' Hrun.
  - cbn in Hrun. inversion Hrun; subst. split; [auto | intros h []].
  - cbn [fold_left] in Hrun. unfold sweep_step at 2 in Hrun.
    destruct (block_is_empty (heap st !! h0) false) eqn:He.
    + destruct (IH _ _ _ _ Hrun) as [Hin Hne].
      assert (Hkeep : ∀ h, In h (m_blocks m') →
                h ≠ h0 ∧ In h (m_blocks m) ∧ heap st' !! h = heap st !! h).
      { intros h Hh. destruct (Hin h Hh) as [Hh1 Heq]. cbn in Hh1, Heq.
        apply filter_In in Hh1 as [Hh1 Hneq].
        apply negb_true_iff, Nat.eqb_neq in Hneq.
        rewrite lookup_delete_ne in Heq by congruence. auto. }
      split.
      * intros h Hh. destruct (Hkeep h Hh) as (_ & ? & ?). auto.
      * intros h [-> | Hl] Hh.
        -- destruct (Hkeep h Hh) as (Hneq & _). congruence.
        -- destruct (Hkeep h Hh) as (Hneq & _).
           specialize (Hne h Hl Hh). cbn in Hne.
           rewrite lookup_delete_ne in Hne by congruence. exact Hne.
    + destruct (IH _ _ _ _ Hrun) as [Hin Hne]. split; [exact Hin |].
      intros h [-> | Hl] Hh; [exact He | auto].
Qed.

Lemma remove_empty_blocks_sweeps st m :
  no_empty_block (mesh_remove_empty_blocks st m).1 (mesh_remove_empty_blocks st m).2.
Proof.
  unfold mesh_remove_empty_blocks.
  destruct (mesh_prepare_write st m) as [st1 m1].
  destruct (fold_left sweep_step (m_blocks m1) (st1, m1)) as [st2 m2] eqn:Hrun.
  cbn [fst snd]. destruct (sweep_loop _ _ _ _ _ Hrun) as [Hin Hne].
  intros h Hh. destruct (Hin h Hh) as [Hh1 Heq]. rewrite Heq. apply Hne; assumption.
Qed.

Lemma mesh_get_box_table st m exact :
  mesh_get_box st m exact = table_box (table st m) exact.
Proof.
  unfold mesh_get_box, table_box, table.
  generalize (box_null) as acc. induction (m_blocks m) as [| h l IH]; intros acc.
  - reflexivity.
  - cbn [map fold_left]. apply IH.
Qed.

Lemma wrap64_small n : 0 ≤ n < 2 ^ 64 → wrap64 n = n.
Proof. intros Hn. unfold wrap64. apply Z.mod_small. exact Hn. Qed.


(** The state of [mesh_move] right after its call of [mesh_prepare_write]:
    the mesh has a table of its own with the content it had. *)
Lemma mesh_move_fork st m :
  store_wf st → mesh_wf st m →
  ∃ st1 m1,
    mesh_prepare_write (mesh_copy st m).1 m = (st1, m1)
    ∧ table st1 m1 = table st m
    ∧ m_id m1 = wrap64 (next_uid st)
    ∧ store_wf st1 ∧ mesh_wf st1 m1
    ∧ frame_below (next_addr st) st st1
    ∧ (next_addr st ≤ next_addr st1)%nat
    ∧ (0 < ref_get st (m_ref m) → above (next_addr st) m1)
    ∧ ref_get st1 (m_ref m1) = 1.
Proof.
  intros Hs Hm.
  destruct (mesh_copy_store st m) as (Hh & Ha & Hu & Hbl & _ & _ & Hr).
  destruct (mesh_copy st m) as [st0 src]. cbn [fst snd] in *.
  assert (Hs0 : store_wf st0).
  { intros a Hge. rewrite Hh. apply Hs. lia. }
  assert (Hm0 : mesh_wf st0 m).
  { unfold mesh_wf in *. rewrite Ha. exact Hm. }
  destruct (prepare_write_spec st0 m Hs0 Hm0)
    as (st1 & m1 & Hpw & Hs1 & Hm1 & Ha1 & Hu1 & Hid & _ & Hf & Ht & Hone & _ & Hab).
  exists st1, m1. split_and!; auto.
  - rewrite Ht. unfold table. rewrite Hh. reflexivity.
  - rewrite Hid, Hu. reflexivity.
  - intros h Hlt. rewrite Hf by lia. rewrite Hh. reflexivity.
  - lia.
  - intros Hpos. rewrite <- Ha. apply Hab. lia.
Qed.

(** C10: [mesh_move] on a mesh whose exact bounding box is null returns
    with the content of the block table unchanged, and the id of the mesh
    has strictly increased: [mesh_prepare_write] runs before the test. *)
Theorem mesh_move_null_box st m mat :
  store_wf st → mesh_wf st m →
  0 ≤ next_uid st < 2 ^ 64 → m_id m < next_uid st →
  box_is_null (mesh_get_box st m true) = true →
  table (mesh_move st m mat).1 (mesh_move st m mat).2 = table st m
  ∧ m_id m < m_id (mesh_move st m mat).2
  ∧ next_uid (mesh_move st m mat).1 = next_uid st + 1.
Proof.
  intros Hs Hm Hu Hid Hnull.
  destruct (mesh_move_fork st m Hs Hm) as (st1 & m1 & Hpw & Ht & Hid1 & _).
  pose proof (prepare_write_spec (mesh_copy st m).1 m) as Hspec.
  unfold mesh_move.
  destruct (mesh_copy_store st m) as (Hh & Ha & Hu0 & _).
  destruct (mesh_copy st m) as [st0 src]. cbn [fst snd] in *.
  rewrite Hpw.
  rewrite mesh_get_box_table, Ht, <- mesh_get_box_table, Hnull. cbn [fst snd].
  split_and!.
  - exact Ht.
  - rewrite Hid1, wrap64_small; lia.
  - destruct Hspec as (st1' & m1' & Hpw' & _ & _ & _ & Hu1 & _).
    + intros a Hge. rewrite Hh. apply Hs. lia.
    + unfold mesh_wf in *. rewrite Ha. exact Hm.
    + rewrite Hpw in Hpw'. inversion Hpw'; subst. lia.
Qed.


(** C2, as amended: after [mesh_clear], [mesh_blit], [mesh_shift_alpha],
    [mesh_remove_empty_blocks], and after [mesh_move] on a mesh whose exact
    bounding box is not null, no block of the table has all its voxels
    at alpha 0. *)
Theorem no_empty_block_after_sweep mu st m st' m' :
  store_wf st → mesh_wf st m →
  sweeps mu = true →
  (∀ mat, mu = Move mat → box_is_null (mesh_get_box st m true) = false) →
  mutate mu st m = Some (st', m') →
  no_empty_block st' m'.
Proof.
  intros Hs Hm Hsw Hmove Hrun.
  destruct mu; try discriminate Hsw; cbn [mutate] in Hrun;
    inversion Hrun as [Heq]; clear Hrun.
  - (* clear *)
    unfold mesh_clear in Heq.
    destruct (mesh_prepare_write st m) as [st1 m1].
    destruct (delete_all_blocks st1 m1) as [st2 m2].
    inversion Heq; subst. intros h [].
  - pose proof (remove_empty_blocks_sweeps st m) as H. rewrite Heq in H. exact H.
  - unfold mesh_blit in Heq.
    destruct (fold_left _ (zrange z d) _) as [[[st1 m1] it1] off1].
    pose proof (remove_empty_blocks_sweeps st1 m1) as H.
    destruct (mesh_remove_empty_blocks st1 m1) as [st2 m2].
    inversion Heq; subst. exact H.
  - (* move *)
    specialize (Hmove mat eq_refl).
    destruct (mesh_move_fork st m Hs Hm) as (st1 & m1 & Hpw & Ht & _).
    unfold mesh_move in Heq.
    destruct (mesh_copy st m) as [st0 src]. cbn [fst snd] in *.
    rewrite Hpw in Heq.
    rewrite mesh_get_box_table, Ht, <- mesh_get_box_table, Hmove in Heq.
    destruct (mesh_fill st1 m1 _ _) as [st2 m2].
    pose proof (remove_empty_blocks_sweeps (mesh_delete st2 src) m2) as H.
    rewrite Heq in H. exact H.
  - unfold mesh_shift_alpha in Heq.
    destruct (mesh_prepare_write st m) as [st1 m1].
    pose proof (remove_empty_blocks_sweeps
                  (fold_left (shift_step v) (m_blocks m1) st1) m1) as H.
    rewrite Heq in H. exact H.
Qed.

(** ** Reading a mesh through the content of its table *)

Lemma hash_find_table st l p :
  block_at st (hash_find st l p) = table_find (map (fun h => heap st !! h) l) p.
Proof.
  unfold hash_find, table_find. induction l as [| h l IH]; [reflexivity |].
  cbn [List.find map]. destruct (heap st !! h) as [b |] eqn:Hb.
  - destruct (pos3_eqb (b_pos b) p); [cbn; exact Hb | exact IH].
  - exact IH.
Qed.

Lemma mesh_get_at_table st m pos :
  (mesh_get_at st m pos None).1 = table_get (table st m) pos.
Proof. unfold mesh_get_at, table_get, table. cbn. rewrite hash_find_table. reflexivity. Qed.

Lemma pos3_eqb_eq a b : pos3_eqb a b = true ↔ a = b.
Proof.
  destruct a as [[ax ay] az], b as [[bx by_] bz]. unfold pos3_eqb.
  rewrite !andb_true_iff, !Z.eqb_eq. split.
  - intros [[-> ->] ->]. reflexivity.
  - intros H. inversion H. auto.
Qed.

Lemma hash_find_some st l p h :
  hash_find st l p = Some h →
  In h l ∧ ∃ b, heap st !! h = Some b ∧ b_pos b = p.
Proof.
  unfold hash_find. intros Hf. apply find_some in Hf as [Hin Hp].
  split; [exact Hin |]. destruct (heap st !! h) as [b |]; [| discriminate].
  exists b. split; [reflexivity |]. apply pos3_eqb_eq. exact Hp.
Qed.

Lemma hash_find_none st l p h b :
  hash_find st l p = None → In h l → heap st !! h = Some b → b_pos b ≠ p.
Proof.
  unfold hash_find. intros Hf Hin Hb Hp.
  pose proof (find_none _ _ Hf h Hin) as Hn. cbn in Hn. rewrite Hb in Hn.
  apply pos3_eqb_eq in Hp. congruence.
Qed.

(** ** Loops with an invariant on the part already done *)

Lemma fold_left_invariant {S A} (I : list A → S → Prop) (f : S → A → S)
    (l : list A) (s0 : S) :
  I [] s0 →
  (∀ done x s, I done s → In x l → I (done ++ [x]) (f s x)) →
  I l (fold_left f l s0).
Proof.
  intros H0 Hstep.
  assert (Hgen : ∀ rest done s, (∀ x, In x rest → In x l) → I done s →
                                I (done ++ rest) (fold_left f rest s)).
  { induction rest as [| x rest IH]; intros done s Hsub Hd.
    - rewrite app_nil_r. exact Hd.
    - cbn [fold_left].
      replace (done ++ x :: rest) with ((done ++ [x]) ++ rest)
        by (rewrite <- app_assoc; reflexivity).
      apply IH.
      + intros y Hy. apply Hsub. right. exact Hy.
      + apply Hstep; [exact Hd | apply Hsub; left; reflexivity]. }
  apply (Hgen l [] s0); auto.
Qed.

(** ** A mesh that owns its table *)

Lemma prepare_write_unique st m :
  ref_get st (m_ref m) = 1 →
  mesh_prepare_write st m
  = (set_next_uid st (next_uid st + 1), set_id m (wrap64 (next_uid st))).
Proof.
  intros Href. unfold mesh_prepare_write.
  change (ref_get (set_next_uid st (next_uid st + 1)) (m_ref (set_id m (wrap64 (next_uid st)))))
    with (ref_get st (m_ref m)).
  rewrite Href. reflexivity.
Qed.

Lemma mesh_add_block_owned a P st m p :
  owned a P st m → (a ≤ next_addr st)%nat →
  (∀ i, P (block_set_id (block_new p) i)) →
  ∃ st' m' h,
    mesh_add_block st m p = (st', m', h)
    ∧ owned a P st' m'
    ∧ m_blocks m' = m_blocks m ++ [h]
    ∧ (∃ b, heap st' !! h = Some b ∧ new_block_at p b)
    ∧ (next_addr st ≤ next_addr st')%nat
    ∧ (∀ h', h' ≠ next_addr st → heap st' !! h' = heap st !! h')
    ∧ h = next_addr st
    ∧ m_ref m' = m_ref m ∧ refs st' = refs st.
Proof.
  intros (Href & Hnd & Hall) Ha HP. unfold mesh_add_block.
  rewrite (prepare_write_unique st m Href). cbn.
  eexists _, _, _. split; [reflexivity |]. cbn.
  split_and!.
  - split_and!.
    + exact Href.
    + apply NoDup_app. split_and!; [exact Hnd | | apply NoDup_singleton].
      intros h Hh Hh'. apply list_elem_of_In in Hh.
      apply list_elem_of_singleton in Hh'. subst h.
      destruct (Hall _ Hh) as [Hr _]. lia.
    + intros h Hh. apply in_app_or in Hh as [Hh | [<- | []]].
      * destruct (Hall h Hh) as [Hr (b & Hb & HPb)]. cbn.
        split; [lia |]. exists b. rewrite lookup_insert_ne by lia. auto.
      * cbn. split; [lia |]. eexists. rewrite lookup_insert_eq. split; [reflexivity | apply HP].
  - reflexivity.
  - cbn. eexists. rewrite lookup_insert_eq. split; [reflexivity |]. eexists; reflexivity.
  - cbn. lia.
  - cbn. intros h' Hne. rewrite lookup_insert_ne by congruence. reflexivity.
  - reflexivity.
  - reflexivity.
  - reflexivity.
Qed.

Lemma new_block_at_pos p b : new_block_at p b → b_pos b = p.
Proof. intros [i ->]. reflexivity. Qed.

(** [add_blocks] on a mesh that owns an empty table: the table gets one
    new block for each tile of the box. *)
Lemma add_blocks_owned st m box :
  ref_get st (m_ref m) = 1 → m_blocks m = [] →
  ∃ st' m',
    add_blocks st m box = (st', m')
    ∧ owned (next_addr st)
        (fun b => ∃ T, In T (add_blocks_tiles box) ∧ new_block_at T b) st' m'
    ∧ (next_addr st ≤ next_addr st')%nat
    ∧ frame_below (next_addr st) st st'
    ∧ (∀ T, In T (add_blocks_tiles box) →
            ∃ h b, In h (m_blocks m') ∧ heap st' !! h = Some b ∧ new_block_at T b)
    ∧ m_ref m' = m_ref m ∧ refs st' = refs st.
Proof.
  intros Href Hempty. unfold add_blocks.
  set (L := add_blocks_tiles box).
  set (Q := fun b => ∃ T, In T L ∧ new_block_at T b).
  pose (I := fun (done : list pos3) (s : store * mesh_t) =>
               owned (next_addr st) Q s.1 s.2
               ∧ (next_addr st ≤ next_addr s.1)%nat
               ∧ frame_below (next_addr st) st s.1
               ∧ (∀ T, In T done →
                       ∃ h b, In h (m_blocks s.2) ∧ heap s.1 !! h = Some b
                              ∧ new_block_at T b)
               ∧ m_ref s.2 = m_ref m ∧ refs s.1 = refs st).
  assert (HI : I L (fold_left add_blocks_step L (st, m))).
  { apply fold_left_invariant.
    - unfold I. cbn [fst snd]. split_and!; auto using frame_below_refl.
      + unfold owned. rewrite Hempty. split_and!; [exact Href | constructor |].
        intros h [].
      + intros T [].
    - intros done T [st1 m1] (Hown & Ha & Hfr & Hdone & Hr1 & Hr2) HT.
      cbn [fst snd] in *. unfold add_blocks_step, mesh_get_block_at.
      destruct (hash_find st1 (m_blocks m1) T) as [h |] eqn:Hf.
      + unfold I. cbn [fst snd]. split_and!; auto.
        intros T' HT'. apply in_app_or in HT' as [HT' | [<- | []]]; [auto |].
        apply hash_find_some in Hf as (Hin & b & Hb & Hpos).
        exists h, b. split_and!; auto.
        destruct Hown as (_ & _ & Hall).
        destruct (Hall h Hin) as (_ & b' & Hb' & T' & _ & Hnew).
        rewrite Hb in Hb'. inversion Hb'; subst b'.
        pose proof (new_block_at_pos _ _ Hnew) as Hp'. rewrite Hpos in Hp'.
        subst T'. exact Hnew.
      + destruct (mesh_add_block_owned (next_addr st) Q st1 m1 T Hown Ha)
          as (st2 & m2 & h & -> & Hown2 & Hbl & (b & Hb & Hnew) & Ha2 & Hother & Hh & Hr & Hrr).
        { intros i. exists T. split; [exact HT | eexists; reflexivity]. }
        unfold I. cbn [fst snd]. split_and!; auto; try lia; try congruence.
        * intros h' Hlt. rewrite Hother by lia. apply Hfr. exact Hlt.
        * intros T' HT'. apply in_app_or in HT' as [HT' | [<- | []]].
          -- destruct (Hdone T' HT') as (h' & b' & Hin' & Hb' & Hnew').
             exists h', b'. rewrite Hbl. split_and!; auto.
             ++ apply in_or_app. left. exact Hin'.
             ++ rewrite Hother; [exact Hb' |].
                destruct Hown as (_ & _ & Hall). destruct (Hall h' Hin') as [Hr' _]. lia.
          -- exists h, b. rewrite Hbl. split_and!; auto.
             apply in_or_app. right. left. reflexivity. }
  destruct (fold_left add_blocks_step L (st, m)) as [st' m'].
  destruct HI as (Hown & Ha & Hfr & Hdone & Hr1 & Hr2). cbn [fst snd] in *.
  exists st', m'. split_and!; auto.
Qed.

Lemma fold_left_invariant_split {S A} (I : list A → S → Prop) (f : S → A → S)
    (l : list A) (s0 : S) :
  I [] s0 →
  (∀ done x rest s, l = done ++ x :: rest → I done s → I (done ++ [x]) (f s x)) →
  I l (fold_left f l s0).
Proof.
  intros H0 Hstep.
  assert (Hgen : ∀ rest done s, l = done ++ rest → I done s →
                                I (done ++ rest) (fold_left f rest s)).
  { induction rest as [| x rest IH]; intros done s Hl Hd.
    - rewrite app_nil_r. exact Hd.
    - cbn [fold_left].
      replace (done ++ x :: rest) with ((done ++ [x]) ++ rest)
        by (rewrite <- app_assoc; reflexivity).
      apply IH.
      + rewrite <- app_assoc. exact Hl.
      + eapply Hstep; eauto. }
  apply (Hgen l [] s0); auto.
Qed.

Lemma NoDup_split_notin {A} (done rest : list A) (x : A) :
  NoDup (done ++ x :: rest) → ¬ In x done.
Proof.
  intros Hnd Hin. apply NoDup_app in Hnd as (_ & Hdisj & _).
  apply (Hdisj x); [apply list_elem_of_In; exact Hin | left].
Qed.

Lemma hash_del_blocks m x h :
  In h (m_blocks (hash_del m x)) ↔ In h (m_blocks m) ∧ h ≠ x.
Proof.
  unfold hash_del. cbn. rewrite filter_In, negb_true_iff, Nat.eqb_neq. tauto.
Qed.

Lemma hash_del_NoDup m x : NoDup (m_blocks m) → NoDup (m_blocks (hash_del m x)).
Proof.
  unfold hash_del. cbn. intros Hnd.
  apply NoDup_ListNoDup. apply List.NoDup_filter. apply NoDup_ListNoDup. exact Hnd.
Qed.

Lemma mesh_op_no_symmetry st m painter box :
  p_symmetry painter = 0 →
  mesh_op st m painter box = Some (mesh_op_body st m painter box).
Proof.
  intros Hsym. unfold mesh_op. cbn [mesh_op_fuel].
  unfold symmetry_calls. rewrite Hsym. reflexivity.
Qed.

(** ** Painting over a new mesh, then subtracting *)

Lemma scale8_zero_r a : scale8 a 0 = 0.
Proof.
  unfold scale8. replace (Qfloor (inject_Z a * 0)) with 0; [reflexivity |].
  unfold Qfloor, Qmult, inject_Z. cbn. rewrite Z.mul_0_r. reflexivity.
Qed.

Lemma scale8_zero_l k : scale8 0 k = 0.
Proof.
  unfold scale8. replace (Qfloor (inject_Z 0 * k)) with 0; [reflexivity |].
  unfold Qfloor, Qmult, inject_Z. destruct k as [n d]. cbn. reflexivity.
Qed.

Lemma combine_over_clear c k : k = 0%Q → combine MODE_OVER rgba_zero c k = rgba_zero.
Proof.
  intros ->. destruct c as [[[cr cg] cb] ca]. unfold combine, rgba_zero.
  rewrite scale8_zero_r. reflexivity.
Qed.

Lemma combine_sub_alpha s c k :
  (k = 1%Q ∨ (k = 0%Q ∧ alpha s = 0)) → alpha (combine MODE_SUB s c k) = 0.
Proof.
  destruct s as [[[sr sg] sb] sa], c as [[[cr cg] cb] ca]. cbn [combine alpha].
  intros [-> | [-> ->]].
  - apply scale8_zero_r.
  - apply scale8_zero_l.
Qed.

Lemma all_transparent_spec vs :
  all_transparent vs = true ↔ ∀ i v, vs !! i = Some v → alpha v = 0.
Proof.
  unfold all_transparent. rewrite forallb_forall. split.
  - intros H i v Hi. apply Z.eqb_eq, H. apply list_elem_of_In.
    eapply list_elem_of_lookup_2. exact Hi.
  - intros H v Hv. apply Z.eqb_eq. apply list_elem_of_In, list_elem_of_lookup_1 in Hv as [i Hi].
    eauto.
Qed.

Lemma block_update_some st h f b :
  heap st !! h = Some b → block_update st h f = set_heap st (<[h := f b]> (heap st)).
Proof. intros Hb. unfold block_update. rewrite Hb. reflexivity. Qed.

Section OverSub.

Variables (painter : painter_t) (box : box_t) (bbox : box_t).

Let k (q : pos3) : Q := shape_sample (p_shape painter) box (p_smoothness painter) q.
Let tiles : list pos3 := add_blocks_tiles bbox.
Let sub : painter_t := painter_set_mode painter MODE_SUB.

Hypothesis Hover : p_mode painter = MODE_OVER.
Hypothesis Hhard : ∀ q, k q = 0%Q ∨ k q = 1%Q.
Hypothesis Hmeet : ∀ T, In T tiles → bbox_intersect bbox (tile_box T) = true.

Lemma block_op_over_painted T i :
  In T tiles → painted tiles k (block_op (block_set_id (block_new T) i) painter box).
Proof.
  intros HT. split; [exact HT |].
  intros j v Hv Hk. cbn in Hv. rewrite list_lookup_imap in Hv.
  destruct (repeat rgba_zero cells !! j) as [s |] eqn:Hs; [| discriminate].
  cbn in Hv. inversion Hv; subst v.
  apply repeat_lookup_Some in Hs || idtac.
  assert (s = rgba_zero) as ->.
  { apply list_elem_of_lookup_2 in Hs. apply list_elem_of_In, repeat_spec in Hs. exact Hs. }
  rewrite Hover. fold (k (cell_pos T j)). rewrite combine_over_clear by exact Hk.
  reflexivity.
Qed.

Lemma block_op_sub_empty b :
  painted tiles k b → b_empty (block_op b sub box) = true.
Proof.
  intros [_ Hp]. cbn. apply all_transparent_spec.
  intros i v Hv. rewrite list_lookup_imap in Hv.
  destruct (b_voxels b !! i) as [s |] eqn:Hs; [| discriminate].
  cbn in Hv. inversion Hv; subst v. clear Hv.
  apply combine_sub_alpha. fold (k (cell_pos (b_pos b) i)).
  destruct (Hhard (cell_pos (b_pos b) i)) as [H0 | H1]; [right | left; exact H1].
  split; [exact H0 | eauto].
Qed.

(** The loop of [mesh_op] in mode [MODE_OVER] over new blocks. *)
Lemma over_loop a st m :
  owned a (fun b => ∃ T, In T tiles ∧ new_block_at T b) st m →
  ∃ st' m',
    fold_left (mesh_op_block painter box (op_full_box painter box) bbox)
              (m_blocks m) (st, m) = (st', m')
    ∧ owned a (painted tiles k) st' m'.
Proof.
  intros (Href & Hnd & Hall).
  set (l := m_blocks m) in *.
  pose (I := fun (done : list nat) (s : store * mesh_t) =>
               ref_get s.1 (m_ref s.2) = 1
               ∧ NoDup (m_blocks s.2)
               ∧ next_addr s.1 = next_addr st
               ∧ (∀ h, In h (m_blocks s.2) → In h l)
               ∧ (∀ h, In h l → ¬ In h done →
                       In h (m_blocks s.2)
                       ∧ ∃ b, heap s.1 !! h = Some b
                              ∧ ∃ T, In T tiles ∧ new_block_at T b)
               ∧ (∀ h, In h (m_blocks s.2) → In h done →
                       ∃ b, heap s.1 !! h = Some b ∧ painted tiles k b)).
  assert (HI : I l (fold_left (mesh_op_block painter box (op_full_box painter box) bbox)
                      l (st, m))).
  { apply fold_left_invariant_split.
    - unfold I. cbn [fst snd]. split_and!; auto.
      + intros h Hh _. split; [exact Hh |]. destruct (Hall h Hh) as [_ Hb]. exact Hb.
      + intros h _ [].
    - intros done x rest [st1 m1] Hl (Hr1 & Hnd1 & Ha1 & Hsub1 & Hnew1 & Hdone1).
      cbn [fst snd] in *.
      assert (Hx : ¬ In x done).
      { apply (NoDup_split_notin done rest). rewrite <- Hl. exact Hnd. }
      assert (Hxl : In x l).
      { rewrite Hl. apply in_or_app. right. left. reflexivity. }
      destruct (Hnew1 x Hxl Hx) as (Hxm & b & Hb & T & HT & Hnew).
      destruct Hnew as [i ->].
      unfold mesh_op_block. rewrite Hb.
      change (block_get_box (block_set_id (block_new T) i) false) with (tile_box T).
      rewrite (Hmeet T HT). cbn [negb].
      rewrite Hover. cbn [mode_eqb]. rewrite andb_false_r. cbn [andb negb].
      rewrite (block_update_some st1 x _ _ Hb). cbn [heap set_heap].
      rewrite lookup_insert_eq. cbn [block_is_empty].
      assert (Hother : ∀ h, h ≠ x →
                (<[x := block_op (block_set_id (block_new T) i) painter box]> (heap st1))
                  !! h = heap st1 !! h).
      { intros h Hne. apply lookup_insert_ne. congruence. }
      destruct (b_empty (block_op (block_set_id (block_new T) i) painter box)) eqn:He.
      + (* the block stayed empty: it is deleted *)
        unfold I. cbn [fst snd]. split_and!.
        * exact Hr1.
        * apply hash_del_NoDup. exact Hnd1.
        * cbn. exact Ha1.
        * intros h Hh. apply hash_del_blocks in Hh as [Hh _]. auto.
        * intros h Hh Hnot.
          assert (Hne : h ≠ x).
          { intros ->. apply Hnot. apply in_or_app. right. left. reflexivity. }
          destruct (Hnew1 h Hh) as (Hin & b' & Hb' & Hrest).
          { intros Hd. apply Hnot. apply in_or_app. left. exact Hd. }
          split; [apply hash_del_blocks; auto |].
          exists b'. split; [| exact Hrest].
          cbn. rewrite lookup_delete_ne by congruence. rewrite Hother by exact Hne.
          exact Hb'.
        * intros h Hh Hd. apply hash_del_blocks in Hh as [Hh Hne].
          apply in_app_or in Hd as [Hd | [-> | []]]; [| congruence].
          destruct (Hdone1 h Hh Hd) as (b' & Hb' & Hp).
          exists b'. split; [| exact Hp].
          cbn. rewrite lookup_delete_ne by congruence. rewrite Hother by exact Hne.
          exact Hb'.
      + unfold I. cbn [fst snd]. split_and!.
        * exact Hr1.
        * exact Hnd1.
        * cbn. exact Ha1.
        * exact Hsub1.
        * intros h Hh Hnot.
          assert (Hne : h ≠ x).
          { intros ->. apply Hnot. apply in_or_app. right. left. reflexivity. }
          destruct (Hnew1 h Hh) as (Hin & b' & Hb' & Hrest).
          { intros Hd. apply Hnot. apply in_or_app. left. exact Hd. }
          split; [exact Hin |].
          exists b'. split; [| exact Hrest]. cbn. rewrite Hother by exact Hne. exact Hb'.
        * intros h Hh Hd.
          apply in_app_or in Hd as [Hd | [<- | []]].
          -- destruct (decide (h = x)) as [-> | Hne]; [contradiction |].
             destruct (Hdone1 h Hh Hd) as (b' & Hb' & Hp).
             exists b'. split; [| exact Hp]. cbn. rewrite Hother by exact Hne. exact Hb'.
          -- eexists. cbn. rewrite lookup_insert_eq. split; [reflexivity |].
             apply block_op_over_painted. exact HT. }
  destruct (fold_left _ l (st, m)) as [st' m'].
  destruct HI as (Hr & Hnd' & Ha' & Hsub & _ & Hdone). cbn [fst snd] in *.
  exists st', m'. split; [reflexivity |].
  split_and!; auto.
  intros h Hh. split.
  - rewrite Ha'. destruct (Hall h (Hsub h Hh)) as [Hr' _]. exact Hr'.
  - apply Hdone; auto.
Qed.

(** The loop of [mesh_op] in mode [MODE_SUB] over painted blocks: every
    block is deleted. *)
Lemma sub_loop a st m :
  owned a (painted tiles k) st m →
  m_blocks (fold_left (mesh_op_block sub box (op_full_box sub box) bbox)
                      (m_blocks m) (st, m)).2 = [].
Proof.
  intros (Href & Hnd & Hall).
  set (l := m_blocks m) in *.
  pose (I := fun (done : list nat) (s : store * mesh_t) =>
               (∀ h, In h (m_blocks s.2) → In h l ∧ ¬ In h done)
               ∧ (∀ h, In h l → ¬ In h done →
                       ∃ b, heap s.1 !! h = Some b ∧ painted tiles k b)).
  assert (HI : I l (fold_left (mesh_op_block sub box (op_full_box sub box) bbox)
                      l (st, m))).
  { apply fold_left_invariant_split.
    - unfold I. cbn [fst snd]. split.
      + intros h Hh. split; [exact Hh | intros []].
      + intros h Hh _. destruct (Hall h Hh) as [_ Hb]. exact Hb.
    - intros done x rest [st1 m1] Hl (Hsub1 & Hp1). cbn [fst snd] in *.
      assert (Hx : ¬ In x done).
      { apply (NoDup_split_notin done rest). rewrite <- Hl. exact Hnd. }
      assert (Hxl : In x l).
      { rewrite Hl. apply in_or_app. right. left. reflexivity. }
      destruct (Hp1 x Hxl Hx) as (b & Hb & Hpaint).
      assert (Hdel : mesh_op_block sub box (op_full_box sub box) bbox (st1, m1) x
                     = (block_delete st1 x, hash_del m1 x)
                       ∨ mesh_op_block sub box (op_full_box sub box) bbox (st1, m1) x
                         = (block_delete (block_update st1 x (fun b => block_op b sub box)) x,
                            hash_del m1 x)).
      { unfold mesh_op_block. rewrite Hb.
        assert (Hbox : block_get_box b false = tile_box (b_pos b)) by reflexivity.
        rewrite Hbox. rewrite (Hmeet _ (proj1 Hpaint)). cbn [negb].
        destruct (shape_is_cube (p_shape sub) && mode_eqb (p_mode sub) MODE_SUB
                  && box_contains (op_full_box sub box) (tile_box (b_pos b)));
          cbn [negb]; [left; reflexivity | right].
        rewrite (block_update_some st1 x _ _ Hb). cbn [heap set_heap].
        rewrite lookup_insert_eq. cbn [block_is_empty].
        rewrite (block_op_sub_empty b Hpaint). reflexivity. }
      assert (Hheap : ∀ h, h ≠ x →
                heap (mesh_op_block sub box (op_full_box sub box) bbox (st1, m1) x).1 !! h
                = heap st1 !! h).
      { intros h Hne. destruct Hdel as [-> | ->]; cbn [fst].
        - cbn. apply lookup_delete_ne. congruence.
        - cbn. rewrite lookup_delete_ne by congruence.
          rewrite (block_update_some st1 x _ _ Hb). cbn.
          apply lookup_insert_ne. congruence. }
      assert (Hm : (mesh_op_block sub box (op_full_box sub box) bbox (st1, m1) x).2
                   = hash_del m1 x).
      { destruct Hdel as [-> | ->]; reflexivity. }
      unfold I. rewrite Hm. split.
      + intros h Hh. apply hash_del_blocks in Hh as [Hh Hne].
        destruct (Hsub1 h Hh) as [Hin Hnot]. split; [exact Hin |].
        intros Hd. apply in_app_or in Hd as [Hd | [-> | []]]; auto.
      + intros h Hh Hnot.
        assert (Hne : h ≠ x).
        { intros ->. apply Hnot. apply in_or_app. right. left. reflexivity. }
        destruct (Hp1 h Hh) as (b' & Hb' & Hp').
        { intros Hd. apply Hnot. apply in_or_app. left. exact Hd. }
        exists b'. rewrite Hheap by exact Hne. auto. }
  destruct (fold_left _ l (st, m)) as [st' m']. cbn [snd].
  destruct HI as [Hsub _]. cbn [fst snd] in Hsub.
  destruct (m_blocks m') as [| h t]; [reflexivity |].
  destruct (Hsub h (or_introl eq_refl)) as [Hin Hnot]. contradiction.
Qed.

End OverSub.

Lemma mesh_new_owned st :
  ref_get (mesh_new st).1 (m_ref (mesh_new st).2) = 1 ∧ m_blocks (mesh_new st).2 = [].
Proof.
  unfold mesh_new, ref_alloc, ref_get. cbn. rewrite lookup_insert_eq. auto.
Qed.

Lemma owned_after_prepare_write a P st m :
  owned a P st m →
  ∃ st' m', mesh_prepare_write st m = (st', m')
            ∧ owned a P st' m' ∧ m_blocks m' = m_blocks m.
Proof.
  intros (Href & Hnd & Hall). rewrite (prepare_write_unique st m Href).
  eexists _, _. split; [reflexivity |]. split; [| reflexivity].
  split_and!; auto.
Qed.

(** C6, as amended: on a new mesh, painting a shape in mode [MODE_OVER]
    and then the same shape over the same box in mode [MODE_SUB] leaves a
    mesh for which [mesh_is_empty] is true and whose table has no block,
    when the painter has no symmetry and a hard brush (its alpha is 0 or 1
    at every voxel), and every tile that [add_blocks] visits for the
    bounding box of the operation meets that box, as it is for the box of
    extents (1, 1, 1) at the origin.  For a box whose bounding box ends
    close to a tile border, [add_blocks] adds blocks on tiles that the box
    does not meet, and those stay in the table. *)
Theorem over_then_sub_is_empty st painter box :
  p_mode painter = MODE_OVER → p_symmetry painter = 0 →
  (∀ q, shape_sample (p_shape painter) box (p_smoothness painter) q = 0%Q
        ∨ shape_sample (p_shape painter) box (p_smoothness painter) q = 1%Q) →
  (∀ bbox T, op_bbox painter box = Some bbox → In T (add_blocks_tiles bbox) →
             bbox_intersect bbox (tile_box T) = true) →
  ∃ st2 m2 st3 m3,
    mesh_op (mesh_new st).1 (mesh_new st).2 painter box = Some (st2, m2)
    ∧ mesh_op st2 m2 (painter_set_mode painter MODE_SUB) box = Some (st3, m3)
    ∧ mesh_is_empty m3 = true
    ∧ length (m_blocks m3) = 0%nat.
Proof.
  intros Hover Hsym Hhard Hmeet.
  destruct (mesh_new_owned st) as [Href Hempty].
  destruct (mesh_new st) as [st1 m1]. cbn [fst snd] in *.
  rewrite (mesh_op_no_symmetry st1 m1 painter box Hsym).
  assert (Hbb : op_bbox (painter_set_mode painter MODE_SUB) box = op_bbox painter box)
    by reflexivity.
  assert (Hfinish : ∀ m3 : mesh_t, m_blocks m3 = [] →
            mesh_is_empty m3 = true ∧ length (m_blocks m3) = 0%nat).
  { intros m3 H3. unfold mesh_is_empty. rewrite H3. auto. }
  destruct (mesh_op_body st1 m1 painter box) as [st2 m2] eqn:Hbody1.
  destruct (mesh_op_body st2 m2 (painter_set_mode painter MODE_SUB) box)
    as [st3 m3] eqn:Hbody2.
  exists st2, m2, st3, m3. split; [reflexivity |].
  rewrite (mesh_op_no_symmetry st2 m2 (painter_set_mode painter MODE_SUB) box Hsym).
  split; [rewrite Hbody2; reflexivity |].
  apply Hfinish.
  unfold mesh_op_body in Hbody1, Hbody2. rewrite Hbb in Hbody2.
  destruct (op_bbox painter box) as [bbox |] eqn:Hb.
  - rewrite (prepare_write_unique st1 m1 Href) in Hbody1.
    rewrite Hover in Hbody1. cbn [is_constructive mode_eqb orb] in Hbody1.
    destruct (add_blocks_owned (set_next_uid st1 (next_uid st1 + 1))
                (set_id m1 (wrap64 (next_uid st1))) bbox Href Hempty)
      as (sta & ma & Hadd & Hown & _).
    rewrite Hadd in Hbody1.
    destruct (over_loop painter box bbox Hover (fun T HT => Hmeet bbox T eq_refl HT)
                _ sta ma Hown) as (stb & mb & Hloop & Hown2).
    rewrite Hloop in Hbody1. inversion Hbody1; subst stb mb. clear Hbody1.
    destruct (owned_after_prepare_write _ _ st2 m2 Hown2) as (stc & mc & Hpw & Hown3 & Hbl).
    rewrite Hpw in Hbody2. cbn [is_constructive mode_eqb orb painter_set_mode p_mode] in Hbody2.
    pose proof (sub_loop painter box bbox Hhard
                  (fun T HT => Hmeet bbox T eq_refl HT) _ stc mc Hown3) as Hsub.
    change (op_full_box (painter_set_mode painter MODE_SUB) box)
      with (op_full_box painter box) in Hsub.
    change (op_full_box (painter_set_mode painter MODE_SUB) box)
      with (op_full_box painter box) in Hbody2.
    rewrite Hbody2 in Hsub. exact Hsub.
  - inversion Hbody1; subst. inversion Hbody2; subst. exact Hempty.
Qed.

(** ** The tiles that [add_blocks] visits *)




(** ** The exact bounding box reaches every voxel *)

Lemma pos3_le_refl p : pos3_le p p.
Proof. destruct p as [[x y] z]. cbn. lia. Qed.

Lemma pos3_le_trans p q r : pos3_le p q → pos3_le q r → pos3_le p r.
Proof.
  destruct p as [[px py] pz], q as [[qx qy] qz], r as [[rx ry] rz]. cbn. lia.
Qed.

Lemma pos3_min_le a b : pos3_le (pos3_min a b) a ∧ pos3_le (pos3_min a b) b.
Proof. destruct a as [[ax ay] az], b as [[bx by_] bz]. cbn. lia. Qed.

Lemma pos3_max_le a b : pos3_le a (pos3_max a b) ∧ pos3_le b (pos3_max a b).
Proof. destruct a as [[ax ay] az], b as [[bx by_] bz]. cbn. lia. Qed.

Lemma fold_min_le ps : ∀ acc q,
  q = acc ∨ In q ps → pos3_le (fold_left pos3_min ps acc) q.
Proof.
  induction ps as [| a ps IH]; intros acc q Hq.
  - destruct Hq as [-> | []]. apply pos3_le_refl.
  - cbn [fold_left]. destruct Hq as [-> | [-> | Hin]].
    + eapply pos3_le_trans;
        [apply IH; left; reflexivity | apply (proj1 (pos3_min_le acc a))].
    + eapply pos3_le_trans;
        [apply IH; left; reflexivity | apply (proj2 (pos3_min_le acc q))].
    + apply IH. right. exact Hin.
Qed.

Lemma fold_max_le ps : ∀ acc q,
  q = acc ∨ In q ps → pos3_le q (fold_left pos3_max ps acc).
Proof.
  induction ps as [| a ps IH]; intros acc q Hq.
  - destruct Hq as [-> | []]. apply pos3_le_refl.
  - cbn [fold_left]. destruct Hq as [-> | [-> | Hin]].
    + eapply pos3_le_trans;
        [apply (proj1 (pos3_max_le acc a)) | apply IH; left; reflexivity].
    + eapply pos3_le_trans;
        [apply (proj2 (pos3_max_le acc q)) | apply IH; left; reflexivity].
    + apply IH. right. exact Hin.
Qed.

Lemma occupied_In b i v :
  b_voxels b !! i = Some v → alpha v ≠ 0 → In (cell_pos (b_pos b) i) (occupied b).
Proof.
  intros Hv Ha. unfold occupied. apply list_elem_of_In, list_elem_of_omap.
  exists (i, v). split.
  - apply list_elem_of_lookup. exists i. rewrite list_lookup_imap, Hv. reflexivity.
  - destruct (Z.eqb_spec (alpha v) 0); [contradiction | reflexivity].
Qed.

Section Exactness.

Context {E : ExactOnIntegers G}.

Lemma exact_box_covers b i v :
  b_voxels b !! i = Some v → alpha v ≠ 0 →
  box_is_null (block_get_box b true) = false
  ∧ covers (block_get_box b true) (cell_pos (b_pos b) i).
Proof.
  intros Hv Ha. pose proof (occupied_In b i v Hv Ha) as Hin.
  unfold block_get_box. destruct (occupied b) as [| p ps]; [destruct Hin |].
  apply from_points_covers.
  - apply fold_min_le. destruct Hin as [<- | Hin]; auto.
  - eapply pos3_le_trans; [apply fold_max_le; destruct Hin as [<- | Hin]; eauto |].
    destruct (fold_left pos3_max ps p) as [[x y] z]. cbn. lia.
Qed.

Lemma table_box_covers tbl q : ∀ acc,
  (box_is_null acc = false ∧ covers acc q)
  ∨ (∃ b, In (Some b) tbl
          ∧ box_is_null (block_get_box b true) = false
          ∧ covers (block_get_box b true) q) →
  box_is_null
    (fold_left (fun ret ob => match ob with
                              | Some b => bbox_merge ret (block_get_box b true)
                              | None => ret
                              end) tbl acc) = false
  ∧ covers
      (fold_left (fun ret ob => match ob with
                                | Some b => bbox_merge ret (block_get_box b true)
                                | None => ret
                                end) tbl acc) q.
Proof.
  induction tbl as [| ob tbl IH]; intros acc Hacc.
  - destruct Hacc as [Hacc | (b & [] & _)]. exact Hacc.
  - cbn [fold_left]. apply IH.
    destruct Hacc as [[Hn Hc] | (b & [-> | Hin] & Hn & Hc)].
    + left. destruct ob as [b |]; [apply merge_covers_l |]; auto.
    + left. apply merge_covers_r; assumption.
    + right. exists b. auto.
Qed.

End Exactness.

(** ** [block_fill] with a colour function that reads other blocks *)

Lemma set_heap_id st : set_heap st (heap st) = st.
Proof. destruct st; reflexivity. Qed.

Lemma set_voxels_id b : set_voxels b (b_voxels b) = b.
Proof. destruct b; reflexivity. Qed.

Lemma frame_below_insert a st h b :
  (a ≤ h)%nat → frame_below a st (set_heap st (<[h := b]> (heap st))).
Proof. intros Hh h' Hlt. cbn. apply lookup_insert_ne. lia. Qed.

Lemma fill_cells_spec a h get_color F st b :
  heap st !! h = Some b → (a ≤ h)%nat →
  (∀ st' q, frame_below a st st' → get_color st' q = F q) →
  ∀ n, (n ≤ length (b_voxels b))%nat →
  fold_left (fill_cell h get_color) (seq 0 n) st
  = set_heap st (<[h := set_voxels b (fill_voxels F (b_pos b) n ++ drop n (b_voxels b))]>
                   (heap st)).
Proof.
  intros Hb Hh Hstable. induction n as [| n IH]; intros Hn.
  - cbn [seq fold_left fill_voxels map app]. rewrite drop_0, set_voxels_id.
    rewrite insert_id by exact Hb. symmetry. apply set_heap_id.
  - rewrite seq_S, fold_left_app, IH by lia. cbn [fold_left Nat.add].
    unfold fill_cell. unfold block_update. cbn [heap set_heap].
    rewrite lookup_insert_eq. rewrite insert_insert_eq.
    rewrite (Hstable _ _ (frame_below_insert a st h _ Hh)).
    cbn [b_voxels b_pos b_empty b_id set_voxels].
    change (set_heap (set_heap st ?x) ?y) with (set_heap st y).
    unfold set_heap. do 2 f_equal. unfold set_voxels. f_equal.
    unfold fill_voxels. rewrite (seq_S n 0), map_app. cbn [map Nat.add].
    assert (Hlen : length (map (fun i => F (cell_pos (b_pos b) i)) (seq 0 n)) = n).
    { rewrite length_map, length_seq. reflexivity. }
    rewrite insert_app_r_alt by (rewrite Hlen; lia).
    rewrite Hlen, Nat.sub_diag.
    destruct (lookup_lt_is_Some_2 (b_voxels b) n ltac:(lia)) as [y Hy].
    rewrite (drop_S _ _ _ Hy). cbn. rewrite <- app_assoc. reflexivity.
Qed.

Lemma filled_with_fill F b :
  filled_with F (block_with_voxels b (fill_voxels F (b_pos b) cells)).
Proof.
  unfold filled_with, fill_voxels. cbn. split_and!.
  - rewrite length_map, length_seq. reflexivity.
  - reflexivity.
  - intros i Hi. rewrite list_lookup_fmap.
    rewrite lookup_seq_lt by exact Hi. reflexivity.
Qed.

Lemma block_fill_spec a h get_color F st b :
  heap st !! h = Some b → (a ≤ h)%nat → length (b_voxels b) = cells →
  (∀ st' q, frame_below a st st' → get_color st' q = F q) →
  block_fill st h get_color
  = set_heap st (<[h := block_with_voxels b (fill_voxels F (b_pos b) cells)]> (heap st)).
Proof.
  intros Hb Hh Hlen Hstable. unfold block_fill.
  rewrite (fill_cells_spec a h get_color F st b Hb Hh Hstable cells) by lia.
  unfold block_update. cbn [heap set_heap]. rewrite lookup_insert_eq.
  rewrite insert_insert_eq. rewrite drop_ge by lia. rewrite app_nil_r.
  reflexivity.
Qed.

(** The loop of [mesh_fill] over the new blocks of an owned mesh. *)
Lemma fill_loop a get_color F st m tiles :
  owned a (fun b => ∃ T, In T tiles ∧ new_block_at T b) st m →
  (∀ st' q, frame_below a st st' → get_color st' q = F q) →
  ∃ st',
    fold_left (fun st block => block_fill st block get_color) (m_blocks m) st = st'
    ∧ frame_below a st st'
    ∧ next_addr st' = next_addr st ∧ refs st' = refs st
    ∧ (∀ h, In h (m_blocks m) →
            ∃ b0 b, heap st !! h = Some b0 ∧ heap st' !! h = Some b
                    ∧ b_pos b = b_pos b0 ∧ filled_with F b).
Proof.
  intros (Href & Hnd & Hall) Hstable.
  set (l := m_blocks m) in *.
  pose (I := fun (done : list nat) (s : store) =>
               frame_below a st s
               ∧ next_addr s = next_addr st ∧ refs s = refs st
               ∧ (∀ h, In h l → ¬ In h done → heap s !! h = heap st !! h)
               ∧ (∀ h, In h done →
                       ∃ b0 b, heap st !! h = Some b0 ∧ heap s !! h = Some b
                               ∧ b_pos b = b_pos b0 ∧ filled_with F b)).
  assert (HI : I l (fold_left (fun st block => block_fill st block get_color) l st)).
  { apply fold_left_invariant_split.
    - unfold I. split_and!; auto using frame_below_refl. intros h [].
    - intros done x rest s Hl (Hfr & Ha & Hr & Hrest & Hdone).
      assert (Hx : ¬ In x done).
      { apply (NoDup_split_notin done rest). rewrite <- Hl. exact Hnd. }
      assert (Hxl : In x l).
      { rewrite Hl. apply in_or_app. right. left. reflexivity. }
      destruct (Hall x Hxl) as (Hrange & b0 & Hb0 & T & HT & i & Hnew).
      assert (Hbs : heap s !! x = Some b0) by (rewrite Hrest; auto).
      rewrite (block_fill_spec a x get_color F s b0 Hbs); [| lia | |].
      + unfold I. cbn [heap next_addr refs set_heap]. split_and!; auto.
        * eapply frame_below_trans; [exact Hfr |].
          apply frame_below_insert. lia.
        * intros h Hh Hnot.
          assert (Hne : h ≠ x).
          { intros ->. apply Hnot. apply in_or_app. right. left. reflexivity. }
          rewrite lookup_insert_ne by congruence. apply Hrest; auto.
          intros Hd. apply Hnot. apply in_or_app. left. exact Hd.
        * intros h Hd. apply in_app_or in Hd as [Hd | [<- | []]].
          -- destruct (Hdone h Hd) as (c0 & c & Hc0 & Hc & Hpos & Hfill).
             exists c0, c. split_and!; auto.
             rewrite lookup_insert_ne; [exact Hc |]. intros <-. contradiction.
          -- eexists b0, _. rewrite lookup_insert_eq. split_and!; auto.
             apply filled_with_fill.
      + subst b0. cbn. apply length_repeat || apply repeat_length.
      + intros st' q Hst'. apply Hstable.
        eapply frame_below_trans; eauto. }
  eexists. split; [reflexivity |].
  destruct HI as (Hfr & Ha & Hr & _ & Hdone). split_and!; auto.
Qed.

(** ** Deleting a mesh and sweeping, seen on tables *)

Lemma fold_block_delete_heap l : ∀ st h,
  ¬ In h l → heap (fold_left block_delete l st) !! h = heap st !! h.
Proof.
  induction l as [| x l IH]; intros st h Hnot; [reflexivity |].
  cbn [fold_left]. rewrite IH by (intros Hin; apply Hnot; right; exact Hin).
  cbn. apply lookup_delete_ne. intros ->. apply Hnot. left. reflexivity.
Qed.

Lemma mesh_delete_heap st src h :
  ¬ In h (m_blocks src) → heap (mesh_delete st src) !! h = heap st !! h.
Proof.
  intros Hnot. unfold mesh_delete.
  set (st1 := ref_set st _ _).
  destruct (ref_get st1 (m_ref src) =? 0); [| reflexivity].
  pose proof (delete_all_blocks_fst (m_blocks src) st1 src) as Hfst.
  unfold delete_all_blocks.
  destruct (fold_left delete_step (m_blocks src) (st1, src)) as [st2 m2].
  cbn [fst] in Hfst. subst st2. cbn.
  rewrite fold_block_delete_heap by exact Hnot. reflexivity.
Qed.

Lemma sweep_loop_filter l : ∀ st m st' m',
  fold_left sweep_step l (st, m) = (st', m') →
  m_blocks m'
  = List.filter (fun h => negb (existsb (Nat.eqb h) l
                                && block_is_empty (heap st !! h) false))
                (m_blocks m).
Proof.
  induction l as [| h0 l IH]; intros st m st' m' Hrun.
  - cbn in Hrun. inversion Hrun; subst. cbn.
    symmetry. apply forallb_filter_id. apply forallb_forall. reflexivity.
  - cbn [fold_left] in Hrun. unfold sweep_step at 2 in Hrun.
    destruct (block_is_empty (heap st !! h0) false) eqn:He.
    + rewrite (IH _ _ _ _ Hrun). cbn [m_blocks hash_del set_blocks].
      induction (m_blocks m) as [| h t IHt]; [reflexivity |].
      cbn [List.filter existsb]. destruct (Nat.eqb h h0) eqn:Hhh.
      * apply Nat.eqb_eq in Hhh. subst h.
        cbn [negb orb andb]. rewrite He. cbn [negb]. exact IHt.
      * apply Nat.eqb_neq in Hhh.
        cbn [negb]. cbn [List.filter]. cbn [heap block_delete set_heap].
        rewrite lookup_delete_ne by congruence. cbn [orb].
        destruct (negb (existsb (Nat.eqb h) l && block_is_empty (heap st !! h) false));
          [f_equal |]; exact IHt.
    + rewrite (IH _ _ _ _ Hrun).
      apply filter_ext_in. intros h Hh. cbn [existsb].
      destruct (Nat.eqb_spec h h0) as [-> | Hne]; [| reflexivity].
      rewrite He. rewrite !andb_false_r. reflexivity.
Qed.

Lemma map_filter_lookup {A B} (f : A → B) (P : B → bool) (l : list A) :
  map f (List.filter (fun x => P (f x)) l) = List.filter P (map f l).
Proof.
  induction l as [| x l IH]; [reflexivity |].
  cbn. destruct (P (f x)); cbn; rewrite IH; reflexivity.
Qed.

Lemma sweep_table st m :
  store_wf st → mesh_wf st m →
  table (mesh_remove_empty_blocks st m).1 (mesh_remove_empty_blocks st m).2
  = List.filter (fun ob => negb (block_is_empty ob false)) (table st m).
Proof.
  intros Hs Hm. unfold mesh_remove_empty_blocks.
  destruct (prepare_write_spec st m Hs Hm)
    as (st1 & m1 & -> & _ & _ & _ & _ & _ & _ & _ & Ht & _).
  destruct (fold_left sweep_step (m_blocks m1) (st1, m1)) as [st2 m2] eqn:Hrun.
  cbn [fst snd]. rewrite <- Ht. unfold table.
  rewrite (sweep_loop_filter _ _ _ _ _ Hrun).
  destruct (sweep_loop _ _ _ _ _ Hrun) as [Hin _].
  rewrite <- (map_filter_lookup (fun h => heap st1 !! h)
                (fun ob => negb (block_is_empty ob false))).
  assert (Hsame : List.filter
                    (fun h => negb (existsb (Nat.eqb h) (m_blocks m1)
                                    && block_is_empty (heap st1 !! h) false))
                    (m_blocks m1)
                  = List.filter (fun h => negb (block_is_empty (heap st1 !! h) false))
                                (m_blocks m1)).
  { apply filter_ext_in. intros h Hh.
    assert (existsb (Nat.eqb h) (m_blocks m1) = true) as ->.
    { apply existsb_exists. exists h. split; [exact Hh | apply Nat.eqb_refl]. }
    reflexivity. }
  rewrite <- Hsame. apply map_ext_in. intros h Hh.
  rewrite <- (sweep_loop_filter _ _ _ _ _ Hrun) in Hh.
  destruct (Hin h Hh) as [_ Heq]. exact Heq.
Qed.

Lemma table_find_some tbl T b :
  table_find tbl T = Some b → In (Some b) tbl ∧ b_pos b = T.
Proof.
  unfold table_find.
  destruct (List.find _ tbl) as [ob |] eqn:Hf; [| discriminate].
  intros ->. apply find_some in Hf as [Hin Hp]. split; [exact Hin |].
  apply pos3_eqb_eq. exact Hp.
Qed.



Lemma fold_block_delete_store l : ∀ st,
  refs (fold_left block_delete l st) = refs st
  ∧ next_addr (fold_left block_delete l st) = next_addr st.
Proof.
  induction l as [| x l IH]; intros st; [auto |].
  cbn [fold_left]. destruct (IH (block_delete st x)) as [-> ->]. auto.
Qed.

Lemma delete_all_blocks_ref l : ∀ st m,
  m_ref (fold_left delete_step l (st, m)).2 = m_ref m.
Proof.
  induction l as [| x l IH]; intros st m; [reflexivity |].
  cbn [fold_left]. unfold delete_step at 2. rewrite IH. reflexivity.
Qed.

Lemma mesh_clear_unique a st m :
  ref_get st (m_ref m) = 1 → above a m →
  ∃ st' m',
    mesh_clear st m = (st', m')
    ∧ m_blocks m' = []
    ∧ ref_get st' (m_ref m') = 1
    ∧ frame_below a st st'
    ∧ next_addr st' = next_addr st.
Proof.
  intros Href Hab. unfold mesh_clear.
  rewrite (prepare_write_unique st m Href).
  pose proof (delete_all_blocks_fst (m_blocks m) (set_next_uid st (next_uid st + 1))
                (set_id m (wrap64 (next_uid st)))) as Hfst.
  pose proof (delete_all_blocks_ref (m_blocks m) (set_next_uid st (next_uid st + 1))
                (set_id m (wrap64 (next_uid st)))) as Hmref.
  cbn [m_blocks set_id m_ref] in Hmref.
  unfold delete_all_blocks. cbn [m_blocks set_id].
  cbn [m_blocks set_id] in Hfst.
  destruct (fold_left delete_step (m_blocks m) _) as [st2 m2].
  cbn [fst snd] in Hfst, Hmref. subst st2.
  destruct (fold_block_delete_store (m_blocks m) (set_next_uid st (next_uid st + 1)))
    as [Hr Ha].
  eexists _, _. split; [reflexivity |]. cbn [m_blocks set_blocks set_next_block_id m_ref].
  split_and!.
  - reflexivity.
  - unfold ref_get. rewrite Hr. cbn. rewrite Hmref. exact Href.
  - intros h Hlt. rewrite fold_block_delete_heap; [reflexivity |].
    intros Hin. unfold above in Hab. rewrite Forall_forall in Hab.
    apply list_elem_of_In in Hin. specialize (Hab h Hin). lia.
  - rewrite Ha. reflexivity.
Qed.

Lemma occupied_voxel_block tbl p :
  alpha (table_get tbl p) ≠ 0 →
  ∃ b i, In (Some b) tbl ∧ b_pos b = tile_origin p
         ∧ b_voxels b !! i = Some (table_get tbl p)
         ∧ cell_pos (b_pos b) i = p.
Proof.
  unfold table_get. intros Ha.
  destruct (table_find tbl (tile_origin p)) as [b |] eqn:Hf; [| contradiction Ha; reflexivity].
  apply table_find_some in Hf as [Hin Hpos].
  destruct (cell_index_tile p) as (i & Hi & Hlt & Hcp).
  exists b, i. cbn [block_get_at] in *. rewrite Hpos, Hi in *.
  destruct (b_voxels b !! i) as [v |]; [| contradiction Ha; reflexivity].
  cbn in *. auto.
Qed.


(** ** Point access without accessor *)

Lemma get_at_missing_tile st m pos :
  hash_find st (m_blocks m) (tile_origin pos) = None →
  (mesh_get_at st m pos None).1 = rgba_zero.
Proof. intros Hf. unfold mesh_get_at. cbn. rewrite Hf. reflexivity. Qed.

Lemma hash_find_update st l T h b b' :
  hash_find st l T = Some h → heap st !! h = Some b → b_pos b' = b_pos b →
  hash_find (set_heap st (<[h := b']> (heap st))) l T = Some h.
Proof.
  unfold hash_find. intros Hf Hb Hpos.
  induction l as [| a l IH]; [discriminate |].
  cbn [List.find heap set_heap] in *.
  destruct (decide (a = h)) as [-> | Hne].
  - rewrite lookup_insert_eq. rewrite Hb in Hf. rewrite Hpos.
    destruct (pos3_eqb (b_pos b) T) eqn:Hp; [reflexivity |].
    apply find_some in Hf as [_ Hf]. rewrite Hb in Hf. congruence.
  - rewrite lookup_insert_ne by congruence.
    destruct (match heap st !! a with
              | Some b0 => pos3_eqb (b_pos b0) T
              | None => false
              end); [congruence | auto].
Qed.

Lemma block_set_at_get b p c T :
  b_pos b = T → T = tile_origin p → length (b_voxels b) = cells →
  block_get_at (Some (block_set_at b p c)) p = c ∧ b_pos (block_set_at b p c) = b_pos b.
Proof.
  intros Hpos -> Hlen. destruct (cell_index_tile p) as (i & Hi & Hlt & _).
  unfold block_set_at, block_get_at. rewrite Hpos, Hi. cbn. rewrite Hpos, Hi.
  rewrite list_lookup_insert_eq by lia. auto.
Qed.

(** The blocks of the mesh hold [BLOCK_SIZE]^3 voxels each. *)
Lemma set_at_tail_get_at st m p c :
  store_wf st → mesh_wf st m →
  Forall (fun ob => ∀ b, ob = Some b → length (b_voxels b) = cells) (table st m) →
  (mesh_get_at (mesh_set_at_tail st m p c None).1.1
               (mesh_set_at_tail st m p c None).1.2 p None).1 = c.
Proof.
  intros Hs Hm Hsz. unfold mesh_set_at_tail.
  destruct (hash_find st (m_blocks m) (tile_origin p)) as [h |] eqn:Hf.
  - pose proof (hash_find_some _ _ _ _ Hf) as (Hin & b & Hb & Hpos).
    assert (Hlen : length (b_voxels b) = cells).
    { rewrite Forall_forall in Hsz. apply (Hsz (Some b)); [| reflexivity].
      apply list_elem_of_In. unfold table. apply in_map_iff. exists h. auto. }
    destruct (block_set_at_get b p c _ Hpos eq_refl Hlen) as [Hget Hp'].
    cbn [fst snd]. rewrite (block_update_some st h _ b Hb).
    unfold mesh_get_at. cbn [fst].
    rewrite (hash_find_update st _ _ h b _ Hf Hb Hp'). cbn.
    rewrite lookup_insert_eq. exact Hget.
  - destruct (prepare_write_spec st m Hs Hm)
      as (st1 & m1 & Hpw & Hs1 & Hm1 & _ & _ & _ & _ & _ & Ht & _).
    unfold mesh_add_block. rewrite Hpw. cbn [fst snd].
    set (nb := block_set_id (block_new (tile_origin p)) (m_next_block_id m1)).
    set (h := next_addr st1).
    unfold block_update. cbn [heap set_heap set_next_addr]. rewrite lookup_insert_eq.
    cbn [heap set_heap]. rewrite insert_insert_eq.
    destruct (block_set_at_get nb p c (tile_origin p) eq_refl eq_refl) as [Hget Hp'].
    { cbn. apply repeat_length. }
    unfold mesh_get_at. cbn [fst]. cbn [m_blocks hash_add set_blocks set_next_block_id].
    assert (Hfind : hash_find
                      (set_heap (set_next_addr st1 (S h)) (<[h := block_set_at nb p c]> (heap st1)))
                      (m_blocks m1 ++ [h]) (tile_origin p) = Some h).
    { unfold hash_find.
      assert (Hnone : ∀ a, In a (m_blocks m1) →
                 match (<[h := block_set_at nb p c]> (heap st1)) !! a with
                 | Some b0 => pos3_eqb (b_pos b0) (tile_origin p)
                 | None => false
                 end = false).
      { intros a Ha.
        assert (Hlt : (a < h)%nat).
        { unfold mesh_wf in Hm1. rewrite Forall_forall in Hm1.
          apply Hm1, list_elem_of_In, Ha. }
        rewrite lookup_insert_ne by lia.
        destruct (heap st1 !! a) as [b0 |] eqn:Hb0; [| reflexivity].
        destruct (pos3_eqb (b_pos b0) (tile_origin p)) eqn:Hp; [| reflexivity].
        exfalso.
        assert (Htf : table_find (table st1 m1) (tile_origin p) = None).
        { rewrite Ht. unfold table. rewrite <- hash_find_table, Hf. reflexivity. }
        unfold table_find in Htf.
        destruct (List.find _ (table st1 m1)) as [ob |] eqn:Hfind.
        - apply find_some in Hfind as [_ Hq]. subst ob. discriminate Hq.
        - pose proof (find_none _ _ Hfind (Some b0)) as Hn. cbn in Hn.
          rewrite Hn in Hp; [discriminate |].
          unfold table. apply in_map_iff. exists a. auto. }
      cbn [heap set_heap].
      induction (m_blocks m1) as [| a l IHl].
      - cbn. rewrite lookup_insert_eq. rewrite Hp'. cbn.
        destruct (pos3_eqb_eq (tile_origin p) (tile_origin p)) as [_ ->]; reflexivity.
      - cbn [app List.find]. rewrite (Hnone a (or_introl eq_refl)).
        apply IHl. intros a' Ha'. apply Hnone. right. exact Ha'. }
    change (set_heap (set_heap (set_next_addr st1 (S h)) (<[h:=nb]> (heap st1)))
              (<[h:=block_set_at nb p c]> (heap st1)))
      with (set_heap (set_next_addr st1 (S h)) (<[h := block_set_at nb p c]> (heap st1))).
    rewrite Hfind. cbn. rewrite lookup_insert_eq. exact Hget.
Qed.

(** With a null accessor, [mesh_set_at] followed by [mesh_get_at] at the
    same position returns the value written. *)
Lemma set_at_get_at st m p c :
  store_wf st → mesh_wf st m →
  Forall (fun ob => ∀ b, ob = Some b → length (b_voxels b) = cells) (table st m) →
  (mesh_get_at (mesh_set_at st m p c None).1.1 (mesh_set_at st m p c None).1.2 p None).1
  = c.
Proof.
  intros Hs Hm Hsz. unfold mesh_set_at.
  destruct (prepare_write_spec st m Hs Hm)
    as (st1 & m1 & -> & Hs1 & Hm1 & _ & _ & _ & _ & _ & Ht & _).
  apply set_at_tail_get_at; auto. rewrite Ht. exact Hsz.
Qed.

(** With a null accessor, [mesh_set_at] on a clone does not touch the
    blocks of the mesh it was cloned from. *)
Lemma set_at_on_clone_isolated st v p c :
  store_wf st → mesh_wf st v → 0 < ref_get st (m_ref v) →
  table (mesh_set_at (mesh_copy st v).1 (mesh_copy st v).2 p c None).1.1 v = table st v.
Proof.
  intros Hs Hv Href.
  destruct (mesh_copy_store st v) as (Hh0 & Ha & _ & Hbl & _ & Hmr & Hr).
  destruct (mesh_copy st v) as [st0 w]. cbn [fst snd] in *.
  assert (Hs0 : store_wf st0).
  { intros a Hge. rewrite Hh0. apply Hs. lia. }
  assert (Hw0 : mesh_wf st0 w).
  { unfold mesh_wf in *. rewrite Ha, Hbl. exact Hv. }
  unfold mesh_set_at.
  destruct (prepare_write_spec st0 w Hs0 Hw0)
    as (st1 & m1 & -> & Hs1 & Hm1 & Ha1 & _ & _ & _ & Hf1 & _ & _ & _ & Hab).
  assert (Habove : above (next_addr st) m1).
  { rewrite <- Ha. apply Hab. rewrite Hmr, Hr. lia. }
  assert (Hframe : frame_below (next_addr st) st1
                     (mesh_set_at_tail st1 m1 p c None).1.1).
  { unfold mesh_set_at_tail.
    destruct (hash_find st1 (m_blocks m1) (tile_origin p)) as [h |] eqn:Hf.
    - cbn [fst snd]. apply hash_find_some in Hf as (Hin & b & Hb & _).
      rewrite (block_update_some st1 h _ b Hb). apply frame_below_insert.
      unfold above in Habove. rewrite Forall_forall in Habove.
      apply Habove, list_elem_of_In, Hin.
    - destruct (prepare_write_spec st1 m1 Hs1 Hm1)
        as (st2 & m2 & Hpw & _ & _ & Ha2 & _ & _ & _ & Hf2 & _).
      unfold mesh_add_block. rewrite Hpw. cbn [fst snd].
      unfold block_update. cbn [heap set_heap set_next_addr]. rewrite lookup_insert_eq.
      cbn [heap set_heap]. rewrite insert_insert_eq.
      intros h Hlt. cbn. rewrite lookup_insert_ne by lia.
      apply Hf2. lia. }
  unfold table. apply map_ext_in. intros h Hh.
  assert (Hlt : (h < next_addr st)%nat).
  { unfold mesh_wf in Hv. rewrite Forall_forall in Hv. apply Hv, list_elem_of_In, Hh. }
  rewrite Hframe by exact Hlt. rewrite Hf1 by lia. rewrite Hh0. reflexivity.
Qed.


Lemma symmetry_mask_cases (s : Z) :
  0 ≤ s ≤ 7 → s = 0 ∨ s = 1 ∨ s = 2 ∨ s = 3 ∨ s = 4 ∨ s = 5 ∨ s = 6 ∨ s = 7.
Proof. lia. Qed.

(** C5: for a painter whose symmetry mask is in 0..7, [mesh_op] terminates.
    Each call of the symmetry loop is for an axis of the mask, on a painter
    whose mask is smaller and has that axis cleared, and on the box mirrored
    across that axis; the whole expansion is at most 8 primitive
    operations, and [mesh_op] is their composition. *)
Theorem mesh_op_symmetry_expansion st mesh painter box :
  0 ≤ p_symmetry painter ≤ 7 →
  (∀ call, In call (symmetry_calls painter box) →
     ∃ i, (i < 3)%nat
          ∧ has_axis (p_symmetry painter) i = true
          ∧ has_axis (p_symmetry (fst call)) i = false
          ∧ 0 ≤ p_symmetry (fst call) < p_symmetry painter
          ∧ snd call = mirror_box i box)
  ∧ (length (primitive_ops 4 painter box) ≤ 8)%nat
  ∧ mesh_op st mesh painter box
    = Some (run_ops (primitive_ops 4 painter box) st mesh).
Proof.
  intros Hrange. destruct painter as [sh mo sm co sy cl]. cbn in Hrange.
  apply symmetry_mask_cases in Hrange.
  split; [| split].
  - intros call Hin.
    repeat destruct Hrange as [-> | Hrange]; try subst sy;
      cbv - [mirror_box] in Hin;
      repeat (destruct Hin as [<- | Hin]); try contradiction;
      first [ exists 0%nat; split_and!; [lia | reflexivity | reflexivity | cbn; lia | cbn; lia | reflexivity]
            | exists 1%nat; split_and!; [lia | reflexivity | reflexivity | cbn; lia | cbn; lia | reflexivity]
            | exists 2%nat; split_and!; [lia | reflexivity | reflexivity | cbn; lia | cbn; lia | reflexivity] ].
  - repeat destruct Hrange as [-> | Hrange]; try subst sy;
      cbv - [mirror_box Nat.le]; lia.
  - unfold mesh_op, run_ops.
    repeat destruct Hrange as [-> | Hrange]; try subst sy;
      cbv - [mirror_box mesh_op_body];
      repeat match goal with
             | |- context [mesh_op_body ?a ?b ?c ?d] =>
                 is_var a; is_var b; destruct (mesh_op_body a b c d) as [? ?]
             end;
      reflexivity.
Qed.


Lemma seq_offset (a n : nat) : map (fun i => (i + a)%nat) (seq 0 n) = seq a n.
Proof.
  induction n as [| n IH]; [reflexivity |].
  rewrite !seq_S, map_app, IH. cbn. do 2 f_equal. lia.
Qed.

Lemma flat_map_rows {A} (f : nat → A) (n m : nat) :
  flat_map (fun j => map (fun i => f (i + n * j)%nat) (seq 0 n)) (seq 0 m)
  = map f (seq 0 (n * m)).
Proof.
  induction m as [| m IH].
  - rewrite Nat.mul_0_r. reflexivity.
  - rewrite seq_S, flat_map_app, IH. cbn [flat_map]. rewrite app_nil_r.
    replace (n * S m)%nat with (n * m + n)%nat by lia.
    rewrite seq_app, map_app. f_equal. cbn [Nat.add].
    rewrite <- (map_map (fun i => (i + n * m)%nat) f).
    rewrite seq_offset. reflexivity.
Qed.

Lemma fold_left_flat_map {A B C} (f : A → C → A) (g : B → list C) (l : list B) (a : A) :
  fold_left f (flat_map g l) a = fold_left (fun a x => fold_left f (g x) a) l a.
Proof.
  induction l as [| x l IH] in a |- *; [reflexivity |].
  cbn. rewrite fold_left_app. apply IH.
Qed.

Lemma blit_target_decompose (x y z : Z) (W H : nat) (i j k : nat) :
  (i < W)%nat → (j < H)%nat →
  blit_target x y z (Z.of_nat W) (Z.of_nat H) (i + W * j + W * H * k)
  = (x + Z.of_nat i, y + Z.of_nat j, z + Z.of_nat k).
Proof.
  intros Hi Hj. unfold blit_target. cbv zeta.
  replace (Z.of_nat (i + W * j + W * H * k))
    with (Z.of_nat i + (Z.of_nat j + Z.of_nat k * Z.of_nat H) * Z.of_nat W) by lia.
  rewrite Z.mod_add by lia. rewrite Z.div_add by lia.
  rewrite (Z.mod_small (Z.of_nat i)) by lia.
  rewrite (Z.div_small (Z.of_nat i)) by lia.
  rewrite Z.add_0_l. rewrite Z.mod_add by lia.
  rewrite (Z.mod_small (Z.of_nat j)) by lia.
  replace (Z.of_nat i + (Z.of_nat j + Z.of_nat k * Z.of_nat H) * Z.of_nat W)
    with ((Z.of_nat i + Z.of_nat j * Z.of_nat W) + Z.of_nat k * (Z.of_nat W * Z.of_nat H)) by lia.
  rewrite Z.div_add by nia.
  rewrite (Z.div_small (Z.of_nat i + Z.of_nat j * Z.of_nat W)) by nia.
  f_equal.
Qed.

Lemma blit_positions_index (x y z w h d : Z) :
  0 ≤ w → 0 ≤ h → 0 ≤ d →
  blit_positions x y z w h d
  = map (blit_target x y z w h) (seq 0 (Z.to_nat (w * h * d))).
Proof.
  intros Hw Hh Hd.
  rewrite <- (Z2Nat.id w Hw), <- (Z2Nat.id h Hh), <- (Z2Nat.id d Hd).
  generalize (Z.to_nat w) as W, (Z.to_nat h) as H, (Z.to_nat d) as D.
  intros W H D. clear.
  replace (Z.to_nat (Z.of_nat W * Z.of_nat H * Z.of_nat D)) with ((W * H) * D)%nat by lia.
  unfold blit_positions, zrange. rewrite !Nat2Z.id.
  rewrite <- (flat_map_rows (blit_target x y z (Z.of_nat W) (Z.of_nat H)) (W * H) D).
  rewrite flat_map_concat_map, (flat_map_concat_map _ (seq 0 D)).
  rewrite map_map. f_equal. apply map_ext. intros k.
  rewrite <- (flat_map_rows (fun r => blit_target x y z (Z.of_nat W) (Z.of_nat H)
                                       (r + W * H * k)) W H).
  rewrite flat_map_concat_map, (flat_map_concat_map _ (seq 0 H)).
  rewrite map_map. f_equal. apply map_ext_in. intros j Hj.
  apply in_seq in Hj.
  rewrite map_map. apply map_ext_in. intros i Hi. apply in_seq in Hi.
  rewrite blit_target_decompose by lia. reflexivity.
Qed.

Lemma blit_loops_flat (data : list Z) (x y z w h d : Z) acc :
  fold_left
    (fun acc pz =>
       fold_left
         (fun acc py => fold_left (blit_step data pz py) (zrange x w) acc)
         (zrange y h) acc)
    (zrange z d) acc
  = fold_left (blit_step_at data) (blit_positions x y z w h d) acc.
Proof.
  unfold blit_positions. rewrite fold_left_flat_map.
  revert acc. induction (zrange z d) as [| pz l IH]; intros acc; [reflexivity |].
  cbn [fold_left]. rewrite <- IH. f_equal.
  rewrite fold_left_flat_map. clear.
  revert acc. induction (zrange y h) as [| py l IH]; intros acc; [reflexivity |].
  cbn [fold_left]. rewrite <- IH. f_equal.
  clear. revert acc. induction (zrange x w) as [| px l IH]; intros acc; [reflexivity |].
  cbn [fold_left map]. rewrite <- IH. reflexivity.
Qed.

Lemma blit_offsets (data : list Z) (x y z w h : Z) (n : nat) : ∀ (a : nat) s,
  fold_left (blit_step_at data) (map (blit_target x y z w h) (seq a n)) (s, (4 * a)%nat)
  = (fold_left (blit_write data x y z w h) (seq a n) s, (4 * (a + n))%nat).
Proof.
  induction n as [| n IH]; intros a s.
  - cbn. f_equal. lia.
  - cbn [seq map fold_left].
    destruct s as [[st mesh] iter].
    unfold blit_step_at at 2, blit_write at 2.
    destruct (blit_target x y z w h a) as [[px py] pz] eqn:Ht.
    unfold blit_step.
    destruct (mesh_set_at st mesh (px, py, pz) (read_rgba data (4 * a)) (Some iter))
      as [[st' mesh'] iter'].
    replace (4 * a + 4)%nat with (4 * S a)%nat by lia.
    rewrite IH. do 2 f_equal. lia.
Qed.

(** The order of [mesh_blit]: its three loops make, for [i] from 0 to
    [w*h*d - 1] in that order, the call of [mesh_set_at] with the [i]-th
    group of four bytes and [(x + i mod w, y + (i div w) mod h,
    z + i div (w*h))], through the accessor (and then remove the empty
    blocks).  Where each call writes is the matter of [mesh_set_at]. *)
Theorem mesh_blit_order st mesh data x y z w h d iter :
  0 ≤ w → 0 ≤ h → 0 ≤ d →
  mesh_blit st mesh data x y z w h d iter
  = mesh_blit_by_index st mesh data x y z w h d iter.
Proof.
  intros Hw Hh Hd. unfold mesh_blit, mesh_blit_by_index.
  rewrite blit_loops_flat, blit_positions_index by assumption.
  rewrite (blit_offsets data x y z w h _ 0%nat).
  destruct (fold_left _ _ _) as [[st' mesh'] iter']. reflexivity.
Qed.


(** ** Tables stay hash tables, and writes stay in the blocks of the mesh *)

Lemma NoDup_map_filter {A B} (f : A → B) (P : A → bool) (l : list A) :
  NoDup (map f l) → NoDup (map f (List.filter P l)).
Proof.
  induction l as [| x l IH]; cbn; intros Hn; [exact Hn |].
  apply NoDup_cons_1_1 in Hn as Hx. apply NoDup_cons_1_2 in Hn as Hl.
  destruct (P x); cbn; [| auto].
  apply NoDup_cons_2; [| auto].
  intros Hin. apply Hx. apply list_elem_of_In in Hin. apply list_elem_of_In.
  apply in_map_iff in Hin as (y & Hy & Hin). apply in_map_iff. exists y.
  split; [exact Hy |]. apply filter_In in Hin. tauto.
Qed.

Lemma Forall_map_filter {A B} (f : A → B) (P : A → bool) (Q : B → Prop) (l : list A) :
  Forall Q (map f l) → Forall Q (map f (List.filter P l)).
Proof.
  rewrite !Forall_forall. intros H y Hy. apply H.
  apply list_elem_of_In in Hy. apply list_elem_of_In.
  apply in_map_iff in Hy as (x & Hx & Hin). apply in_map_iff. exists x.
  split; [exact Hx |]. apply filter_In in Hin. tauto.
Qed.

Lemma above_In a m h : above a m → In h (m_blocks m) → (a ≤ h)%nat.
Proof.
  unfold above. rewrite Forall_forall. intros H Hin. apply H, list_elem_of_In, Hin.
Qed.

Lemma mesh_wf_In st m h : mesh_wf st m → In h (m_blocks m) → (h < next_addr st)%nat.
Proof.
  unfold mesh_wf. rewrite Forall_forall. intros H Hin. apply H, list_elem_of_In, Hin.
Qed.

Lemma table_ok_In st m h :
  table_ok st m → In h (m_blocks m) →
  ∃ b, heap st !! h = Some b ∧ b_id b < m_next_block_id m.
Proof.
  intros (Hall & _) Hin. rewrite Forall_forall in Hall.
  apply (Hall (heap st !! h)). apply list_elem_of_In. unfold table.
  apply in_map_iff. exists h. auto.
Qed.

(** Two blocks of a table with the same origin are the same entry. *)
Lemma table_ok_key_inj st m h1 h2 b1 b2 :
  table_ok st m → In h1 (m_blocks m) → In h2 (m_blocks m) →
  heap st !! h1 = Some b1 → heap st !! h2 = Some b2 → b_pos b1 = b_pos b2 → h1 = h2.
Proof.
  intros (_ & Hnd & _). unfold table in Hnd. rewrite map_map in Hnd.
  induction (m_blocks m) as [| a l IH]; [intros [] |].
  cbn in Hnd. apply NoDup_cons_1_1 in Hnd as Ha. apply NoDup_cons_1_2 in Hnd as Hl.
  intros [-> | H1] [-> | H2] Hb1 Hb2 Hp; [reflexivity | | | auto].
  - exfalso. apply Ha. apply list_elem_of_In, in_map_iff. exists h2.
    rewrite Hb1, Hb2. cbn. split; [congruence | exact H2].
  - exfalso. apply Ha. apply list_elem_of_In, in_map_iff. exists h1.
    rewrite Hb1, Hb2. cbn. split; [congruence | exact H1].
Qed.

Lemma table_ok_NoDup st m : table_ok st m → NoDup (m_blocks m).
Proof.
  intros (_ & Hnd & _). unfold table in Hnd. rewrite map_map in Hnd.
  apply (NoDup_fmap_1 (fun h => b_pos <$> heap st !! h)). exact Hnd.
Qed.

(** *** Stores that differ in the voxels of one block *)

Lemma repaints_refl h st : repaints h st st.
Proof.
  unfold repaints. split_and!; auto.
  destruct (heap st !! h) as [b |]; [exists b |]; auto.
Qed.

Lemma repaints_trans h st1 st2 st3 :
  repaints h st1 st2 → repaints h st2 st3 → repaints h st1 st3.
Proof.
  intros (Hr1 & Ha1 & Hu1 & Ho1 & Hh1) (Hr2 & Ha2 & Hu2 & Ho2 & Hh2).
  unfold repaints. split_and!; try congruence.
  - intros a Hne. rewrite Ho2, Ho1; auto.
  - destruct (heap st1 !! h) as [b |].
    + destruct Hh1 as (b' & Hb' & Hp & Hi & Hl). rewrite Hb' in Hh2.
      destruct Hh2 as (b'' & Hb'' & Hp' & Hi' & Hl'). exists b''.
      split_and!; congruence.
    + rewrite Hh1 in Hh2. exact Hh2.
Qed.

Lemma block_update_repaints h f st : paints f → repaints h st (block_update st h f).
Proof.
  intros Hf. unfold block_update, repaints.
  destruct (heap st !! h) as [b |] eqn:Hb.
  - cbn. split_and!; auto.
    + intros a Hne. rewrite lookup_insert_ne by congruence. reflexivity.
    + exists (f b). rewrite lookup_insert_eq. destruct (Hf b) as (? & ? & ?). auto.
  - split_and!; auto.
Qed.

Lemma fold_repaints {A} (step : store → A → store) (h : nat) (l : list A) :
  (∀ st x, repaints h st (step st x)) → ∀ st, repaints h st (fold_left step l st).
Proof.
  intros Hstep. induction l as [| x l IH]; intros st; [apply repaints_refl |].
  cbn. eapply repaints_trans; [apply Hstep | apply IH].
Qed.

Lemma block_fill_repaints h get_color st : repaints h st (block_fill st h get_color).
Proof.
  unfold block_fill.
  apply (repaints_trans h st (fold_left (fill_cell h get_color) (seq 0 cells) st)).
  - apply fold_repaints. intros st' i. unfold fill_cell.
    apply block_update_repaints. intros b. cbn. rewrite length_insert. auto.
  - apply block_update_repaints. intros b. cbn. auto.
Qed.

Lemma paints_block_with_voxels (g : block_t → list rgba) :
  (∀ b, length (g b) = length (b_voxels b)) →
  paints (fun b => block_with_voxels b (g b)).
Proof. intros Hg b. cbn. auto. Qed.

Lemma paints_block_op painter box : paints (fun b => block_op b painter box).
Proof. intros b. unfold block_op. cbn. rewrite length_imap. auto. Qed.

Lemma paints_block_merge other mode : paints (fun b => block_merge b other mode).
Proof. intros b. unfold block_merge. cbn. rewrite length_imap. auto. Qed.

Lemma paints_block_shift_alpha v : paints (fun b => block_shift_alpha b v).
Proof. intros b. unfold block_shift_alpha. cbn. rewrite length_map. auto. Qed.

Lemma paints_block_set_at pos v : paints (fun b => block_set_at b pos v).
Proof.
  intros b. unfold block_set_at. destruct (cell_index (b_pos b) pos); cbn; auto.
  rewrite length_insert. auto.
Qed.

Lemma repaints_keys h st st' a :
  repaints h st st' →
  (b_pos <$> heap st' !! a) = (b_pos <$> heap st !! a)
  ∧ (b_id <$> heap st' !! a) = (b_id <$> heap st !! a).
Proof.
  intros (_ & _ & _ & Ho & Hh).
  destruct (decide (a = h)) as [-> | Hne]; [| rewrite Ho by exact Hne; auto].
  destruct (heap st !! h) as [b |].
  - destruct Hh as (b' & -> & Hp & Hi & _). cbn. split; congruence.
  - rewrite Hh. auto.
Qed.

Lemma repaints_table_ok h st st' m : repaints h st st' → table_ok st m → table_ok st' m.
Proof.
  intros Hr (Hall & Hp & Hi). unfold table_ok, table in *.
  rewrite !map_map in *.
  assert (Ep : map (fun x => b_pos <$> heap st' !! x) (m_blocks m)
               = map (fun x => b_pos <$> heap st !! x) (m_blocks m)).
  { apply map_ext. intros a. apply (repaints_keys h st st' a Hr). }
  assert (Ei : map (fun x => b_id <$> heap st' !! x) (m_blocks m)
               = map (fun x => b_id <$> heap st !! x) (m_blocks m)).
  { apply map_ext. intros a. apply (repaints_keys h st st' a Hr). }
  rewrite Ep, Ei. split_and!; auto.
  rewrite Forall_forall in *. intros ob Hob.
  apply list_elem_of_In, in_map_iff in Hob as (a & <- & Ha).
  destruct (Hall (heap st !! a)) as (b & Hb & Hlt).
  { apply list_elem_of_In, in_map_iff. exists a. auto. }
  destruct (repaints_keys h st st' a Hr) as [_ Hid]. rewrite Hb in Hid. cbn in Hid.
  destruct (heap st' !! a) as [b' |]; [| discriminate].
  exists b'. split; [reflexivity |]. cbn in Hid. congruence.
Qed.

Lemma repaints_sound h st st' m : repaints h st st' → sound st m → sound st' m.
Proof.
  intros Hr (Hs & Hh & Hm & Ht).
  pose proof Hr as (Hrefs & Ha & Hu & Ho & Hat).
  unfold sound. split_and!.
  - intros a Hge. rewrite Ha in Hge.
    destruct (decide (a = h)) as [-> | Hne]; [| rewrite Ho by exact Hne; auto].
    rewrite (Hs h Hge) in Hat. exact Hat.
  - intros a b Hb.
    destruct (decide (a = h)) as [-> | Hne]; [| rewrite Ho in Hb by exact Hne; eauto].
    destruct (heap st !! h) as [b0 |] eqn:Hb0; [| congruence].
    destruct Hat as (b' & Hb' & Hp & _ & Hl).
    destruct (Hh h b0 Hb0) as [Hlen Hal]. replace b with b' by congruence.
    rewrite Hp, Hl. auto.
  - unfold mesh_wf in *. rewrite Ha. exact Hm.
  - eapply repaints_table_ok; eauto.
Qed.

Lemma repaints_frame a h st st' : repaints h st st' → (a ≤ h)%nat → frame_below a st st'.
Proof. intros (_ & _ & _ & Ho & _) Hle x Hx. apply Ho. lia. Qed.

Lemma repaints_settled a h st st' m :
  repaints h st st' → (a ≤ h)%nat → settled a st m →
  settled a st' m ∧ frame_below a st st'.
Proof.
  intros Hr Hle (Hsound & Ha & Hab). split; [| eapply repaints_frame; eauto].
  split_and!; [eapply repaints_sound; eauto | | exact Hab].
  destruct Hr as (_ & -> & _). exact Ha.
Qed.

(** *** Deleting a block *)

Lemma table_after_delete st m h :
  table (block_delete st h) (hash_del m h)
  = map (fun a => heap st !! a) (List.filter (fun a => negb (Nat.eqb a h)) (m_blocks m)).
Proof.
  unfold table, hash_del, block_delete. cbn. apply map_ext_in. intros a Ha.
  apply filter_In in Ha as [_ Ha]. apply negb_true_iff, Nat.eqb_neq in Ha.
  rewrite lookup_delete_ne by congruence. reflexivity.
Qed.

Lemma delete_sound st m h :
  sound st m → sound (block_delete st h) (hash_del m h).
Proof.
  intros (Hs & Hh & Hm & (Hall & Hp & Hi)). unfold sound. split_and!.
  - apply block_delete_wf. exact Hs.
  - intros a b Hb. unfold block_delete in Hb. cbn in Hb.
    apply lookup_delete_Some in Hb as [_ Hb]. eauto.
  - apply hash_del_wf. exact Hm.
  - unfold table_ok. rewrite table_after_delete. unfold table in *. split_and!.
    + apply Forall_map_filter. exact Hall.
    + rewrite !map_map in *. apply NoDup_map_filter. exact Hp.
    + rewrite !map_map in *. apply NoDup_map_filter. exact Hi.
Qed.

Lemma delete_settled a st m h :
  settled a st m → (a ≤ h)%nat →
  settled a (block_delete st h) (hash_del m h) ∧ frame_below a st (block_delete st h).
Proof.
  intros (Hsound & Ha & Hab) Hle. split.
  - split_and!; [apply delete_sound; exact Hsound | exact Ha |].
    unfold above in *. rewrite Forall_forall in *. intros x Hx.
    apply list_elem_of_In, hash_del_blocks in Hx as [Hx _].
    apply Hab, list_elem_of_In, Hx.
  - intros x Hx. unfold block_delete. cbn. rewrite lookup_delete_ne by lia. reflexivity.
Qed.

(** *** The copy-on-write fork *)

Lemma heap_ok_insert st h b :
  heap_ok st → length (b_voxels b) = cells → aligned (b_pos b) →
  heap_ok (set_heap st (<[h := b]> (heap st))).
Proof.
  intros Hh Hl Ha a b' Hb'. cbn in Hb'.
  destruct (decide (a = h)) as [-> | Hne].
  - rewrite lookup_insert_eq in Hb'. inversion Hb'. subst b'. auto.
  - rewrite lookup_insert_ne in Hb' by congruence. eauto.
Qed.

Lemma heap_ok_update st h f :
  (∀ b, b_pos (f b) = b_pos b ∧ length (b_voxels (f b)) = length (b_voxels b)) →
  heap_ok st → heap_ok (block_update st h f).
Proof.
  intros Hf Hh. unfold block_update. destruct (heap st !! h) as [b |] eqn:Hb; [| exact Hh].
  destruct (Hh h b Hb) as [Hl Ha]. destruct (Hf b) as [Hp Hl'].
  apply heap_ok_insert; [exact Hh | congruence | rewrite Hp; exact Ha].
Qed.

Lemma fork_step_heap_ok st m block :
  heap_ok st → heap_ok (fork_step (st, m) block).1.
Proof.
  intros Hh. unfold fork_step, block_copy. cbn [heap set_next_addr].
  assert (Hid : ∀ st' i, heap_ok st' →
            heap_ok (block_update st' (next_addr st) (fun nb => block_set_id nb i))).
  { intros st' i. apply heap_ok_update. intros b. cbn. auto. }
  destruct (heap st !! block) as [b |] eqn:Hb; cbn [fst snd].
  - assert (Hc : heap_ok (set_heap (set_next_addr st (S (next_addr st)))
                            (<[next_addr st := b]> (heap st)))).
    { destruct (Hh block b Hb). apply (heap_ok_insert (set_next_addr st _)); auto. }
    lazymatch goal with
    | |- heap_ok (match ?x with _ => _ end) => destruct x
    end; [apply Hid |]; exact Hc.
  - cbn [heap set_next_addr]. rewrite Hb. exact Hh.
Qed.

Lemma fork_loop_heap_ok blocks : ∀ st m,
  heap_ok st → heap_ok (fold_left fork_step blocks (st, m)).1.
Proof.
  induction blocks as [| x l IH]; intros st m Hh; [exact Hh |].
  cbn [fold_left]. destruct (fork_step (st, m) x) as [st1 m1] eqn:E.
  apply IH. change st1 with (st1, m1).1. rewrite <- E. apply fork_step_heap_ok, Hh.
Qed.

Lemma prepare_write_heap_ok st m : heap_ok st → heap_ok (mesh_prepare_write st m).1.
Proof.
  intros Hh. unfold mesh_prepare_write.
  destruct (_ =? 1); [exact Hh |].
  cbn [ref_alloc]. apply fork_loop_heap_ok. exact Hh.
Qed.

(** [mesh_prepare_write] settles a good mesh and keeps the content of its
    table. *)
Lemma prepare_write_good a st m :
  good a st m →
  settled a (mesh_prepare_write st m).1 (mesh_prepare_write st m).2
  ∧ frame_below a st (mesh_prepare_write st m).1
  ∧ table (mesh_prepare_write st m).1 (mesh_prepare_write st m).2 = table st m
  ∧ m_next_block_id (mesh_prepare_write st m).2 = m_next_block_id m.
Proof.
  intros ((Hs & Hh & Hm & Ht) & Ha & Hiso).
  pose proof (prepare_write_heap_ok st m Hh) as Hh1.
  destruct (prepare_write_spec st m Hs Hm)
    as (st1 & m1 & E & Hs1 & Hm1 & Ha1 & _ & _ & Hnb & Hf & Htab & _ & Huniq & Hfork).
  rewrite E in *. cbn [fst snd] in *.
  split_and!; auto.
  - split_and!; [split_and!; auto | lia |].
    + unfold table_ok. rewrite Htab, Hnb. exact Ht.
    + destruct (decide (ref_get st (m_ref m) = 1)) as [H1 | H1].
      * destruct (Huniq H1) as (Hbl & _). unfold above. rewrite Hbl.
        destruct Hiso as [Hab | (_ & Hlt & _)]; [exact Hab | lia].
      * specialize (Hfork H1). unfold above in *. rewrite Forall_forall in *.
        intros x Hx. specialize (Hfork x Hx). cbn in Hfork. lia.
  - eapply frame_below_le; [| exact Hf]. exact Ha.
Qed.

(** *** Tile origins are aligned *)

Lemma aligned_coord a : Z.rem (a - c_mod a N) BLOCK_SIZE = 0.
Proof.
  pose proof (tile_coord_spec a) as H. cbv zeta in H. destruct H as [E _].
  rewrite E. unfold N. rewrite Z.mul_comm. apply Z.rem_mul. unfold BLOCK_SIZE. lia.
Qed.

Lemma aligned_tile_origin p : aligned (tile_origin p).
Proof. destruct p as [[x y] z]. cbn. split_and!; apply aligned_coord. Qed.

Lemma tile_steps_aligned i ib t :
  In t (tile_steps (i - c_mod i N) ib) → Z.rem t BLOCK_SIZE = 0.
Proof.
  unfold tile_steps. destruct (_ <? _); [intros [] |].
  intros Hin. apply in_map_iff in Hin as (k & <- & _).
  pose proof (tile_coord_spec i) as H. cbv zeta in H. destruct H as [E _].
  rewrite E.
  replace (N * (i / N) + N * Z.of_nat k) with ((i / N + Z.of_nat k) * BLOCK_SIZE)
    by (unfold N; lia).
  apply Z.rem_mul. unfold BLOCK_SIZE. lia.
Qed.

Lemma add_blocks_tiles_aligned box T : In T (add_blocks_tiles box) → aligned T.
Proof.
  unfold add_blocks_tiles. intros Hin. apply list_elem_of_In in Hin.
  apply list_elem_of_bind in Hin as (z & Hin & Hz).
  apply list_elem_of_bind in Hin as (y & Hin & Hy).
  apply list_elem_of_bind in Hin as (x & Hin & Hx).
  apply list_elem_of_singleton in Hin. subst T.
  apply list_elem_of_In in Hx, Hy, Hz.
  cbn. split_and!; eapply tile_steps_aligned; eassumption.
Qed.

(** *** Lookups and the content of the table *)

Lemma hash_find_none_table st st' l l' p :
  map (fun h => heap st' !! h) l' = map (fun h => heap st !! h) l →
  hash_find st l p = None → hash_find st' l' p = None.
Proof.
  intros Ht Hf.
  destruct (hash_find st' l' p) as [h |] eqn:Hf'; [| reflexivity].
  exfalso. pose proof (hash_find_table st' l' p) as H1.
  pose proof (hash_find_table st l p) as H2.
  rewrite Ht in H1. rewrite <- H2, Hf, Hf' in H1. cbn in H1.
  apply hash_find_some in Hf' as (_ & b & Hb & _). congruence.
Qed.

Lemma hash_find_none_key st l p :
  hash_find st l p = None → ¬ In (Some p) (map (fun h => b_pos <$> heap st !! h) l).
Proof.
  intros Hf Hin. apply in_map_iff in Hin as (h & Hp & Hin).
  destruct (heap st !! h) as [b |] eqn:Hb; [| discriminate].
  cbn in Hp. inversion Hp. eapply hash_find_none; eauto.
Qed.

Lemma settled_good a st m : settled a st m → good a st m.
Proof. intros (H1 & H2 & H3). unfold good. auto. Qed.

Lemma good_zero st m : sound st m → good 0 st m.
Proof.
  intros Hs. split_and!; [exact Hs | lia |]. left. apply Forall_forall. intros; lia.
Qed.

Lemma iter_above_zero iter : iter_above 0 iter.
Proof. destruct iter as [it |]; [| exact I]. cbn. intros; lia. Qed.

Lemma lands_stays a st r : lands a st r → stays a st r.
Proof. intros [H1 H2]. split; [apply settled_good, H1 | exact H2]. Qed.

Lemma lands_refl a st m : settled a st m → lands a st (st, m).
Proof. intros H. split; [exact H | apply frame_below_refl]. Qed.

Lemma stays_refl a st m : good a st m → stays a st (st, m).
Proof. intros H. split; [exact H | apply frame_below_refl]. Qed.

Lemma frame_then_lands a st st1 r :
  frame_below a st st1 → lands a st1 r → lands a st r.
Proof. intros H1 [H2 H3]. split; [exact H2 | eapply frame_below_trans; eauto]. Qed.

Lemma frame_then_stays a st st1 r :
  frame_below a st st1 → stays a st1 r → stays a st r.
Proof. intros H1 [H2 H3]. split; [exact H2 | eapply frame_below_trans; eauto]. Qed.

Lemma prepare_write_lands a st m : good a st m → lands a st (mesh_prepare_write st m).
Proof. intros Hg. destruct (prepare_write_good a st m Hg) as (H1 & H2 & _). split; auto. Qed.

(** *** Adding a block *)

Lemma add_block_settled a st m p :
  good a st m → aligned p → hash_find st (m_blocks m) p = None →
  lands a st (mesh_add_block st m p).1
  ∧ table (mesh_add_block st m p).1.1 (mesh_add_block st m p).1.2
    = table st m ++ [Some (block_set_id (block_new p) (m_next_block_id m))]
  ∧ (a ≤ (mesh_add_block st m p).2)%nat
  ∧ In (mesh_add_block st m p).2 (m_blocks (mesh_add_block st m p).1.2).
Proof.
  intros Hg Hal Hf.
  destruct (prepare_write_good a st m Hg) as (Hset & Hfr & Htab & Hnb).
  unfold mesh_add_block.
  destruct (mesh_prepare_write st m) as [st1 m1]. cbn [fst snd] in *.
  destruct Hset as ((Hs1 & Hh1 & Hm1 & Ht1) & Ha1 & Hab1).
  rewrite <- Hnb. rewrite <- Htab.
  set (h := next_addr st1).
  set (nb := block_set_id (block_new p) (m_next_block_id m1)).
  set (st2 := set_heap (set_next_addr st1 (S h)) (<[h := nb]> (heap (set_next_addr st1 (S h))))).
  set (m2 := hash_add (set_next_block_id m1 (m_next_block_id m1 + 1)) h).
  assert (Htab2 : table st2 m2 = table st1 m1 ++ [Some nb]).
  { unfold table, st2, m2, hash_add. cbn. rewrite map_app. f_equal.
    - apply map_ext_in. intros x Hx. rewrite lookup_insert_ne; [reflexivity |].
      pose proof (mesh_wf_In _ _ _ Hm1 Hx). unfold h. lia.
    - cbn. rewrite lookup_insert_eq. reflexivity. }
  assert (Hfr2 : frame_below a st1 st2).
  { intros x Hx. unfold st2. cbn. rewrite lookup_insert_ne by (unfold h; lia). reflexivity. }
  split_and!.
  - split; [| eapply frame_below_trans; eauto]. cbn [fst snd].
    split_and!; [split_and! | | ].
    + intros x Hx. unfold st2 in *. cbn in *. rewrite lookup_insert_ne by (unfold h; lia).
      apply Hs1. unfold h in Hx. lia.
    + unfold st2. apply (heap_ok_insert (set_next_addr st1 (S h))); auto.
    + unfold mesh_wf, m2, st2. cbn. apply Forall_app. split.
      * unfold mesh_wf in Hm1. eapply Forall_impl; [exact Hm1 |]. cbn. intros; lia.
      * constructor; [unfold h; lia | constructor].
    + destruct Ht1 as (Hall & Hp & Hi). unfold table_ok. rewrite Htab2. split_and!.
      * apply Forall_app. split.
        -- eapply Forall_impl; [exact Hall |]. cbn. intros ob (b & -> & Hlt).
           exists b. split; [reflexivity | lia].
        -- constructor; [| constructor]. exists nb. split; [reflexivity |]. cbn. lia.
      * rewrite map_app. apply NoDup_app. split_and!; [exact Hp | | cbn; apply NoDup_singleton].
        intros x Hx Hx'. cbn in Hx'. apply list_elem_of_singleton in Hx'. subst x.
        apply list_elem_of_In in Hx. rewrite Htab in Hx. unfold table in Hx.
        rewrite map_map in Hx. revert Hx. apply hash_find_none_key. exact Hf.
      * rewrite map_app. apply NoDup_app. split_and!; [exact Hi | | cbn; apply NoDup_singleton].
        intros x Hx Hx'. cbn in Hx'. apply list_elem_of_singleton in Hx'. subst x.
        apply list_elem_of_In, in_map_iff in Hx as (ob & Hob & Hin).
        rewrite Forall_forall in Hall.
        destruct (Hall ob) as (b & -> & Hlt); [apply list_elem_of_In, Hin |].
        cbn in Hob. inversion Hob. lia.
    + unfold st2. cbn. lia.
    + unfold above, m2. cbn. apply Forall_app. split; [exact Hab1 |].
      constructor; [unfold h; lia | constructor].
  - exact Htab2.
  - cbn. unfold h. lia.
  - cbn. apply in_or_app. right. left. reflexivity.
Qed.

(** *** Loops *)

Lemma fold_keeps {A} (P : store → mesh_t → Prop) (a : nat)
    (step : store * mesh_t → A → store * mesh_t) (l : list A) :
  (∀ st m x, In x l → P st m →
     P (step (st, m) x).1 (step (st, m) x).2 ∧ frame_below a st (step (st, m) x).1) →
  ∀ st m, P st m →
    P (fold_left step l (st, m)).1 (fold_left step l (st, m)).2
    ∧ frame_below a st (fold_left step l (st, m)).1.
Proof.
  induction l as [| x l IH]; intros Hstep st m HP; cbn [fold_left].
  - split; [exact HP | apply frame_below_refl].
  - destruct (Hstep st m x (or_introl eq_refl) HP) as [HP1 Hf1].
    destruct (step (st, m) x) as [st1 m1]. cbn [fst snd] in *.
    destruct (IH (fun st m y Hy => Hstep st m y (or_intror Hy)) st1 m1 HP1) as [HP2 Hf2].
    split; [exact HP2 | eapply frame_below_trans; eauto].
Qed.

Lemma fold_store_settled a (step : store → nat → store) (l : list nat) m :
  (∀ st x, repaints x st (step st x)) → (∀ x, In x l → (a ≤ x)%nat) →
  ∀ st, settled a st m → lands a st (fold_left step l st, m).
Proof.
  intros Hstep. induction l as [| x l IH]; intros Hl st Hs; cbn [fold_left].
  - apply lands_refl, Hs.
  - destruct (repaints_settled a x st (step st x) m (Hstep st x)) as [H1 H2]; auto.
    { apply Hl. left. reflexivity. }
    eapply frame_then_lands; [exact H2 |]. apply IH; auto.
    intros y Hy. apply Hl. right. exact Hy.
Qed.

Lemma sweep_step_settled a st m x :
  settled a st m → (a ≤ x)%nat → lands a st (sweep_step (st, m) x).
Proof.
  intros Hs Hx. unfold sweep_step.
  destruct (block_is_empty _ _); [apply delete_settled; auto | apply lands_refl, Hs].
Qed.

Lemma remove_empty_blocks_lands a st m :
  good a st m → lands a st (mesh_remove_empty_blocks st m).
Proof.
  intros Hg. destruct (prepare_write_lands a st m Hg) as [Hset Hfr].
  unfold mesh_remove_empty_blocks.
  destruct (mesh_prepare_write st m) as [st1 m1]. cbn [fst snd] in *.
  eapply frame_then_lands; [exact Hfr |].
  apply (fold_keeps (settled a) a sweep_step (m_blocks m1)); [| exact Hset].
  intros st' m' x Hx Hs'. apply sweep_step_settled; [exact Hs' |].
  destruct Hset as (_ & _ & Hab). eapply above_In; eauto.
Qed.

Lemma delete_all_blocks_lands a st m :
  settled a st m → lands a st (delete_all_blocks st m).
Proof.
  intros Hset. unfold delete_all_blocks.
  apply (fold_keeps (settled a) a delete_step (m_blocks m)); [| exact Hset].
  intros st' m' x Hx Hs'. unfold delete_step. apply delete_settled; [exact Hs' |].
  destruct Hset as (_ & _ & Hab). eapply above_In; eauto.
Qed.

Lemma mesh_clear_lands a st m :
  good a st m → lands a st (mesh_clear st m) ∧ m_blocks (mesh_clear st m).2 = [].
Proof.
  intros Hg. destruct (prepare_write_lands a st m Hg) as [Hset Hfr].
  unfold mesh_clear.
  destruct (mesh_prepare_write st m) as [st1 m1]. cbn [fst snd] in *.
  destruct (delete_all_blocks_lands a st1 m1 Hset) as [Hset2 Hfr2].
  destruct (delete_all_blocks st1 m1) as [st2 m2]. cbn [fst snd] in *.
  split; [| reflexivity].
  split; [| eapply frame_below_trans; eauto]. cbn [fst snd].
  destruct Hset2 as ((Hs2 & Hh2 & _ & _) & Ha2 & _).
  unfold settled, sound, mesh_wf, table_ok, above, table. cbn.
  split_and!; auto; constructor.
Qed.

Lemma add_blocks_step_lands a st m p :
  settled a st m → aligned p → lands a st (add_blocks_step (st, m) p).
Proof.
  intros Hs Hal. unfold add_blocks_step, mesh_get_block_at.
  destruct (hash_find st (m_blocks m) p) as [h |] eqn:Hf; [apply lands_refl, Hs |].
  destruct (add_block_settled a st m p) as (H1 & _); auto using settled_good.
  destruct (mesh_add_block st m p) as [[st' m'] h']. exact H1.
Qed.

Lemma add_blocks_lands a st m box :
  settled a st m → lands a st (add_blocks st m box).
Proof.
  intros Hs. unfold add_blocks.
  apply (fold_keeps (settled a) a add_blocks_step); [| exact Hs].
  intros st' m' T HT Hs'. apply add_blocks_step_lands; [exact Hs' |].
  eapply add_blocks_tiles_aligned; eauto.
Qed.

Lemma fill_loop_lands a st m get_color :
  settled a st m →
  lands a st (fold_left (fun st block => block_fill st block get_color) (m_blocks m) st, m).
Proof.
  intros Hs. apply fold_store_settled; [| | exact Hs].
  - intros st' x. apply block_fill_repaints.
  - intros x Hx. destruct Hs as (_ & _ & Hab). eapply above_In; eauto.
Qed.

Lemma mesh_fill_lands a st m box get_color :
  good a st m → lands a st (mesh_fill st m box get_color).
Proof.
  intros Hg. unfold mesh_fill.
  destruct (mesh_clear_lands a st m Hg) as [[Hs1 Hf1] _].
  destruct (mesh_clear st m) as [st1 m1]. cbn [fst snd] in *.
  destruct (add_blocks_lands a st1 m1 (box_get_bbox box) Hs1) as [Hs2 Hf2].
  destruct (add_blocks st1 m1 (box_get_bbox box)) as [st2 m2]. cbn [fst snd] in *.
  eapply frame_then_lands; [eapply frame_below_trans; eauto |].
  apply fill_loop_lands. exact Hs2.
Qed.

(** *** [mesh_op] *)

Lemma mesh_op_block_lands a painter box full_box bbox st m x :
  settled a st m → (a ≤ x)%nat →
  lands a st (mesh_op_block painter box full_box bbox (st, m) x).
Proof.
  intros Hs Hx. unfold mesh_op_block.
  destruct (heap st !! x) as [b |]; [| apply lands_refl, Hs].
  destruct (negb (bbox_intersect bbox (block_get_box b false)));
    [destruct (mode_eqb (p_mode painter) MODE_INTERSECT) |];
    try (apply lands_refl, Hs).
  all: destruct (shape_is_cube (p_shape painter) && mode_eqb (p_mode painter) MODE_SUB
                 && box_contains full_box (block_get_box b false)); cbn [negb].
  all: try (apply delete_settled; assumption).
  all: destruct (repaints_settled a x st
                   (block_update st x (fun b => block_op b painter box)) m) as [Hu Hfu];
    [apply block_update_repaints, paints_block_op | exact Hx | exact Hs |].
  all: destruct (block_is_empty _ true); [| split; assumption].
  all: eapply frame_then_lands; [exact Hfu |]; apply delete_settled; assumption.
Qed.

Lemma mesh_op_body_stays a st m painter box :
  good a st m → stays a st (mesh_op_body st m painter box).
Proof.
  intros Hg. unfold mesh_op_body.
  destruct (op_bbox painter box) as [bbox |]; [| apply stays_refl, Hg].
  destruct (prepare_write_lands a st m Hg) as [Hs1 Hf1].
  destruct (mesh_prepare_write st m) as [st1 m1]. cbn [fst snd] in *.
  assert (H2 : lands a st1
             (if is_constructive (p_mode painter) then add_blocks st1 m1 bbox else (st1, m1))).
  { destruct (is_constructive _); [apply add_blocks_lands | apply lands_refl]; exact Hs1. }
  destruct (if is_constructive (p_mode painter) then add_blocks st1 m1 bbox else (st1, m1))
    as [st2 m2].
  destruct H2 as [Hs2 Hf2]. cbn [fst snd] in *.
  apply lands_stays. eapply frame_then_lands; [eapply frame_below_trans; eauto |].
  apply (fold_keeps (settled a) a); [| exact Hs2].
  intros st' m' x Hx Hs'. apply mesh_op_block_lands; [exact Hs' |].
  destruct Hs2 as (_ & _ & Hab). eapply above_In; eauto.
Qed.

Lemma mesh_op_fuel_stays a fuel : ∀ st m painter box r,
  good a st m → mesh_op_fuel fuel st m painter box = Some r → stays a st r.
Proof.
  induction fuel as [| fuel IH]; intros st m painter box r Hg Hrun; [discriminate |].
  cbn [mesh_op_fuel] in Hrun.
  assert (Hcalls : ∀ calls st1 m1 r1, stays a st (st1, m1) →
            fold_left
              (fun acc call =>
                 match acc with
                 | Some (st, mesh) => mesh_op_fuel fuel st mesh call.1 call.2
                 | None => None
                 end) calls (Some (st1, m1)) = Some r1 →
            stays a st r1).
  { induction calls as [| c calls IHc]; intros st1 m1 r1 H1 Hr.
    - cbn in Hr. inversion Hr. subst r1. exact H1.
    - cbn [fold_left] in Hr.
      destruct (mesh_op_fuel fuel st1 m1 c.1 c.2) as [[st2 m2] |] eqn:E.
      + apply (IHc st2 m2 r1); [| exact Hr].
        destruct H1 as [Hg1 Hf1]. eapply frame_then_stays; [exact Hf1 |].
        eapply IH; [exact Hg1 | exact E].
      + exfalso. clear -Hr. induction calls as [| c' calls IHc']; [discriminate |].
        apply IHc'. exact Hr. }
  destruct (fold_left _ (symmetry_calls painter box) (Some (st, m))) as [[st1 m1] |] eqn:E;
    [| discriminate].
  inversion Hrun. subst r.
  destruct (Hcalls _ _ _ _ (stays_refl a st m Hg) E) as [Hg1 Hf1]. cbn [fst snd] in *.
  eapply frame_then_stays; [exact Hf1 |]. apply mesh_op_body_stays. exact Hg1.
Qed.

(** *** [mesh_merge] *)

Lemma merge_add_step_lands a st m x :
  settled a st m → lands a st (merge_add_step (st, m) x).
Proof.
  intros Hs. unfold merge_add_step, mesh_get_block_at.
  destruct (heap st !! x) as [b |] eqn:Hb; [| apply lands_refl, Hs].
  destruct (hash_find st (m_blocks m) (b_pos b)) as [h |] eqn:Hf; [apply lands_refl, Hs |].
  destruct (add_block_settled a st m (b_pos b)) as (H1 & _); auto using settled_good.
  { destruct Hs as ((_ & Hh & _) & _). apply (Hh x b Hb). }
  destruct (mesh_add_block st m (b_pos b)) as [[st' m'] h']. exact H1.
Qed.

Lemma merge_step_lands a other mode st m x :
  settled a st m → (a ≤ x)%nat → lands a st (merge_step other mode (st, m) x).
Proof.
  intros Hs Hx. unfold merge_step.
  destruct (heap st !! x) as [b |]; [| apply lands_refl, Hs].
  cbv zeta.
  match goal with |- context [if ?c then _ else _] => destruct c end.
  - apply delete_settled; assumption.
  - apply (repaints_settled a x); auto. apply block_update_repaints, paints_block_merge.
Qed.

Lemma mesh_merge_lands a st m other mode :
  good a st m → lands a st (mesh_merge st m other mode).
Proof.
  intros Hg. unfold mesh_merge.
  destruct (prepare_write_lands a st m Hg) as [Hs1 Hf1].
  destruct (mesh_prepare_write st m) as [st1 m1]. cbn [fst snd] in *.
  assert (H2 : lands a st1
             (if is_constructive mode
              then fold_left merge_add_step (m_blocks other) (st1, m1) else (st1, m1))).
  { destruct (is_constructive _); [| apply lands_refl, Hs1].
    apply (fold_keeps (settled a) a); [| exact Hs1].
    intros st' m' x _ Hs'. apply merge_add_step_lands, Hs'. }
  destruct (if is_constructive mode
            then fold_left merge_add_step (m_blocks other) (st1, m1) else (st1, m1))
    as [st2 m2].
  destruct H2 as [Hs2 Hf2]. cbn [fst snd] in *.
  eapply frame_then_lands; [eapply frame_below_trans; eauto |].
  apply (fold_keeps (settled a) a); [| exact Hs2].
  intros st' m' x Hx Hs'. apply merge_step_lands; [exact Hs' |].
  destruct Hs2 as (_ & _ & Hab). eapply above_In; eauto.
Qed.

(** *** [mesh_shift_alpha], [mesh_extrude] *)

Lemma mesh_shift_alpha_lands a st m v :
  good a st m → lands a st (mesh_shift_alpha st m v).
Proof.
  intros Hg. unfold mesh_shift_alpha.
  destruct (prepare_write_lands a st m Hg) as [Hs1 Hf1].
  destruct (mesh_prepare_write st m) as [st1 m1]. cbn [fst snd] in *.
  destruct (fold_store_settled a (shift_step v) (m_blocks m1) m1) with (st := st1)
    as [Hs2 Hf2]; [| | exact Hs1 |].
  - intros st' x. apply block_update_repaints, paints_block_shift_alpha.
  - intros x Hx. destruct Hs1 as (_ & _ & Hab). eapply above_In; eauto.
  - cbn [fst snd] in *.
    eapply frame_then_lands; [eapply frame_below_trans; eauto |].
    apply remove_empty_blocks_lands, settled_good, Hs2.
Qed.

Lemma mesh_extrude_lands a st m plane box :
  good a st m → lands a st (mesh_extrude st m plane box).
Proof.
  intros Hg. unfold mesh_extrude.
  destruct (prepare_write_lands a st m Hg) as [Hs1 Hf1].
  destruct (mesh_prepare_write st m) as [st1 m1]. cbn [fst snd] in *.
  cbv zeta.
  match goal with
  | |- context [add_blocks st1 m1 ?bb] =>
      destruct (add_blocks_lands a st1 m1 bb Hs1) as [Hs2 Hf2];
      destruct (add_blocks st1 m1 bb) as [st2 m2]
  end.
  cbn [fst snd] in *.
  eapply frame_then_lands; [eapply frame_below_trans; eauto |].
  apply fill_loop_lands. exact Hs2.
Qed.

(** *** [mesh_set_at] and [mesh_blit] *)

Lemma find_or_add_lands a st m p :
  settled a st m → aligned p →
  lands a st (match hash_find st (m_blocks m) p with
              | Some block => (st, m, block)
              | None => mesh_add_block st m p
              end).1
  ∧ (a ≤ (match hash_find st (m_blocks m) p with
          | Some block => (st, m, block)
          | None => mesh_add_block st m p
          end).2)%nat.
Proof.
  intros Hs Hal. destruct (hash_find st (m_blocks m) p) as [h |] eqn:Hf.
  - cbn [fst snd]. split; [apply lands_refl, Hs |].
    apply hash_find_some in Hf as (Hin & _).
    destruct Hs as (_ & _ & Hab). eapply above_In; eauto.
  - destruct (add_block_settled a st m p) as (H1 & _ & H2 & _); auto using settled_good.
Qed.

Lemma set_at_update_lands a st pos v (r : store * mesh_t * nat) :
  lands a st r.1 → (a ≤ r.2)%nat →
  lands a st (block_update r.1.1 r.2 (fun b => block_set_at b pos v), r.1.2).
Proof.
  destruct r as [[st1 m1] h]. cbn [fst snd]. intros [Hs Hf] Hh. cbn [fst snd] in *.
  eapply frame_then_lands; [exact Hf |].
  apply (repaints_settled a h); auto. apply block_update_repaints, paints_block_set_at.
Qed.

Lemma mesh_set_at_tail_lands a st m pos v iter :
  settled a st m → iter_safe st m iter → iter_above a iter →
  lands a st (mesh_set_at_tail st m pos v iter).1
  ∧ iter_safe (mesh_set_at_tail st m pos v iter).1.1 (mesh_set_at_tail st m pos v iter).1.2
              (mesh_set_at_tail st m pos v iter).2
  ∧ iter_above a (mesh_set_at_tail st m pos v iter).2.
Proof.
  intros Hs Hsafe Habove. unfold mesh_set_at_tail.
  pose proof (find_or_add_lands a st m (tile_origin pos) Hs (aligned_tile_origin pos))
    as [Hfl Hfa].
  pose proof (set_at_update_lands a st pos v _ Hfl Hfa) as Hfu.
  destruct iter as [it |].
  - destruct (it_found it && pos3_eqb (it_pos it) (tile_origin pos)) eqn:Hc.
    + apply andb_true_iff in Hc as [Hfound Hpos]. apply pos3_eqb_eq in Hpos.
      destruct (it_block it) as [block |] eqn:Hb.
      * cbn [fst snd]. split_and!.
        -- apply (set_at_update_lands a st pos v (st, m, block)); cbn [fst snd].
           ++ apply lands_refl, Hs.
           ++ apply (Habove Hfound). exact Hb.
        -- cbn. intros _ Hn. discriminate Hn.
        -- cbn. intros _ h Hh. inversion Hh. subst h. apply (Habove Hfound). exact Hb.
      * cbn in Hsafe. specialize (Hsafe Hfound Hb). rewrite Hpos in Hsafe.
        destruct (add_block_settled a st m (tile_origin pos)) as (H1 & _ & H2 & _);
          auto using settled_good, aligned_tile_origin.
        pose proof (set_at_update_lands a st pos v _ H1 H2) as H3.
        destruct (mesh_add_block st m (tile_origin pos)) as [[st2 m2] h].
        cbn [fst snd] in *. split_and!; [exact H3 | |].
        -- cbn. intros _ Hn. discriminate Hn.
        -- cbn. intros _ h' Hh. inversion Hh. subst h'. exact H2.
    + destruct (match hash_find st (m_blocks m) (tile_origin pos) with
                | Some block => (st, m, block)
                | None => mesh_add_block st m (tile_origin pos)
                end) as [[st2 m2] h].
      cbn [fst snd] in *. split_and!; [exact Hfu | |].
      * cbn. intros _ Hn. discriminate Hn.
      * cbn. intros _ h' Hh. inversion Hh. subst h'. exact Hfa.
  - destruct (match hash_find st (m_blocks m) (tile_origin pos) with
              | Some block => (st, m, block)
              | None => mesh_add_block st m (tile_origin pos)
              end) as [[st2 m2] h].
    cbn [fst snd] in *. split_and!; [exact Hfu | exact I | exact I].
Qed.

Lemma mesh_set_at_lands a st m pos v iter :
  good a st m → iter_safe st m iter → iter_above a iter →
  lands a st (mesh_set_at st m pos v iter).1
  ∧ iter_safe (mesh_set_at st m pos v iter).1.1 (mesh_set_at st m pos v iter).1.2
              (mesh_set_at st m pos v iter).2
  ∧ iter_above a (mesh_set_at st m pos v iter).2.
Proof.
  intros Hg Hsafe Habove. unfold mesh_set_at.
  destruct (prepare_write_good a st m Hg) as (Hs1 & Hf1 & Htab & _).
  destruct (mesh_prepare_write st m) as [st1 m1]. cbn [fst snd] in *.
  assert (Hsafe1 : iter_safe st1 m1 iter).
  { destruct iter as [it |]; [| exact I]. cbn in *. intros H1 H2.
    eapply hash_find_none_table; [exact Htab | auto]. }
  destruct (mesh_set_at_tail_lands a st1 m1 pos v iter Hs1 Hsafe1 Habove) as (H1 & H2 & H3).
  split_and!; auto. eapply frame_then_lands; eauto.
Qed.

Lemma mesh_set_at_some st m pos v it :
  ∃ it', (mesh_set_at st m pos v (Some it)).2 = Some it'.
Proof.
  unfold mesh_set_at. destruct (mesh_prepare_write st m) as [st1 m1].
  unfold mesh_set_at_tail.
  destruct (it_found it && pos3_eqb (it_pos it) (tile_origin pos)).
  - destruct (match it_block it with
              | Some block => (st1, m1, block)
              | None => mesh_add_block st1 m1 (tile_origin pos)
              end) as [[st2 m2] h]. eexists. reflexivity.
  - destruct (match hash_find st1 (m_blocks m1) (tile_origin pos) with
              | Some block => (st1, m1, block)
              | None => mesh_add_block st1 m1 (tile_origin pos)
              end) as [[st2 m2] h]. eexists. reflexivity.
Qed.

Lemma blit_step_at_stays a data st0 (s : store * mesh_t * mesh_iterator_t * nat) p :
  stays a st0 s.1.1 → iter_safe s.1.1.1 s.1.1.2 (Some s.1.2) → iter_above a (Some s.1.2) →
  stays a st0 (blit_step_at data s p).1.1
  ∧ iter_safe (blit_step_at data s p).1.1.1 (blit_step_at data s p).1.1.2
              (Some (blit_step_at data s p).1.2)
  ∧ iter_above a (Some (blit_step_at data s p).1.2).
Proof.
  destruct s as [[[st m] it] off], p as [[px py] pz]. cbn [fst snd].
  intros [Hg Hf] Hsafe Habove. cbn [fst snd] in *.
  unfold blit_step_at, blit_step.
  destruct (mesh_set_at_lands a st m (px, py, pz) (read_rgba data off) (Some it)
              Hg Hsafe Habove) as (H1 & H2 & H3).
  destruct (mesh_set_at_some st m (px, py, pz) (read_rgba data off) it) as [it' Hit].
  destruct (mesh_set_at st m (px, py, pz) (read_rgba data off) (Some it))
    as [[st1 m1] oit]. cbn [fst snd] in *. subst oit. cbn [default fst snd].
  split_and!; auto. apply lands_stays. eapply frame_then_lands; eauto.
Qed.

Lemma mesh_blit_lands a st m data x y z w h d iter :
  good a st m → iter_safe st m iter → iter_above a iter →
  lands a st (mesh_blit st m data x y z w h d iter).1.
Proof.
  intros Hg Hsafe Habove. unfold mesh_blit. rewrite blit_loops_flat.
  pose (I := fun (_ : list pos3) (s : store * mesh_t * mesh_iterator_t * nat) =>
               stays a st s.1.1 ∧ iter_safe s.1.1.1 s.1.1.2 (Some s.1.2)
               ∧ iter_above a (Some s.1.2)).
  assert (HI : I (blit_positions x y z w h d)
                 (fold_left (blit_step_at data) (blit_positions x y z w h d)
                            (st, m, default iter_zero iter, 0%nat))).
  { apply fold_left_invariant.
    - unfold I. cbn [fst snd]. split_and!; [apply stays_refl, Hg | |].
      + destruct iter as [it |]; [exact Hsafe |]. cbn. intros Hn. discriminate Hn.
      + destruct iter as [it |]; [exact Habove |]. cbn. intros Hn. discriminate Hn.
    - intros done p s (H1 & H2 & H3) _. unfold I. apply blit_step_at_stays; assumption. }
  destruct (fold_left _ _ _) as [[[st1 m1] it1] off1].
  destruct HI as ([Hg1 Hf1] & _ & _). cbn [fst snd] in *.
  destruct (remove_empty_blocks_lands a st1 m1 Hg1) as [H1 H2].
  destruct (mesh_remove_empty_blocks st1 m1) as [st2 m2]. cbn [fst snd] in *.
  split; [exact H1 | eapply frame_below_trans; eauto].
Qed.

(** *** [mesh_move] *)

Lemma mesh_copy_good a st m :
  good a st m →
  good a (mesh_copy st m).1 m ∧ frame_below a st (mesh_copy st m).1.
Proof.
  intros ((Hs & Hh & Hm & Ht) & Ha & Hiso).
  destruct (mesh_copy_store st m) as (_ & _ & _ & _ & _ & _ & Hr).
  unfold mesh_copy in *. cbn [fst snd m_ref] in *.
  split; [| intros h _; reflexivity].
  split_and!; [split_and! | |]; auto.
  destruct Hiso as [Hab | (Hn & Hlt & Hc)]; [left; exact Hab | right].
  split_and!; auto. rewrite Hr. lia.
Qed.

(** The reference counts after a fork. *)
Lemma prepare_write_refs st m :
  store_wf st → mesh_wf st m → ref_get st (m_ref m) ≠ 1 → m_ref m ≠ next_addr st →
  ref_get (mesh_prepare_write st m).1 (m_ref m) = ref_get st (m_ref m) - 1
  ∧ m_ref (mesh_prepare_write st m).2 = next_addr st
  ∧ ref_get (mesh_prepare_write st m).1 (next_addr st) = 1
  ∧ (∀ r, r ≠ m_ref m → r ≠ next_addr st →
          refs (mesh_prepare_write st m).1 !! r = refs st !! r).
Proof.
  intros Hwf Hm Hne Hr. unfold mesh_prepare_write.
  change (ref_get (set_next_uid st (next_uid st + 1)) (m_ref (set_id m (wrap64 (next_uid st)))))
    with (ref_get st (m_ref m)).
  destruct (Z.eqb_spec (ref_get st (m_ref m)) 1) as [Heq | _]; [contradiction |].
  unfold ref_alloc.
  set (st1 := set_next_addr _ _).
  assert (Hwf1 : store_wf st1).
  { intros a Ha. cbn in *. apply Hwf. lia. }
  assert (Hall : Forall (fun h => (h < next_addr st1)%nat) (m_blocks m)).
  { eapply Forall_impl; [exact Hm |]. cbn. intros; lia. }
  destruct (fork_loop_spec (m_blocks m) st1
              (set_blocks (set_ref (set_id m (wrap64 (next_uid st))) (next_addr st)) [])
              Hwf1 Hall)
    as (st' & news & Hfold & _ & _ & _ & Hr' & _).
  match goal with
  | |- context [fold_left fork_step ?l ?s] =>
      replace (fold_left fork_step l s)
        with (st', set_blocks
                     (set_blocks (set_ref (set_id m (wrap64 (next_uid st))) (next_addr st)) [])
                     ([] ++ news))
        by (symmetry; exact Hfold)
  end.
  cbn [fst snd m_ref set_blocks set_ref set_id].
  unfold ref_get. rewrite Hr'. cbn.
  split_and!.
  - rewrite lookup_insert_ne by congruence. rewrite lookup_insert_eq. reflexivity.
  - reflexivity.
  - rewrite lookup_insert_eq. reflexivity.
  - intros r H1 H2. rewrite !lookup_insert_ne by congruence. reflexivity.
Qed.

Lemma mesh_clear_refs st m :
  ref_get st (m_ref m) = 1 →
  ∃ st' m',
    mesh_clear st m = (st', m')
    ∧ refs st' = refs st ∧ m_ref m' = m_ref m ∧ m_blocks m' = [].
Proof.
  intros Href. unfold mesh_clear. rewrite (prepare_write_unique st m Href).
  pose proof (delete_all_blocks_fst (m_blocks m) (set_next_uid st (next_uid st + 1))
                (set_id m (wrap64 (next_uid st)))) as Hfst.
  pose proof (delete_all_blocks_ref (m_blocks m) (set_next_uid st (next_uid st + 1))
                (set_id m (wrap64 (next_uid st)))) as Hmref.
  cbn [m_blocks set_id m_ref] in Hmref.
  unfold delete_all_blocks. cbn [m_blocks set_id].
  cbn [m_blocks set_id] in Hfst.
  destruct (fold_left delete_step (m_blocks m) _) as [st2 m2].
  cbn [fst snd] in Hfst, Hmref. subst st2.
  destruct (fold_block_delete_store (m_blocks m) (set_next_uid st (next_uid st + 1)))
    as [Hr _].
  eexists _, _. split; [reflexivity |]. cbn [m_blocks set_blocks set_next_block_id m_ref].
  split_and!; [exact Hr | exact Hmref | reflexivity].
Qed.

Lemma fold_refs {A} (step : store → A → store) (l : list A) :
  (∀ st x, refs (step st x) = refs st) → ∀ st, refs (fold_left step l st) = refs st.
Proof.
  intros Hstep. induction l as [| x l IH]; intros st; [reflexivity |].
  cbn [fold_left]. rewrite IH. apply Hstep.
Qed.

Lemma block_fill_refs st h get_color : refs (block_fill st h get_color) = refs st.
Proof. apply (block_fill_repaints h get_color st). Qed.

Lemma fill_loop_refs get_color (l : list nat) : ∀ st,
  refs (fold_left (fun st block => block_fill st block get_color) l st) = refs st.
Proof. apply fold_refs. intros st x. apply block_fill_refs. Qed.

Lemma mesh_fill_refs st m box get_color :
  ref_get st (m_ref m) = 1 → refs (mesh_fill st m box get_color).1 = refs st.
Proof.
  intros Href. unfold mesh_fill.
  destruct (mesh_clear_refs st m Href) as (st1 & m1 & -> & Hr1 & Hm1 & Hbl).
  assert (Href1 : ref_get st1 (m_ref m1) = 1).
  { unfold ref_get in *. rewrite Hr1, Hm1. exact Href. }
  destruct (add_blocks_owned st1 m1 (box_get_bbox box) Href1 Hbl)
    as (st2 & m2 & -> & _ & _ & _ & _ & _ & Hr2).
  cbn [fst]. rewrite fill_loop_refs. congruence.
Qed.

Lemma mesh_fill_fresh st m box get_color :
  sound st m → above (next_addr st) (mesh_fill st m box get_color).2.
Proof.
  intros Hsound. pose proof Hsound as (Hs & _ & Hm & _).
  assert (Hg : good 0 st m).
  { split_and!; [exact Hsound | lia |]. left. apply Forall_forall. intros; lia. }
  destruct (mesh_clear_ok st m Hs Hm) as [_ (_ & _ & Hmono & _)].
  unfold mesh_fill.
  destruct (mesh_clear_lands 0 st m Hg) as [[(Hsound1 & _) _] Hbl].
  destruct (mesh_clear st m) as [st1 m1]. cbn [fst snd] in *.
  assert (Hs1 : settled (next_addr st1) st1 m1).
  { split_and!; [exact Hsound1 | lia |]. unfold above. rewrite Hbl. constructor. }
  destruct (add_blocks_lands _ st1 m1 (box_get_bbox box) Hs1) as [(_ & _ & Hab) _].
  destruct (add_blocks st1 m1 (box_get_bbox box)) as [st2 m2]. cbn [fst snd] in *.
  unfold above in *. eapply Forall_impl; [exact Hab |]. cbn. intros; lia.
Qed.

Lemma fold_block_delete_sub l : ∀ st h b,
  heap (fold_left block_delete l st) !! h = Some b → heap st !! h = Some b.
Proof.
  induction l as [| x l IH]; intros st h b Hb; [exact Hb |].
  cbn [fold_left] in Hb. apply IH in Hb. unfold block_delete in Hb. cbn in Hb.
  apply lookup_delete_Some in Hb as [_ Hb]. exact Hb.
Qed.

Lemma mesh_delete_sub st src h b :
  heap (mesh_delete st src) !! h = Some b → heap st !! h = Some b.
Proof.
  unfold mesh_delete. set (st1 := ref_set st _ _).
  destruct (ref_get st1 (m_ref src) =? 0); [| intros Hb; exact Hb].
  pose proof (delete_all_blocks_fst (m_blocks src) st1 src) as Hfst.
  unfold delete_all_blocks.
  destruct (fold_left delete_step (m_blocks src) (st1, src)) as [st2 m2].
  cbn [fst] in Hfst. subst st2. cbn. intros Hb.
  apply fold_block_delete_sub in Hb. exact Hb.
Qed.

Lemma mesh_delete_shared st src :
  ref_get st (m_ref src) - 1 ≠ 0 → heap (mesh_delete st src) = heap st.
Proof.
  intros Hne. unfold mesh_delete.
  replace (ref_get (ref_set st (m_ref src) (ref_get st (m_ref src) - 1)) (m_ref src))
    with (ref_get st (m_ref src) - 1).
  - destruct (Z.eqb_spec (ref_get st (m_ref src) - 1) 0); [contradiction | reflexivity].
  - unfold ref_get, ref_set. cbn. rewrite lookup_insert_eq. reflexivity.
Qed.

Lemma mesh_move_lands a st m mat : good a st m → lands a st (mesh_move st m mat).
Proof.
  intros Hg. unfold mesh_move.
  destruct (mesh_copy_good a st m Hg) as [Hg0 Hf0].
  destruct (mesh_copy_store st m) as (Hh0 & Ha0 & _ & Hbl0 & _ & Hmr0 & Hr0).
  destruct (mesh_copy st m) as [st0 src]. cbn [fst snd] in *.
  pose proof Hg0 as ((Hwf0 & _ & Hm0 & _) & _).
  destruct (prepare_write_good a st0 m Hg0) as (Hs1 & Hf1 & _).
  destruct (prepare_write_spec st0 m Hwf0 Hm0)
    as (st1' & m1' & E1 & _ & _ & Hmono1 & _ & _ & _ & _ & _ & Href1 & _).
  pose proof (prepare_write_refs st0 m Hwf0 Hm0) as Hrefs1.
  rewrite E1 in *. cbn [fst snd] in *. clear E1.
  destruct (box_is_null _).
  { split; [exact Hs1 | eapply frame_below_trans; eauto]. }
  match goal with
  | |- context [mesh_fill st1' m1' ?bx ?gc] =>
      pose proof (mesh_fill_lands a st1' m1' bx gc (settled_good _ _ _ Hs1)) as [Hs2 Hf2];
      pose proof (mesh_fill_fresh st1' m1' bx gc (proj1 Hs1)) as Hfresh;
      pose proof (mesh_fill_refs st1' m1' bx gc Href1) as Hrefs2;
      destruct (mesh_fill st1' m1' bx gc) as [st2 m2]
  end.
  cbn [fst snd] in *.
  assert (Hnotsrc : ∀ h, In h (m_blocks m2) → ¬ In h (m_blocks src)).
  { intros h Hin Hsrc. rewrite Hbl0 in Hsrc.
    pose proof (above_In _ _ _ Hfresh Hin) as H1.
    pose proof (mesh_wf_In _ _ _ Hm0 Hsrc) as H2. lia. }
  assert (Hkeep : ∀ h, (h < a)%nat ∨ In h (m_blocks m2) →
                       heap (mesh_delete st2 src) !! h = heap st2 !! h).
  { intros h Hh. destruct Hg as (_ & _ & [Hab | (Hn & Hlt & Hc)]).
    - apply mesh_delete_heap. destruct Hh as [Hh | Hh]; [| auto].
      intros Hsrc. rewrite Hbl0 in Hsrc. pose proof (above_In _ _ _ Hab Hsrc). lia.
    - rewrite mesh_delete_shared; [reflexivity |].
      destruct Hrefs1 as (Hdec & _); [lia | lia |].
      unfold ref_get in *. rewrite Hmr0, Hrefs2. lia. }
  destruct (quiet_mesh_delete src st2) as (Ha3 & _ & Hwf3).
  cbn beta in *.
  assert (Hs3 : settled a (mesh_delete st2 src) m2).
  { destruct Hs2 as ((Hwf2 & Hh2 & Hm2 & Ht2) & Ha2 & Hab2).
    assert (Htab : table (mesh_delete st2 src) m2 = table st2 m2).
    { unfold table. apply map_ext_in. intros h Hh. apply Hkeep. right. exact Hh. }
    split_and!; [split_and! | |]; auto.
    - intros h b Hb. apply mesh_delete_sub in Hb. eauto.
    - unfold mesh_wf. rewrite Ha3. exact Hm2.
    - unfold table_ok. rewrite Htab. exact Ht2.
    - rewrite Ha3. exact Ha2. }
  eapply frame_then_lands; [| apply remove_empty_blocks_lands, settled_good, Hs3].
  intros h Hh. rewrite Hkeep by (left; exact Hh).
  rewrite Hf2, Hf1, Hf0 by exact Hh. reflexivity.
Qed.

(** *** Every mutation *)

Lemma mutate_stays a mu st m r :
  good a st m →
  iter_safe st m (mutation_iter mu) → iter_above a (mutation_iter mu) →
  mutate mu st m = Some r → stays a st r.
Proof.
  intros Hg Hsafe Habove Hrun.
  destruct mu; cbn [mutate mutation_iter] in *.
  - inversion Hrun. apply lands_stays. apply mesh_set_at_lands; assumption.
  - inversion Hrun. apply lands_stays. apply mesh_clear_lands; assumption.
  - inversion Hrun. apply lands_stays. apply remove_empty_blocks_lands; assumption.
  - eapply mesh_op_fuel_stays; eauto.
  - inversion Hrun. apply lands_stays. apply mesh_merge_lands; assumption.
  - inversion Hrun. apply lands_stays. apply mesh_blit_lands; assumption.
  - inversion Hrun. apply lands_stays. apply mesh_move_lands; assumption.
  - inversion Hrun. apply lands_stays. apply mesh_extrude_lands; assumption.
  - inversion Hrun. apply lands_stays. apply mesh_shift_alpha_lands; assumption.
Qed.

(** ** Reading after writing *)

Lemma cell_index_bounds bpos q i : cell_index bpos q = Some i → (i < cells)%nat.
Proof.
  destruct bpos as [[ox oy] oz], q as [[qx qy] qz]. unfold cell_index.
  destruct (_ && _) eqn:E; [| discriminate]. intros Hi. inversion Hi. subst i. clear Hi.
  rewrite !andb_true_iff in E. destruct E as [[[[[H1 H2] H3] H4] H5] H6].
  unfold cells, N, BLOCK_SIZE in *. lia.
Qed.

Lemma cell_index_inj bpos p q i :
  cell_index bpos p = Some i → cell_index bpos q = Some i → p = q.
Proof.
  destruct bpos as [[ox oy] oz], p as [[px py] pz], q as [[qx qy] qz]. unfold cell_index.
  destruct (_ && _) eqn:E; [| discriminate].
  destruct (_ && _) eqn:E' in |- *; [| discriminate].
  intros Hi Hj. inversion Hi as [Hi']. inversion Hj as [Hj']. rewrite <- Hj' in Hi'.
  rewrite !andb_true_iff in E, E'.
  destruct E as [[[[[H1 H2] H3] H4] H5] H6], E' as [[[[[H1' H2'] H3'] H4'] H5'] H6'].
  unfold N, BLOCK_SIZE in *.
  assert (px - ox = qx - ox ∧ py - oy = qy - oy ∧ pz - oz = qz - oz) as (Hx & Hy & Hz) by lia.
  f_equal; [f_equal |]; lia.
Qed.

Lemma block_set_at_other b p c q :
  q ≠ p → block_get_at (Some (block_set_at b p c)) q = block_get_at (Some b) q.
Proof.
  intros Hne. unfold block_set_at, block_get_at.
  destruct (cell_index (b_pos b) p) as [i |] eqn:Hi; [| reflexivity].
  cbn [b_pos b_voxels block_with_voxels].
  destruct (cell_index (b_pos b) q) as [j |] eqn:Hj; [| reflexivity].
  rewrite list_lookup_insert_ne; [reflexivity |].
  intros ->. apply Hne. eapply cell_index_inj; eauto.
Qed.

Lemma lookup_repeat {A} (x : A) (n i : nat) : (i < n)%nat → repeat x n !! i = Some x.
Proof.
  revert i. induction n as [| n IH]; intros i Hi; [lia |].
  destruct i as [| i]; [reflexivity |]. cbn. apply IH. lia.
Qed.

Lemma block_new_get p i q : block_get_at (Some (block_set_id (block_new p) i)) q = rgba_zero.
Proof.
  unfold block_get_at. cbn [b_pos b_voxels block_set_id block_new].
  destruct (cell_index p q) as [j |] eqn:Hj; [| reflexivity].
  apply cell_index_bounds in Hj. rewrite (lookup_repeat _ _ _ Hj). reflexivity.
Qed.

Lemma hash_find_same_keys st st' l T :
  (∀ a, In a l → (b_pos <$> heap st' !! a) = (b_pos <$> heap st !! a)) →
  hash_find st' l T = hash_find st l T.
Proof.
  unfold hash_find. induction l as [| a l IH]; intros Hk; [reflexivity |].
  cbn [List.find]. pose proof (Hk a (or_introl eq_refl)) as Ha.
  rewrite IH by (intros x Hx; apply Hk; right; exact Hx).
  destruct (heap st' !! a) as [b' |], (heap st !! a) as [b |]; cbn in Ha;
    try discriminate; [| reflexivity].
  inversion Ha as [Hp]. rewrite Hp. reflexivity.
Qed.

Lemma hash_find_repaints h st st' l T :
  repaints h st st' → hash_find st' l T = hash_find st l T.
Proof. intros Hr. apply hash_find_same_keys. intros a _. apply (repaints_keys h st st' a Hr). Qed.

Lemma hash_find_app st l1 l2 T :
  hash_find st (l1 ++ l2) T
  = match hash_find st l1 T with
    | Some x => Some x
    | None => hash_find st l2 T
    end.
Proof.
  unfold hash_find. induction l1 as [| a l1 IH]; [reflexivity |].
  cbn [app List.find]. destruct (match heap st !! a with
                                 | Some b => pos3_eqb (b_pos b) T
                                 | None => false
                                 end); [reflexivity | exact IH].
Qed.

Lemma tile_origin_cell p q i :
  cell_index (tile_origin p) q = Some i → tile_origin q = tile_origin p.
Proof.
  destruct p as [[px py] pz], q as [[qx qy] qz]. unfold cell_index, tile_origin.
  destruct (_ && _) eqn:E; [| discriminate]. intros _.
  rewrite !andb_true_iff in E. destruct E as [[[[[H1 H2] H3] H4] H5] H6].
  pose proof (tile_coord_spec px) as Hpx. pose proof (tile_coord_spec py) as Hpy.
  pose proof (tile_coord_spec pz) as Hpz. pose proof (tile_coord_spec qx) as Hqx.
  pose proof (tile_coord_spec qy) as Hqy. pose proof (tile_coord_spec qz) as Hqz.
  cbv zeta in *. unfold N, BLOCK_SIZE in *.
  assert (Hdiv : ∀ a b, 16 * (a / 16) ≤ b < 16 * (a / 16) + 16 → b / 16 = a / 16).
  { intros a b Hb. symmetry. apply (Z.div_unique b 16 (a / 16) (b - 16 * (a / 16))); lia. }
  f_equal; [f_equal |].
  - destruct Hpx as [Ep _], Hqx as [Eq _]. rewrite Ep, Eq.
    rewrite (Hdiv px qx); [reflexivity | lia].
  - destruct Hpy as [Ep _], Hqy as [Eq _]. rewrite Ep, Eq.
    rewrite (Hdiv py qy); [reflexivity | lia].
  - destruct Hpz as [Ep _], Hqz as [Eq _]. rewrite Ep, Eq.
    rewrite (Hdiv pz qz); [reflexivity | lia].
Qed.

(** A read finds nothing in a block that is not the block of its tile. *)
Lemma block_get_at_off_tile b q :
  aligned (b_pos b) → b_pos b ≠ tile_origin q → block_get_at (Some b) q = rgba_zero.
Proof.
  intros Hal Hne. unfold block_get_at.
  destruct (cell_index (b_pos b) q) as [i |] eqn:Hi; [| reflexivity].
  exfalso. apply Hne.
  assert (Hself : tile_origin (b_pos b) = b_pos b).
  { destruct (b_pos b) as [[x y] z]. cbn in Hal. destruct Hal as (Hx & Hy & Hz).
    unfold tile_origin, c_mod, N. rewrite Hx, Hy, Hz. cbn. f_equal; [f_equal |]; lia. }
  rewrite <- Hself in Hi. apply tile_origin_cell in Hi. congruence.
Qed.

(** The block that a write finds or adds is the block that a lookup in
    the new table finds. *)
Lemma find_or_add_find st m p f :
  store_wf st → mesh_wf st m → paints f →
  let r := match hash_find st (m_blocks m) p with
           | Some block => (st, m, block)
           | None => mesh_add_block st m p
           end in
  hash_find (block_update r.1.1 r.2 f) (m_blocks r.1.2) p = Some r.2
  ∧ ∃ b, heap r.1.1 !! r.2 = Some b ∧ b_pos b = p
         ∧ (hash_find st (m_blocks m) p = None →
            b = block_set_id (block_new p) (m_next_block_id m)).
Proof.
  intros Hs Hm Hf. cbv zeta.
  destruct (hash_find st (m_blocks m) p) as [h |] eqn:Hfind.
  - cbn [fst snd]. rewrite (hash_find_repaints h st) by (apply block_update_repaints, Hf).
    split; [exact Hfind |]. apply hash_find_some in Hfind as (_ & b & Hb & Hp).
    exists b. split_and!; auto. discriminate.
  - destruct (prepare_write_spec st m Hs Hm)
      as (st1 & m1 & Hpw & Hs1 & Hm1 & _ & _ & _ & Hnb & _ & Ht & _).
    unfold mesh_add_block. rewrite Hpw. cbn [fst snd]. rewrite Hnb.
    set (nb := block_set_id (block_new p) (m_next_block_id m)).
    set (h := next_addr st1).
    set (st2 := set_heap (set_next_addr st1 (S h)) (<[h := nb]> (heap (set_next_addr st1 (S h))))).
    assert (Hh : heap st2 !! h = Some nb) by (unfold st2; cbn; apply lookup_insert_eq).
    split; [| exists nb; auto].
    rewrite (hash_find_repaints h st2) by (apply block_update_repaints, Hf).
    cbn [m_blocks hash_add set_blocks set_next_block_id]. rewrite hash_find_app.
    assert (Hold : hash_find st2 (m_blocks m1) p = None).
    { rewrite (hash_find_same_keys st1 st2).
      - eapply hash_find_none_table; [exact Ht | exact Hfind].
      - intros a Ha. unfold st2. cbn. rewrite lookup_insert_ne; [reflexivity |].
        pose proof (mesh_wf_In _ _ _ Hm1 Ha). unfold h. lia. }
    rewrite Hold. unfold hash_find. cbn [List.find]. rewrite Hh.
    destruct (pos3_eqb_eq (b_pos nb) p) as [_ ->]; reflexivity.
Qed.

Lemma mesh_get_at_find st m q :
  (mesh_get_at st m q None).1
  = block_get_at (block_at st (hash_find st (m_blocks m) (tile_origin q))) q.
Proof. reflexivity. Qed.

(** [mesh_set_at] without accessor, after its [mesh_prepare_write]:
    the written voxel is read back, every other voxel reads as before. *)
Lemma set_at_tail_read st m p c q :
  store_wf st → mesh_wf st m → heap_ok st →
  (mesh_get_at (mesh_set_at_tail st m p c None).1.1
               (mesh_set_at_tail st m p c None).1.2 q None).1
  = if decide (q = p) then c else (mesh_get_at st m q None).1.
Proof.
  intros Hs Hm Hh. unfold mesh_set_at_tail.
  pose proof (find_or_add_find st m (tile_origin p) (fun b => block_set_at b p c) Hs Hm
                (paints_block_set_at p c)) as Hfa.
  cbv zeta in Hfa.
  destruct (hash_find st (m_blocks m) (tile_origin p)) as [h |] eqn:Hfind.
  - cbn [fst snd] in *. destruct Hfa as (Hfh & b & Hb & Hpos & _).
    pose proof (block_update_repaints h (fun b => block_set_at b p c) st
                  (paints_block_set_at p c)) as Hrep.
    rewrite !mesh_get_at_find. rewrite (hash_find_repaints h st _ _ _ Hrep).
    rewrite (block_update_some st h _ b Hb) in *.
    destruct (Hh h b Hb) as [Hlen _].
    destruct (decide (tile_origin q = tile_origin p)) as [Et | Et].
    + rewrite Et, Hfind. cbn [block_at heap set_heap]. rewrite lookup_insert_eq, Hb.
      destruct (decide (q = p)) as [-> | Hne].
      * apply (block_set_at_get b p c (tile_origin p)); auto.
      * apply block_set_at_other. exact Hne.
    + destruct (decide (q = p)) as [-> | _]; [contradiction |].
      destruct (hash_find st (m_blocks m) (tile_origin q)) as [h' |] eqn:Hq; [| reflexivity].
      cbn [block_at heap set_heap]. rewrite lookup_insert_ne; [reflexivity |].
      intros <-. apply hash_find_some in Hq as (_ & b' & Hb' & Hp'). congruence.
  - destruct Hfa as (Hfh & nb & Hnb & Hpos & Hnew). specialize (Hnew eq_refl).
    destruct (prepare_write_spec st m Hs Hm)
      as (st1 & m1 & Hpw & Hs1 & Hm1 & _ & _ & _ & Hnid & _ & Ht & _).
    unfold mesh_add_block in *. rewrite Hpw in *. cbn [fst snd] in *.
    set (h := next_addr st1) in *.
    set (st2 := set_heap (set_next_addr st1 (S h)) _) in *.
    set (m2 := hash_add _ h) in *.
    pose proof (block_update_repaints h (fun b => block_set_at b p c) st2
                  (paints_block_set_at p c)) as Hrep.
    rewrite (block_update_some st2 h _ nb Hnb) in *.
    set (st3 := set_heap st2 _) in *.
    assert (Hh3 : heap st3 !! h = Some (block_set_at nb p c)).
    { unfold st3. cbn. apply lookup_insert_eq. }
    assert (Hold : ∀ a, In a (m_blocks m1) → heap st3 !! a = heap st1 !! a).
    { intros a Ha. pose proof (mesh_wf_In _ _ _ Hm1 Ha).
      unfold st3, st2. cbn. rewrite !lookup_insert_ne by (unfold h; lia). reflexivity. }
    assert (Hread1 : ∀ q', (mesh_get_at st m q' None).1
                           = block_get_at (block_at st1 (hash_find st1 (m_blocks m1)
                                                           (tile_origin q'))) q').
    { intros q'. rewrite mesh_get_at_table, <- Ht, <- mesh_get_at_table. reflexivity. }
    assert (Hnone1 : hash_find st1 (m_blocks m1) (tile_origin p) = None).
    { eapply hash_find_none_table; [exact Ht | exact Hfind]. }
    rewrite mesh_get_at_find, Hread1.
    unfold m2. cbn [m_blocks hash_add set_blocks set_next_block_id].
    rewrite hash_find_app.
    rewrite (hash_find_same_keys st1 st3 (m_blocks m1))
      by (intros a Ha; rewrite (Hold a Ha); reflexivity).
    destruct (hash_find st1 (m_blocks m1) (tile_origin q)) as [h' |] eqn:Hq.
    + pose proof (hash_find_some _ _ _ _ Hq) as (Hin' & b' & Hb' & Hp').
      cbn [block_at]. rewrite (Hold h' Hin').
      destruct (decide (q = p)) as [-> | _]; [congruence | reflexivity].
    + cbn [block_at]. unfold hash_find. cbn [List.find]. rewrite Hh3.
      assert (Hp3 : b_pos (block_set_at nb p c) = tile_origin p).
      { destruct (paints_block_set_at p c nb) as (-> & _). exact Hpos. }
      rewrite Hp3.
      assert (Hlen : length (b_voxels nb) = cells).
      { rewrite Hnew. cbn. apply repeat_length. }
      destruct (pos3_eqb (tile_origin p) (tile_origin q)) eqn:Ep.
      * apply pos3_eqb_eq in Ep. cbn [block_at]. rewrite Hh3.
        destruct (decide (q = p)) as [-> | Hne].
        -- apply (block_set_at_get nb p c (tile_origin p)); auto.
        -- rewrite block_set_at_other by exact Hne. rewrite Hnew. apply block_new_get.
      * destruct (decide (q = p)) as [-> | _]; [| reflexivity].
        destruct (pos3_eqb_eq (tile_origin p) (tile_origin p)) as [_ Hrefl].
        rewrite Hrefl in Ep by reflexivity. discriminate.
Qed.

Lemma set_at_read st m p c q :
  store_wf st → mesh_wf st m → heap_ok st →
  (mesh_get_at (mesh_set_at st m p c None).1.1 (mesh_set_at st m p c None).1.2 q None).1
  = if decide (q = p) then c else (mesh_get_at st m q None).1.
Proof.
  intros Hs Hm Hh. unfold mesh_set_at.
  pose proof (prepare_write_heap_ok st m Hh) as Hh1.
  destruct (prepare_write_spec st m Hs Hm)
    as (st1 & m1 & Hpw & Hs1 & Hm1 & _ & _ & _ & _ & _ & Ht & _).
  rewrite Hpw in *. cbn [fst snd] in *.
  rewrite set_at_tail_read by assumption.
  rewrite !mesh_get_at_table, Ht. reflexivity.
Qed.

(** ** Accessors that can be trusted *)

Lemma get_at_valid st m pos it :
  iter_valid st m it →
  (mesh_get_at st m pos (Some it)).1 = (mesh_get_at st m pos None).1
  ∧ ∃ it', (mesh_get_at st m pos (Some it)).2 = Some it' ∧ iter_valid st m it'.
Proof.
  intros Hv. unfold mesh_get_at.
  destruct (it_found it && pos3_eqb (it_pos it) (tile_origin pos)) eqn:Hc.
  - apply andb_true_iff in Hc as [Hf Hp]. apply pos3_eqb_eq in Hp.
    cbn [fst snd]. rewrite (Hv Hf), Hp. split; [reflexivity |].
    exists it. split; [reflexivity | exact Hv].
  - cbn [fst snd]. split; [reflexivity |]. eexists. split; [reflexivity |].
    intros _. reflexivity.
Qed.

Lemma set_at_tail_seats st m pos v iter :
  store_wf st → mesh_wf st m → ref_get st (m_ref m) = 1 →
  (∀ it, iter = Some it → it_found it = false ∨ iter_valid st m it) →
  (mesh_set_at_tail st m pos v iter).1 = (mesh_set_at_tail st m pos v None).1
  ∧ ref_get (mesh_set_at_tail st m pos v iter).1.1
            (m_ref (mesh_set_at_tail st m pos v iter).1.2) = 1
  ∧ (∀ it', (mesh_set_at_tail st m pos v iter).2 = Some it' →
            iter_valid (mesh_set_at_tail st m pos v iter).1.1
                       (mesh_set_at_tail st m pos v iter).1.2 it').
Proof.
  intros Hs Hm Href Hready.
  pose proof (find_or_add_find st m (tile_origin pos) (fun b => block_set_at b pos v) Hs Hm
                (paints_block_set_at pos v)) as [Hfind _].
  cbv zeta in Hfind.
  assert (Hrefs : ref_get
            (block_update
               (match hash_find st (m_blocks m) (tile_origin pos) with
                | Some block => (st, m, block)
                | None => mesh_add_block st m (tile_origin pos)
                end).1.1
               (match hash_find st (m_blocks m) (tile_origin pos) with
                | Some block => (st, m, block)
                | None => mesh_add_block st m (tile_origin pos)
                end).2 (fun b => block_set_at b pos v))
            (m_ref (match hash_find st (m_blocks m) (tile_origin pos) with
                    | Some block => (st, m, block)
                    | None => mesh_add_block st m (tile_origin pos)
                    end).1.2) = 1).
  { destruct (hash_find st (m_blocks m) (tile_origin pos)) as [h |].
    - cbn [fst snd]. unfold ref_get in *.
      destruct (block_update_store st h (fun b => block_set_at b pos v)) as (_ & _ & -> & _).
      exact Href.
    - unfold mesh_add_block. rewrite (prepare_write_unique st m Href). cbn [fst snd].
      unfold ref_get in *.
      match goal with
      | |- context [block_update ?s ?h ?f] =>
          destruct (block_update_store s h f) as (_ & _ & -> & _)
      end.
      cbn. exact Href. }
  assert (Same : ∀ it, iter = Some it →
            it_found it && pos3_eqb (it_pos it) (tile_origin pos) = true →
            match it_block it with
            | Some block => (st, m, block)
            | None => mesh_add_block st m (tile_origin pos)
            end
            = match hash_find st (m_blocks m) (tile_origin pos) with
              | Some block => (st, m, block)
              | None => mesh_add_block st m (tile_origin pos)
              end).
  { intros it Hit Hc. apply andb_true_iff in Hc as [Hf Hp]. apply pos3_eqb_eq in Hp.
    destruct (Hready it Hit) as [Hnf | Hv]; [congruence |].
    rewrite (Hv Hf), Hp. reflexivity. }
  unfold mesh_set_at_tail. destruct iter as [it |].
  - destruct (it_found it && pos3_eqb (it_pos it) (tile_origin pos)) eqn:Hc.
    + rewrite (Same it eq_refl Hc).
      destruct (match hash_find st (m_blocks m) (tile_origin pos) with
                | Some block => (st, m, block)
                | None => mesh_add_block st m (tile_origin pos)
                end) as [[st2 m2] h].
      cbn [fst snd] in *. split_and!; auto.
      intros it' Hit'. inversion Hit'. subst it'. intros _. cbn.
      apply andb_true_iff in Hc as [_ Hp]. apply pos3_eqb_eq in Hp. rewrite Hp.
      symmetry. exact Hfind.
    + destruct (match hash_find st (m_blocks m) (tile_origin pos) with
                | Some block => (st, m, block)
                | None => mesh_add_block st m (tile_origin pos)
                end) as [[st2 m2] h].
      cbn [fst snd] in *. split_and!; auto.
      intros it' Hit'. inversion Hit'. subst it'. intros _. cbn.
      symmetry. exact Hfind.
  - destruct (match hash_find st (m_blocks m) (tile_origin pos) with
              | Some block => (st, m, block)
              | None => mesh_add_block st m (tile_origin pos)
              end) as [[st2 m2] h].
    cbn [fst snd] in *. split_and!; auto. intros it' Hit'. discriminate Hit'.
Qed.

Lemma set_at_seats st m pos v iter :
  store_wf st → mesh_wf st m → iter_ready st m iter →
  (mesh_set_at st m pos v iter).1 = (mesh_set_at st m pos v None).1
  ∧ ref_get (mesh_set_at st m pos v iter).1.1 (m_ref (mesh_set_at st m pos v iter).1.2) = 1
  ∧ (∀ it', (mesh_set_at st m pos v iter).2 = Some it' →
            iter_valid (mesh_set_at st m pos v iter).1.1
                       (mesh_set_at st m pos v iter).1.2 it').
Proof.
  intros Hs Hm Hready. unfold mesh_set_at.
  destruct (prepare_write_spec st m Hs Hm)
    as (st1 & m1 & Hpw & Hs1 & Hm1 & _ & _ & _ & _ & _ & _ & Href1 & Huniq & _).
  rewrite Hpw. apply set_at_tail_seats; auto.
  intros it ->. cbn in Hready. destruct Hready as [Hnf | [Href Hv]]; [left; exact Hnf |].
  right. destruct (Huniq Href) as (Hbl & _ & Hheap & _).
  intros Hf. rewrite (Hv Hf). rewrite Hbl. unfold hash_find. rewrite Hheap. reflexivity.
Qed.

(** ** Lookups in a table with distinct origins *)

Lemma table_find_unique tbl T b :
  NoDup (map (fmap b_pos) tbl) → In (Some b) tbl → b_pos b = T →
  table_find tbl T = Some b.
Proof.
  unfold table_find. induction tbl as [| ob tbl IH]; intros Hnd Hin Hpos; [destruct Hin |].
  cbn [map] in Hnd. apply NoDup_cons_1_1 in Hnd as Hhd. apply NoDup_cons_1_2 in Hnd as Htl.
  cbn [List.find]. destruct Hin as [-> | Hin].
  - destruct (pos3_eqb_eq (b_pos b) T) as [_ ->]; [reflexivity | exact Hpos].
  - destruct ob as [b0 |]; [| auto].
    destruct (pos3_eqb (b_pos b0) T) eqn:Hp0; [| auto].
    exfalso. apply pos3_eqb_eq in Hp0. apply Hhd.
    apply list_elem_of_In, in_map_iff. exists (Some b). cbn. split; [congruence | exact Hin].
Qed.

Lemma table_find_none tbl T :
  (∀ b, In (Some b) tbl → b_pos b ≠ T) → table_find tbl T = None.
Proof.
  intros Hno. destruct (table_find tbl T) as [b |] eqn:Hf; [| reflexivity].
  apply table_find_some in Hf as [Hin Hp]. exfalso. exact (Hno b Hin Hp).
Qed.

Lemma table_find_none_inv tbl T b :
  table_find tbl T = None → In (Some b) tbl → b_pos b ≠ T.
Proof.
  unfold table_find. intros Hf Hin Hp.
  destruct (List.find _ tbl) as [ob |] eqn:Hfind.
  - subst ob. apply find_some in Hfind as [_ Hq]. discriminate Hq.
  - pose proof (find_none _ _ Hfind (Some b) Hin) as Hn. cbn in Hn.
    apply pos3_eqb_eq in Hp. congruence.
Qed.

Lemma table_find_app tbl1 tbl2 T :
  table_find (tbl1 ++ tbl2) T
  = match table_find tbl1 T with
    | Some b => Some b
    | None => table_find tbl2 T
    end.
Proof.
  unfold table_find. induction tbl1 as [| ob tbl1 IH]; [reflexivity |].
  cbn [app List.find]. destruct ob as [b |]; [| exact IH].
  destruct (pos3_eqb (b_pos b) T); [reflexivity | exact IH].
Qed.

Lemma block_get_at_transparent b q :
  all_transparent (b_voxels b) = true → alpha (block_get_at (Some b) q) = 0.
Proof.
  intros Hall. unfold block_get_at.
  destruct (cell_index (b_pos b) q) as [i |]; [| reflexivity].
  destruct (b_voxels b !! i) as [v |] eqn:Hv; [| reflexivity].
  cbn. eapply all_transparent_spec; eauto.
Qed.

(** ** The sweep of the empty blocks *)

(** Removing the blocks that are all transparent from a table with
    distinct origins changes no alpha and no voxel that can be seen. *)
Lemma filter_read tbl q :
  NoDup (map (fmap b_pos) tbl) →
  alpha (table_get (List.filter (fun ob => negb (block_is_empty ob false)) tbl) q)
  = alpha (table_get tbl q)
  ∧ (alpha (table_get tbl q) ≠ 0 →
     table_get (List.filter (fun ob => negb (block_is_empty ob false)) tbl) q
     = table_get tbl q).
Proof.
  intros Hnd. unfold table_get. set (T := tile_origin q).
  set (P := fun ob : option block_t => negb (block_is_empty ob false)).
  destruct (table_find tbl T) as [b |] eqn:Hf.
  - pose proof (table_find_some _ _ _ Hf) as [Hin Hpos].
    destruct (block_is_empty (Some b) false) eqn:He.
    + assert (Hnone : table_find (List.filter P tbl) T = None).
      { apply table_find_none. intros b' Hin' Hp'. apply filter_In in Hin' as [Hin' HP].
        pose proof (table_find_unique tbl T b' Hnd Hin' Hp') as Hf'.
        assert (b' = b) by congruence. subst b'.
        unfold P in HP. rewrite He in HP. discriminate HP. }
      rewrite Hnone. cbn in He.
      pose proof (block_get_at_transparent b q He) as Ha. rewrite Ha.
      split; [reflexivity | intros Hc; exfalso; apply Hc; reflexivity].
    + assert (Hsome : table_find (List.filter P tbl) T = Some b).
      { apply table_find_unique; [| | exact Hpos].
        - fold (List.filter P tbl). clear -Hnd. induction tbl as [| ob tbl IH]; [exact Hnd |].
          cbn [map] in Hnd. apply NoDup_cons_1_1 in Hnd as Hhd.
          apply NoDup_cons_1_2 in Hnd as Htl. cbn [List.filter].
          destruct (P ob); cbn [map]; [| auto].
          apply NoDup_cons_2; [| auto]. intros Hin. apply Hhd.
          apply list_elem_of_In, in_map_iff in Hin as (x & Hx & Hin).
          apply list_elem_of_In, in_map_iff. exists x. split; [exact Hx |].
          apply filter_In in Hin. tauto.
        - apply filter_In. split; [exact Hin |]. unfold P. rewrite He. reflexivity. }
      rewrite Hsome. auto.
  - assert (Hnone : table_find (List.filter P tbl) T = None).
    { apply table_find_none. intros b' Hin' Hp'. apply filter_In in Hin' as [Hin' _].
      exact (table_find_none_inv _ _ _ Hf Hin' Hp'). }
    rewrite Hnone. auto.
Qed.

Lemma sweep_read st m q :
  sound st m →
  alpha (mesh_get_at (mesh_remove_empty_blocks st m).1
                     (mesh_remove_empty_blocks st m).2 q None).1
  = alpha (mesh_get_at st m q None).1
  ∧ (alpha (mesh_get_at st m q None).1 ≠ 0 →
     (mesh_get_at (mesh_remove_empty_blocks st m).1
                  (mesh_remove_empty_blocks st m).2 q None).1
     = (mesh_get_at st m q None).1).
Proof.
  intros (Hs & _ & Hm & (_ & Hnd & _)).
  rewrite !mesh_get_at_table, sweep_table by assumption.
  apply filter_read. exact Hnd.
Qed.

(** ** Adding blocks *)

Lemma hash_find_table_none st l T :
  hash_find st l T = None ↔ table_find (map (fun h => heap st !! h) l) T = None.
Proof.
  pose proof (hash_find_table st l T) as H. split; intros Hn.
  - rewrite <- H, Hn. reflexivity.
  - destruct (hash_find st l T) as [h |] eqn:Hf; [| reflexivity].
    apply hash_find_some in Hf as (_ & b & Hb & _). cbn in H. congruence.
Qed.

Lemma table_get_app_new tbl p i q :
  table_get (tbl ++ [Some (block_set_id (block_new p) i)]) q = table_get tbl q.
Proof.
  unfold table_get. rewrite table_find_app.
  destruct (table_find tbl (tile_origin q)) as [b |]; [reflexivity |].
  unfold table_find. cbn [List.find].
  destruct (pos3_eqb _ _); [apply block_new_get | reflexivity].
Qed.

(** What [add_blocks] does to a sound table: the old entries stay as they
    are and in place, the new entries are fresh blocks on tiles of the
    box, and every tile of the box has a block afterwards. *)
Lemma add_blocks_table st m box :
  sound st m →
  sound (add_blocks st m box).1 (add_blocks st m box).2
  ∧ (∃ news,
       table (add_blocks st m box).1 (add_blocks st m box).2 = table st m ++ news
       ∧ Forall (fun ob => ∃ T i, In T (add_blocks_tiles box)
                                  ∧ ob = Some (block_set_id (block_new T) i)) news)
  ∧ (∀ T, In T (add_blocks_tiles box) →
          mesh_get_block_at (add_blocks st m box).1 (add_blocks st m box).2 T ≠ None).
Proof.
  intros Hsound. unfold add_blocks. set (L := add_blocks_tiles box).
  pose (I := fun (done : list pos3) (s : store * mesh_t) =>
               settled 0 s.1 s.2
               ∧ (∃ news, table s.1 s.2 = table st m ++ news
                          ∧ Forall (fun ob => ∃ T i, In T L
                                       ∧ ob = Some (block_set_id (block_new T) i)) news)
               ∧ (∀ T, In T done → table_find (table s.1 s.2) T ≠ None)).
  assert (HI : I L (fold_left add_blocks_step L (st, m))).
  { apply fold_left_invariant.
    - unfold I. cbn [fst snd]. split_and!.
      + split_and!; [exact Hsound | lia | apply Forall_forall; intros; lia].
      + exists []. rewrite app_nil_r. split; [reflexivity | constructor].
      + intros T [].
    - intros done T [st1 m1] (Hs1 & (news & Htab & Hnews) & Hdone) HT.
      cbn [fst snd] in *. unfold I, add_blocks_step, mesh_get_block_at.
      destruct (hash_find st1 (m_blocks m1) T) as [h |] eqn:Hf.
      + cbn [fst snd]. split_and!; [exact Hs1 | eauto |].
        intros T' HT'. apply in_app_or in HT' as [HT' | [<- | []]]; [auto |].
        intros Hn. apply hash_find_table_none in Hn. unfold table in Hn. congruence.
      + destruct (add_block_settled 0 st1 m1 T) as ([Hs2 _] & Htab2 & _);
          [apply settled_good, Hs1 | eapply add_blocks_tiles_aligned; exact HT | exact Hf |].
        destruct (mesh_add_block st1 m1 T) as [[st2 m2] h]. cbn [fst snd] in *.
        split_and!; [exact Hs2 | |].
        * exists (news ++ [Some (block_set_id (block_new T) (m_next_block_id m1))]).
          rewrite Htab2, Htab, app_assoc. split; [reflexivity |].
          apply Forall_app. split; [exact Hnews |].
          constructor; [| constructor]. eauto.
        * intros T' HT'. rewrite Htab2, table_find_app.
          apply in_app_or in HT' as [HT' | [<- | []]].
          -- specialize (Hdone T' HT').
             destruct (table_find (table st1 m1) T'); [discriminate | contradiction].
          -- destruct (table_find (table st1 m1) T); [discriminate |].
             unfold table_find. cbn [List.find b_pos block_set_id block_new].
             destruct (pos3_eqb_eq T T) as [_ ->]; [discriminate | reflexivity]. }
  destruct (fold_left add_blocks_step L (st, m)) as [st' m'].
  destruct HI as ((Hs' & _) & Hnews & Hdone). cbn [fst snd] in *.
  split_and!; auto.
  intros T HT Hn. apply (Hdone T HT). apply hash_find_table_none. exact Hn.
Qed.

(** ** [mesh_blit] writes the buffer *)

Lemma iter_ready_safe st m iter : iter_ready st m iter → iter_safe st m iter.
Proof.
  destruct iter as [it |]; [| intros _; exact I]. cbn.
  intros [Hnf | [_ Hv]] Hf Hb; [congruence |]. rewrite <- (Hv Hf). exact Hb.
Qed.

Lemma blit_target_inj x y z w h d (i j : nat) :
  0 ≤ w → 0 ≤ h → 0 ≤ d →
  (i < Z.to_nat (w * h * d))%nat → (j < Z.to_nat (w * h * d))%nat →
  blit_target x y z w h i = blit_target x y z w h j → i = j.
Proof.
  intros Hw Hh Hd Hi Hj. unfold blit_target. cbv zeta. intros E.
  inversion E as [[E1 E2 E3]]. clear E.
  assert (Hwpos : 0 < w) by nia. assert (Hhpos : 0 < h) by nia.
  set (a := Z.of_nat i) in *. set (b := Z.of_nat j) in *.
  assert (Ha : 0 ≤ a) by (unfold a; lia). assert (Hb : 0 ≤ b) by (unfold b; lia).
  rewrite <- !Z.div_div in E3 by lia.
  pose proof (Z.div_mod a w ltac:(lia)) as Da.
  pose proof (Z.div_mod b w ltac:(lia)) as Db.
  pose proof (Z.div_mod (a / w) h ltac:(lia)) as Da'.
  pose proof (Z.div_mod (b / w) h ltac:(lia)) as Db'.
  assert (E12 : a / w = b / w) by (rewrite Da', Db'; f_equal; [f_equal |]; lia).
  assert (Eab : a = b) by (rewrite Da, Db; f_equal; [f_equal |]; lia).
  unfold a, b in Eab. lia.
Qed.

Lemma blit_reads_other data x y z w h old q n :
  (∀ i, (i < n)%nat → blit_target x y z w h i ≠ q) →
  blit_reads data x y z w h n old q = old q.
Proof.
  induction n as [| n IH]; intros Hno; [reflexivity |].
  cbn [blit_reads]. destruct (decide (q = blit_target x y z w h n)) as [-> | _].
  - exfalso. apply (Hno n); [lia | reflexivity].
  - apply IH. intros i Hi. apply Hno. lia.
Qed.

Lemma blit_reads_target data x y z w h old n i :
  (∀ j k, (j < n)%nat → (k < n)%nat →
          blit_target x y z w h j = blit_target x y z w h k → j = k) →
  (i < n)%nat →
  blit_reads data x y z w h n old (blit_target x y z w h i) = read_rgba data (4 * i).
Proof.
  induction n as [| n IH]; intros Hinj Hi; [lia |].
  cbn [blit_reads].
  destruct (decide (blit_target x y z w h i = blit_target x y z w h n)) as [E | Hne].
  - apply Hinj in E; [subst i; reflexivity | lia | lia].
  - apply IH; [| destruct (decide (i = n)); [subst; contradiction | lia]].
    intros j k Hj Hk. apply Hinj; lia.
Qed.

(** The state after the first [k] writes of a blit. *)
Lemma blit_writes_read data x y z w h st m it (k : nat) :
  sound st m → iter_ready st m (Some it) →
  let s := fold_left (blit_write data x y z w h) (seq 0 k) (st, m, it) in
  sound s.1.1 s.1.2
  ∧ iter_ready s.1.1 s.1.2 (Some s.2)
  ∧ ∀ q, (mesh_get_at s.1.1 s.1.2 q None).1
         = blit_reads data x y z w h k (fun q => (mesh_get_at st m q None).1) q.
Proof.
  intros Hsound Hready. cbv zeta. induction k as [| k IH].
  - cbn [seq fold_left fst snd blit_reads]. auto.
  - rewrite seq_S, fold_left_app. cbn [fold_left Nat.add].
    destruct (fold_left (blit_write data x y z w h) (seq 0 k) (st, m, it))
      as [[st1 m1] it1].
    cbn [fst snd] in IH. destruct IH as (Hs1 & Hr1 & Hread1).
    unfold blit_write.
    set (p := blit_target x y z w h k). set (c := read_rgba data (4 * k)).
    pose proof Hs1 as (Hwf1 & Hh1 & Hm1 & _).
    destruct (mesh_set_at_lands 0 st1 m1 p c (Some it1) (good_zero _ _ Hs1)
                (iter_ready_safe _ _ _ Hr1) (iter_above_zero _)) as ([(Hs2 & _) _] & _).
    destruct (set_at_seats st1 m1 p c (Some it1) Hwf1 Hm1 Hr1) as (Hsame & Href2 & Hv2).
    pose proof (fun q => set_at_read st1 m1 p c q Hwf1 Hm1 Hh1) as Hread2.
    rewrite <- Hsame in Hread2.
    destruct (mesh_set_at_some st1 m1 p c it1) as [it2 Hit2].
    destruct (mesh_set_at st1 m1 p c (Some it1)) as [[st2 m2] oit].
    cbn [fst snd] in *. subst oit. cbn [default].
    split_and!; [exact Hs2 | right; auto |].
    intros q. rewrite Hread2. cbn [blit_reads]. fold p c.
    destruct (decide (q = p)); [reflexivity | apply Hread1].
Qed.

Lemma mesh_blit_read st m data x y z w h d iter q :
  sound st m → iter_ready st m iter → 0 ≤ w → 0 ≤ h → 0 ≤ d →
  let e := blit_reads data x y z w h (Z.to_nat (w * h * d))
                      (fun q => (mesh_get_at st m q None).1) q in
  alpha (mesh_get_at (mesh_blit st m data x y z w h d iter).1.1
                     (mesh_blit st m data x y z w h d iter).1.2 q None).1 = alpha e
  ∧ (alpha e ≠ 0 →
     (mesh_get_at (mesh_blit st m data x y z w h d iter).1.1
                  (mesh_blit st m data x y z w h d iter).1.2 q None).1 = e).
Proof.
  intros Hsound Hready Hw Hh Hd. cbv zeta. unfold mesh_blit.
  rewrite blit_loops_flat, blit_positions_index by assumption.
  rewrite (blit_offsets data x y z w h _ 0%nat).
  assert (Hready0 : iter_ready st m (Some (default iter_zero iter))).
  { destruct iter as [it |]; [exact Hready | left; reflexivity]. }
  destruct (blit_writes_read data x y z w h st m (default iter_zero iter)
              (Z.to_nat (w * h * d)) Hsound Hready0) as (Hs1 & _ & Hread1).
  destruct (fold_left (blit_write data x y z w h) _ _) as [[st1 m1] it1].
  cbn [fst snd] in *.
  pose proof (sweep_read st1 m1 q Hs1) as Hsw.
  destruct (mesh_remove_empty_blocks st1 m1) as [st2 m2]. cbn [fst snd] in *.
  rewrite Hread1 in Hsw. exact Hsw.
Qed.

(** ** The iterators *)

Lemma calls_app {S A} (step : S → option (option A * S)) (a b : nat) (s : S) :
  run_calls step (a + b) s
  = match run_calls step a s with
    | None => None
    | Some (rs, s1) =>
        match run_calls step b s1 with
        | None => None
        | Some (rs2, s2) => Some (rs ++ rs2, s2)
        end
    end.
Proof.
  revert s. induction a as [| a IH]; intros s.
  - cbn. destruct (run_calls step b s) as [[rs2 s2] |]; reflexivity.
  - cbn [Nat.add run_calls]. destruct (step s) as [[r s1] |]; [| reflexivity].
    rewrite IH. destruct (run_calls step a s1) as [[rs s2] |]; [| reflexivity].
    destruct (run_calls step b s2) as [[rs2 s3] |]; reflexivity.
Qed.

Lemma calls_done {S A} (step : S → option (option A * S)) (s : S) (k : nat) :
  step s = Some (None, s) → run_calls step k s = Some (repeat None k, s).
Proof.
  intros Hs. induction k as [| k IH]; [reflexivity |].
  cbn [run_calls repeat]. rewrite Hs, IH. reflexivity.
Qed.

Lemma hash_next_spec pre h rest :
  ¬ In h pre → hash_next (pre ++ h :: rest) h = Some (head rest).
Proof.
  induction pre as [| a pre IH]; intros Hnot; cbn [app hash_next].
  - rewrite Nat.eqb_refl. reflexivity.
  - destruct (Nat.eqb_spec a h) as [-> | _]; [exfalso; apply Hnot; left; reflexivity |].
    apply IH. intros Hin. apply Hnot. right. exact Hin.
Qed.

Lemma cells_value : Z.of_nat cells = 4096.
Proof. reflexivity. Qed.

(** *** [mesh_iter_blocks] *)

Lemma iter_blocks_from st m rest : ∀ pre it,
  m_blocks m = pre ++ rest → NoDup (m_blocks m) →
  (∀ h, In h rest → heap st !! h ≠ None) →
  ir_finished it = false →
  rest ≠ [] →
  (it_block (ir_it it) = head rest ∨ (it_block (ir_it it) = None ∧ pre = [])) →
  ∃ it', run_calls (mesh_iter_blocks st m) (length rest) it
         = Some (map Some (omap (fun h => (fun b => (h, b_pos b, b_id b)) <$> heap st !! h)
                                rest), it')
         ∧ ir_finished it' = true.
Proof.
  induction rest as [| h rest IH]; intros pre it Hbl Hnd Hheap Hfin Hne Hat;
    [contradiction |].
  cbn [length run_calls].
  assert (Hstep : mesh_iter_blocks st m it
                  = match heap st !! h with
                    | Some b =>
                        Some (Some (h, b_pos b, b_id b),
                              iterator_at it (head rest) (it_pos (ir_it it))
                                (match head rest with
                                 | None => true
                                 | Some _ => ir_finished it
                                 end))
                    | None => None
                    end).
  { unfold mesh_iter_blocks. cbv zeta. rewrite Hfin.
    assert (Hnext : hash_next (m_blocks m) h = Some (head rest)).
    { rewrite Hbl. apply hash_next_spec. rewrite Hbl in Hnd.
      apply NoDup_app in Hnd as (_ & Hdis & _). intros Hin.
      apply (Hdis h); [apply list_elem_of_In, Hin | left]. }
    destruct Hat as [Hb | [Hb ->]].
    - destruct (m_blocks m) as [| first l] eqn:Hm; [destruct pre; discriminate Hbl |].
      rewrite Hb. cbn [head default id]. rewrite Hnext.
      destruct (heap st !! h); reflexivity.
    - cbn [app] in Hbl. rewrite Hbl in *. rewrite Hb. cbn [default id]. rewrite Hnext.
      destruct (heap st !! h); reflexivity. }
  rewrite Hstep. cbn [omap list_omap].
  destruct (heap st !! h) as [b |] eqn:Hb;
    [| exfalso; apply (Hheap h); [left; reflexivity | exact Hb]].
  cbn [fmap option_fmap option_map map].
  destruct rest as [| h' rest].
  - cbn [head length run_calls omap list_omap map]. eexists. split; [reflexivity | reflexivity].
  - destruct (IH (pre ++ [h]) (iterator_at it (Some h') (it_pos (ir_it it)) (ir_finished it)))
      as (it' & Hcalls & Hfin').
    + rewrite <- app_assoc. exact Hbl.
    + exact Hnd.
    + intros x Hx. apply Hheap. right. exact Hx.
    + exact Hfin.
    + discriminate.
    + left. reflexivity.
    + cbn [head]. rewrite Hcalls. eexists. split; [reflexivity | exact Hfin'].
Qed.

Lemma iter_blocks_all st m (k : nat) :
  table_ok st m →
  ∃ it', run_calls (mesh_iter_blocks st m) (length (m_blocks m) + k) (mesh_get_iterator m)
         = Some (map Some (all_blocks st m) ++ repeat None k, it').
Proof.
  intros Hok. rewrite calls_app. unfold all_blocks.
  destruct (m_blocks m) as [| h l] eqn:Hbl.
  - cbn [length run_calls omap map app].
    rewrite calls_done; [eexists; reflexivity |].
    unfold mesh_iter_blocks. rewrite Hbl. reflexivity.
  - assert (Hnd : NoDup (m_blocks m)) by (apply (table_ok_NoDup st), Hok).
    assert (Hheap : ∀ x, In x (h :: l) → heap st !! x ≠ None).
    { intros x Hx Hn. rewrite <- Hbl in Hx.
      destruct (table_ok_In st m x Hok Hx) as (b & Hb & _). congruence. }
    assert (Hne : h :: l ≠ []) by discriminate.
    destruct (iter_blocks_from st m (h :: l) [] (mesh_get_iterator m) Hbl Hnd Hheap eq_refl Hne
                (or_intror (conj eq_refl eq_refl)))
      as (it' & Hcalls & Hfin).
    rewrite Hcalls. rewrite calls_done; [eexists; reflexivity |].
    unfold mesh_iter_blocks. rewrite Hbl, Hfin. reflexivity.
Qed.

(** *** [mesh_iter_voxels] *)

Lemma index_decode x y z :
  0 ≤ x < 16 → 0 ≤ y < 16 → 0 ≤ z < 16 →
  (x + y * 16 + z * 16 * 16) mod 16 = x
  ∧ ((x + y * 16 + z * 16 * 16) / 16) mod 16 = y
  ∧ (x + y * 16 + z * 16 * 16) / (16 * 16) = z.
Proof.
  intros Hx Hy Hz.
  assert (H1 : (x + y * 16 + z * 16 * 16) / 16 = y + z * 16).
  { symmetry. apply (Z.div_unique _ 16 _ x); lia. }
  split_and!.
  - symmetry. apply (Z.mod_unique _ 16 (y + z * 16) x); lia.
  - rewrite H1. symmetry. apply (Z.mod_unique _ 16 z y); lia.
  - symmetry. apply (Z.div_unique _ (16 * 16) _ (x + y * 16)); lia.
Qed.

(** One call on an iterator that stands in the block [h]. *)
Lemma iter_voxels_step st m pre h rest it b x y z :
  m_blocks m = pre ++ h :: rest → ¬ In h pre →
  ir_finished it = false → heap st !! h = Some b →
  ((it_block (ir_it it) = Some h ∧ it_pos (ir_it it) = (x, y, z))
   ∨ (it_block (ir_it it) = None ∧ pre = [] ∧ (x, y, z) = (0, 0, 0))) →
  0 ≤ x < 16 → 0 ≤ y < 16 → 0 ≤ z < 16 →
  let i := Z.to_nat (x + y * 16 + z * 16 * 16) in
  let out := Some (cell_pos (b_pos b) i, default rgba_zero (b_voxels b !! i)) in
  mesh_iter_voxels st m it
  = if decide (x + y * 16 + z * 16 * 16 = 4095)
    then Some (out, iterator_at it (head rest) (0, 0, 0)
                      (match head rest with
                       | None => true
                       | Some _ => false
                       end))
    else Some (out,
               iterator_at it (Some h)
                 (if decide (x = 15) then
                    if decide (y = 15) then (0, 0, z + 1) else (0, y + 1, z)
                  else (x + 1, y, z)) false).
Proof.
  intros Hbl Hpre Hfin Hb Hat Hx Hy Hz. cbv zeta.
  assert (Hnext : hash_next (m_blocks m) h = Some (head rest)).
  { rewrite Hbl. apply hash_next_spec. exact Hpre. }
  assert (Hout : (x + (b_pos b).1.1, y + (b_pos b).1.2, z + (b_pos b).2)
                 = cell_pos (b_pos b) (Z.to_nat (x + y * 16 + z * 16 * 16))).
  { destruct (b_pos b) as [[bx by_] bz]. unfold cell_pos, N, BLOCK_SIZE. cbn [fst snd].
    rewrite Z2Nat.id by lia.
    destruct (index_decode x y z Hx Hy Hz) as (-> & -> & ->).
    f_equal; [f_equal |]; lia. }
  assert (Hvox : voxel_at b (x + y * N + z * N * N)
                 = default rgba_zero (b_voxels b !! Z.to_nat (x + y * 16 + z * 16 * 16))).
  { unfold voxel_at, N, BLOCK_SIZE.
    destruct (Z.leb_spec 0 (x + y * 16 + z * 16 * 16)); [reflexivity | lia]. }
  unfold mesh_iter_voxels. rewrite Hfin.
  assert (Hsel : match m_blocks m with
                 | [] => None
                 | first :: _ =>
                     Some match it_block (ir_it it) with
                          | Some block => (block, it_pos (ir_it it))
                          | None => (first, (0, 0, 0))
                          end
                 end = Some (h, (x, y, z))).
  { destruct Hat as [[Hblk Hpos] | (Hblk & -> & Hpos)].
    - rewrite Hblk, Hpos. destruct (m_blocks m); [destruct pre; discriminate Hbl |].
      reflexivity.
    - cbn [app] in Hbl. rewrite Hbl, Hblk. inversion Hpos. reflexivity. }
  destruct (m_blocks m) as [| first l] eqn:Hm; [discriminate Hsel |].
  inversion Hsel as [Hsel']. rewrite Hsel'. rewrite Hb.
  destruct (b_pos b) as [[bx by_] bz] eqn:Hbp. cbn [fst snd] in Hout.
  rewrite Hvox, Hout, Hnext. unfold N, BLOCK_SIZE, iterator_at.
  destruct (Z.geb_spec (x + 1) 16) as [Gx | Gx];
    [destruct (Z.geb_spec (y + 1) 16) as [Gy | Gy];
     [destruct (Z.geb_spec (z + 1) 16) as [Gz | Gz] |] |].
  - destruct (decide (x + y * 16 + z * 16 * 16 = 4095)); [| lia].
    destruct (head rest); reflexivity.
  - destruct (decide (x + y * 16 + z * 16 * 16 = 4095)); [lia |].
    destruct (decide (x = 15)); [| lia]. destruct (decide (y = 15)); [| lia]. reflexivity.
  - destruct (decide (x + y * 16 + z * 16 * 16 = 4095)); [lia |].
    destruct (decide (x = 15)); [| lia]. destruct (decide (y = 15)); [lia |]. reflexivity.
  - destruct (decide (x + y * 16 + z * 16 * 16 = 4095)); [lia |].
    destruct (decide (x = 15)); [lia |]. reflexivity.
Qed.

(** The calls that run through the rest of a block. *)
Lemma iter_voxels_block st m pre h rest b (r : nat) : ∀ it x y z,
  m_blocks m = pre ++ h :: rest → ¬ In h pre →
  ir_finished it = false → heap st !! h = Some b →
  ((it_block (ir_it it) = Some h ∧ it_pos (ir_it it) = (x, y, z))
   ∨ (it_block (ir_it it) = None ∧ pre = [] ∧ (x, y, z) = (0, 0, 0))) →
  0 ≤ x < 16 → 0 ≤ y < 16 → 0 ≤ z < 16 →
  Z.of_nat r = 4096 - (x + y * 16 + z * 16 * 16) →
  ∃ it',
    run_calls (mesh_iter_voxels st m) r it
    = Some (map (fun i => Some (cell_pos (b_pos b) i, default rgba_zero (b_voxels b !! i)))
                (seq (Z.to_nat (x + y * 16 + z * 16 * 16)) r), it')
    ∧ it_block (ir_it it') = head rest
    ∧ ir_finished it' = match head rest with
                        | None => true
                        | Some _ => false
                        end.
Proof.
  induction r as [| r IH]; intros it x y z Hbl Hpre Hfin Hb Hat Hx Hy Hz Hr; [lia |].
  cbn [run_calls seq map].
  rewrite (iter_voxels_step st m pre h rest it b x y z) by assumption.
  destruct (decide (x + y * 16 + z * 16 * 16 = 4095)) as [Hlast | Hmore].
  - assert (r = 0%nat) by lia. subst r. cbn [run_calls seq map].
    eexists. split; [reflexivity |]. cbn. split; reflexivity.
  - match goal with
    | |- context [iterator_at it (Some h) ?p false] => set (p' := p)
    end.
    assert (Hp' : ∃ x' y' z', p' = (x', y', z') ∧ 0 ≤ x' < 16 ∧ 0 ≤ y' < 16 ∧ 0 ≤ z' < 16
                  ∧ x' + y' * 16 + z' * 16 * 16 = x + y * 16 + z * 16 * 16 + 1).
    { unfold p'. destruct (decide (x = 15)); [destruct (decide (y = 15)) |];
        eexists _, _, _; (split; [reflexivity |]); lia. }
    destruct Hp' as (x' & y' & z' & Ep & Hx' & Hy' & Hz' & Hidx).
    rewrite Ep. clear Ep p'.
    destruct (IH (iterator_at it (Some h) (x', y', z') false) x' y' z')
      as (it' & Hcalls & Hblk' & Hfin'); auto; [lia |].
    rewrite Hcalls, Hidx.
    replace (Z.to_nat (x + y * 16 + z * 16 * 16 + 1))
      with (S (Z.to_nat (x + y * 16 + z * 16 * 16))) by lia.
    eexists. split; [reflexivity | auto].
Qed.

Lemma iter_voxels_from st m rest : ∀ pre it,
  m_blocks m = pre ++ rest → NoDup (m_blocks m) →
  (∀ h, In h rest → heap st !! h ≠ None) →
  ir_finished it = false →
  rest ≠ [] →
  ((it_block (ir_it it) = head rest ∧ it_pos (ir_it it) = (0, 0, 0))
   ∨ (it_block (ir_it it) = None ∧ pre = [])) →
  ∃ it', run_calls (mesh_iter_voxels st m) (cells * length rest) it
         = Some (map Some (flat_map (fun h => match heap st !! h with
                                              | Some b => block_voxels b
                                              | None => []
                                              end) rest), it')
         ∧ ir_finished it' = true.
Proof.
  induction rest as [| h rest IH]; intros pre it Hbl Hnd Hheap Hfin Hne Hat;
    [contradiction |].
  cbn [length flat_map].
  replace (cells * S (length rest))%nat with (cells + cells * length rest)%nat by lia.
  rewrite calls_app.
  destruct (heap st !! h) as [b |] eqn:Hb;
    [| exfalso; apply (Hheap h); [left; reflexivity | exact Hb]].
  assert (Hpre : ¬ In h pre).
  { rewrite Hbl in Hnd. apply NoDup_app in Hnd as (_ & Hdis & _). intros Hin.
    apply (Hdis h); [apply list_elem_of_In, Hin | left]. }
  assert (Hat' : (it_block (ir_it it) = Some h ∧ it_pos (ir_it it) = (0, 0, 0))
                 ∨ (it_block (ir_it it) = None ∧ pre = [] ∧ (0, 0, 0) = (0, 0, 0))).
  { destruct Hat as [[Hblk Hpos] | [Hblk Hp]]; [left | right]; auto. }
  assert (Hcells : Z.of_nat cells = 4096 - (0 + 0 * 16 + 0 * 16 * 16)).
  { rewrite cells_value. reflexivity. }
  destruct (iter_voxels_block st m pre h rest b cells it 0 0 0 Hbl Hpre Hfin Hb Hat'
              ltac:(lia) ltac:(lia) ltac:(lia) Hcells)
    as (it1 & Hcalls & Hblk1 & Hfin1).
  rewrite Hcalls. change (Z.to_nat (0 + 0 * 16 + 0 * 16 * 16)) with 0%nat.
  rewrite map_app. unfold block_voxels at 1. rewrite map_map.
  destruct rest as [| h' rest].
  - cbn [length Nat.mul run_calls flat_map map app]. rewrite Nat.mul_0_r. cbn [run_calls].
    rewrite app_nil_r. eexists. split; [reflexivity | exact Hfin1].
  - assert (Hpos1 : it_pos (ir_it it1) = (0, 0, 0)).
    { clear -Hcalls Hb Hbl Hpre Hfin Hat.
      (* the last call of the block resets the local position *)
      assert (H : ∀ r it x y z,
                 ir_finished it = false →
                 ((it_block (ir_it it) = Some h ∧ it_pos (ir_it it) = (x, y, z))
                  ∨ (it_block (ir_it it) = None ∧ pre = [] ∧ (x, y, z) = (0, 0, 0))) →
                 0 ≤ x < 16 → 0 ≤ y < 16 → 0 ≤ z < 16 →
                 Z.of_nat r = 4096 - (x + y * 16 + z * 16 * 16) →
                 ∀ rs it', run_calls (mesh_iter_voxels st m) r it = Some (rs, it') →
                           it_pos (ir_it it') = (0, 0, 0)).
      { induction r as [| r IHr]; intros it0 x y z Hfin0 Hat0 Hx Hy Hz Hr rs it' Hc; [lia |].
        cbn [run_calls] in Hc.
        rewrite (iter_voxels_step st m pre h (h' :: rest) it0 b x y z) in Hc by assumption.
        destruct (decide (x + y * 16 + z * 16 * 16 = 4095)) as [Hlast | Hmore].
        - assert (r = 0%nat) by lia. subst r. cbn [run_calls] in Hc. inversion Hc. reflexivity.
        - match type of Hc with
          | context [iterator_at it0 (Some h) ?p false] => set (p' := p) in Hc
          end.
          assert (Hp' : ∃ x' y' z', p' = (x', y', z') ∧ 0 ≤ x' < 16 ∧ 0 ≤ y' < 16
                        ∧ 0 ≤ z' < 16
                        ∧ x' + y' * 16 + z' * 16 * 16 = x + y * 16 + z * 16 * 16 + 1).
          { unfold p'. destruct (decide (x = 15)); [destruct (decide (y = 15)) |];
              eexists _, _, _; (split; [reflexivity |]); lia. }
          destruct Hp' as (x' & y' & z' & Ep & Hx' & Hy' & Hz' & Hidx). rewrite Ep in Hc.
          destruct (run_calls (mesh_iter_voxels st m) r
                      (iterator_at it0 (Some h) (x', y', z') false))
            as [[rs1 it1'] |] eqn:E1; [| discriminate].
          inversion Hc. subst it'.
          eapply (IHr _ x' y' z'); [| | | | | | exact E1]; auto; lia. }
      eapply (H cells it 0 0 0); [exact Hfin | | lia | lia | lia | | exact Hcalls].
      - destruct Hat as [[Hblk Hpos] | [Hblk Hp]]; [left | right]; auto.
      - rewrite cells_value. lia. }
    destruct (IH (pre ++ [h]) it1) as (it' & Hcalls2 & Hfin2).
    + rewrite <- app_assoc. exact Hbl.
    + exact Hnd.
    + intros x Hx. apply Hheap. right. exact Hx.
    + rewrite Hfin1. reflexivity.
    + discriminate.
    + left. split; [exact Hblk1 | exact Hpos1].
    + rewrite Hcalls2. eexists. split; [reflexivity | exact Hfin2].
Qed.

Lemma iter_voxels_all st m (k : nat) :
  table_ok st m →
  ∃ it', run_calls (mesh_iter_voxels st m) (cells * length (m_blocks m) + k)
               (mesh_get_iterator m)
         = Some (map Some (all_voxels st m) ++ repeat None k, it').
Proof.
  intros Hok. rewrite calls_app. unfold all_voxels.
  destruct (m_blocks m) as [| h l] eqn:Hbl.
  - cbn [length flat_map map app]. rewrite Nat.mul_0_r. cbn [run_calls].
    rewrite calls_done; [eexists; reflexivity |].
    unfold mesh_iter_voxels. rewrite Hbl. reflexivity.
  - assert (Hnd : NoDup (m_blocks m)) by (apply (table_ok_NoDup st), Hok).
    assert (Hheap : ∀ x, In x (h :: l) → heap st !! x ≠ None).
    { intros x Hx Hn. rewrite <- Hbl in Hx.
      destruct (table_ok_In st m x Hok Hx) as (b & Hb & _). congruence. }
    assert (Hne : h :: l ≠ []) by discriminate.
    destruct (iter_voxels_from st m (h :: l) [] (mesh_get_iterator m) Hbl Hnd Hheap eq_refl Hne
                (or_intror (conj eq_refl eq_refl)))
      as (it' & Hcalls & Hfin).
    rewrite Hcalls. rewrite calls_done; [eexists; reflexivity |].
    unfold mesh_iter_voxels. rewrite Hbl, Hfin. reflexivity.
Qed.

(** *** The voxels of the iterator and the voxels that are read *)

Lemma cell_index_cell_pos bpos i :
  (i < cells)%nat → cell_index bpos (cell_pos bpos i) = Some i.
Proof.
  intros Hi. destruct bpos as [[ox oy] oz]. unfold cell_index, cell_pos, N, BLOCK_SIZE.
  pose proof cells_value as Hc.
  set (k := Z.of_nat i). assert (Hk : 0 ≤ k < 4096) by (unfold k; lia).
  pose proof (Z.mod_pos_bound k 16 ltac:(lia)) as H1.
  pose proof (Z.mod_pos_bound (k / 16) 16 ltac:(lia)) as H2.
  assert (H3 : 0 ≤ k / (16 * 16) < 16).
  { split; [apply Z.div_pos; lia | apply Z.div_lt_upper_bound; lia]. }
  replace (ox + k mod 16 - ox) with (k mod 16) by lia.
  replace (oy + (k / 16) mod 16 - oy) with ((k / 16) mod 16) by lia.
  replace (oz + k / (16 * 16) - oz) with (k / (16 * 16)) by lia.
  destruct (Z.leb_spec 0 (k mod 16)); [| lia].
  destruct (Z.ltb_spec (k mod 16) 16); [| lia].
  destruct (Z.leb_spec 0 ((k / 16) mod 16)); [| lia].
  destruct (Z.ltb_spec ((k / 16) mod 16) 16); [| lia].
  destruct (Z.leb_spec 0 (k / (16 * 16))); [| lia].
  destruct (Z.ltb_spec (k / (16 * 16)) 16); [| lia].
  cbn [andb]. f_equal.
  assert (E : k mod 16 + (k / 16) mod 16 * 16 + k / (16 * 16) * 16 * 16 = k).
  { rewrite <- Z.div_div by lia.
    pose proof (Z.div_mod k 16 ltac:(lia)). pose proof (Z.div_mod (k / 16) 16 ltac:(lia)).
    lia. }
  rewrite E. unfold k. lia.
Qed.

Lemma tile_origin_aligned p : aligned p → tile_origin p = p.
Proof.
  destruct p as [[x y] z]. cbn. intros (Hx & Hy & Hz).
  unfold tile_origin, c_mod, N. rewrite Hx, Hy, Hz. cbn. f_equal; [f_equal |]; lia.
Qed.

Lemma tile_origin_cell_pos bpos i :
  aligned bpos → (i < cells)%nat → tile_origin (cell_pos bpos i) = bpos.
Proof.
  intros Hal Hi. pose proof (cell_index_cell_pos bpos i Hi) as Hc.
  rewrite <- (tile_origin_aligned bpos Hal) in Hc at 1.
  apply tile_origin_cell in Hc. rewrite Hc. apply tile_origin_aligned, Hal.
Qed.

Lemma all_voxels_read st m p v :
  sound st m → In (p, v) (all_voxels st m) → (mesh_get_at st m p None).1 = v.
Proof.
  intros (_ & Hh & _ & Hok) Hin. pose proof Hok as (_ & Hnd & _).
  unfold all_voxels in Hin. apply in_flat_map in Hin as (h & Hh_in & Hin).
  destruct (heap st !! h) as [b |] eqn:Hb; [| destruct Hin].
  unfold block_voxels in Hin. apply in_map_iff in Hin as (i & Hi & Hseq).
  apply in_seq in Hseq. inversion Hi. subst p v. clear Hi.
  destruct (Hh h b Hb) as [_ Hal].
  rewrite mesh_get_at_table. unfold table_get.
  rewrite (tile_origin_cell_pos _ _ Hal) by lia.
  rewrite (table_find_unique (table st m) (b_pos b) b Hnd); [| | reflexivity].
  - unfold block_get_at. rewrite cell_index_cell_pos by lia. reflexivity.
  - unfold table. apply in_map_iff. exists h. auto.
Qed.

Lemma visible_in_all_voxels st m p :
  alpha (mesh_get_at st m p None).1 ≠ 0 →
  In (p, (mesh_get_at st m p None).1) (all_voxels st m).
Proof.
  rewrite mesh_get_at_table. unfold table_get. intros Ha.
  destruct (table_find (table st m) (tile_origin p)) as [b |] eqn:Hf;
    [| exfalso; apply Ha; reflexivity].
  apply table_find_some in Hf as [Hin Hpos].
  unfold table in Hin. apply in_map_iff in Hin as (h & Hb & Hin).
  unfold all_voxels. apply in_flat_map. exists h. split; [exact Hin |]. rewrite Hb.
  destruct (cell_index_tile p) as (i & Hi & Hlt & Hcp).
  unfold block_voxels. apply in_map_iff. exists i. split; [| apply in_seq; lia].
  unfold block_get_at. rewrite Hpos, Hi, Hcp. reflexivity.
Qed.

(** ** Reference counts *)

Lemma fold_block_delete_in l : ∀ st h,
  In h l → heap (fold_left block_delete l st) !! h = None.
Proof.
  induction l as [| x l IH]; intros st h Hin; [destruct Hin |].
  cbn [fold_left]. destruct (in_dec Nat.eq_dec h l) as [Hl | Hl]; [apply IH, Hl |].
  rewrite fold_block_delete_heap by exact Hl.
  destruct Hin as [-> | Hin]; [| contradiction].
  unfold block_delete. cbn. apply lookup_delete_eq.
Qed.

Lemma ref_get_set st r v : ref_get (ref_set st r v) r = v.
Proof. unfold ref_get, ref_set. cbn. rewrite lookup_insert_eq. reflexivity. Qed.

Lemma ref_get_set_ne st r r' v : r' ≠ r → ref_get (ref_set st r v) r' = ref_get st r'.
Proof.
  intros Hne. unfold ref_get, ref_set. cbn. rewrite lookup_insert_ne by congruence.
  reflexivity.
Qed.

(** The store after the loop that empties the table of [mesh] and frees
    its reference count. *)
Lemma release_spec st mesh :
  let st' := set_refs (delete_all_blocks st mesh).1
                      (delete (m_ref mesh) (refs (delete_all_blocks st mesh).1)) in
  (∀ h, In h (m_blocks mesh) → heap st' !! h = None)
  ∧ (∀ h, ¬ In h (m_blocks mesh) → heap st' !! h = heap st !! h)
  ∧ refs st' !! m_ref mesh = None
  ∧ (∀ r, r ≠ m_ref mesh → refs st' !! r = refs st !! r)
  ∧ next_addr st' = next_addr st ∧ next_uid st' = next_uid st.
Proof.
  cbv zeta. unfold delete_all_blocks. rewrite delete_all_blocks_fst.
  destruct (fold_block_delete_store (m_blocks mesh) st) as [Hr Ha].
  cbn [heap refs next_addr next_uid set_refs]. split_and!.
  - intros h Hin. apply fold_block_delete_in, Hin.
  - intros h Hnot. apply fold_block_delete_heap, Hnot.
  - apply lookup_delete_eq.
  - intros r Hne. rewrite lookup_delete_ne by congruence. rewrite Hr. reflexivity.
  - exact Ha.
  - destruct (quiet_fold block_delete (m_blocks mesh) quiet_block_delete st) as (_ & Hu & _).
    exact Hu.
Qed.

(** ** Reads through accessors, and what a table shows *)

Lemma iter_zero_valid st m : iter_valid st m iter_zero.
Proof. intros H. discriminate H. Qed.

Lemma reads_through_valid st m ps : ∀ it,
  iter_valid st m it →
  reads_through st m ps it = map (fun p => (mesh_get_at st m p None).1) ps.
Proof.
  induction ps as [| p ps IH]; intros it Hv; [reflexivity |].
  cbn [reads_through map].
  destruct (get_at_valid st m p it Hv) as (Hr & it' & E & Hv').
  rewrite Hr, E. f_equal. apply IH, Hv'.
Qed.

Lemma table_get_app_fresh tbl news q :
  Forall (fun ob => ∃ T i, ob = Some (block_set_id (block_new T) i)) news →
  table_get (tbl ++ news) q = table_get tbl q.
Proof.
  intros Hn. unfold table_get. rewrite table_find_app.
  destruct (table_find tbl (tile_origin q)) as [b |]; [reflexivity |].
  destruct (table_find news (tile_origin q)) as [b |] eqn:Hf; [| reflexivity].
  apply table_find_some in Hf as [Hin _].
  destruct (proj1 (List.Forall_forall _ _) Hn _ Hin) as (T & i & E).
  inversion E. apply block_new_get.
Qed.

Lemma not_all_transparent vs :
  all_transparent vs = false → ∃ i v, vs !! i = Some v ∧ alpha v ≠ 0.
Proof.
  unfold all_transparent. induction vs as [| x l IH]; [discriminate |].
  cbn [forallb]. destruct (Z.eqb_spec (alpha x) 0) as [E | E].
  - cbn [andb]. intros Ht. destruct (IH Ht) as (i & v & Hv & Ha).
    exists (S i), v. auto.
  - intros _. exists 0%nat, x. auto.
Qed.

Lemma nonempty_block_visible tbl b :
  NoDup (map (fmap b_pos) tbl) → In (Some b) tbl →
  length (b_voxels b) = cells → aligned (b_pos b) →
  all_transparent (b_voxels b) = false →
  ∃ p, alpha (table_get tbl p) ≠ 0.
Proof.
  intros Hnd Hin Hlen Hal Ht.
  destruct (not_all_transparent _ Ht) as (i & v & Hv & Ha).
  assert (Hi : (i < cells)%nat) by (rewrite <- Hlen; eapply lookup_lt_Some; eauto).
  exists (cell_pos (b_pos b) i). unfold table_get.
  rewrite (tile_origin_cell_pos _ _ Hal Hi).
  rewrite (table_find_unique tbl (b_pos b) b Hnd Hin eq_refl).
  cbn [block_get_at]. rewrite (cell_index_cell_pos _ _ Hi), Hv. exact Ha.
Qed.

Lemma table_get_nil q : table_get [] q = rgba_zero.
Proof. reflexivity. Qed.

(** ** What the loops over the blocks write *)

Lemma cell_index_pos bpos q i : cell_index bpos q = Some i → cell_pos bpos i = q.
Proof.
  intros Hi. pose proof (cell_index_bounds _ _ _ Hi) as Hlt.
  exact (cell_index_inj bpos _ _ i (cell_index_cell_pos bpos i Hlt) Hi).
Qed.

(** The cells written by [block_fill] hold what the colour function gave,
    whatever the store was when it was called. *)
Lemma fill_cells_all (P : pos3 → rgba → Prop) h get_color :
  (∀ st q, P q (get_color st q)) →
  ∀ n st b, heap st !! h = Some b → (n ≤ length (b_voxels b))%nat →
  ∃ b', heap (fold_left (fill_cell h get_color) (seq 0 n) st) !! h = Some b'
        ∧ b_pos b' = b_pos b ∧ length (b_voxels b') = length (b_voxels b)
        ∧ ∀ i, (i < n)%nat → ∃ v, b_voxels b' !! i = Some v ∧ P (cell_pos (b_pos b) i) v.
Proof.
  intros HP. induction n as [| n IH]; intros st b Hb Hn.
  - exists b. cbn [seq fold_left]. split_and!; auto. intros i Hi. lia.
  - rewrite seq_S, fold_left_app. cbn [fold_left Nat.add].
    destruct (IH st b Hb ltac:(lia)) as (b1 & Hb1 & Hp1 & Hl1 & Hv1).
    generalize dependent (fold_left (fill_cell h get_color) (seq 0 n) st).
    intros st1 Hb1. unfold fill_cell, block_update. rewrite Hb1. cbn [heap set_heap].
    rewrite lookup_insert_eq. eexists. split; [reflexivity |]. cbn [b_pos b_voxels].
    split_and!; auto.
    + rewrite length_insert. exact Hl1.
    + intros i Hi. destruct (decide (i = n)) as [-> | Hne].
      * exists (get_color st1 (cell_pos (b_pos b1) n)). split.
        -- apply list_lookup_insert_eq. lia.
        -- rewrite Hp1. apply HP.
      * rewrite list_lookup_insert_ne by congruence. apply Hv1. lia.
Qed.

Lemma block_fill_all (P : pos3 → rgba → Prop) h get_color st b :
  (∀ st q, P q (get_color st q)) →
  heap st !! h = Some b → length (b_voxels b) = cells →
  ∃ b', heap (block_fill st h get_color) !! h = Some b'
        ∧ b_pos b' = b_pos b ∧ length (b_voxels b') = cells
        ∧ ∀ i, (i < cells)%nat → ∃ v, b_voxels b' !! i = Some v ∧ P (cell_pos (b_pos b) i) v.
Proof.
  intros HP Hb Hlen. unfold block_fill. cbv zeta.
  destruct (fill_cells_all P h get_color HP cells st b Hb ltac:(lia))
    as (b1 & Hb1 & Hp1 & Hl1 & Hv1).
  generalize dependent (fold_left (fill_cell h get_color) (seq 0 cells) st).
  intros st1 Hb1. unfold block_update. rewrite Hb1. cbn [heap set_heap].
  rewrite lookup_insert_eq. eexists. split; [reflexivity |].
  cbn [block_with_voxels b_pos b_voxels]. split_and!; auto. congruence.
Qed.

Lemma loop_other (step : store → nat → store) l :
  (∀ st x a, a ≠ x → heap (step st x) !! a = heap st !! a) →
  ∀ st h, ¬ In h l → heap (fold_left step l st) !! h = heap st !! h.
Proof.
  intros Hother. induction l as [| x l IH]; intros st h Hnot; [reflexivity |].
  cbn [fold_left]. rewrite IH by (intros Hin; apply Hnot; right; exact Hin).
  apply Hother. intros ->. apply Hnot. left. reflexivity.
Qed.

Lemma loop_all (step : store → nat → store) (Good : block_t → Prop)
    (R : block_t → block_t → Prop) l :
  (∀ st x a, a ≠ x → heap (step st x) !! a = heap st !! a) →
  (∀ st x b, heap st !! x = Some b → Good b →
             ∃ b', heap (step st x) !! x = Some b' ∧ Good b' ∧ R b b') →
  NoDup l →
  ∀ st,
    (∀ h, In h l → ∃ b, heap st !! h = Some b ∧ Good b) →
    ∀ h, In h l →
         ∃ b b', heap st !! h = Some b ∧ heap (fold_left step l st) !! h = Some b' ∧ R b b'.
Proof.
  intros Hother Hstep Hnd.
  induction Hnd as [| x l Hx Hnd IH]; intros st Hall h Hin; [destruct Hin |].
  cbn [fold_left]. destruct (decide (h = x)) as [-> | Hne].
  - destruct (Hall x (or_introl eq_refl)) as (b & Hb & Hg).
    destruct (Hstep st x b Hb Hg) as (b' & Hb' & _ & Hr).
    exists b, b'. split; [exact Hb |]. split; [| exact Hr].
    rewrite (loop_other step l Hother) by (rewrite <- list_elem_of_In; exact Hx).
    exact Hb'.
  - destruct Hin as [-> | Hin]; [contradiction Hne; reflexivity |].
    destruct (IH (step st x)) with (h := h) as (b & b' & Hb & Hb' & Hr).
    + intros a Ha. destruct (decide (a = x)) as [-> | Hax].
      * destruct (Hall x (or_introl eq_refl)) as (b & Hb & Hg).
        destruct (Hstep st x b Hb Hg) as (b' & Hb' & Hg' & _). exists b'. auto.
      * rewrite Hother by exact Hax. apply Hall. right. exact Ha.
    + exact Hin.
    + rewrite Hother in Hb by exact Hne. exists b, b'. auto.
Qed.

Lemma fill_loop_all (P : pos3 → rgba → Prop) get_color l :
  (∀ st q, P q (get_color st q)) → NoDup l →
  ∀ st,
    (∀ h, In h l → ∃ b, heap st !! h = Some b ∧ length (b_voxels b) = cells) →
    ∀ h, In h l →
         ∃ b b', heap st !! h = Some b
                 ∧ heap (fold_left (fun st block => block_fill st block get_color) l st) !! h
                   = Some b'
                 ∧ b_pos b' = b_pos b
                 ∧ ∀ i, (i < cells)%nat →
                        ∃ v, b_voxels b' !! i = Some v ∧ P (cell_pos (b_pos b) i) v.
Proof.
  intros HP Hnd st Hall h Hin.
  apply (loop_all (fun st block => block_fill st block get_color)
           (fun b => length (b_voxels b) = cells)
           (fun b b' => b_pos b' = b_pos b
                        ∧ ∀ i, (i < cells)%nat →
                               ∃ v, b_voxels b' !! i = Some v ∧ P (cell_pos (b_pos b) i) v)
           l); auto.
  - intros st0 x a Hne.
    destruct (block_fill_repaints x get_color st0) as (_ & _ & _ & Hother & _).
    apply Hother, Hne.
  - intros st0 x b Hb Hlen.
    destruct (block_fill_all P x get_color st0 b HP Hb Hlen) as (b' & Hb' & Hp' & Hl' & Hv').
    exists b'. auto.
Qed.

(** A loop of [block_update] over a table applies the function to each
    block once. *)
Lemma fold_update_heap (f : block_t → block_t) l : ∀ st h,
  NoDup l →
  heap (fold_left (fun st h => block_update st h f) l st) !! h
  = if decide (h ∈ l) then f <$> heap st !! h else heap st !! h.
Proof.
  induction l as [| x l IH]; intros st h Hnd.
  - cbn [fold_left]. destruct (decide (h ∈ [])) as [Hin | _]; [inversion Hin | reflexivity].
  - cbn [fold_left]. rewrite IH by (eapply NoDup_cons_1_2; eauto).
    assert (Hx : x ∉ l) by (eapply NoDup_cons_1_1; eauto).
    assert (Hup : ∀ a, heap (block_update st x f) !! a
                       = if decide (a = x) then f <$> heap st !! x else heap st !! a).
    { intros a. unfold block_update. destruct (heap st !! x) as [b |] eqn:Hb.
      - cbn [heap set_heap]. destruct (decide (a = x)) as [-> | Hne].
        + rewrite lookup_insert_eq. reflexivity.
        + rewrite lookup_insert_ne by congruence. reflexivity.
      - destruct (decide (a = x)) as [-> | Hne]; [exact Hb | reflexivity]. }
    rewrite Hup. destruct (decide (h ∈ l)) as [Hl | Hl].
    + destruct (decide (h = x)) as [-> | Hne]; [contradiction |].
      destruct (decide (h ∈ x :: l)) as [_ | Hn]; [reflexivity |].
      contradiction Hn. right. exact Hl.
    + destruct (decide (h = x)) as [-> | Hne].
      * destruct (decide (x ∈ x :: l)) as [_ | Hn]; [reflexivity |].
        contradiction Hn. left.
      * destruct (decide (h ∈ x :: l)) as [Hin | _]; [| reflexivity].
        apply elem_of_cons in Hin as [E | Hn]; [congruence | contradiction].
Qed.

Lemma fold_update_table (f : block_t → block_t) st m :
  NoDup (m_blocks m) →
  table (fold_left (fun st h => block_update st h f) (m_blocks m) st) m
  = map (fmap f) (table st m).
Proof.
  intros Hnd. unfold table. rewrite map_map. apply map_ext_in. intros h Hin.
  rewrite fold_update_heap by exact Hnd.
  destruct (decide (h ∈ m_blocks m)) as [_ | Hn]; [reflexivity |].
  contradiction Hn. apply list_elem_of_In, Hin.
Qed.

Lemma block_shift_alpha_get b v q i :
  cell_index (b_pos b) q = Some i → (i < length (b_voxels b))%nat →
  block_get_at (Some (block_shift_alpha b v)) q
  = let '(r, g, bl, a) := block_get_at (Some b) q in (r, g, bl, clamp8 (a + v)).
Proof.
  intros Hi Hlt. unfold block_get_at, block_shift_alpha.
  cbn [block_with_voxels b_pos b_voxels]. rewrite Hi, list_lookup_fmap.
  destruct (lookup_lt_is_Some_2 (b_voxels b) i Hlt) as [[[[r g] bl] a] Hv].
  unfold rgba in *. rewrite Hv. reflexivity.
Qed.

Lemma table_find_map (f : block_t → block_t) tbl T :
  (∀ b, b_pos (f b) = b_pos b) →
  table_find (map (fmap f) tbl) T = f <$> table_find tbl T.
Proof.
  intros Hf. unfold table_find. induction tbl as [| ob tbl IH]; [reflexivity |].
  cbn [map List.find]. destruct ob as [b |]; cbn [fmap option_fmap option_map].
  - rewrite Hf. destruct (pos3_eqb (b_pos b) T); [reflexivity | exact IH].
  - exact IH.
Qed.

(** ** What a mesh reads after [mesh_fill] *)

Lemma filled_block_read F b p :
  filled_with F b → b_pos b = tile_origin p → block_get_at (Some b) p = F p.
Proof.
  intros (_ & _ & Hvox) Hpos.
  destruct (cell_index_tile p) as (i & Hi & Hlt & Hcp).
  specialize (Hvox i Hlt). rewrite Hpos, Hcp in Hvox.
  cbn [block_get_at]. rewrite Hpos, Hi, Hvox. reflexivity.
Qed.

(** [mesh_fill] on a mesh that owns its table, with a colour function
    that gives [F] as long as the store below [a] is left alone: the
    table holds a block on each tile of the box and on no other tile, and
    the blocks hold [F]. *)
Lemma mesh_fill_table a st m box get_color F q :
  ref_get st (m_ref m) = 1 → above a m → (a ≤ next_addr st)%nat →
  (∀ st' p, frame_below a st st' → get_color st' p = F p) →
  (In (tile_origin q) (add_blocks_tiles (box_get_bbox box)) →
   table_get (table (mesh_fill st m box get_color).1 (mesh_fill st m box get_color).2) q
   = F q)
  ∧ (¬ In (tile_origin q) (add_blocks_tiles (box_get_bbox box)) →
     table_find (table (mesh_fill st m box get_color).1 (mesh_fill st m box get_color).2)
                (tile_origin q) = None).
Proof.
  intros Hone Hab Hle Hstable.
  destruct (mesh_clear_unique a st m Hone Hab)
    as (st2 & m2 & Hclear & Hbl2 & Hone2 & Hfr2 & Ha2).
  destruct (add_blocks_owned st2 m2 (box_get_bbox box) Hone2 Hbl2)
    as (st3 & m3 & Hadd & Hown3 & Ha3 & Hfr3 & Htiles & _).
  destruct (fill_loop (next_addr st2) get_color F st3 m3 _ Hown3)
    as (st4 & Hfill & Hfr4 & Ha4 & _ & Hfilled).
  { intros st' p Hst'. apply Hstable.
    eapply frame_below_trans; [exact Hfr2 |].
    eapply frame_below_trans; [eapply frame_below_le; [| exact Hfr3]; lia |].
    eapply frame_below_le; [| exact Hst']. lia. }
  assert (Hfilleq : mesh_fill st m box get_color = (st4, m3)).
  { unfold mesh_fill. rewrite Hclear, Hadd, Hfill. reflexivity. }
  rewrite Hfilleq. cbn [fst snd]. clear Hfilleq.
  assert (Hblock : ∀ c, In (Some c) (table st4 m3) →
                        filled_with F c ∧ In (b_pos c) (add_blocks_tiles (box_get_bbox box))).
  { intros c Hc. unfold table in Hc. apply in_map_iff in Hc as (h & Hhc & Hh).
    destruct (Hfilled h Hh) as (c0 & c' & Hc0 & Hc' & Hpos & Hfw).
    rewrite Hhc in Hc'. inversion Hc'. subst c'. split; [exact Hfw |].
    destruct Hown3 as (_ & _ & Hall3).
    destruct (Hall3 h Hh) as (_ & b0 & Hb0 & T & HT & Hnew).
    rewrite Hc0 in Hb0. inversion Hb0. subst b0.
    rewrite Hpos, (new_block_at_pos _ _ Hnew). exact HT. }
  unfold table_get.
  destruct (table_find (table st4 m3) (tile_origin q)) as [c |] eqn:Hf.
  - apply table_find_some in Hf as [Hin Hpos].
    destruct (Hblock c Hin) as [Hfw HT]. split.
    + intros _. apply filled_block_read; assumption.
    + intros Hnot. contradiction Hnot. rewrite <- Hpos. exact HT.
  - split; [| reflexivity]. intros HT. exfalso.
    destruct (Htiles _ HT) as (h & b0 & Hh & Hb0 & Hnew).
    destruct (Hfilled h Hh) as (c0 & c & Hc0 & Hc & Hpos & _).
    rewrite Hb0 in Hc0. inversion Hc0. subst c0.
    apply (table_find_none_inv _ _ c Hf).
    + unfold table. apply in_map_iff. exists h. auto.
    + rewrite Hpos. apply new_block_at_pos, Hnew.
Qed.

(** The colour function of [mesh_move] reads the old table, which the
    writes of the move leave alone. *)
Lemma move_color_frame st m src mat st' q :
  mesh_wf st m → m_blocks src = m_blocks m → frame_below (next_addr st) st st' →
  mesh_move_get_color src mat st' q
  = (let p := mat4_mul_vec3 mat (vec3_of_pos q) in
     table_get (table st m) (fround (vx p), fround (vy p), fround (vz p))).
Proof.
  intros Hm Hbl Hfr. unfold mesh_move_get_color. cbv zeta.
  rewrite mesh_get_at_table. f_equal. unfold table. rewrite Hbl.
  apply map_ext_in. intros h Hh. apply Hfr. eapply mesh_wf_In; eauto.
Qed.

(** ** Writes through one accessor *)

Lemma set_at_none_iter st m p v : (mesh_set_at st m p v None).2 = None.
Proof.
  unfold mesh_set_at. destruct (mesh_prepare_write st m) as [st1 m1].
  unfold mesh_set_at_tail.
  destruct (hash_find st1 (m_blocks m1) (tile_origin p)) as [h |]; [reflexivity |].
  destruct (mesh_add_block st1 m1 (tile_origin p)) as [[st2 m2] h]. reflexivity.
Qed.

Lemma writes_through_ready ws : ∀ st m iter,
  store_wf st → mesh_wf st m → iter_ready st m iter →
  (writes_through st m ws iter).1 = (writes_through st m ws None).1
  ∧ iter_ready (writes_through st m ws iter).1.1 (writes_through st m ws iter).1.2
               (writes_through st m ws iter).2.
Proof.
  induction ws as [| [p v] ws IH]; intros st m iter Hs Hm Hr.
  - cbn [writes_through fst snd]. split; [reflexivity | exact Hr].
  - cbn [writes_through].
    destruct (set_at_seats st m p v iter Hs Hm Hr) as (E & Hone & Hval).
    destruct (mesh_set_at_ok st m p v iter Hs Hm) as [_ (Hs1 & Hm1 & _)].
    pose proof (set_at_none_iter st m p v) as Hnone.
    destruct (mesh_set_at st m p v iter) as [[st1 m1] it1].
    destruct (mesh_set_at st m p v None) as [[st0 m0] it0].
    cbn [fst snd] in *. inversion E. subst st0 m0 it0.
    apply IH; auto.
    destruct it1 as [it' |]; [| exact I]. right. split; [exact Hone | apply Hval; reflexivity].
Qed.

(** ** What [mesh_op] leaves alone *)

(** A block on another tile can change or go: a lookup on the tile [T]
    finds what it found. *)
Lemma table_find_update_other (f : block_t → block_t) st x b T l :
  heap st !! x = Some b → b_pos b ≠ T → b_pos (f b) = b_pos b →
  table_find (map (fun h => heap (block_update st x f) !! h) l) T
  = table_find (map (fun h => heap st !! h) l) T.
Proof.
  intros Hb Hne Hf. unfold table_find, block_update. rewrite Hb. cbn [heap set_heap].
  induction l as [| h l IH]; [reflexivity |].
  cbn [map List.find]. destruct (decide (h = x)) as [-> | Hhx].
  - rewrite lookup_insert_eq, Hb, Hf.
    destruct (pos3_eqb (b_pos b) T) eqn:E; [| exact IH].
    apply pos3_eqb_eq in E. contradiction.
  - rewrite lookup_insert_ne by congruence.
    destruct (heap st !! h) as [c |]; [| exact IH].
    destruct (pos3_eqb (b_pos c) T); [reflexivity | exact IH].
Qed.

Lemma table_find_delete_other st x T l :
  (∀ b, heap st !! x = Some b → b_pos b ≠ T) →
  table_find (map (fun h => heap st !! h)
                  (List.filter (fun a => negb (Nat.eqb a x)) l)) T
  = table_find (map (fun h => heap st !! h) l) T.
Proof.
  intros Hx. unfold table_find. induction l as [| h l IH]; [reflexivity |].
  cbn [List.filter]. destruct (Nat.eqb_spec h x) as [-> | Hhx]; cbn [negb map List.find].
  - destruct (heap st !! x) as [b |] eqn:Hb; [| exact IH].
    destruct (pos3_eqb (b_pos b) T) eqn:E; [| exact IH].
    apply pos3_eqb_eq in E. contradiction (Hx b eq_refl).
  - destruct (heap st !! h) as [c |]; [| exact IH].
    destruct (pos3_eqb (b_pos c) T); [reflexivity | exact IH].
Qed.

Lemma table_get_delete_other st m x q :
  (∀ b, heap st !! x = Some b → b_pos b ≠ tile_origin q) →
  table_get (table (block_delete st x) (hash_del m x)) q = table_get (table st m) q.
Proof.
  intros Hx. rewrite table_after_delete. unfold table_get, table.
  rewrite table_find_delete_other by exact Hx. reflexivity.
Qed.

(** One turn of the loop of [mesh_op], seen from a tile that the box of
    the operation does not reach. *)
Lemma op_block_far painter box full_box bbox q st m x :
  mode_eqb (p_mode painter) MODE_INTERSECT = false →
  bbox_intersect bbox (tile_box (tile_origin q)) = false →
  table_get (table (mesh_op_block painter box full_box bbox (st, m) x).1
                   (mesh_op_block painter box full_box bbox (st, m) x).2) q
  = table_get (table st m) q.
Proof.
  intros Hmode Hfar. unfold mesh_op_block.
  destruct (heap st !! x) as [b |] eqn:Hb; [| reflexivity].
  cbv zeta. rewrite Hmode.
  destruct (decide (b_pos b = tile_origin q)) as [E | Hne].
  { change (block_get_box b false) with (tile_box (b_pos b)). rewrite E, Hfar. reflexivity. }
  destruct (negb (bbox_intersect bbox (block_get_box b false))); [reflexivity |].
  destruct (shape_is_cube (p_shape painter) && mode_eqb (p_mode painter) MODE_SUB
            && box_contains full_box (block_get_box b false)).
  - cbn [negb fst snd]. apply table_get_delete_other. intros c Hc.
    rewrite Hb in Hc. inversion Hc. subst c. exact Hne.
  - cbn [negb].
    assert (Hup : table_get (table (block_update st x (fun b => block_op b painter box)) m) q
                  = table_get (table st m) q).
    { unfold table_get, table.
      rewrite (table_find_update_other _ st x b) by auto. reflexivity. }
    assert (Hx : ∀ c, heap (block_update st x (fun b => block_op b painter box)) !! x = Some c →
                      b_pos c ≠ tile_origin q).
    { intros c. unfold block_update. rewrite Hb. cbn [heap set_heap].
      rewrite lookup_insert_eq. intros Hc. inversion Hc. exact Hne. }
    destruct (block_is_empty _ true).
    + cbn [fst snd]. rewrite table_get_delete_other by exact Hx. exact Hup.
    + cbn [fst snd]. exact Hup.
Qed.

Lemma op_loop_far painter box full_box bbox q l : ∀ st m,
  mode_eqb (p_mode painter) MODE_INTERSECT = false →
  bbox_intersect bbox (tile_box (tile_origin q)) = false →
  table_get (table (fold_left (mesh_op_block painter box full_box bbox) l (st, m)).1
                   (fold_left (mesh_op_block painter box full_box bbox) l (st, m)).2) q
  = table_get (table st m) q.
Proof.
  induction l as [| x l IH]; intros st m Hmode Hfar; [reflexivity |].
  cbn [fold_left].
  pose proof (op_block_far painter box full_box bbox q st m x Hmode Hfar) as Hstep.
  destruct (mesh_op_block painter box full_box bbox (st, m) x) as [st1 m1].
  cbn [fst snd] in Hstep. rewrite IH by assumption. exact Hstep.
Qed.

(** ** The exact box of a volume within the bound of the float library *)







Section Within.

Context {B : Z} {E : ExactWithin B G}.





End Within.

(** ** What the mutations keep *)

(** X1 (table invariant): every mutating operation of [mesh.c] ([mesh_set_at],
    [mesh_clear], [mesh_remove_empty_blocks], [mesh_op], [mesh_merge],
    [mesh_blit], [mesh_move], [mesh_extrude], [mesh_shift_alpha]) leaves
    the table of the mesh a well-formed hash table: every entry is an
    allocated block of [BLOCK_SIZE]^3 voxels on an origin that is a
    multiple of [BLOCK_SIZE], no two blocks have the same origin, and the
    block ids are distinct and below [next_block_id].  For [mesh_set_at]
    and [mesh_blit] the accessor must not cache a null block for a tile
    that has a block by now (then [mesh_add_block] would run into its
    assertion). *)
Theorem mutations_keep_table mu st m st' m' :
  sound st m →
  iter_safe st m (mutation_iter mu) →
  mutate mu st m = Some (st', m') →
  sound st' m'.
Proof.
  intros Hs Hsafe Hrun.
  destruct (mutate_stays 0 mu st m (st', m') (good_zero st m Hs) Hsafe
              (iter_above_zero _) Hrun) as [(Hs' & _) _].
  exact Hs'.
Qed.

(** X2 (copy on write): a mutation of a clone, made without accessor or
    with an accessor that is not seated, does not change the mesh it was
    cloned from: the blocks of the original are what they were, and so is
    every voxel read from it. *)
Theorem mutation_of_clone_keeps_original mu st v st' w' :
  sound st v →
  0 < ref_get st (m_ref v) → (m_ref v < next_addr st)%nat →
  (∀ it, mutation_iter mu = Some it → it_found it = false) →
  mutate mu (mesh_copy st v).1 (mesh_copy st v).2 = Some (st', w') →
  table st' v = table st v
  ∧ ∀ p, (mesh_get_at st' v p None).1 = (mesh_get_at st v p None).1.
Proof.
  intros Hs Href Hcell Hiter Hrun.
  pose proof Hs as (Hwf & Hh & Hm & Ht).
  destruct (mesh_copy_store st v) as (Hh0 & Ha0 & _ & Hbl0 & _ & Hmr0 & Hr0).
  assert (Hnb : m_next_block_id (mesh_copy st v).2 = m_next_block_id v) by reflexivity.
  destruct (mesh_copy st v) as [st0 w]. cbn [fst snd] in *.
  assert (Htab0 : table st0 w = table st v).
  { unfold table. rewrite Hbl0, Hh0. reflexivity. }
  assert (Hg : good (next_addr st) st0 w).
  { split_and!; [split_and! | lia |].
    - intros a Ha. rewrite Hh0. apply Hwf. lia.
    - intros h b Hb. rewrite Hh0 in Hb. eauto.
    - unfold mesh_wf. rewrite Hbl0, Ha0. exact Hm.
    - unfold table_ok. rewrite Htab0, Hnb. exact Ht.
    - right. rewrite Hmr0, Hr0, Ha0. split_and!; [reflexivity | lia | exact Hcell]. }
  assert (Hsafe : iter_safe st0 w (mutation_iter mu)).
  { destruct (mutation_iter mu) as [it |] eqn:E; [| exact I].
    cbn. intros Hf. rewrite (Hiter it eq_refl) in Hf. discriminate Hf. }
  assert (Habove : iter_above (next_addr st) (mutation_iter mu)).
  { destruct (mutation_iter mu) as [it |] eqn:E; [| exact I].
    cbn. intros Hf. rewrite (Hiter it eq_refl) in Hf. discriminate Hf. }
  destruct (mutate_stays _ mu st0 w (st', w') Hg Hsafe Habove Hrun) as [_ Hf].
  cbn [fst snd] in Hf.
  assert (Htab : table st' v = table st v).
  { unfold table. apply map_ext_in. intros h Hin.
    rewrite Hf by (eapply mesh_wf_In; eauto). rewrite Hh0. reflexivity. }
  split; [exact Htab |]. intros p. rewrite !mesh_get_at_table, Htab. reflexivity.
Qed.

(** ** Clones, references and the fork *)

(** X3 (clone, then delete): [mesh_copy] followed by [mesh_delete] of
    the clone gives back the store as it was: the count goes up by one and
    down by one, no block is copied or freed. *)
Theorem copy_then_delete st m n :
  refs st !! m_ref m = Some n → n ≠ 0 →
  mesh_delete (mesh_copy st m).1 (mesh_copy st m).2 = st.
Proof.
  intros Hn Hne. unfold mesh_copy, mesh_delete. cbn [fst snd m_ref].
  rewrite !ref_get_set.
  assert (Hget : ref_get st (m_ref m) = n) by (unfold ref_get; rewrite Hn; reflexivity).
  rewrite Hget. replace (n + 1 - 1) with n by lia.
  destruct (Z.eqb_spec n 0) as [| _]; [contradiction |].
  destruct st as [hp rf na nu]. unfold ref_set, set_refs. cbn in *. f_equal.
  rewrite insert_insert_eq. apply insert_id. exact Hn.
Qed.

(** X4 ([mesh_delete]): deleting the last reference frees every block of
    the table and the count itself, and touches no other block; deleting
    any other reference only lowers the count. *)
Theorem mesh_delete_frees st m :
  (ref_get st (m_ref m) = 1 →
     (∀ h, In h (m_blocks m) → heap (mesh_delete st m) !! h = None)
     ∧ refs (mesh_delete st m) !! m_ref m = None
     ∧ (∀ h, ¬ In h (m_blocks m) → heap (mesh_delete st m) !! h = heap st !! h))
  ∧ (ref_get st (m_ref m) ≠ 1 →
     heap (mesh_delete st m) = heap st ∧ refs (mesh_delete st m) !! m_ref m ≠ None
     ∧ ref_get (mesh_delete st m) (m_ref m) = ref_get st (m_ref m) - 1).
Proof.
  split; intros Href.
  - unfold mesh_delete. rewrite ref_get_set, Href.
    change (1 - 1) with 0. change (0 =? 0) with true. cbv iota.
    pose proof (release_spec (ref_set st (m_ref m) 0) m) as H. cbv zeta in H.
    destruct (delete_all_blocks (ref_set st (m_ref m) 0) m) as [st1 m1].
    cbn [fst snd] in *. destruct H as (H1 & H2 & H3 & _).
    split_and!; [exact H1 | exact H3 | exact H2].
  - unfold mesh_delete. rewrite ref_get_set.
    destruct (Z.eqb_spec (ref_get st (m_ref m) - 1) 0) as [E | _]; [lia |].
    split_and!; [reflexivity | | apply ref_get_set].
    unfold ref_set. cbn. rewrite lookup_insert_eq. discriminate.
Qed.

(** X5 ([mesh_set]): when the two meshes have the same table (the same
    first block: a mesh and its clone, or two empty meshes),
    [mesh_set(mesh, other)] does nothing at all, whatever the counts are.
    When the tables differ, and the two meshes have their own counts and
    no block in common, [mesh] reads afterwards what [other] reads (same
    blocks, same [next_block_id]) and shares the count of [other], which
    went up by one; the id of [mesh] is not changed. *)
Theorem mesh_set_shares st mesh other :
  (head (m_blocks mesh) = head (m_blocks other) →
     mesh_set st mesh other = (st, mesh))
  ∧ (head (m_blocks mesh) ≠ head (m_blocks other) →
     m_ref mesh ≠ m_ref other →
     (∀ h, In h (m_blocks mesh) → ¬ In h (m_blocks other)) →
     table (mesh_set st mesh other).1 (mesh_set st mesh other).2 = table st other
     ∧ m_blocks (mesh_set st mesh other).2 = m_blocks other
     ∧ m_next_block_id (mesh_set st mesh other).2 = m_next_block_id other
     ∧ m_ref (mesh_set st mesh other).2 = m_ref other
     ∧ ref_get (mesh_set st mesh other).1 (m_ref other) = ref_get st (m_ref other) + 1
     ∧ m_id (mesh_set st mesh other).2 = m_id mesh).
Proof.
  unfold mesh_set.
  destruct (decide (head (m_blocks mesh) = head (m_blocks other))) as [E | E];
    (split; [intros E'; reflexivity || contradiction |]);
    intros E' Hrefs Hdis; [contradiction |].
  set (st1 := ref_set st (m_ref mesh) (ref_get st (m_ref mesh) - 1)).
  assert (H2 : ∃ st2,
             (if ref_get st1 (m_ref mesh) =? 0
              then let '(st, _) := delete_all_blocks st1 mesh in
                   set_refs st (delete (m_ref mesh) (refs st))
              else st1) = st2
             ∧ (∀ h, In h (m_blocks other) → heap st2 !! h = heap st !! h)
             ∧ refs st2 !! m_ref other = refs st !! m_ref other).
  { destruct (ref_get st1 (m_ref mesh) =? 0).
    - pose proof (release_spec st1 mesh) as H. cbv zeta in H.
      destruct (delete_all_blocks st1 mesh) as [st2 m2]. cbn [fst snd] in *.
      destruct H as (_ & Hkeep & _ & Hr & _).
      eexists. split; [reflexivity |]. split.
      + intros h Hin. rewrite Hkeep; [reflexivity |]. intros Hm. exact (Hdis h Hm Hin).
      + rewrite Hr by congruence. unfold st1, ref_set. cbn.
        rewrite lookup_insert_ne by congruence. reflexivity.
    - eexists. split; [reflexivity |]. split; [reflexivity |].
      unfold st1, ref_set. cbn. rewrite lookup_insert_ne by congruence. reflexivity. }
  destruct H2 as (st2 & -> & Hheap & Hr2). cbn [fst snd m_ref m_blocks m_next_block_id m_id].
  split_and!; try reflexivity.
  - unfold table. cbn [m_blocks]. apply map_ext_in. intros h Hin. cbn. apply Hheap, Hin.
  - rewrite ref_get_set. unfold ref_get. rewrite Hr2. reflexivity.
Qed.

(** X6 (the fork of [mesh_prepare_write]): on a mesh that shares its
    table the call gives the mesh new blocks, one for each block of the
    table and in the same order, with the same voxels, origins and ids;
    the blocks of the old table are not touched, the count of the old
    table goes down by one, and the mesh gets a count of its own that is
    1.  On a mesh that owns its table the call changes the id only. *)
Theorem prepare_write_forks st m :
  store_wf st → mesh_wf st m →
  (ref_get st (m_ref m) ≠ 1 → m_ref m ≠ next_addr st →
     table (mesh_prepare_write st m).1 (mesh_prepare_write st m).2 = table st m
     ∧ above (next_addr st) (mesh_prepare_write st m).2
     ∧ frame_below (next_addr st) st (mesh_prepare_write st m).1
     ∧ ref_get (mesh_prepare_write st m).1 (m_ref m) = ref_get st (m_ref m) - 1
     ∧ m_ref (mesh_prepare_write st m).2 ≠ m_ref m
     ∧ ref_get (mesh_prepare_write st m).1 (m_ref (mesh_prepare_write st m).2) = 1)
  ∧ (ref_get st (m_ref m) = 1 →
     mesh_prepare_write st m
     = (set_next_uid st (next_uid st + 1), set_id m (wrap64 (next_uid st))))
  ∧ m_id (mesh_prepare_write st m).2 = wrap64 (next_uid st)
  ∧ m_next_block_id (mesh_prepare_write st m).2 = m_next_block_id m
  ∧ next_uid (mesh_prepare_write st m).1 = next_uid st + 1.
Proof.
  intros Hs Hm.
  destruct (prepare_write_spec st m Hs Hm)
    as (st1 & m1 & E & _ & _ & _ & Hu & Hid & Hnb & Hf & Htab & Href1 & _ & Hab).
  pose proof (prepare_write_refs st m Hs Hm) as Hrefs.
  split_and!.
  - intros Hne Hcell. destruct (Hrefs Hne Hcell) as (Hdec & Hnew & _).
    rewrite E in *. cbn [fst snd] in *. split_and!; auto. congruence.
  - apply prepare_write_unique.
  - rewrite E. exact Hid.
  - rewrite E. exact Hnb.
  - rewrite E. exact Hu.
Qed.

(** X7 ([mesh_move] on an empty mesh): when the exact box is null,
    [mesh_move] returns right after the fork that its own clone forces.
    The clone is not deleted: the count of the old table is what it was
    before the call, though the mesh has left that table for a new one,
    and the blocks of the old table stay allocated. *)
Theorem mesh_move_null_box_keeps_clone st m mat :
  store_wf st → mesh_wf st m →
  0 < ref_get st (m_ref m) → m_ref m ≠ next_addr st →
  box_is_null (mesh_get_box st m true) = true →
  ref_get (mesh_move st m mat).1 (m_ref m) = ref_get st (m_ref m)
  ∧ m_ref (mesh_move st m mat).2 ≠ m_ref m
  ∧ ref_get (mesh_move st m mat).1 (m_ref (mesh_move st m mat).2) = 1
  ∧ above (next_addr st) (mesh_move st m mat).2
  ∧ ∀ h, In h (m_blocks m) → heap (mesh_move st m mat).1 !! h = heap st !! h.
Proof.
  intros Hs Hm Href Hcell Hnull. unfold mesh_move.
  destruct (mesh_copy_store st m) as (Hh0 & Ha0 & _ & Hbl0 & _ & Hmr0 & Hr0).
  destruct (mesh_copy st m) as [st0 src]. cbn [fst snd] in *.
  assert (Hs0 : store_wf st0) by (intros a Ha; rewrite Hh0; apply Hs; lia).
  assert (Hm0 : mesh_wf st0 m) by (unfold mesh_wf in *; rewrite Ha0; exact Hm).
  destruct (prepare_write_spec st0 m Hs0 Hm0)
    as (st1 & m1 & E & _ & _ & _ & _ & _ & _ & Hf & Htab & Href1 & _ & Hab).
  destruct (prepare_write_refs st0 m Hs0 Hm0) as (Hdec & Hnew & _); [lia | lia |].
  rewrite E in *. cbn [fst snd] in *.
  assert (Hbox : mesh_get_box st1 m1 true = mesh_get_box st m true).
  { rewrite !mesh_get_box_table, Htab. unfold table. rewrite Hh0. reflexivity. }
  rewrite Hbox, Hnull. cbn [fst snd].
  split_and!.
  - rewrite Hdec, Hr0. lia.
  - rewrite Hnew, Ha0. congruence.
  - exact Href1.
  - rewrite <- Ha0. apply Hab. lia.
  - intros h Hin. rewrite Hf by (eapply mesh_wf_In; eauto). rewrite Hh0. reflexivity.
Qed.

(** ** Reads after writes *)

(** X8 ([mesh_set_at], then [mesh_get_at]): on a well-formed mesh, and
    with an accessor that is null, not seated, or valid for a mesh that
    owns its table, a read after [mesh_set_at(mesh, p, c, iter)] gives
    [c] at [p] and at every other position what the mesh held before;
    the same holds for reads through the accessor that the write
    returns. *)
Theorem set_at_then_reads st m p c iter q :
  sound st m → iter_ready st m iter →
  (mesh_get_at (mesh_set_at st m p c iter).1.1 (mesh_set_at st m p c iter).1.2 q None).1
  = (if decide (q = p) then c else (mesh_get_at st m q None).1)
  ∧ ∀ it', (mesh_set_at st m p c iter).2 = Some it' →
      (mesh_get_at (mesh_set_at st m p c iter).1.1 (mesh_set_at st m p c iter).1.2
                   q (Some it')).1
      = if decide (q = p) then c else (mesh_get_at st m q None).1.
Proof.
  intros (Hs & Hh & Hm & Ht) Hready.
  destruct (set_at_seats st m p c iter Hs Hm Hready) as (E & _ & Hval).
  assert (Hnone :
            (mesh_get_at (mesh_set_at st m p c iter).1.1
                         (mesh_set_at st m p c iter).1.2 q None).1
            = if decide (q = p) then c else (mesh_get_at st m q None).1).
  { rewrite E. apply set_at_read; auto. }
  split; [exact Hnone |].
  intros it' Hit. destruct (get_at_valid _ _ q it' (Hval it' Hit)) as (Hr & _).
  rewrite Hr. exact Hnone.
Qed.

(** X9 (reads through one accessor): a sequence of [mesh_get_at] calls
    that pass the same accessor along gives, at every position, what
    [mesh_get_at] without accessor gives, when the accessor is valid at
    the start; the zeroed accessor of [mesh_get_accessor] is. *)
Theorem reads_through_accessor st m ps :
  iter_valid st m (mesh_get_accessor m)
  ∧ ∀ it, iter_valid st m it →
          reads_through st m ps it = map (fun p => (mesh_get_at st m p None).1) ps.
Proof.
  split; [apply iter_zero_valid |]. intros it Hv. apply reads_through_valid, Hv.
Qed.

(** X10 ([mesh_remove_empty_blocks]): the sweep changes no voxel that can
    be seen: the alpha read at every position is what it was, and so is
    the whole voxel wherever the alpha is not 0.  (A transparent voxel
    with colour left in a block that is swept reads (0,0,0,0) afterwards.) *)
Theorem sweep_keeps_visible st m q :
  sound st m →
  alpha (mesh_get_at (mesh_remove_empty_blocks st m).1
                     (mesh_remove_empty_blocks st m).2 q None).1
  = alpha (mesh_get_at st m q None).1
  ∧ (alpha (mesh_get_at st m q None).1 ≠ 0 →
     (mesh_get_at (mesh_remove_empty_blocks st m).1
                  (mesh_remove_empty_blocks st m).2 q None).1
     = (mesh_get_at st m q None).1).
Proof. apply sweep_read. Qed.

(** X11 ([add_blocks]): the tile origins that the three loops visit are
    multiples of [BLOCK_SIZE], so the assertion of the loop holds; after
    the call each of them has a block in the table.  The blocks that were
    in the table are kept in place, the blocks added behind them are new
    (transparent) blocks on visited tiles, and no voxel read changes. *)
Theorem add_blocks_covers_tiles st m box :
  sound st m →
  sound (add_blocks st m box).1 (add_blocks st m box).2
  ∧ (∀ T, In T (add_blocks_tiles box) →
          aligned T
          ∧ mesh_get_block_at (add_blocks st m box).1 (add_blocks st m box).2 T ≠ None)
  ∧ (∃ news,
       table (add_blocks st m box).1 (add_blocks st m box).2 = table st m ++ news
       ∧ Forall (fun ob => ∃ T i, In T (add_blocks_tiles box)
                                  ∧ ob = Some (block_set_id (block_new T) i)) news)
  ∧ ∀ q, (mesh_get_at (add_blocks st m box).1 (add_blocks st m box).2 q None).1
         = (mesh_get_at st m q None).1.
Proof.
  intros Hs. destruct (add_blocks_table st m box Hs) as (Hs' & (news & Ht & Hn) & Hall).
  split_and!.
  - exact Hs'.
  - intros T HT. split; [eapply add_blocks_tiles_aligned; eauto | apply Hall, HT].
  - exists news. auto.
  - intros q. rewrite !mesh_get_at_table, Ht. apply table_get_app_fresh.
    eapply Forall_impl; [exact Hn |]. intros ob (T & i & _ & E). eauto.
Qed.

(** X12 ([mesh_blit], read back): on a well-formed mesh, with sizes that
    are not negative and an accessor that is null, or not seated, or valid
    for a mesh that owns its table: after a blit of a [w] x [h] x [d]
    buffer, group [i] of the buffer is what the mesh shows at its target
    position [(x + i mod w, y + (i / w) mod h, z + i / (w * h))]: the
    alpha read there is the alpha of the group, and the whole voxel is
    the group when that alpha is not 0.  At positions that are no target
    the visible voxels are what they were.  (The sweep at the end may
    drop the colour of transparent voxels.  The condition on the accessor
    is needed: through an accessor seated on a table that the mesh shares,
    the first write forks the mesh and the group goes to the old table.) *)
Theorem mesh_blit_then_reads st m data x y z w h d iter :
  sound st m → iter_ready st m iter → 0 ≤ w → 0 ≤ h → 0 ≤ d →
  (∀ i, (i < Z.to_nat (w * h * d))%nat →
        alpha (mesh_get_at (mesh_blit st m data x y z w h d iter).1.1
                           (mesh_blit st m data x y z w h d iter).1.2
                           (blit_target x y z w h i) None).1
        = alpha (read_rgba data (4 * i))
        ∧ (alpha (read_rgba data (4 * i)) ≠ 0 →
           (mesh_get_at (mesh_blit st m data x y z w h d iter).1.1
                        (mesh_blit st m data x y z w h d iter).1.2
                        (blit_target x y z w h i) None).1
           = read_rgba data (4 * i)))
  ∧ (∀ q, (∀ i, (i < Z.to_nat (w * h * d))%nat → blit_target x y z w h i ≠ q) →
          alpha (mesh_get_at (mesh_blit st m data x y z w h d iter).1.1
                             (mesh_blit st m data x y z w h d iter).1.2 q None).1
          = alpha (mesh_get_at st m q None).1
          ∧ (alpha (mesh_get_at st m q None).1 ≠ 0 →
             (mesh_get_at (mesh_blit st m data x y z w h d iter).1.1
                          (mesh_blit st m data x y z w h d iter).1.2 q None).1
             = (mesh_get_at st m q None).1)).
Proof.
  intros Hs Hready Hw Hh Hd. split.
  - intros i Hi.
    pose proof (mesh_blit_read st m data x y z w h d iter (blit_target x y z w h i)
                  Hs Hready Hw Hh Hd) as H.
    cbv zeta in H. rewrite blit_reads_target in H; [exact H | | exact Hi].
    intros j k Hj Hk. apply (blit_target_inj x y z w h d); assumption.
  - intros q Hq.
    pose proof (mesh_blit_read st m data x y z w h d iter q Hs Hready Hw Hh Hd) as H.
    cbv zeta in H. rewrite blit_reads_other in H by exact Hq. exact H.
Qed.

(** ** Iterators *)

(** X13 ([mesh_iter_blocks]): started on the iterator of
    [mesh_get_iterator], the calls return the blocks of the table one by
    one, in table order and each with its origin and its id, and false on
    every call after the last block. *)
Theorem mesh_iter_blocks_enumerates st m (k : nat) :
  table_ok st m →
  (∃ it', run_calls (mesh_iter_blocks st m) (length (m_blocks m) + k) (mesh_get_iterator m)
          = Some (map Some (all_blocks st m) ++ repeat None k, it'))
  ∧ map (fun e => e.1.1) (all_blocks st m) = m_blocks m.
Proof.
  intros Ht. split; [apply iter_blocks_all, Ht |].
  destruct Ht as (Hall & _). unfold all_blocks, table in *.
  induction (m_blocks m) as [| h l IH]; [reflexivity |].
  apply Forall_cons_1 in Hall as [(b & Hb & _) Hl]. cbn [map] in Hb.
  cbn [omap list_omap]. rewrite Hb. cbn [fmap option_fmap option_map map fst].
  f_equal. apply IH, Hl.
Qed.

(** X14 ([mesh_iter_voxels]): started on the iterator of
    [mesh_get_iterator], the calls return the [BLOCK_SIZE]^3 voxels of
    each block of the table, block after block and in the order of the
    voxel array, with their world positions, and false on every call
    after that.  Every voxel returned is what [mesh_get_at] reads at its
    position, and every voxel that [mesh_get_at] reads with an alpha that
    is not 0 is returned. *)
Theorem mesh_iter_voxels_enumerates st m (k : nat) :
  sound st m →
  (∃ it', run_calls (mesh_iter_voxels st m) (cells * length (m_blocks m) + k)
                (mesh_get_iterator m)
          = Some (map Some (all_voxels st m) ++ repeat None k, it'))
  ∧ (∀ p v, In (p, v) (all_voxels st m) → (mesh_get_at st m p None).1 = v)
  ∧ (∀ p, alpha (mesh_get_at st m p None).1 ≠ 0 →
          In (p, (mesh_get_at st m p None).1) (all_voxels st m)).
Proof.
  intros Hs. split_and!.
  - apply iter_voxels_all, Hs.
  - intros p v. apply all_voxels_read, Hs.
  - intros p. apply visible_in_all_voxels.
Qed.

(** ** Empty meshes and boxes *)

(** X15 ([mesh_is_empty]): on a mesh whose table holds no block that is
    entirely transparent (as after [mesh_remove_empty_blocks]),
    [mesh_is_empty] is true exactly when no voxel of the mesh can be
    seen.  (Without the sweep it can be false on a mesh that shows
    nothing.) *)
Theorem mesh_is_empty_iff_transparent st m :
  sound st m → no_empty_block st m →
  mesh_is_empty m = true ↔ ∀ p, alpha (mesh_get_at st m p None).1 = 0.
Proof.
  intros (Hs & Hh & Hm & Hall & Hnd & _) Hne. unfold mesh_is_empty. split.
  - intros He p. rewrite mesh_get_at_table. unfold table.
    destruct (m_blocks m); [reflexivity | discriminate].
  - intros Hzero. destruct (m_blocks m) as [| h l] eqn:Hbl; [reflexivity | exfalso].
    assert (Hin : In h (m_blocks m)) by (rewrite Hbl; left; reflexivity).
    pose proof (Hne h Hin) as Hb.
    destruct (heap st !! h) as [b |] eqn:Hhb; [| discriminate Hb].
    cbn in Hb. destruct (Hh h b Hhb) as [Hlen Hal].
    destruct (nonempty_block_visible (table st m) b Hnd) as (p & Hp); auto.
    + unfold table. rewrite <- Hhb. apply (in_map (fun h => heap st !! h)), Hin.
    + apply Hp. rewrite <- mesh_get_at_table. apply Hzero.
Qed.

Section BoxOfVisible.

Context {E : ExactOnIntegers G}.

(** X16 ([mesh_get_box], exact): when the geometry is exact on integer
    corners, the exact box of a mesh is not null as soon as one voxel can
    be seen, and it reaches every voxel that can be seen. *)
Theorem mesh_get_box_covers_visible st m p :
  alpha (mesh_get_at st m p None).1 ≠ 0 →
  box_is_null (mesh_get_box st m true) = false ∧ covers (mesh_get_box st m true) p.
Proof.
  rewrite mesh_get_at_table, mesh_get_box_table. intros Ha.
  destruct (occupied_voxel_block _ _ Ha) as (b & i & Hin & _ & Hv & Hp).
  destruct (exact_box_covers b i _ Hv Ha) as [Hn Hc]. rewrite Hp in Hc.
  unfold table_box. apply table_box_covers. right. exists b. auto.
Qed.

End BoxOfVisible.

(** ** The loops over the blocks *)

(** X17 ([mesh_clear]): on a mesh that owns its table, [mesh_clear]
    frees the blocks of the table and no other block, keeps the
    reference count, and leaves an empty table whose block ids start
    again at 1.  On a mesh that shares its table, nothing that was
    allocated before the call is freed or changed, and the count of the
    shared table goes down by one. *)
Theorem mesh_clear_frees st m :
  sound st m → (m_ref m < next_addr st)%nat →
  m_blocks (mesh_clear st m).2 = []
  ∧ m_next_block_id (mesh_clear st m).2 = 1
  ∧ (ref_get st (m_ref m) = 1 →
       (∀ h, In h (m_blocks m) → heap (mesh_clear st m).1 !! h = None)
       ∧ (∀ h, ¬ In h (m_blocks m) → heap (mesh_clear st m).1 !! h = heap st !! h)
       ∧ refs (mesh_clear st m).1 = refs st
       ∧ m_ref (mesh_clear st m).2 = m_ref m)
  ∧ (1 < ref_get st (m_ref m) →
       frame_below (next_addr st) st (mesh_clear st m).1
       ∧ ref_get (mesh_clear st m).1 (m_ref m) = ref_get st (m_ref m) - 1
       ∧ ref_get (mesh_clear st m).1 (m_ref (mesh_clear st m).2) = 1).
Proof.
  intros Hs Hcell. split_and!.
  - unfold mesh_clear. destruct (mesh_prepare_write st m) as [st1 m1].
    destruct (delete_all_blocks st1 m1) as [st2 m2]. reflexivity.
  - unfold mesh_clear. destruct (mesh_prepare_write st m) as [st1 m1].
    destruct (delete_all_blocks st1 m1) as [st2 m2]. reflexivity.
  - intros Href. unfold mesh_clear. rewrite (prepare_write_unique st m Href).
    pose proof (delete_all_blocks_fst (m_blocks m) (set_next_uid st (next_uid st + 1))
                  (set_id m (wrap64 (next_uid st)))) as Hfst.
    pose proof (delete_all_blocks_ref (m_blocks m) (set_next_uid st (next_uid st + 1))
                  (set_id m (wrap64 (next_uid st)))) as Hsnd.
    unfold delete_all_blocks in *. cbn [m_blocks set_id] in *.
    destruct (fold_left delete_step (m_blocks m) _) as [st2 m2]. cbn [fst snd] in *.
    subst st2. cbn [m_ref set_next_block_id set_blocks].
    destruct (fold_block_delete_store (m_blocks m) (set_next_uid st (next_uid st + 1)))
      as [Hr _].
    split_and!.
    + intros h Hin. apply fold_block_delete_in, Hin.
    + intros h Hnot. rewrite fold_block_delete_heap by exact Hnot. reflexivity.
    + rewrite Hr. reflexivity.
    + exact Hsnd.
  - intros Href.
    assert (Hg : good (next_addr st) st m).
    { split_and!; [exact Hs | lia |]. right. auto. }
    destruct (mesh_clear_lands _ st m Hg) as [[_ Hf] _].
    split; [exact Hf |].
    pose proof Hs as (Hwf & _ & Hm & _).
    destruct (prepare_write_refs st m Hwf Hm) as (Hdec & Hnew & Hone & _); [lia | lia |].
    unfold mesh_clear.
    destruct (mesh_prepare_write st m) as [st1 m1]. cbn [fst snd] in *.
    pose proof (delete_all_blocks_fst (m_blocks m1) st1 m1) as Hfst.
    pose proof (delete_all_blocks_ref (m_blocks m1) st1 m1) as Hsnd.
    unfold delete_all_blocks.
    destruct (fold_left delete_step (m_blocks m1) (st1, m1)) as [st2 m2].
    cbn [fst snd] in *. subst st2. cbn [m_ref set_next_block_id set_blocks].
    destruct (fold_block_delete_store (m_blocks m1) st1) as [Hr _].
    unfold ref_get in *. rewrite Hr, Hsnd, Hnew. auto.
Qed.

(** X18 ([mesh_extrude]): after an extrusion no voxel is left outside
    the box: at every position that [bbox_contains_vec] puts outside of
    [box], the mesh reads (0,0,0,0), whatever it held there before. *)
Theorem mesh_extrude_wipes_outside st m plane box q :
  sound st m → bbox_contains_vec box (vec3_of_pos q) = false →
  (mesh_get_at (mesh_extrude st m plane box).1 (mesh_extrude st m plane box).2 q None).1
  = rgba_zero.
Proof.
  intros Hs Hout. unfold mesh_extrude.
  destruct (prepare_write_lands 0 st m (good_zero _ _ Hs)) as [(Hs1 & _) _].
  destruct (mesh_prepare_write st m) as [st1 m1]. cbn [fst snd] in *. cbv zeta.
  match goal with
  | |- context [add_blocks st1 m1 ?bb] =>
      destruct (add_blocks_table st1 m1 bb Hs1) as (Hs2 & _);
      destruct (add_blocks st1 m1 bb) as [st2 m2]
  end.
  cbn [fst snd] in *.
  match goal with
  | |- context [mesh_extrude_callback m2 ?p box] => generalize p
  end.
  intros proj. rewrite mesh_get_at_table. unfold table_get.
  destruct (table_find _ (tile_origin q)) as [b' |] eqn:Hf; [| reflexivity].
  apply table_find_some in Hf as [Hin Hpos].
  unfold table in Hin. apply in_map_iff in Hin as (h & Hh & Hin).
  destruct Hs2 as (_ & Hh2 & _ & Ht2).
  destruct (fill_loop_all
              (fun p v => bbox_contains_vec box (vec3_of_pos p) = false → v = rgba_zero)
              (mesh_extrude_callback m2 proj box) (m_blocks m2))
    with (st := st2) (h := h) as (b & b2 & Hb & Hb2 & Hp & Hv).
  - intros st' p Hc. unfold mesh_extrude_callback. rewrite Hc. reflexivity.
  - eapply table_ok_NoDup, Ht2.
  - intros a Ha. destruct (table_ok_In st2 m2 a Ht2 Ha) as (b & Hb & _).
    exists b. split; [exact Hb | apply (Hh2 a b Hb)].
  - exact Hin.
  - rewrite Hb2 in Hh. inversion Hh. subst b'. cbn [block_get_at].
    destruct (cell_index (b_pos b2) q) as [i |] eqn:Hi; [| reflexivity].
    destruct (Hv i (cell_index_bounds _ _ _ Hi)) as (v & Hlook & HP).
    rewrite Hlook. cbn. apply HP. rewrite <- Hp, (cell_index_pos _ _ _ Hi). exact Hout.
Qed.

(** X19 ([mesh_shift_alpha]): a shift by [v] changes the voxels of the
    tiles that have a block, and nothing else: where the tile of [q] has
    a block, the alpha read at [q] afterwards is the old alpha plus [v],
    clamped to 0..255, and the colour is kept wherever that alpha is not
    0; where the tile has no block the mesh still reads (0,0,0,0).  So a
    positive shift makes every voxel of the existing blocks visible, the
    transparent ones too, and no voxel of a tile without block. *)
Theorem mesh_shift_alpha_reads st m v q :
  sound st m →
  alpha (mesh_get_at (mesh_shift_alpha st m v).1 (mesh_shift_alpha st m v).2 q None).1
  = match mesh_get_block_at st m (tile_origin q) with
    | Some _ => clamp8 (alpha (mesh_get_at st m q None).1 + v)
    | None => 0
    end
  ∧ (mesh_get_block_at st m (tile_origin q) ≠ None →
     clamp8 (alpha (mesh_get_at st m q None).1 + v) ≠ 0 →
     (mesh_get_at (mesh_shift_alpha st m v).1 (mesh_shift_alpha st m v).2 q None).1
     = let '(r, g, b, a) := (mesh_get_at st m q None).1 in (r, g, b, clamp8 (a + v))).
Proof.
  intros Hs. unfold mesh_shift_alpha.
  destruct (prepare_write_good 0 st m (good_zero _ _ Hs)) as (Hs1 & _ & Htab & _).
  destruct (mesh_prepare_write st m) as [st1 m1]. cbn [fst snd] in *.
  destruct (fold_store_settled 0 (shift_step v) (m_blocks m1) m1) with (st := st1)
    as [Hs2 _]; [| | exact Hs1 |].
  { intros st' x. apply block_update_repaints, paints_block_shift_alpha. }
  { intros x _. lia. }
  cbn [fst snd] in Hs2. destruct Hs2 as (Hs2 & _).
  assert (Ht2 : table (fold_left (shift_step v) (m_blocks m1) st1) m1
                = map (fmap (fun b => block_shift_alpha b v)) (table st m)).
  { rewrite <- Htab. apply (fold_update_table (fun b => block_shift_alpha b v)).
    apply (table_ok_NoDup st1), Hs1. }
  generalize dependent (fold_left (shift_step v) (m_blocks m1) st1). intros st2 Hs2 Ht2.
  destruct (sweep_read st2 m1 q Hs2) as [Ha Hv]. rewrite Ha. clear Ha.
  destruct (mesh_remove_empty_blocks st2 m1) as [st3 m3]. cbn [fst snd] in *.
  rewrite !mesh_get_at_table, Ht2 in *. clear Ht2 Hs2.
  unfold mesh_get_block_at, table_get in *.
  rewrite table_find_map in * by reflexivity.
  pose proof (hash_find_table_none st (m_blocks m) (tile_origin q)) as Hnone.
  fold (table st m) in Hnone.
  destruct (table_find (table st m) (tile_origin q)) as [b |] eqn:Hf.
  - destruct (hash_find st (m_blocks m) (tile_origin q)) as [h |];
      [| destruct Hnone as [Hn _]; discriminate (Hn eq_refl)].
    apply table_find_some in Hf as [Hin Hpos].
    unfold table in Hin. apply in_map_iff in Hin as (h' & Hh' & _).
    destruct Hs as (_ & Hheap & _). destruct (Hheap h' b Hh') as [Hlen _].
    destruct (cell_index_tile q) as (i & Hi & Hlt & _).
    rewrite <- Hpos in Hi. cbn [fmap option_fmap option_map] in *.
    rewrite (block_shift_alpha_get b v q i Hi) in * by lia.
    destruct (block_get_at (Some b) q) as [[[r g] bl] a]. cbn [alpha] in *.
    split; [reflexivity |]. intros _ Hne. apply Hv, Hne.
  - destruct (hash_find st (m_blocks m) (tile_origin q)) as [h |].
    + destruct Hnone as [_ Hn]. discriminate (Hn eq_refl).
    + cbn in *. split; [reflexivity |]. intros Hk. contradiction Hk. reflexivity.
Qed.

(** ** Moving a mesh *)

(** X20 ([mesh_move], read back): when the exact box of the mesh is not
    null, the mesh after [mesh_move(mesh, mat)] shows, on the tiles that
    the box [mat * box] reaches, the voxel that the mesh held before at
    the rounded image of the position by the inverse of [mat], and
    nothing on the other tiles: the alpha read is that of the old voxel,
    and the whole voxel is the old one when its alpha is not 0. *)
Theorem mesh_move_reads st m mat q :
  sound st m → 0 < ref_get st (m_ref m) → (m_ref m < next_addr st)%nat →
  box_is_null (mesh_get_box st m true) = false →
  (In (tile_origin q)
      (add_blocks_tiles (box_get_bbox (mat4_mul mat (mesh_get_box st m true)))) →
   alpha (mesh_get_at (mesh_move st m mat).1 (mesh_move st m mat).2 q None).1
   = alpha (mesh_move_get_color m (mat4_inverted mat) st q)
   ∧ (alpha (mesh_move_get_color m (mat4_inverted mat) st q) ≠ 0 →
      (mesh_get_at (mesh_move st m mat).1 (mesh_move st m mat).2 q None).1
      = mesh_move_get_color m (mat4_inverted mat) st q))
  ∧ (¬ In (tile_origin q)
         (add_blocks_tiles (box_get_bbox (mat4_mul mat (mesh_get_box st m true)))) →
     (mesh_get_at (mesh_move st m mat).1 (mesh_move st m mat).2 q None).1 = rgba_zero).
Proof.
  intros Hs Href Hcell Hnull.
  pose proof Hs as (Hwf & Hh & Hm & Ht).
  set (a := next_addr st).
  set (F := fun q => mesh_move_get_color m (mat4_inverted mat) st q).
  change (mesh_move_get_color m (mat4_inverted mat) st q) with (F q).
  unfold mesh_move.
  destruct (mesh_copy_store st m) as (Hh0 & Ha0 & _ & Hbl0 & _ & Hmr0 & Hr0).
  assert (Hnb : m_next_block_id (mesh_copy st m).2 = m_next_block_id m) by reflexivity.
  destruct (mesh_copy st m) as [st0 src]. cbn [fst snd] in *.
  assert (Htab0 : table st0 m = table st m).
  { unfold table. rewrite Hh0. reflexivity. }
  assert (Hg0 : good a st0 m).
  { split_and!; [split_and! | unfold a; lia |].
    - intros x Hx. rewrite Hh0. apply Hwf. lia.
    - intros h b Hb. rewrite Hh0 in Hb. eauto.
    - unfold mesh_wf. rewrite Ha0. exact Hm.
    - unfold table_ok. rewrite Htab0. exact Ht.
    - right. rewrite Hr0, Ha0. split_and!; [reflexivity | lia | exact Hcell]. }
  pose proof Hg0 as ((Hwf0 & _ & Hm0 & _) & _).
  destruct (prepare_write_good a st0 m Hg0) as (Hs1 & Hf1 & Htab1 & _).
  destruct (prepare_write_spec st0 m Hwf0 Hm0)
    as (st1 & m1 & E1 & _ & _ & Hmono1 & _ & _ & _ & _ & _ & Href1 & _).
  rewrite E1 in *. cbn [fst snd] in *. clear E1.
  assert (Hbox : mesh_get_box st1 m1 true = mesh_get_box st m true).
  { rewrite !mesh_get_box_table, Htab1, Htab0. reflexivity. }
  rewrite Hbox, Hnull.
  set (box' := mat4_mul mat (mesh_get_box st m true)).
  set (cb := mesh_move_get_color src (mat4_inverted mat)).
  assert (Hstable : ∀ st' p, frame_below a st1 st' → cb st' p = F p).
  { intros st' p Hst'. unfold cb, F.
    rewrite (move_color_frame st m src _ st' p Hm Hbl0).
    - rewrite (move_color_frame st m m _ st p Hm eq_refl); [reflexivity |].
      apply frame_below_refl.
    - intros h Hlt. rewrite Hst', Hf1, Hh0 by exact Hlt. reflexivity. }
  destruct Hs1 as (Hs1 & Hle1 & Hab1).
  pose proof (mesh_fill_table a st1 m1 box' cb F q Href1 Hab1 Hle1 Hstable) as Hread.
  pose proof (mesh_fill_lands a st1 m1 box' cb
                (settled_good _ _ _ (conj Hs1 (conj Hle1 Hab1)))) as [Hs2 _].
  pose proof (mesh_fill_fresh st1 m1 box' cb Hs1) as Hfresh.
  destruct (mesh_fill st1 m1 box' cb) as [st2 m2]. cbn [fst snd] in *.
  assert (Hnotsrc : ∀ h, In h (m_blocks m2) → ¬ In h (m_blocks src)).
  { intros h Hin Hsrc. rewrite Hbl0 in Hsrc.
    destruct Hs2 as (_ & _ & Hab2).
    pose proof (above_In _ _ _ Hab2 Hin) as H1.
    pose proof (mesh_wf_In _ _ _ Hm Hsrc) as H2. unfold a in H1. lia. }
  assert (Htab3 : table (mesh_delete st2 src) m2 = table st2 m2).
  { unfold table. apply map_ext_in. intros h Hin. apply mesh_delete_heap, Hnotsrc, Hin. }
  destruct (quiet_mesh_delete src st2) as (Ha3 & _ & Hwf3). cbn beta in *.
  assert (Hs3 : sound (mesh_delete st2 src) m2).
  { destruct Hs2 as ((Hwf2 & Hh2 & Hm2 & Ht2) & _ & _). split_and!; auto.
    - intros h b Hb. apply mesh_delete_sub in Hb. eauto.
    - unfold mesh_wf. rewrite Ha3. exact Hm2.
    - unfold table_ok. rewrite Htab3. exact Ht2. }
  destruct (sweep_read (mesh_delete st2 src) m2 q Hs3) as [Halpha Hvis].
  rewrite !(mesh_get_at_table (mesh_delete st2 src) m2), Htab3 in Halpha, Hvis.
  destruct Hread as [Hin Hout]. split.
  - intros HT. rewrite (Hin HT) in Halpha, Hvis. auto.
  - intros HT. specialize (Hout HT). destruct Hs3 as (Hw3 & _ & Hm3 & _).
    rewrite mesh_get_at_table, (sweep_table _ _ Hw3 Hm3), Htab3. unfold table_get.
    rewrite table_find_none; [reflexivity |].
    intros b Hb. apply filter_In in Hb as [Hb _]. eapply table_find_none_inv; eauto.
Qed.

(** ** Tiles *)

(** X21 ([mod]): for a positive [b], [mod(a, b)] is the remainder of the
    floored division, between 0 and [b - 1], also when [a] is negative.
    So the tile origin that [mesh_get_at] and [mesh_set_at] compute for a
    position is a multiple of [BLOCK_SIZE] on each axis, it is its own
    tile origin, and the position is one of the [BLOCK_SIZE]^3 cells of
    that tile. *)
Theorem mod_is_floor_mod a b p :
  0 < b →
  c_mod a b = a mod b ∧ 0 ≤ c_mod a b < b
  ∧ aligned (tile_origin p) ∧ tile_origin (tile_origin p) = tile_origin p
  ∧ ∃ i, cell_index (tile_origin p) p = Some i ∧ (i < cells)%nat
         ∧ cell_pos (tile_origin p) i = p.
Proof.
  intros Hb.
  assert (Hmod : c_mod a b = a mod b).
  { unfold c_mod. cbv zeta.
    pose proof (Z.quot_rem' a b) as Hq.
    pose proof (Z.rem_bound_abs a b ltac:(lia)) as Habs.
    destruct (Z.ltb_spec (Z.rem a b) 0) as [Hneg | Hpos].
    - apply (Z.mod_unique a b (a ÷ b - 1)); lia.
    - apply (Z.mod_unique a b (a ÷ b)); lia. }
  split; [exact Hmod |]. split; [rewrite Hmod; apply Z.mod_pos_bound, Hb |].
  split; [apply aligned_tile_origin |].
  split; [apply tile_origin_aligned, aligned_tile_origin | apply cell_index_tile].
Qed.

(** ** A loop of writes *)

(** X22 (writes through one accessor): a sequence of [mesh_set_at] calls
    that pass one accessor along leaves the same store and the same mesh
    as the same calls without accessor, when the accessor is null, not
    seated (as the zeroed accessor of [mesh_get_accessor] is) or valid for
    a mesh that owns its table at the start; and the accessor can be used
    for further writes afterwards.  (The first write forks a shared
    table; the accessor is seated on the new blocks only then.) *)
Theorem writes_through_accessor st m ws iter :
  store_wf st → mesh_wf st m → iter_ready st m iter →
  (writes_through st m ws iter).1 = (writes_through st m ws None).1
  ∧ iter_ready (writes_through st m ws iter).1.1 (writes_through st m ws iter).1.2
               (writes_through st m ws iter).2
  ∧ iter_ready st m (Some (mesh_get_accessor m)).
Proof.
  intros Hs Hm Hr.
  destruct (writes_through_ready ws st m iter Hs Hm Hr) as [H1 H2].
  split_and!; [exact H1 | exact H2 | left; reflexivity].
Qed.

(** ** Painting *)

(** X23 ([mesh_op], far tiles): in a mode other than [MODE_INTERSECT] and
    without symmetry, [mesh_op] changes no voxel on a tile whose box does
    not intersect the bounding box [bbox] of the operation: a read there
    gives what it gave before.  (In [MODE_OVER] and [MODE_MAX] the tile may
    get a new block, which stays transparent.) *)
Theorem mesh_op_leaves_far_tiles st m painter box bbox q :
  sound st m → p_symmetry painter = 0 → p_mode painter ≠ MODE_INTERSECT →
  op_bbox painter box = Some bbox →
  bbox_intersect bbox (tile_box (tile_origin q)) = false →
  ∃ st' m',
    mesh_op st m painter box = Some (st', m')
    ∧ (mesh_get_at st' m' q None).1 = (mesh_get_at st m q None).1.
Proof.
  intros Hs Hsym Hmode Hbbox Hfar.
  assert (Hmode' : mode_eqb (p_mode painter) MODE_INTERSECT = false).
  { destruct (p_mode painter); try reflexivity. contradiction Hmode. reflexivity. }
  rewrite (mesh_op_no_symmetry st m painter box Hsym).
  eexists _, _. split; [apply f_equal, surjective_pairing |].
  rewrite !mesh_get_at_table. unfold mesh_op_body. rewrite Hbbox.
  destruct (prepare_write_good 0 st m (good_zero _ _ Hs)) as ((Hs1 & _) & _ & Htab & _).
  destruct (mesh_prepare_write st m) as [st1 m1]. cbn [fst snd] in *.
  rewrite <- Htab.
  assert (H2 : ∃ st2 m2,
             (if is_constructive (p_mode painter) then add_blocks st1 m1 bbox
              else (st1, m1)) = (st2, m2)
             ∧ table_get (table st2 m2) q = table_get (table st1 m1) q).
  { destruct (is_constructive (p_mode painter)).
    - destruct (add_blocks_table st1 m1 bbox Hs1) as (_ & (news & Ht & Hn) & _).
      destruct (add_blocks st1 m1 bbox) as [st2 m2]. cbn [fst snd] in *.
      eexists _, _. split; [reflexivity |]. rewrite Ht. apply table_get_app_fresh.
      eapply Forall_impl; [exact Hn |]. intros ob (T & i & _ & E). eauto.
    - eexists _, _. split; [reflexivity | reflexivity]. }
  destruct H2 as (st2 & m2 & -> & H2). rewrite <- H2.
  apply op_loop_far; assumption.
Qed.

(** ** Moving by the identity *)

Section MoveWithin.

Context {B : Z} {E : ExactWithin B G}.


End MoveWithin.

Lemma mesh_new_ok st :
  store_wf st →
  store_wf (mesh_new st).1 ∧ mesh_wf (mesh_new st).1 (mesh_new st).2
  ∧ m_id (mesh_new st).2 = wrap64 (next_uid st)
  ∧ next_uid (mesh_new st).1 = next_uid st + 1.
Proof.
  intros Hs. unfold mesh_new, ref_alloc. cbn. split_and!; auto.
  - intros a Ha. cbn in *. apply Hs. lia.
  - constructor.
Qed.

End Facts.

(** * The claims on concrete inputs *)

Module Runs.

Import Exact Inputs.

(** ** The exact geometry computes on integer coordinates without error *)

Lemma Qfloor_inject q z : (q == inject_Z z)%Q → Qfloor q = z.
Proof. intros H. rewrite (Qfloor_comp _ _ H). apply Qfloor_Z. Qed.

Lemma Qceiling_inject q z : (q == inject_Z z)%Q → Qceiling q = z.
Proof. intros H. rewrite (Qceiling_comp _ _ H). apply Qceiling_Z. Qed.

Lemma Qfloor_red q z : (q == inject_Z z)%Q → Qfloor (Qred q) = z.
Proof. intros H. apply Qfloor_inject. rewrite Qred_correct. exact H. Qed.

Lemma Qceiling_red q z : (q == inject_Z z)%Q → Qceiling (Qred q) = z.
Proof. intros H. apply Qceiling_inject. rewrite Qred_correct. exact H. Qed.

Lemma qround_inject q z : (q == inject_Z z)%Q → qround q = z.
Proof.
  intros H. unfold qround, qleb.
  destruct (Qle_bool 0 q).
  - assert (Hf : (q + (1 # 2) == inject_Z z + (1 # 2))%Q) by (rewrite H; reflexivity).
    rewrite (Qfloor_comp _ _ Hf). unfold Qfloor, Qplus, inject_Z. cbn.
    symmetry. apply (Z.div_unique _ _ _ 1); lia.
  - assert (Hf : (q - (1 # 2) == inject_Z z - (1 # 2))%Q) by (rewrite H; reflexivity).
    rewrite (Qceiling_comp _ _ Hf). unfold Qceiling, Qfloor, Qminus, Qplus, Qopp, inject_Z. cbn.
    change (Z.pos (1 * 2)) with 2. change (- (1) * 1) with (-1).
    assert ((- (z * 2 + -1)) / 2 = - z) as ->; [| lia].
    symmetry. apply (Z.div_unique _ _ _ 1); lia.
Qed.



Lemma covers_mono (c c' : aabox) (p : pos3) :
  q3_le (raw_lo c') (raw_lo c) → q3_le (raw_hi c) (raw_hi c') →
  covers c p → covers c' p.
Proof.
  destruct p as [[x y] z]. unfold covers, q3_le, raw_lo, raw_hi. cbn.
  intros (Hlx & Hly & Hlz) (Hhx & Hhy & Hhz) (H1 & H2 & H3 & H4 & H5 & H6).
  rewrite !Qred_correct in *.
  split_and!.
  - etransitivity; [apply Qfloor_resp_le; exact Hlx | exact H1].
  - etransitivity; [exact H2 | apply Qceiling_resp_le; exact Hhx].
  - etransitivity; [apply Qfloor_resp_le; exact Hly | exact H3].
  - etransitivity; [exact H4 | apply Qceiling_resp_le; exact Hhy].
  - etransitivity; [apply Qfloor_resp_le; exact Hlz | exact H5].
  - etransitivity; [exact H6 | apply Qceiling_resp_le; exact Hhz].
Qed.

Lemma qmin_le_l a b : (qmin a b <= a)%Q.
Proof.
  unfold qmin, qleb. destruct (Qle_bool a b) eqn:H; [lra |].
  assert (~ (a <= b)%Q) by (rewrite <- Qle_bool_iff; congruence). lra.
Qed.

Lemma qmin_le_r a b : (qmin a b <= b)%Q.
Proof.
  unfold qmin, qleb. destruct (Qle_bool a b) eqn:H; [| lra].
  apply Qle_bool_iff. exact H.
Qed.

Lemma qmax_ge_l a b : (a <= qmax a b)%Q.
Proof.
  unfold qmax, qleb. destruct (Qle_bool a b) eqn:H; [| lra].
  apply Qle_bool_iff. exact H.
Qed.

Lemma qmax_ge_r a b : (b <= qmax a b)%Q.
Proof.
  unfold qmax, qleb. destruct (Qle_bool a b) eqn:H; [lra |].
  assert (~ (a <= b)%Q) by (rewrite <- Qle_bool_iff; congruence). lra.
Qed.

Lemma from_points_ends (a b : Q * Q * Q) :
  let c := from_points a b in
  (bx_tx c - bx_sx c == a.1.1 /\ bx_ty c - bx_sy c == a.1.2 /\ bx_tz c - bx_sz c == a.2
   /\ bx_tx c + bx_sx c == b.1.1 /\ bx_ty c + bx_sy c == b.1.2
   /\ bx_tz c + bx_sz c == b.2)%Q.
Proof.
  destruct a as [[ax ay] az], b as [[bx by_] bz]. cbn.
  rewrite !Qred_correct. split_and!; field.
Qed.

Lemma lo_le_raw (c : aabox) : q3_le (lo c) (raw_lo c).
Proof.
  unfold q3_le, lo, raw_lo.
  pose proof (Qle_Qabs (bx_sx c)). pose proof (Qle_Qabs (bx_sy c)).
  pose proof (Qle_Qabs (bx_sz c)). split_and!; lra.
Qed.

Lemma raw_le_hi (c : aabox) : q3_le (raw_hi c) (hi c).
Proof.
  unfold q3_le, hi, raw_hi.
  pose proof (Qle_Qabs (bx_sx c)). pose proof (Qle_Qabs (bx_sy c)).
  pose proof (Qle_Qabs (bx_sz c)). split_and!; lra.
Qed.

Lemma from_points_covers_q (a b : Q * Q * Q) (c : aabox) (p : pos3) :
  q3_le a (raw_lo c) → q3_le (raw_hi c) b → covers c p → covers (from_points a b) p.
Proof.
  intros Ha Hb. apply covers_mono.
  - destruct (from_points_ends a b) as (H1 & H2 & H3 & _).
    destruct a as [[ax ay] az]. unfold q3_le, raw_lo in *. cbn [fst snd] in *.
    destruct Ha as (? & ? & ?). rewrite H1, H2, H3. auto.
  - destruct (from_points_ends a b) as (_ & _ & _ & H1 & H2 & H3).
    destruct b as [[bx by_] bz]. unfold q3_le, raw_hi in *. cbn [fst snd] in *.
    destruct Hb as (? & ? & ?). rewrite H1, H2, H3. auto.
Qed.

Lemma covers_intro (c : aabox) (p lo hi : pos3) :
  (bx_tx c - bx_sx c == inject_Z lo.1.1)%Q → (bx_ty c - bx_sy c == inject_Z lo.1.2)%Q →
  (bx_tz c - bx_sz c == inject_Z lo.2)%Q →
  (bx_tx c + bx_sx c == inject_Z hi.1.1)%Q → (bx_ty c + bx_sy c == inject_Z hi.1.2)%Q →
  (bx_tz c + bx_sz c == inject_Z hi.2)%Q →
  pos3_le lo p → pos3_le p hi → covers c p.
Proof.
  destruct p as [[x y] z], lo as [[lx ly] lz], hi as [[hx hy] hz]. cbn [fst snd].
  intros E1 E2 E3 E4 E5 E6 (H1 & H2 & H3) (H4 & H5 & H6).
  unfold covers. cbn.
  rewrite (Qfloor_red _ _ E1), (Qfloor_red _ _ E2), (Qfloor_red _ _ E3).
  rewrite (Qceiling_red _ _ E4), (Qceiling_red _ _ E5), (Qceiling_red _ _ E6).
  lia.
Qed.

Lemma exact_geometry_laws : ExactOnIntegers geometry.
Proof.
  constructor.
  - (* round_identity *)
    intros [[x y] z]. cbn.
    f_equal; [f_equal |]; apply qround_inject; rewrite !Qred_correct; unfold Qeq; cbn; lia.
  - (* from_points_covers *)
    intros [[lx ly] lz] [[hx hy] hz] p Hlo Hhi.
    destruct (from_points_ends (inject_Z lx, inject_Z ly, inject_Z lz)
                (inject_Z hx, inject_Z hy, inject_Z hz))
      as (E1 & E2 & E3 & E4 & E5 & E6).
    split; [reflexivity |].
    change (covers (from_points (inject_Z lx, inject_Z ly, inject_Z lz)
                      (inject_Z hx, inject_Z hy, inject_Z hz)) p).
    apply (covers_intro _ p (lx, ly, lz) (hx, hy, hz)); auto.
  - (* merge_covers_l *)
    intros a b p Hn Hc. cbn in Hn |- *. unfold merge. rewrite Hn.
    destruct (is_null b); [auto |]. split; [reflexivity |].
    destruct (lo a) as [[a0x a0y] a0z] eqn:Hlo, (hi a) as [[a1x a1y] a1z] eqn:Hhi.
    destruct (lo b) as [[b0x b0y] b0z], (hi b) as [[b1x b1y] b1z].
    apply (from_points_covers_q _ _ a); [| | exact Hc].
    + pose proof (lo_le_raw a) as H. rewrite Hlo in H.
      unfold q3_le in *. destruct (raw_lo a) as [[rx ry] rz]. destruct H as (? & ? & ?).
      pose proof (qmin_le_l a0x b0x). pose proof (qmin_le_l a0y b0y).
      pose proof (qmin_le_l a0z b0z). split_and!; lra.
    + pose proof (raw_le_hi a) as H. rewrite Hhi in H.
      unfold q3_le in *. destruct (raw_hi a) as [[rx ry] rz]. destruct H as (? & ? & ?).
      pose proof (qmax_ge_l a1x b1x). pose proof (qmax_ge_l a1y b1y).
      pose proof (qmax_ge_l a1z b1z). split_and!; lra.
  - (* merge_covers_r *)
    intros a b p Hn Hc. cbn in Hn |- *. unfold merge.
    destruct (is_null a); [auto |]. rewrite Hn. split; [reflexivity |].
    destruct (lo a) as [[a0x a0y] a0z], (hi a) as [[a1x a1y] a1z].
    destruct (lo b) as [[b0x b0y] b0z] eqn:Hlo, (hi b) as [[b1x b1y] b1z] eqn:Hhi.
    apply (from_points_covers_q _ _ b); [| | exact Hc].
    + pose proof (lo_le_raw b) as H. rewrite Hlo in H.
      unfold q3_le in *. destruct (raw_lo b) as [[rx ry] rz]. destruct H as (? & ? & ?).
      pose proof (qmin_le_r a0x b0x). pose proof (qmin_le_r a0y b0y).
      pose proof (qmin_le_r a0z b0z). split_and!; lra.
    + pose proof (raw_le_hi b) as H. rewrite Hhi in H.
      unfold q3_le in *. destruct (raw_hi b) as [[rx ry] rz]. destruct H as (? & ? & ?).
      pose proof (qmax_ge_r a1x b1x). pose proof (qmax_ge_r a1y b1y).
      pose proof (qmax_ge_r a1z b1z). split_and!; lra.
  - (* identity_bbox_covers *)
    intros b p Hn Hc.
    change (covers (from_points (lo (mul identity b)) (hi (mul identity b))) p).
    assert (E0 : ∀ t u, (1 * t + 0 * u == t)%Q) by (intros; ring).
    assert (E1 : ∀ t, (1 * t == t)%Q) by (intros; ring).
    pose proof (Qle_Qabs (bx_sx b)). pose proof (Qle_Qabs (bx_sy b)).
    pose proof (Qle_Qabs (bx_sz b)).
    apply (from_points_covers_q _ _ b); [| | exact Hc].
    + unfold q3_le, lo, raw_lo, mul, identity.
      cbn [bx_sx bx_sy bx_sz bx_tx bx_ty bx_tz bx_unit].
      rewrite !Qred_correct, !E0, !E1. split_and!; lra.
    + unfold q3_le, hi, raw_hi, mul, identity.
      cbn [bx_sx bx_sy bx_sz bx_tx bx_ty bx_tz bx_unit].
      rewrite !Qred_correct, !E0, !E1. split_and!; lra.
Qed.

(** ** Runs *)

Lemma store0_wf : store_wf store0.
Proof. intros a _. apply lookup_empty. Defined.

Lemma one_voxel_wf : store_wf one_voxel.1 ∧ mesh_wf one_voxel.1 one_voxel.2.
Proof.
  unfold one_voxel.
  destruct (mesh_new_ok store0 store0_wf) as (Hs & Hm & _).
  destruct (mesh_new store0) as [st v]. cbn [fst snd] in *.
  destruct (mesh_set_at_ok st v (0, 0, 0) (10, 20, 30, 255) None Hs Hm)
    as [_ (Hs' & Hm' & _)].
  auto.
Defined.

(** C1, the failing input: [w] is a clone of [v], an accessor is seated on
    [w] by a read, and [mesh_set_at] on [w] through that accessor writes
    into the block of [v]: the voxel of [v] changes, the one of [w] does
    not. *)
Theorem clone_write_through_accessor_changes_original :
  (mesh_get_at cloned.1 one_voxel.2 (0, 0, 0) None).1 = (10, 20, 30, 255)
  ∧ (mesh_get_at written_through_accessor.1.1 one_voxel.2 (0, 0, 0) None).1
    = (1, 2, 3, 255)
  ∧ (mesh_get_at written_through_accessor.1.1 written_through_accessor.1.2
       (0, 0, 0) None).1 = (10, 20, 30, 255).
Proof. vm_compute. auto. Qed.

(** C8, the failing input: on the clone above, [mesh_set_at] through the
    seated accessor followed by [mesh_get_at] without accessor does not
    return the value written. *)
Theorem set_at_through_accessor_then_get_at :
  (mesh_get_at written_through_accessor.1.1 written_through_accessor.1.2
     (0, 0, 0) None).1 ≠ (1, 2, 3, 255).
Proof. vm_compute. discriminate. Qed.

(** C2, the counterexample: [mesh_set_at] of a transparent value on a new
    mesh leaves a block whose voxels all have alpha 0. *)
Lemma set_at_leaves_empty_block : ¬ no_empty_block transparent_voxel.1 transparent_voxel.2.
Proof.
  intros H. specialize (H 2%nat). vm_compute in H.
  specialize (H (or_introl eq_refl)). discriminate H.
Qed.


(** C3, the failing input: the block at [(-32,-32,-32)] does not intersect
    [bbox], the mode is [MODE_INTERSECT], and the block is still in the
    table after [mesh_op], with its voxel. *)
Theorem intersect_keeps_block_outside_bbox :
  (∃ bbox, op_bbox intersect_painter big_box = Some bbox
           ∧ table_box_intersects bbox far_voxel.1 far_voxel.2 = [false])
  ∧ ∃ st m, mesh_op far_voxel.1 far_voxel.2 intersect_painter big_box = Some (st, m)
            ∧ m_blocks m = m_blocks far_voxel.2
            ∧ (mesh_get_at st m (-30, -30, -30) None).1 = (9, 9, 9, 255).
Proof.
  split.
  - eexists. split; vm_compute; reflexivity.
  - destruct (mesh_op far_voxel.1 far_voxel.2 intersect_painter big_box)
      as [[st m] |] eqn:E; [| vm_compute in E; discriminate E].
    exists st, m. split; [reflexivity |].
    assert (Some (m_blocks m, (mesh_get_at st m (-30, -30, -30) None).1)
            = Some (m_blocks far_voxel.2, (9, 9, 9, 255))) as Heq.
    { change (Some (m_blocks m, (mesh_get_at st m (-30, -30, -30) None).1))
        with (option_map (fun r : store * mesh_t =>
                            (m_blocks r.2, (mesh_get_at r.1 r.2 (-30, -30, -30) None).1))
                         (Some (st, m))).
      rewrite <- E. vm_compute. reflexivity. }
    inversion Heq. auto.
Qed.

Lemma mesh_op_symmetry_expansion_witness :
  0 ≤ p_symmetry mirror_painter ≤ 7
  ∧ (length (primitive_ops 4 mirror_painter unit_box) ≤ 8)%nat
  ∧ mesh_op one_voxel.1 one_voxel.2 mirror_painter unit_box
    = Some (run_ops (primitive_ops 4 mirror_painter unit_box) one_voxel.1 one_voxel.2).
Proof.
  assert (H : 0 ≤ p_symmetry mirror_painter ≤ 7) by (cbn; lia).
  split; [exact H |].
  exact (proj2 (mesh_op_symmetry_expansion one_voxel.1 one_voxel.2
                  mirror_painter unit_box H)).
Defined.

Lemma mesh_blit_order_witness :
  mesh_blit one_voxel.1 one_voxel.2 white_buffer (-1) (-1) (-1) 3 3 3 None
  = mesh_blit_by_index one_voxel.1 one_voxel.2 white_buffer (-1) (-1) (-1) 3 3 3 None.
Proof. apply mesh_blit_order; lia. Defined.

Lemma transparent_voxel_wf :
  store_wf transparent_voxel.1 ∧ mesh_wf transparent_voxel.1 transparent_voxel.2.
Proof.
  unfold transparent_voxel.
  destruct (mesh_new_ok store0 store0_wf) as (Hs & Hm & _).
  destruct (mesh_new store0) as [st v]. cbn [fst snd] in *.
  destruct (mesh_set_at_ok st v (0, 0, 0) (0, 0, 0, 0) None Hs Hm)
    as [_ (Hs' & Hm' & _)].
  auto.
Defined.

Lemma mesh_move_null_box_witness :
  table (mesh_move transparent_voxel.1 transparent_voxel.2 identity).1
        (mesh_move transparent_voxel.1 transparent_voxel.2 identity).2
  = table transparent_voxel.1 transparent_voxel.2
  ∧ m_id transparent_voxel.2
    < m_id (mesh_move transparent_voxel.1 transparent_voxel.2 identity).2
  ∧ next_uid (mesh_move transparent_voxel.1 transparent_voxel.2 identity).1
    = next_uid transparent_voxel.1 + 1.
Proof.
  apply mesh_move_null_box.
  - exact (proj1 transparent_voxel_wf).
  - exact (proj2 transparent_voxel_wf).
  - vm_compute. split; [discriminate | reflexivity].
  - vm_compute. reflexivity.
  - vm_compute. reflexivity.
Defined.


Lemma no_empty_block_after_sweep_witness :
  no_empty_block (mesh_move one_voxel.1 one_voxel.2 (box_at (16, 0, 0) (1, 1, 1))).1
                 (mesh_move one_voxel.1 one_voxel.2 (box_at (16, 0, 0) (1, 1, 1))).2.
Proof.
  refine (no_empty_block_after_sweep (Move (box_at (16, 0, 0) (1, 1, 1)))
            one_voxel.1 one_voxel.2 _ _
            (proj1 one_voxel_wf) (proj2 one_voxel_wf) _ _ _).
  - reflexivity.
  - intros mat _. vm_compute. reflexivity.
  - cbn [mutate]. destruct (mesh_move one_voxel.1 one_voxel.2 _); reflexivity.
Defined.

Lemma over_then_sub_is_empty_witness :
  ∃ st2 m2 st3 m3,
    mesh_op (mesh_new store0).1 (mesh_new store0).2
            (painter Cube MODE_OVER (255, 0, 0, 255)) unit_box = Some (st2, m2)
    ∧ mesh_op st2 m2
              (painter_set_mode (painter Cube MODE_OVER (255, 0, 0, 255)) MODE_SUB)
              unit_box = Some (st3, m3)
    ∧ mesh_is_empty m3 = true
    ∧ length (m_blocks m3) = 0%nat.
Proof.
  apply (over_then_sub_is_empty store0 (painter Cube MODE_OVER (255, 0, 0, 255)) unit_box).
  - reflexivity.
  - reflexivity.
  - intros [[x y] z]. cbn. unfold sample.
    match goal with |- context [if ?c then _ else _] => destruct c end; auto.
  - intros bbox T Hb HT. vm_compute in Hb. inversion Hb; subst bbox. clear Hb.
    vm_compute in HT.
    repeat (destruct HT as [<- | HT]; [vm_compute; reflexivity |]).
    destruct HT.
Defined.

(** C6, the counterexample: with the box of half size 14.5, [bbox] ends at
    15.5; [add_blocks] visits the tiles from -16 to 16 on each axis, and
    the 19 tiles with a coordinate 16 do not intersect [bbox].  The loop of
    [mesh_op] passes them by in both modes, so their blocks, all
    transparent, are still in the table at the end. *)
Lemma over_then_sub_leaves_blocks :
  ∃ st2 m2 st3 m3,
    mesh_op (mesh_new store0).1 (mesh_new store0).2
            (painter Cube MODE_OVER (255, 0, 0, 255)) wide_box = Some (st2, m2)
    ∧ mesh_op st2 m2
              (painter_set_mode (painter Cube MODE_OVER (255, 0, 0, 255)) MODE_SUB)
              wide_box = Some (st3, m3)
    ∧ length (m_blocks m2) = 27%nat
    ∧ mesh_is_empty m3 = false
    ∧ length (m_blocks m3) = 19%nat.
Proof.
  assert (H : match mesh_op (mesh_new store0).1 (mesh_new store0).2
                      (painter Cube MODE_OVER (255, 0, 0, 255)) wide_box with
              | Some (st2, m2) =>
                  match mesh_op st2 m2
                          (painter_set_mode (painter Cube MODE_OVER (255, 0, 0, 255))
                                            MODE_SUB) wide_box with
                  | Some (st3, m3) =>
                      Some (length (m_blocks m2), mesh_is_empty m3, length (m_blocks m3))
                  | None => None
                  end
              | None => None
              end = Some (27%nat, false, 19%nat))
    by (vm_compute; reflexivity).
  destruct (mesh_op (mesh_new store0).1 (mesh_new store0).2
              (painter Cube MODE_OVER (255, 0, 0, 255)) wide_box)
    as [[st2 m2] |]; [| discriminate H].
  destruct (mesh_op st2 m2
              (painter_set_mode (painter Cube MODE_OVER (255, 0, 0, 255)) MODE_SUB)
              wide_box)
    as [[st3 m3] |] eqn:E3; [| discriminate H].
  inversion H. exists st2, m2, st3, m3. auto.
Qed.

(** C9, the failing input: [w] is a clone of [v] and an accessor is seated
    on [w] by a read; [mesh_blit] on [w] of one group through that accessor
    writes the group into the block of [v].  At the target position of
    group 0 the mesh [w] still reads the old voxel, and [v] reads the
    group. *)
Theorem blit_through_accessor_misses_target :
  blit_target 0 0 0 1 1 0 = (0, 0, 0)
  ∧ read_rgba [1; 2; 3; 255] (4 * 0) = (1, 2, 3, 255)
  ∧ (mesh_get_at blitted_through_accessor.1.1 blitted_through_accessor.1.2
       (0, 0, 0) None).1 = (10, 20, 30, 255)
  ∧ (mesh_get_at blitted_through_accessor.1.1 one_voxel.2 (0, 0, 0) None).1
    = (1, 2, 3, 255).
Proof. vm_compute. auto. Qed.

(** ** The bound of the float library *)

Lemma exact_within (B : Z) : ExactWithin B geometry.
Proof.
  constructor.
  - intros p _. apply (@round_identity _ exact_geometry_laws).
  - intros lo hi p _ _. apply (@from_points_covers _ exact_geometry_laws).
  - intros a b p _ _. apply (@merge_covers_l _ exact_geometry_laws).
  - intros a b p _ _. apply (@merge_covers_r _ exact_geometry_laws).
  - intros b p _. apply (@identity_bbox_covers _ exact_geometry_laws).
Qed.








End Runs.

(** ** The further properties, on concrete inputs *)

Module Checks.

Import Exact Inputs.

Lemma new_sound : sound (mesh_new store0).1 (mesh_new store0).2.
Proof.
  split_and!.
  - intros a Ha. apply lookup_empty.
  - intros h b Hb. cbn in Hb. rewrite lookup_empty in Hb. discriminate Hb.
  - constructor.
  - split_and!; constructor.
Qed.

Lemma one_voxel_sound : sound one_voxel.1 one_voxel.2.
Proof.
  unfold one_voxel. pose proof new_sound as Hs.
  destruct (mesh_new store0) as [st v]. cbn [fst snd] in *.
  destruct (mesh_set_at_lands 0 st v (0, 0, 0) (10, 20, 30, 255) None
              (good_zero _ _ Hs) I I) as [[(H & _) _] _].
  exact H.
Qed.

Lemma transparent_voxel_sound : sound transparent_voxel.1 transparent_voxel.2.
Proof.
  unfold transparent_voxel. pose proof new_sound as Hs.
  destruct (mesh_new store0) as [st v]. cbn [fst snd] in *.
  destruct (mesh_set_at_lands 0 st v (0, 0, 0) (0, 0, 0, 0) None
              (good_zero _ _ Hs) I I) as [[(H & _) _] _].
  exact H.
Qed.

Lemma one_voxel_no_empty_block : no_empty_block one_voxel.1 one_voxel.2.
Proof.
  intros h Hin. vm_compute in Hin. destruct Hin as [<- | []]. vm_compute. reflexivity.
Qed.

Lemma mutations_keep_table_witness :
  sound (mesh_shift_alpha one_voxel.1 one_voxel.2 (-5)).1
        (mesh_shift_alpha one_voxel.1 one_voxel.2 (-5)).2.
Proof.
  refine (mutations_keep_table (ShiftAlpha (-5)) one_voxel.1 one_voxel.2 _ _
            one_voxel_sound I _).
  cbn [mutate]. destruct (mesh_shift_alpha one_voxel.1 one_voxel.2 (-5)); reflexivity.
Defined.

Lemma mutation_of_clone_keeps_original_witness :
  table (mesh_set_at cloned.1 cloned.2 (0, 0, 0) (1, 2, 3, 255) None).1.1 one_voxel.2
  = table one_voxel.1 one_voxel.2
  ∧ ∀ p, (mesh_get_at (mesh_set_at cloned.1 cloned.2 (0, 0, 0) (1, 2, 3, 255) None).1.1
                      one_voxel.2 p None).1
         = (mesh_get_at one_voxel.1 one_voxel.2 p None).1.
Proof.
  refine (mutation_of_clone_keeps_original (SetAt (0, 0, 0) (1, 2, 3, 255) None)
            one_voxel.1 one_voxel.2 _
            (mesh_set_at cloned.1 cloned.2 (0, 0, 0) (1, 2, 3, 255) None).1.2
            one_voxel_sound _ _ _ _).
  - vm_compute. reflexivity.
  - vm_compute. lia.
  - intros it Hit. discriminate Hit.
  - cbn [mutate]. unfold cloned.
    destruct (mesh_set_at _ _ (0, 0, 0) (1, 2, 3, 255) None).1; reflexivity.
Defined.

Lemma copy_then_delete_witness :
  mesh_delete (mesh_copy one_voxel.1 one_voxel.2).1 (mesh_copy one_voxel.1 one_voxel.2).2
  = one_voxel.1.
Proof.
  apply (copy_then_delete one_voxel.1 one_voxel.2 1).
  - vm_compute. reflexivity.
  - lia.
Defined.

Lemma mesh_delete_frees_witness :
  refs (mesh_delete one_voxel.1 one_voxel.2) !! m_ref one_voxel.2 = None.
Proof.
  refine (proj1 (proj2 (proj1 (mesh_delete_frees one_voxel.1 one_voxel.2) _))).
  vm_compute. reflexivity.
Defined.

Lemma mesh_set_shares_witness :
  mesh_set cloned.1 cloned.2 one_voxel.2 = (cloned.1, cloned.2)
  ∧ ref_get (mesh_set (mesh_new one_voxel.1).1 (mesh_new one_voxel.1).2 one_voxel.2).1
            (m_ref one_voxel.2)
    = ref_get (mesh_new one_voxel.1).1 (m_ref one_voxel.2) + 1.
Proof.
  split.
  - refine (proj1 (mesh_set_shares cloned.1 cloned.2 one_voxel.2) _).
    vm_compute. reflexivity.
  - refine (proj1 (proj2 (proj2 (proj2 (proj2
              (proj2 (mesh_set_shares (mesh_new one_voxel.1).1 (mesh_new one_voxel.1).2
                        one_voxel.2) _ _ _)))))).
    + vm_compute. discriminate.
    + vm_compute. lia.
    + intros h Hin. vm_compute in Hin. destruct Hin.
Defined.

Lemma prepare_write_forks_witness :
  m_id (mesh_prepare_write cloned.1 cloned.2).2 = wrap64 (next_uid cloned.1).
Proof.
  refine (proj1 (proj2 (proj2 (prepare_write_forks cloned.1 cloned.2 _ _)))).
  - intros a Ha. apply (proj1 Runs.one_voxel_wf). exact Ha.
  - exact (proj2 Runs.one_voxel_wf).
Defined.

Lemma mesh_move_null_box_keeps_clone_witness :
  ref_get (mesh_move transparent_voxel.1 transparent_voxel.2 identity).1
          (m_ref transparent_voxel.2)
  = ref_get transparent_voxel.1 (m_ref transparent_voxel.2).
Proof.
  refine (proj1 (mesh_move_null_box_keeps_clone transparent_voxel.1 transparent_voxel.2
                   identity (proj1 Runs.transparent_voxel_wf)
                   (proj2 Runs.transparent_voxel_wf) _ _ _)).
  - vm_compute. reflexivity.
  - vm_compute. lia.
  - vm_compute. reflexivity.
Defined.

Lemma set_at_then_reads_witness :
  (mesh_get_at (mesh_set_at one_voxel.1 one_voxel.2 (1, 0, 0) (1, 2, 3, 255) None).1.1
               (mesh_set_at one_voxel.1 one_voxel.2 (1, 0, 0) (1, 2, 3, 255) None).1.2
               (0, 0, 0) None).1
  = if decide ((0, 0, 0) = (1, 0, 0)) then (1, 2, 3, 255)
    else (mesh_get_at one_voxel.1 one_voxel.2 (0, 0, 0) None).1.
Proof.
  exact (proj1 (set_at_then_reads one_voxel.1 one_voxel.2 (1, 0, 0) (1, 2, 3, 255) None
                  (0, 0, 0) one_voxel_sound I)).
Defined.

Lemma sweep_keeps_visible_witness :
  alpha (mesh_get_at (mesh_remove_empty_blocks one_voxel.1 one_voxel.2).1
                     (mesh_remove_empty_blocks one_voxel.1 one_voxel.2).2
                     (0, 0, 0) None).1
  = alpha (mesh_get_at one_voxel.1 one_voxel.2 (0, 0, 0) None).1.
Proof.
  exact (proj1 (sweep_keeps_visible one_voxel.1 one_voxel.2 (0, 0, 0) one_voxel_sound)).
Defined.

Lemma add_blocks_covers_tiles_witness :
  sound (add_blocks one_voxel.1 one_voxel.2 big_box).1
        (add_blocks one_voxel.1 one_voxel.2 big_box).2.
Proof.
  exact (proj1 (add_blocks_covers_tiles one_voxel.1 one_voxel.2 big_box one_voxel_sound)).
Defined.

Lemma mesh_blit_then_reads_witness :
  alpha (mesh_get_at
           (mesh_blit one_voxel.1 one_voxel.2 white_buffer (-1) (-1) (-1) 3 3 3 None).1.1
           (mesh_blit one_voxel.1 one_voxel.2 white_buffer (-1) (-1) (-1) 3 3 3 None).1.2
           (blit_target (-1) (-1) (-1) 3 3 5) None).1
  = alpha (read_rgba white_buffer (4 * 5)).
Proof.
  refine (proj1 (proj1 (mesh_blit_then_reads one_voxel.1 one_voxel.2 white_buffer
                          (-1) (-1) (-1) 3 3 3 None one_voxel_sound I _ _ _) 5%nat _)).
  - lia.
  - lia.
  - lia.
  - vm_compute. lia.
Defined.

Lemma mesh_iter_blocks_enumerates_witness :
  map (fun e => e.1.1) (all_blocks one_voxel.1 one_voxel.2) = m_blocks one_voxel.2.
Proof.
  refine (proj2 (mesh_iter_blocks_enumerates one_voxel.1 one_voxel.2 1 _)).
  destruct one_voxel_sound as (_ & _ & _ & Ht). exact Ht.
Defined.

Lemma mesh_iter_voxels_enumerates_witness :
  ∃ it', run_calls (mesh_iter_voxels one_voxel.1 one_voxel.2)
               (cells * length (m_blocks one_voxel.2) + 1)
               (mesh_get_iterator one_voxel.2)
         = Some (map Some (all_voxels one_voxel.1 one_voxel.2) ++ repeat None 1, it').
Proof.
  exact (proj1 (mesh_iter_voxels_enumerates one_voxel.1 one_voxel.2 1 one_voxel_sound)).
Defined.

Lemma mesh_is_empty_iff_transparent_witness :
  mesh_is_empty one_voxel.2 = true
  ↔ ∀ p, alpha (mesh_get_at one_voxel.1 one_voxel.2 p None).1 = 0.
Proof.
  exact (mesh_is_empty_iff_transparent one_voxel.1 one_voxel.2 one_voxel_sound
           one_voxel_no_empty_block).
Defined.

Lemma mesh_get_box_covers_visible_witness :
  box_is_null (mesh_get_box one_voxel.1 one_voxel.2 true) = false
  ∧ covers (mesh_get_box one_voxel.1 one_voxel.2 true) (0, 0, 0).
Proof.
  apply (@mesh_get_box_covers_visible geometry Runs.exact_geometry_laws
           one_voxel.1 one_voxel.2 (0, 0, 0)).
  vm_compute. discriminate.
Defined.

Lemma mesh_clear_frees_witness :
  m_blocks (mesh_clear one_voxel.1 one_voxel.2).2 = [].
Proof.
  refine (proj1 (mesh_clear_frees one_voxel.1 one_voxel.2 one_voxel_sound _)).
  vm_compute. lia.
Defined.

Lemma mesh_extrude_wipes_outside_witness :
  (mesh_get_at (mesh_extrude one_voxel.1 one_voxel.2 x_plane
                  (box_at (8, 8, 8) (2, 2, 2))).1
               (mesh_extrude one_voxel.1 one_voxel.2 x_plane
                  (box_at (8, 8, 8) (2, 2, 2))).2
               (0, 0, 0) None).1
  = rgba_zero.
Proof.
  apply (mesh_extrude_wipes_outside one_voxel.1 one_voxel.2 x_plane
           (box_at (8, 8, 8) (2, 2, 2)) (0, 0, 0) one_voxel_sound).
  vm_compute. reflexivity.
Defined.

Lemma mesh_shift_alpha_reads_witness :
  alpha (mesh_get_at (mesh_shift_alpha one_voxel.1 one_voxel.2 (-5)).1
                     (mesh_shift_alpha one_voxel.1 one_voxel.2 (-5)).2 (0, 0, 0) None).1
  = match mesh_get_block_at one_voxel.1 one_voxel.2 (tile_origin (0, 0, 0)) with
    | Some _ => clamp8 (alpha (mesh_get_at one_voxel.1 one_voxel.2 (0, 0, 0) None).1 + -5)
    | None => 0
    end.
Proof.
  exact (proj1 (mesh_shift_alpha_reads one_voxel.1 one_voxel.2 (-5) (0, 0, 0)
                  one_voxel_sound)).
Defined.

Lemma mesh_move_reads_witness :
  alpha (mesh_get_at (mesh_move one_voxel.1 one_voxel.2 (box_at (16, 0, 0) (1, 1, 1))).1
                     (mesh_move one_voxel.1 one_voxel.2 (box_at (16, 0, 0) (1, 1, 1))).2
                     (16, 0, 0) None).1
  = alpha (mesh_move_get_color one_voxel.2 (mat4_inverted (box_at (16, 0, 0) (1, 1, 1)))
             one_voxel.1 (16, 0, 0)).
Proof.
  refine (proj1 (proj1 (mesh_move_reads one_voxel.1 one_voxel.2
                          (box_at (16, 0, 0) (1, 1, 1)) (16, 0, 0)
                          one_voxel_sound _ _ _) _)).
  - vm_compute. reflexivity.
  - vm_compute. lia.
  - vm_compute. reflexivity.
  - vm_compute. repeat (first [left; reflexivity | right]).
Defined.

Lemma writes_through_accessor_witness :
  (writes_through cloned.1 cloned.2
     [((0, 0, 0), (1, 2, 3, 255)); ((1, 0, 0), (4, 5, 6, 255))] (Some iter_zero)).1
  = (writes_through cloned.1 cloned.2
       [((0, 0, 0), (1, 2, 3, 255)); ((1, 0, 0), (4, 5, 6, 255))] None).1.
Proof.
  refine (proj1 (writes_through_accessor cloned.1 cloned.2
                   [((0, 0, 0), (1, 2, 3, 255)); ((1, 0, 0), (4, 5, 6, 255))]
                   (Some iter_zero) _ _ _)).
  - intros a Ha. apply (proj1 Runs.one_voxel_wf). exact Ha.
  - exact (proj2 Runs.one_voxel_wf).
  - left. reflexivity.
Defined.

Lemma mesh_op_leaves_far_tiles_witness :
  ∃ st' m',
    mesh_op one_voxel.1 one_voxel.2 (painter Cube MODE_OVER (255, 0, 0, 255)) unit_box
    = Some (st', m')
    ∧ (mesh_get_at st' m' (100, 0, 0) None).1
      = (mesh_get_at one_voxel.1 one_voxel.2 (100, 0, 0) None).1.
Proof.
  eapply (mesh_op_leaves_far_tiles one_voxel.1 one_voxel.2
            (painter Cube MODE_OVER (255, 0, 0, 255)) unit_box _ (100, 0, 0)
            one_voxel_sound).
  - reflexivity.
  - discriminate.
  - vm_compute. reflexivity.
  - vm_compute. reflexivity.
Defined.

Lemma mod_is_floor_mod_witness :
  c_mod (-1) 16 = (-1) mod 16 ∧ 0 ≤ c_mod (-1) 16 < 16.
Proof.
  destruct (mod_is_floor_mod (-1) 16 (-1, -1, -1) ltac:(lia)) as (H1 & H2 & _).
  exact (conj H1 H2).
Defined.

End Checks.
